(** * Interactive temporal scalar-field generator: core model and properties

    A shallow embedding of the Python sources [umbrella_tracker.py],
    [gaussian_scene.py], [vector_field.py], [noises.py], of the scenario
    builders of [scenario_generator.py] and of the tracking part of
    [gui.py].

    Conventions of the embedding:
    - Python [float] and numpy floating values are idealised as real numbers
      ([R]); comparisons are decided classically ([Rle_dec], [Rlt_dec]).
      Rounding, overflow, infinities and NaN are outside the model.
    - In [noises.py], which converts its arrays to single precision and can
      divide zero by zero, the conversions are explicit (a function
      [float32], of which only monotonicity and idempotence are ever
      assumed) and an array of [nan] is a value of its own; the arithmetic
      between two conversions is exact.
    - Python [int] is [Z]; list positions produced by [range] are [nat].
    - A Python [dict] whose iteration order matters is an association list in
      insertion order.
    - A raised exception is the [Raise] branch of [result]; a [while] loop is
      run on fuel and [Diverged] reports that the fuel ran out. *)

From Stdlib Require Import Reals Lra ZArith.
From stdpp Require Import base option list gmap strings relations.

#[global] Instance Rle_decision (a b : R) : Decision (a <= b)%R := Rle_dec a b.
#[global] Instance Rlt_decision (a b : R) : Decision (a < b)%R := Rlt_dec a b.
#[global] Instance Req_decision : EqDecision R := Req_dec_T.

(** ** Python basics *)
Module py.

Inductive exn :=
| IndexError | KeyError | ValueError | ZeroDivisionError | OSError
| Diverged.

Inductive result (A : Type) :=
| Ok (a : A)
| Raise (e : exn).
Arguments Ok {A} a.
Arguments Raise {A} e.

#[global] Instance result_ret : MRet result := λ A a, Ok a.
#[global] Instance result_bind : MBind result := λ A B f m,
  match m with Ok a => f a | Raise e => Raise e end.

(** [for a in l: s = body(s, a)], stopping at the first exception. *)
Fixpoint for_ {A S : Type} (l : list A) (body : S → A → result S) (s : S)
  : result S :=
  match l with
  | [] => Ok s
  | a :: l' => s' ← body s a; for_ l' body s'
  end.

(** [[f(a) for a in l]] for an [f] that may raise. *)
Fixpoint comprehension {A B : Type} (f : A → result B) (l : list A)
  : result (list B) :=
  match l with
  | [] => Ok []
  | a :: l' => b ← f a; bs ← comprehension f l'; Ok (b :: bs)
  end.

(** [l[i]] *)
Definition index {A : Type} (l : list A) (i : nat) : result A :=
  match l !! i with
  | Some a => Ok a
  | None => Raise IndexError
  end.

(** [range(n)] on a Python int. *)
Definition range (n : Z) : list Z := Z.of_nat <$> seq 0 (Z.to_nat n).

(** [enumerate(l)] *)
Definition enumerate {A : Type} (l : list A) : list (nat * A) :=
  zip (seq 0 (length l)) l.

(** [max(a, b)]: the first argument wins a tie. *)
Definition max (a b : R) : R := if decide (a < b)%R then b else a.

(** [a / b] on floats. *)
Definition div (a b : R) : result R :=
  if decide (b = 0%R) then Raise ZeroDivisionError else Ok (a / b)%R.

(** [math.sqrt(a)] *)
Definition sqrt (a : R) : result R :=
  if decide (a < 0)%R then Raise ValueError else Ok (R_sqrt.sqrt a).

(** [l[i]] for a Python int [i]: negative positions count from the end. *)
Definition getitem_list {A : Type} (l : list A) (i : Z) : result A :=
  if decide (0 ≤ i)%Z then index l (Z.to_nat i)
  else if decide (- Z.of_nat (length l) ≤ i)%Z
       then index l (Z.to_nat (Z.of_nat (length l) + i))
       else Raise IndexError.

(** The state of the [random] module: the stream of values that
    [random.random()] will return, each in [[0, 1)], and a cursor. *)
Record rng := { draws : nat → R; cursor : nat }.

Definition random (g : rng) : R * rng :=
  (draws g (cursor g), {| draws := draws g; cursor := S (cursor g) |}).

(** [random.uniform(a, b)] is [a + (b - a) * random()]. *)
Definition uniform (a b : R) (g : rng) : R * rng :=
  let '(u, g) := random g in ((a + (b - a) * u)%R, g).

(** [math.atan2(y, x)] *)
Definition atan2 (y x : R) : R :=
  if decide (0 < x)%R then atan (y / x)
  else if decide (x < 0)%R then
    (if decide (0 <= y)%R then atan (y / x) + PI else atan (y / x) - PI)%R
  else if decide (0 < y)%R then (PI / 2)%R
  else if decide (y < 0)%R then (- PI / 2)%R
  else 0%R.

(** Insertion-ordered dictionaries keyed by ids. *)
Definition dict (V : Type) := list (Z * V).

Definition keys {V} (d : dict V) : list Z := d.*1.
Definition values {V} (d : dict V) : list V := d.*2.

Fixpoint lookup {V} (d : dict V) (k : Z) : option V :=
  match d with
  | [] => None
  | (k', v) :: d' => if decide (k = k') then Some v else lookup d' k
  end.

(** [d[k]] *)
Definition getitem {V} (d : dict V) (k : Z) : result V :=
  match lookup d k with
  | Some v => Ok v
  | None => Raise KeyError
  end.

(** [d.setdefault(k, []).append(v)] *)
Fixpoint setdefault_append {V} (k : Z) (v : V) (d : dict (list V))
  : dict (list V) :=
  match d with
  | [] => [(k, [v])]
  | (k', vs) :: d' =>
      if decide (k = k') then (k', vs ++ [v]) :: d'
      else (k', vs) :: setdefault_append k v d'
  end.

(** [min(a, b)]: the first argument wins a tie. *)
Definition min (a b : R) : R := if decide (b < a)%R then b else a.

(** [math.floor(a)] *)
Definition floor (a : R) : Z := Zfloor a.

End py.
Import py.

(** ** The image object exchanged with VTK *)
Module vtk.

(** A [vtkImageData] with one scalar per point.  [scalars] is the point
    array seen as [dims[1]] rows of [dims[0]] values, so the scalar of the
    point [(i, j, 0)] is column [i] of row [j]. *)
Record vtkImageData := {
  dims : Z * Z * Z;
  img_spacing : R * R * R;
  scalars : list (list R)
}.

Definition GetScalarComponentAsDouble (img : vtkImageData) (i j : nat)
  : option R :=
  row ← scalars img !! j; row !! i.

(** A [vtkImageData] that carries a three-component vector array in its
    point data ([None] when no array was attached).  Tuple
    [j * dims[0] + i] of the array belongs to the point [(i, j, 0)]. *)
Record vtkVectorImageData := {
  vec_dims : Z * Z * Z;
  vec_spacing : R * R * R;
  vectors : option (list (R * R * R))
}.

(** [vectors.GetTuple3(idx)] and [vecs.SetTuple3(idx, a, b, c)].  VTK does
    not check [idx]; an access outside the array shows here as
    [IndexError]. *)
Definition GetTuple3 (vectors : list (R * R * R)) (idx : Z)
  : result (R * R * R) :=
  if decide (0 ≤ idx)%Z then index vectors (Z.to_nat idx)
  else Raise IndexError.

Definition SetTuple3 (vecs : list (R * R * R)) (idx : Z) (v : R * R * R)
  : result (list (R * R * R)) :=
  if decide (0 ≤ idx < Z.of_nat (length vecs))%Z
  then Ok (<[Z.to_nat idx := v]> vecs)
  else Raise IndexError.

End vtk.

(** ** gaussian_scene.py *)
Module gaussian_scene.
Import vtk.

(** One entry of [GaussianScene.gaussians]. *)
Record gaussian := {
  id : Z; x : R; y : R; amp : R; var : R;
  sx : R; sy : R; theta : R; gamma : R; lambda : R
}.

(** The attributes of a [GaussianScene]; [_prev_clusters] is the attribute
    the tracker attaches ([None] until its first call). *)
Record GaussianScene := {
  width : Z;
  height : Z;
  spacing : R;
  gaussians : list gaussian;
  _next_id : Z;
  distribution_type : string;
  paths : gmap Z (list (R * R));
  path_index : gmap Z Z;
  path_speed : R;
  _prev_clusters : option (dict (list Z))
}.

Definition __init__ (width height : Z) : GaussianScene := {|
  width := width; height := height; spacing := 1;
  gaussians := []; _next_id := 1;
  distribution_type := "Gaussian";
  paths := ∅; path_index := ∅; path_speed := 1 / 2;
  _prev_clusters := None
|}.

Definition clear (self : GaussianScene) : GaussianScene := {|
  width := width self; height := height self; spacing := spacing self;
  gaussians := []; _next_id := 1;
  distribution_type := distribution_type self;
  paths := paths self; path_index := path_index self;
  path_speed := path_speed self;
  _prev_clusters := _prev_clusters self
|}.

(** [add_gaussian(x, y, amplitude, variance)]; an omitted position is
    [None].  The method has no [return] statement, so the value handed
    back to the caller is Python's [None], the last component here. *)
Definition add_gaussian (self : GaussianScene) (g : rng)
    (x y : option R) (amplitude variance : R)
  : result (GaussianScene * rng * option Z) :=
  let '(x, g) :=
    match x with
    | Some x => (x, g)
    | None => let '(u, g) := uniform (2 / 10) (8 / 10) g in
              ((u * IZR (width self) * spacing self)%R, g)
    end in
  let '(y, g) :=
    match y with
    | Some y => (y, g)
    | None => let '(u, g) := uniform (2 / 10) (8 / 10) g in
              ((u * IZR (height self) * spacing self)%R, g)
    end in
  sx ← sqrt variance;
  sy ← sqrt (variance / 10);
  lambda ← sqrt variance;
  let new := {|
    id := _next_id self; x := x; y := y; amp := amplitude; var := variance;
    sx := sx; sy := sy; theta := 40; gamma := variance; lambda := lambda
  |} in
  Ok ({|
    width := width self; height := height self; spacing := spacing self;
    gaussians := gaussians self ++ [new];
    _next_id := _next_id self + 1;
    distribution_type := distribution_type self;
    paths := paths self; path_index := path_index self;
    path_speed := path_speed self;
    _prev_clusters := _prev_clusters self
  |}, g, None).

Section kernels.
(** [pnoise2] of the optional [noise] package: [None] when the import
    failed ([PERLIN_AVAILABLE = False]). *)
Variable pnoise2 : option (R → R → R).

Definition f_gaussian (x y : R) (g : gaussian) : result R :=
  let r2 := ((x - g.(gaussian_scene.x)) ^ 2
             + (y - g.(gaussian_scene.y)) ^ 2)%R in
  e ← div (- r2) (2 * var g);
  Ok (amp g * exp e)%R.

Definition f_cauchy (x y : R) (g : gaussian) : result R :=
  let r2 := ((x - g.(gaussian_scene.x)) ^ 2
             + (y - g.(gaussian_scene.y)) ^ 2)%R in
  q ← div r2 (gamma g);
  div (amp g) (1 + q).

Definition f_mexican_hat (x y : R) (g : gaussian) : result R :=
  let r2 := ((x - g.(gaussian_scene.x)) ^ 2
             + (y - g.(gaussian_scene.y)) ^ 2)%R in
  let sigma := var g in
  q ← div r2 (sigma ^ 2);
  e ← div (- r2) (2 * sigma ^ 2);
  Ok (amp g * (1 - q) * exp e)%R.

Definition f_exponential_decay (x y : R) (g : gaussian) : result R :=
  r ← sqrt ((x - g.(gaussian_scene.x)) ^ 2
            + (y - g.(gaussian_scene.y)) ^ 2);
  e ← div (- r) (lambda g);
  Ok (amp g * exp e)%R.

Definition f_plateau (x y : R) (g : gaussian) : result R :=
  r ← sqrt ((x - g.(gaussian_scene.x)) ^ 2
            + (y - g.(gaussian_scene.y)) ^ 2);
  s ← sqrt (var g);
  q ← div r s;
  div (amp g) (1 + q ^ 3).

Definition f_anisotropic (x y : R) (g : gaussian) : result R :=
  let cx := g.(gaussian_scene.x) in
  let cy := g.(gaussian_scene.y) in
  let t := theta g in
  let xp := ((x - cx) * cos t + (y - cy) * sin t)%R in
  let yp := (- (x - cx) * sin t + (y - cy) * cos t)%R in
  a ← div (- (xp * xp)) (2 * sx g * sx g);
  b ← div (yp * yp) (2 * sy g * sy g);
  Ok (amp g * exp (a - b))%R.

Definition f_multi_lobe (x y : R) (g : gaussian) : result R :=
  let r2 := ((x - g.(gaussian_scene.x)) ^ 2
             + (y - g.(gaussian_scene.y)) ^ 2)%R in
  e ← div (- r2) (2 * var g);
  let base := (amp g * exp e)%R in
  let angle :=
    atan2 (y - g.(gaussian_scene.y)) (x - g.(gaussian_scene.x)) in
  Ok (base * (1 + 3 / 10 * sin (4 * angle)))%R.

Definition f_ridge (x y : R) (g : gaussian) : result R :=
  r ← sqrt ((x - g.(gaussian_scene.x)) ^ 2
            + (y - g.(gaussian_scene.y)) ^ 2);
  Ok (amp g * (1 - Rabs (sin r)))%R.

Definition f_perlin (x y : R) (g : gaussian) : result R :=
  match pnoise2 with
  | None => Ok 0%R
  | Some pnoise2 =>
      let scale := (5 / 100)%R in
      Ok (amp g * pnoise2 (x * scale) (y * scale))%R
  end.

(** [dist_map[name]] *)
Definition dist_map (name : string)
  : result (R → R → gaussian → result R) :=
  if decide (name = "Gaussian") then Ok f_gaussian
  else if decide (name = "Cauchy") then Ok f_cauchy
  else if decide (name = "Mexican Hat") then Ok f_mexican_hat
  else if decide (name = "Exponential") then Ok f_exponential_decay
  else if decide (name = "Plateau") then Ok f_plateau
  else if decide (name = "Anisotropic Gaussian") then Ok f_anisotropic
  else if decide (name = "Multi-Lobe") then Ok f_multi_lobe
  else if decide (name = "Ridge") then Ok f_ridge
  else if decide (name = "Perlin Noise") then Ok f_perlin
  else Raise KeyError.

(** The value written at one grid point: the innermost loop. *)
Definition sample_value (dist_fn : R → R → gaussian → result R)
    (gaussians : list gaussian) (x y : R) : result R :=
  for_ gaussians (λ val g, v ← dist_fn x y g; Ok (max val v)) 0%R.

(** The nested loops visit every point [(i, j)] once, row by row, and
    store its value; the image is built as the rows of those values. *)
Definition generate_image_data (self : GaussianScene)
  : result vtkImageData :=
  let S := 2%Z in
  let W := (width self * S)%Z in
  let H := (height self * S)%Z in
  let dx := (spacing self / IZR S)%R in
  dist_fn ← dist_map (distribution_type self);
  rows ← comprehension (λ j,
            comprehension (λ i,
              let x := (IZR i * dx)%R in
              let y := (IZR j * dx)%R in
              sample_value dist_fn (gaussians self) x y) (range W))
          (range H);
  Ok {| dims := (W, H, 1%Z); img_spacing := (dx, dx, 1%R);
        scalars := rows |}.
End kernels.

(** The body of the loop of [move_gaussians_by_custom_path]: one source,
    mutated in place, and the cursor table. *)
Definition custom_path_step (self : GaussianScene)
    (path_index : gmap Z Z) (g : gaussian)
  : result (gmap Z Z * gaussian) :=
  let gid := id g in
  match paths self !! gid with
  | Some path =>
      if decide (0 < length path) then
        let idx := default 0%Z (path_index !! gid) in
        '(tx, ty) ← getitem_list path idx;
        let dx := (tx - g.(gaussian_scene.x))%R in
        let dy := (ty - g.(gaussian_scene.y))%R in
        dist ← sqrt (dx * dx + dy * dy);
        if decide (dist < 5 / 10)%R then
          let path_index := <[gid := (idx + 1)%Z]> path_index in
          let path_index :=
            if decide (Z.of_nat (length path) ≤ idx + 1)%Z
            then <[gid := 0%Z]> path_index else path_index in
          Ok (path_index, g)
        else
          sx' ← div (path_speed self * dx) dist;
          sy' ← div (path_speed self * dy) dist;
          Ok (path_index,
              {| id := id g;
                 x := (g.(gaussian_scene.x) + sx')%R;
                 y := (g.(gaussian_scene.y) + sy')%R;
                 amp := amp g; var := var g; sx := sx g; sy := sy g;
                 theta := theta g; gamma := gamma g; lambda := lambda g |})
      else Ok (path_index, g)
  | None => Ok (path_index, g)
  end.

Definition move_gaussians_by_custom_path (self : GaussianScene)
  : result GaussianScene :=
  '(path_index, moved) ←
    for_ (gaussians self) (λ '(path_index, moved) g,
      '(path_index, g) ← custom_path_step self path_index g;
      Ok (path_index, moved ++ [g])) (path_index self, []);
  Ok {|
    width := width self; height := height self; spacing := spacing self;
    gaussians := moved; _next_id := _next_id self;
    distribution_type := distribution_type self;
    paths := paths self; path_index := path_index;
    path_speed := path_speed self;
    _prev_clusters := _prev_clusters self
  |}.

Definition updateWidthHeight (self : GaussianScene) (w h : Z) (space : R)
  : GaussianScene := {|
  width := w; height := h; spacing := space;
  gaussians := gaussians self; _next_id := _next_id self;
  distribution_type := distribution_type self;
  paths := paths self; path_index := path_index self;
  path_speed := path_speed self;
  _prev_clusters := _prev_clusters self
|}.

(** The closures of [move_gaussians_by_vector_field]; [width], [height],
    [spacing] and [vectors] are the variables they capture. *)
Definition get_vector (vectors : list (R * R * R)) (width height : Z)
    (ix iy : Z) : result (R * R * R) :=
  let ix := Z.max 0 (Z.min ix (width - 1)) in
  let iy := Z.max 0 (Z.min iy (height - 1)) in
  let idx := (iy * width + ix)%Z in
  GetTuple3 vectors idx.

Definition bilinear_sample (vectors : list (R * R * R)) (width height : Z)
    (spacing : R * R * R) (x y : R) : result (R * R * R) :=
  gx ← div x spacing.1.1;
  gy ← div y spacing.1.2;
  let i0 := floor gx in
  let j0 := floor gy in
  let i1 := Z.min (i0 + 1) (width - 1) in
  let j1 := Z.min (j0 + 1) (height - 1) in
  let dx := (gx - IZR i0)%R in
  let dy := (gy - IZR j0)%R in
  v00 ← get_vector vectors width height i0 j0;
  v10 ← get_vector vectors width height i1 j0;
  v01 ← get_vector vectors width height i0 j1;
  v11 ← get_vector vectors width height i1 j1;
  let vx := (v00.1.1 * (1 - dx) * (1 - dy)
             + v10.1.1 * dx * (1 - dy)
             + v01.1.1 * (1 - dx) * dy
             + v11.1.1 * dx * dy)%R in
  let vy := (v00.1.2 * (1 - dx) * (1 - dy)
             + v10.1.2 * dx * (1 - dy)
             + v01.1.2 * (1 - dx) * dy
             + v11.1.2 * dx * dy)%R in
  let vz := 0%R in
  Ok (vx, vy, vz).

(** The body of the loop over the sources: one source, mutated in place.
    The power [** 0.5] is taken of a sum of squares and is the square
    root. *)
Definition vector_field_step (self : GaussianScene)
    (vectors : list (R * R * R)) (width height : Z) (spacing : R * R * R)
    (speed : R) (g : gaussian) : result gaussian :=
  _ ← div g.(gaussian_scene.x) spacing.1.1;
  _ ← div g.(gaussian_scene.y) spacing.1.2;
  '(vx, vy, _) ← bilinear_sample vectors width height spacing
                   g.(gaussian_scene.x) g.(gaussian_scene.y);
  let mag := (R_sqrt.sqrt (vx ^ 2 + vy ^ 2) + 1 / 10 ^ 8)%R in
  vx' ← div vx mag;
  vy' ← div vy mag;
  let gx := (g.(gaussian_scene.x) + speed * vx')%R in
  let gy := (g.(gaussian_scene.y) + speed * vy')%R in
  let gx := min (max gx 0) (IZR (gaussian_scene.width self)
                            * gaussian_scene.spacing self - 1) in
  let gy := min (max gy 0) (IZR (gaussian_scene.height self)
                            * gaussian_scene.spacing self - 1) in
  Ok {| id := id g; x := gx; y := gy;
        amp := amp g; var := var g; sx := sx g; sy := sy g;
        theta := theta g; gamma := gamma g; lambda := lambda g |}.

Definition move_gaussians_by_vector_field (self : GaussianScene)
    (vector_field : option vtkVectorImageData) (speed : R)
  : result GaussianScene :=
  match vector_field with
  | None => Ok self
  | Some vector_field =>
      let dims := vec_dims vector_field in
      let spacing := vec_spacing vector_field in
      match vectors vector_field with
      | None => Ok self
      | Some vectors =>
          let width := dims.1.1 in
          let height := dims.1.2 in
          moved ← comprehension
                    (vector_field_step self vectors width height spacing
                       speed)
                    (gaussians self);
          Ok {|
            gaussian_scene.width := gaussian_scene.width self;
            gaussian_scene.height := gaussian_scene.height self;
            gaussian_scene.spacing := gaussian_scene.spacing self;
            gaussians := moved; _next_id := _next_id self;
            distribution_type := distribution_type self;
            paths := paths self; path_index := path_index self;
            path_speed := path_speed self;
            _prev_clusters := _prev_clusters self
          |}
      end
  end.

End gaussian_scene.

(** ** vector_field.py *)
Module vector_field.
Import vtk.

(** The body of the two loops of [create_vector_field]: the tuple stored
    for the grid point [(i, j)]. *)
Definition field_vector (width height : Z) (spacing : R)
    (field_type : string) (i j : Z) : result (R * R * R) :=
  let cx := (IZR (width - 1) * spacing / 2)%R in
  let cy := (IZR (height - 1) * spacing / 2)%R in
  let x := (IZR i * spacing)%R in
  let y := (IZR j * spacing)%R in
  let dx := (x - cx)%R in
  let dy := (y - cy)%R in
  let '(vx, vy) :=
    if decide (field_type = "Circular") then ((- dy)%R, dx)
    else if decide (field_type = "Sink") then ((- dx)%R, (- dy)%R)
    else if decide (field_type = "Source") then (dx, dy)
    else if decide (field_type = "Saddle") then (dx, (- dy)%R)
    else (0%R, 0%R) in
  m ← sqrt (vx * vx + vy * vy);
  let mag := (m + 1 / 10 ^ 6)%R in
  r ← sqrt (dx * dx + dy * dy);
  s ← div 1 (1 + 1 / 10 * r);
  a ← div (s * vx) mag;
  b ← div (s * vy) mag;
  Ok (a, b, 0%R).

(** The array is allocated with [width * height] tuples, here zero
    before they are written, and filled row by row. *)
Definition create_vector_field (width height : Z) (spacing : R)
    (field_type : string) : result vtkVectorImageData :=
  let vecs := replicate (Z.to_nat (width * height)) (0%R, 0%R, 0%R) in
  vecs ← for_ (range height) (λ vecs j,
            for_ (range width) (λ vecs i,
              v ← field_vector width height spacing field_type i j;
              SetTuple3 vecs (j * width + i) v) vecs) vecs;
  Ok {| vec_dims := (width, height, 1%Z);
        vec_spacing := (spacing, spacing, 1%R);
        vectors := Some vecs |}.

End vector_field.

(** ** umbrella_tracker.py *)
Module umbrella_tracker.

(** The dictionaries [{'id', 'x', 'y', 'amp', 'var'}] handed to the
    clusterer. *)
Record gaussian := { id : Z; x : R; y : R; amp : R; var : R }.

(** [find(i)], with path halving, on the closure variable [parent]. *)
Fixpoint find_loop (fuel : nat) (parent : list nat) (i : nat)
  : result (list nat * nat) :=
  match fuel with
  | O => Raise Diverged
  | S fuel' =>
      p_i ← index parent i;
      if decide (p_i ≠ i) then
        pp_i ← index parent p_i;
        let parent := <[i := pp_i]> parent in
        i ← index parent i;
        find_loop fuel' parent i
      else Ok (parent, i)
  end.

Definition find (parent : list nat) (i : nat) : result (list nat * nat) :=
  find_loop (length parent) parent i.

Definition union (parent : list nat) (i j : nat) : result (list nat) :=
  '(parent, ri) ← find parent i;
  '(parent, rj) ← find parent j;
  if decide (ri ≠ rj) then Ok (<[ri := rj]> parent) else Ok parent.

(** The body of the inner loop of the merge pass: the umbrella criterion
    for the ordered pair [(i, j)]. *)
Definition umbrella_merge (xs ys amps vars_ : list R)
    (i : nat) (parent : list nat) (j : nat) : result (list nat) :=
  if decide (i = j) then Ok parent else
  xi ← index xs i; xj ← index xs j;
  let dx := (xi - xj)%R in
  yi ← index ys i; yj ← index ys j;
  let dy := (yi - yj)%R in
  let dist2 := (dx * dx + dy * dy)%R in
  aj ← index amps j; vj ← index vars_ j;
  let rhs := (aj * exp (- dist2 / (2 * vj)))%R in
  ai ← index amps i;
  if decide (ai <= rhs)%R then union parent i j else Ok parent.

(** The first half of [umbrella_clusters_with_roots]: the parent array
    after the double loop over ordered pairs. *)
Definition umbrella_parents (gaussians : list gaussian)
  : result (list nat) :=
  let n := length gaussians in
  let xs := x <$> gaussians in
  let ys := y <$> gaussians in
  let amps := amp <$> gaussians in
  let vars_ := var <$> gaussians in
  let parent := seq 0 n in
  for_ (seq 0 n) (λ parent i,
    for_ (seq 0 n) (umbrella_merge xs ys amps vars_ i) parent) parent.

(** The body of the grouping loop. *)
Definition umbrella_group (ids : list Z)
    (st : list nat * dict (list Z)) (idx : nat)
  : result (list nat * dict (list Z)) :=
  let '(parent, clusters) := st in
  '(parent, root_idx) ← find parent idx;
  root_id ← index ids root_idx;
  id_idx ← index ids idx;
  Ok (parent, setdefault_append root_id id_idx clusters).

Definition umbrella_clusters_with_roots (gaussians : list gaussian)
  : result (dict (list Z) * list (list Z)) :=
  let n := length gaussians in
  if decide (n = 0) then Ok ([], []) else
  let ids := id <$> gaussians in
  parent ← umbrella_parents gaussians;
  '(_, clusters) ← for_ (seq 0 n) (umbrella_group ids) (parent, []);
  Ok (clusters, values clusters).

(** An event dictionary: the keys ["time"] and ["type"] are always
    present, the others only in some events. *)
Record event := {
  ev_time : Z;
  ev_type : string;
  ev_target : option (list Z);
  ev_id : option Z;
  ev_sources : option (list Z);
  ev_root : option Z
}.

(** [M[i, j] = v] on a matrix stored as its rows. *)
Definition mat_set (M : list (list Z)) (i j : nat) (v : Z)
  : list (list Z) :=
  alter (λ row, <[j := v]> row) i M.

Definition correspondence_matrix_with_roots
    (prev_clusters curr_clusters : dict (list Z))
  : result (list (list Z) * list Z * list Z) :=
  let prev_roots := keys prev_clusters in
  let curr_roots := keys curr_clusters in
  let M := replicate (length prev_roots)
             (replicate (length curr_roots) 0%Z) in
  M ← for_ (enumerate prev_roots) (λ M '(i, r_prev),
        prev_ids ← getitem prev_clusters r_prev;
        let prev_ids : gset Z := list_to_set prev_ids in
        for_ (enumerate curr_roots) (λ M '(j, r_curr),
          curr_ids ← getitem curr_clusters r_curr;
          let curr_ids : gset Z := list_to_set curr_ids in
          if decide (prev_ids ∩ curr_ids ≠ ∅)
          then Ok (mat_set M i j 1%Z) else Ok M) M) M;
  Ok (M, prev_roots, curr_roots).

(** [np.where(M[:, j] == 1)[0]] *)
Definition contributing_rows (M : list (list Z)) (j : nat)
  : result (list nat) :=
  column ← comprehension (λ row, index row j) M;
  Ok ((filter (λ iv, iv.2 = 1%Z) (enumerate column)).*1).

(** The console output of the function is not modelled. *)
Definition detect_events_from_correspondence_matrix
    (M : list (list Z)) (prev_roots curr_roots : list Z) (time : Z)
  : result (list event * list Z) :=
  let new_roots := filter (λ r, r ∉ prev_roots) curr_roots in
  let '(events, births) :=
    fold_left (λ '(events, births) r,
      (events ++ [{| ev_time := time; ev_type := "birth";
                     ev_target := Some [r]; ev_id := Some r;
                     ev_sources := Some []; ev_root := None |}],
       births ++ [r])) new_roots ([], []) in
  events ← for_ (enumerate curr_roots) (λ events '(j, curr_root),
    contributing ← contributing_rows M j;
    if decide (1 < length contributing) then
      merged_sources ← comprehension (λ i, index prev_roots i) contributing;
      Ok (events ++ [{| ev_time := time; ev_type := "merge";
                        ev_target := Some [curr_root]; ev_id := None;
                        ev_sources := Some merged_sources;
                        ev_root := None |}])
    else Ok events) events;
  Ok (events, births).

(** The snapshot written for one timestep. *)
Record meta := {
  timestep : Z;
  clusters : dict (list Z);
  correspondence_matrix : list (list Z);
  prev_root_ids : list Z;
  curr_root_ids : list Z
}.

(** The storage the snapshots go to: the directories that exist, the
    snapshot files by directory and timestep, and whether the storage
    refuses writes. *)
Record filesystem := {
  read_only : bool;
  dirs : gset string;
  files : gmap (string * Z) meta
}.

(** [os.makedirs(d, exist_ok=True)] *)
Definition makedirs (fs : filesystem) (d : string) : result filesystem :=
  if decide (d ∈ dirs fs) then Ok fs
  else if read_only fs then Raise OSError
  else Ok {| read_only := read_only fs; dirs := {[d]} ∪ dirs fs;
             files := files fs |}.

(** [with open(os.path.join(d, f"clusters_t{t:04d}.json"), 'w') as f:
    json.dump(m, f, indent=2)] *)
Definition dump_snapshot (fs : filesystem) (d : string) (t : Z) (m : meta)
  : result filesystem :=
  if read_only fs then Raise OSError
  else if decide (d ∈ dirs fs) then
    Ok {| read_only := read_only fs; dirs := dirs fs;
          files := <[(d, t) := m]> (files fs) |}
  else Raise OSError.

Definition set_prev_clusters (scene : gaussian_scene.GaussianScene)
    (clusters : dict (list Z)) : gaussian_scene.GaussianScene := {|
  gaussian_scene.width := gaussian_scene.width scene;
  gaussian_scene.height := gaussian_scene.height scene;
  gaussian_scene.spacing := gaussian_scene.spacing scene;
  gaussian_scene.gaussians := gaussian_scene.gaussians scene;
  gaussian_scene._next_id := gaussian_scene._next_id scene;
  gaussian_scene.distribution_type :=
    gaussian_scene.distribution_type scene;
  gaussian_scene.paths := gaussian_scene.paths scene;
  gaussian_scene.path_index := gaussian_scene.path_index scene;
  gaussian_scene.path_speed := gaussian_scene.path_speed scene;
  gaussian_scene._prev_clusters := Some clusters
|}.

(** The storage is threaded through the function and handed back also
    when an exception leaves it, since what was written stays written. *)
Definition update_umbrella_tracking
    (scene : gaussian_scene.GaussianScene) (fs : filesystem)
    (output_dir : string) (timestep : Z)
  : result (gaussian_scene.GaussianScene * list event) * filesystem :=
  match makedirs fs output_dir with
  | Raise e => (Raise e, fs)
  | Ok fs =>
    let gaussians := gaussian_scene.gaussians scene in
    let gcopy := (λ g, {| id := gaussian_scene.id g;
                          x := gaussian_scene.x g;
                          y := gaussian_scene.y g;
                          amp := gaussian_scene.amp g;
                          var := gaussian_scene.var g |}) <$> gaussians in
    let computed :=
      '(clusters_dict, _) ← umbrella_clusters_with_roots gcopy;
      let prev_clusters := gaussian_scene._prev_clusters scene in
      '(C, prev_root_ids, curr_root_ids, events_detected) ←
        match prev_clusters with
        | Some prev_clusters =>
            '(C, prev_root_ids, curr_root_ids) ←
              correspondence_matrix_with_roots prev_clusters clusters_dict;
            '(events_detected, births) ←
              detect_events_from_correspondence_matrix
                C prev_root_ids curr_root_ids timestep;
            Ok (C, prev_root_ids, curr_root_ids, events_detected)
        | None =>
            let curr_root_ids := keys clusters_dict in
            Ok ([], [], curr_root_ids,
                (λ id, {| ev_time := timestep; ev_type := "birth";
                          ev_target := None; ev_id := Some id;
                          ev_sources := None; ev_root := Some id |})
                  <$> curr_root_ids)
        end;
      let meta := {| timestep := timestep; clusters := clusters_dict;
                     correspondence_matrix := C;
                     prev_root_ids := prev_root_ids;
                     curr_root_ids := curr_root_ids |} in
      Ok (clusters_dict, meta, events_detected) in
    match computed with
    | Raise e => (Raise e, fs)
    | Ok (clusters_dict, meta, events_detected) =>
      match dump_snapshot fs output_dir timestep meta with
      | Raise e => (Raise e, fs)
      | Ok fs =>
          (Ok (set_prev_clusters scene clusters_dict, events_detected), fs)
      end
    end
  end.

End umbrella_tracker.

(** ** noises.py *)
Module noises.
Import vtk.

(** A two-dimensional numpy array of real numbers, as its rows. *)
Abbreviation field := (list (list R)).

(** What a float array of this module can hold.  Zero divided by zero
    and the square root of a negative number are [nan]; where one of them
    can occur here it occurs in every entry of the array at once, and
    [nan] survives every later operation, clipping and conversion
    included.  So an array is made of real numbers, or it is
    [nan_array shape]: [nan] in every entry. *)
Inductive ndarray :=
| array (f : field)
| nan_array (shape : nat * nat).

(** An operation applied to every entry. *)
Definition elementwise (op : R → R) (f : field) : field :=
  (λ row : list R, op <$> row) <$> f.

Definition shape (f : field) : nat * nat :=
  (length f, length (default [] (head f))).

(** [field.size] *)
Definition size (f : field) : Z :=
  Z.of_nat (shape f).1 * Z.of_nat (shape f).2.

(** [int(r)]: truncation towards zero. *)
Definition int (r : R) : Z :=
  if decide (0 <= r)%R then Int_part r else (- Int_part (- r))%Z.

(** [np.clip(v, lo, hi)] on one value. *)
Definition clip1 (lo hi v : R) : R := Rmin hi (Rmax v lo).

(** [np.clip(f, lo, hi)] *)
Definition clip (f : field) (lo hi : R) : field :=
  elementwise (clip1 lo hi) f.

(** An operation on every entry of an array that may hold [nan]. *)
Definition nd_elementwise (op : R → R) (a : ndarray) : ndarray :=
  match a with
  | array f => array (elementwise op f)
  | nan_array s => nan_array s
  end.

(** An elementwise combination of an array with another one of the same
    shape that is given by its entries. *)
Definition pointwise (op : R → R → R) (f : field) (g : nat → nat → R)
  : field :=
  imap (λ i row, imap (λ j v, op v (g i j)) row) f.

(** [field.min()] and [field.max()], which refuse an empty array. *)
Definition field_min (f : field) : result R :=
  match concat f with
  | [] => Raise ValueError
  | v :: vs => Ok (foldl Rmin v vs)
  end.

Definition field_max (f : field) : result R :=
  match concat f with
  | [] => Raise ValueError
  | v :: vs => Ok (foldl Rmax v vs)
  end.

(** [f[r, c] = v] for integer positions, negative ones counting from the
    end. *)
Definition position (n : nat) (i : Z) : result nat :=
  if decide (0 ≤ i < Z.of_nat n)%Z then Ok (Z.to_nat i)
  else if decide (- Z.of_nat n ≤ i < 0)%Z
       then Ok (Z.to_nat (Z.of_nat n + i))
       else Raise IndexError.

Definition setitem (f : field) (rc : Z * Z) (v : R) : result field :=
  r ← position (shape f).1 rc.1;
  c ← position (shape f).2 rc.2;
  Ok (alter (λ row, <[c := v]> row) r f).

(** [f[(rows, cols)] = v] *)
Definition setitems (f : field) (rows cols : list Z) (v : R)
  : result field :=
  for_ (zip rows cols) (λ f rc, setitem f rc v) f.

(** The image as [SetScalars] leaves it: the dimensions and the spacing
    it had, and the array handed over as its point scalars. *)
Record vtkFloatImageData := {
  fdims : Z * Z * Z;
  fspacing : R * R * R;
  fscalars : ndarray
}.

Section transforms.
(** A conversion to single precision: [astype(np.float32)], a store into
    a [float32] array, [array_type=VTK_FLOAT]. *)
Variable float32 : R → R.
(** The state of [np.random] and the draws the module makes.  An array
    draw is given by its entries and takes the shape asked for. *)
Variable rng : Type.
Variable randint : rng → Z → Z → Z → list Z * rng.
Variable normal : rng → R → R → nat * nat → (nat → nat → R) * rng.
Variable uniform : rng → R → R → nat * nat → (nat → nat → R) * rng.
Variable uniform1 : rng → R → R → R * rng.
Variable laplace : rng → R → R → nat * nat → (nat → nat → R) * rng.
Variable randn : rng → nat * nat → (nat → nat → R) * rng.
Variable poisson : rng → field → (nat → nat → R) * rng.
(** [pnoise2(x, y, repeatx, repeaty)] of the [noise] package. *)
Variable pnoise2 : R → R → Z → Z → R.

(** [np.random.randint(low, high, size)] refuses an empty range and a
    negative size. *)
Definition np_random_randint (g : rng) (low high size : Z)
  : result (list Z * rng) :=
  if decide (high ≤ low)%Z then Raise ValueError
  else if decide (size < 0)%Z then Raise ValueError
  else Ok (randint g low high size).

(** [np.random.normal(loc, scale, size)] and
    [np.random.laplace(loc, scale, size)] refuse a negative scale. *)
Definition np_random_normal (g : rng) (loc scale : R) (size : nat * nat)
  : result ((nat → nat → R) * rng) :=
  if decide (scale < 0)%R then Raise ValueError
  else Ok (normal g loc scale size).

Definition np_random_laplace (g : rng) (loc scale : R) (size : nat * nat)
  : result ((nat → nat → R) * rng) :=
  if decide (scale < 0)%R then Raise ValueError
  else Ok (laplace g loc scale size).

(** [np.random.poisson(lam)] refuses a negative rate (and one beyond the
    range of its generator, which like overflow is outside the model). *)
Definition np_random_poisson (g : rng) (lam : field)
  : result ((nat → nat → R) * rng) :=
  if decide (Exists (λ v, v < 0)%R (concat lam)) then Raise ValueError
  else Ok (poisson g lam).

Definition add_salt_noise (g : rng) (f : field) (amount : R)
  : result (field * rng) :=
  let noisy := f in
  let num := int (amount * IZR (size f)) in
  '(rows, g) ← np_random_randint g 0 (Z.of_nat (shape f).1) num;
  '(cols, g) ← np_random_randint g 0 (Z.of_nat (shape f).2) num;
  noisy ← setitems noisy rows cols 1%R;
  Ok (noisy, g).

Definition add_pepper_noise (g : rng) (f : field) (amount : R)
  : result (field * rng) :=
  let noisy := f in
  let num := int (amount * IZR (size f)) in
  '(rows, g) ← np_random_randint g 0 (Z.of_nat (shape f).1) num;
  '(cols, g) ← np_random_randint g 0 (Z.of_nat (shape f).2) num;
  noisy ← setitems noisy rows cols 0%R;
  Ok (noisy, g).

Definition add_salt_pepper_noise (g : rng) (f : field)
    (amount salt_ratio : R) : result (field * rng) :=
  let noisy := f in
  let num_salt := int (amount * IZR (size f) * salt_ratio) in
  let num_pepper := int (amount * IZR (size f) * (1 - salt_ratio)) in
  '(rows, g) ← np_random_randint g 0 (Z.of_nat (shape f).1) num_salt;
  '(cols, g) ← np_random_randint g 0 (Z.of_nat (shape f).2) num_salt;
  noisy ← setitems noisy rows cols 1%R;
  '(rows, g) ← np_random_randint g 0 (Z.of_nat (shape f).1) num_pepper;
  '(cols, g) ← np_random_randint g 0 (Z.of_nat (shape f).2) num_pepper;
  noisy ← setitems noisy rows cols 0%R;
  Ok (noisy, g).

Definition add_gaussian_noise (g : rng) (f : field) (mean std : R)
  : result (field * rng) :=
  '(noise, g) ← np_random_normal g mean std (shape f);
  Ok (clip (pointwise Rplus f noise) 0 1, g).

(** [add_gaussian_few_noise] with the number of bumps and the width its
    only caller leaves at their defaults, 5 and 3.0. *)
Definition add_gaussian_few_noise (g : rng) (f : field) (amplitude : R)
  : field * rng :=
  let num_gaussians := 5 in
  let sigma := 3%R in
  let '(h, w) := shape f in
  let '(noisy, g) :=
    fold_left (λ '(noisy, g) _,
        let '(cx, g) := uniform1 g 0 (INR w) in
        let '(cy, g) := uniform1 g 0 (INR h) in
        let gauss := λ i j : nat,
          (amplitude * exp (- ((INR j - cx) ^ 2 + (INR i - cy) ^ 2)
                              / (2 * sigma ^ 2)))%R in
        (pointwise Rplus noisy gauss, g))
      (seq 0 num_gaussians) (f, g) in
  (clip noisy 0 1, g).

Definition add_poisson_noise (g : rng) (f : field)
  : result (field * rng) :=
  let vals := length (remove_dups (concat f)) in
  let vals := INR (2 ^ Nat.log2_up vals) in
  '(sampled, g) ← np_random_poisson g (elementwise (λ v, v * vals)%R f);
  Ok (clip (pointwise (λ _ p, p / vals)%R f sampled) 0 1, g).

(** [np.sqrt(var)] of a negative [var] is [nan], and so is every entry
    of the sum. *)
Definition add_speckle_noise (g : rng) (f : field) (var : R)
  : ndarray * rng :=
  let '(noise, g) := randn g (shape f) in
  if decide (var < 0)%R then (nan_array (shape f), g)
  else
    let noise := λ i j, (noise i j * R_sqrt.sqrt var)%R in
    (array (clip (pointwise (λ v n, v + v * n)%R f noise) 0 1), g).

Definition add_uniform_noise (g : rng) (f : field) (low high : R)
  : field * rng :=
  let '(noise, g) := uniform g low high (shape f) in
  (clip (pointwise Rplus f noise) 0 1, g).

Definition add_laplace_noise (g : rng) (f : field) (scale : R)
  : result (field * rng) :=
  '(noise, g) ← np_random_laplace g 0 scale (shape f);
  Ok (clip (pointwise Rplus f noise) 0 1, g).

(** [i / scale] raises at the first point when [scale] is zero.  The
    values of [pnoise2] are stored into an array of the type of [field],
    which is [float32] here.  Where all of them are equal the
    re-normalisation divides zero by zero in every entry. *)
Definition add_perlin_noise (f : field) (scale amplitude : R)
  : result ndarray :=
  let '(h, w) := shape f in
  if decide (scale = 0%R ∧ 0 < h ∧ 0 < w) then Raise ZeroDivisionError else
  let perlin :=
    pointwise (λ _ p, p) f
      (λ i j, float32 (pnoise2 (INR i / scale) (INR j / scale)
                         (Z.of_nat w) (Z.of_nat h))) in
  lo ← field_min perlin;
  hi ← field_max perlin;
  if decide (hi = lo) then Ok (nan_array (h, w)) else
  let perlin := elementwise (λ p, (p - lo) / (hi - lo))%R perlin in
  let blend := λ i j : nat,
    (amplitude
     * (default 0 (row ← perlin !! i; row !! j) - 5 / 10))%R in
  Ok (array (clip (pointwise Rplus f blend) 0 1)).

Definition apply_noise_to_scalar_field (g : rng)
    (vtk_image : vtkImageData) (noise_type : string) (amount : R)
  : result (vtkFloatImageData * rng) :=
  if decide (noise_type = "None")
  then Ok ({| fdims := dims vtk_image; fspacing := img_spacing vtk_image;
              fscalars := array (scalars vtk_image) |}, g)
  else
  let field := elementwise float32 (scalars vtk_image) in
  orig_min ← field_min field;
  orig_max ← field_max field;
  let field_norm :=
    elementwise
      (λ v, (v - orig_min) / (orig_max - orig_min + 1 / 10 ^ 8))%R
      field in
  '(field_noisy, g) ←
    (if decide (noise_type = "Salt")
     then '(noisy, g) ← add_salt_noise g field_norm amount;
          Ok (array noisy, g)
     else if decide (noise_type = "Pepper")
     then '(noisy, g) ← add_pepper_noise g field_norm amount;
          Ok (array noisy, g)
     else if decide (noise_type = "Salt and Pepper")
     then '(noisy, g) ← add_salt_pepper_noise g field_norm amount (5 / 10);
          Ok (array noisy, g)
     else if decide (noise_type = "Gaussian (White)")
     then '(noisy, g) ← add_gaussian_noise g field_norm 0 amount;
          Ok (array noisy, g)
     else if decide (noise_type = "Gaussian blobs")
     then let '(noisy, g) := add_gaussian_few_noise g field_norm amount in
          Ok (array noisy, g)
     else if decide (noise_type = "Poisson")
     then '(noisy, g) ← add_poisson_noise g field_norm;
          Ok (array noisy, g)
     else if decide (noise_type = "Speckle")
     then Ok (add_speckle_noise g field_norm amount)
     else if decide (noise_type = "Uniform")
     then let '(noisy, g) :=
            add_uniform_noise g field_norm (- amount) amount in
          Ok (array noisy, g)
     else if decide (noise_type = "Laplace")
     then '(noisy, g) ← add_laplace_noise g field_norm amount;
          Ok (array noisy, g)
     else if decide (noise_type = "Perlin")
     then field_noisy ← add_perlin_noise field_norm 20 amount;
          Ok (field_noisy, g)
     else Ok (array field_norm, g));
  let field_restored :=
    nd_elementwise (λ v, v * (orig_max - orig_min) + orig_min)%R
      field_noisy in
  let field_restored :=
    nd_elementwise (clip1 orig_min orig_max) field_restored in
  Ok ({| fdims := dims vtk_image; fspacing := img_spacing vtk_image;
         fscalars := nd_elementwise float32 field_restored |}, g).
End transforms.

End noises.

(** ** gui.py: the tracking part of the timer callback *)
Module gui.
Import umbrella_tracker.

(** The attributes of the main window that tracking reads and writes. *)
Record MainWindow := {
  gaussian_scene : gaussian_scene.GaussianScene;
  events : list event;
  tracking_timestep : Z
}.

(** A line printed by the callback's exception handler. *)
Inductive printed :=
| UmbrellaTrackingError (e : exn).

(** The [try ... except Exception] block that ends [_update_timer]; the
    rendering statements before it do not touch the tracking state and
    are left out.  The result is the window, the storage and the console
    output after the block. *)
Definition _update_timer (self : MainWindow) (fs : filesystem)
    (stdout : list printed)
  : MainWindow * filesystem * list printed :=
  match update_umbrella_tracking (gaussian_scene self) fs
          "umbrella_output" (tracking_timestep self) with
  | (Ok (scene, events_detected), fs) =>
      ({| gaussian_scene := scene;
          events := events self ++ events_detected;
          tracking_timestep := tracking_timestep self + 1 |},
       fs, stdout)
  | (Raise e, fs) => (self, fs, stdout ++ [UmbrellaTrackingError e])
  end.

End gui.

(** ** scenario_generator.py *)
Module scenario_generator.
Import vtk gaussian_scene.

(** [_create_scene]; the scene class is the one of this repository, so
    the import guard never fires. *)
Definition _create_scene (width height : Z) (spacing : R)
    (distribution : string) : GaussianScene :=
  let s := __init__ width height in
  let s := updateWidthHeight s width height spacing in
  {| gaussian_scene.width := gaussian_scene.width s;
     gaussian_scene.height := gaussian_scene.height s;
     gaussian_scene.spacing := gaussian_scene.spacing s;
     gaussians := gaussians s; _next_id := _next_id s;
     distribution_type := distribution;
     paths := paths s; path_index := path_index s;
     path_speed := path_speed s;
     _prev_clusters := _prev_clusters s |}.

Definition _make_straight_path (start end_ : R * R) (steps : Z)
  : result (list (R * R)) :=
  let '(sx, sy) := start in
  let '(ex, ey) := end_ in
  for_ (range steps) (λ pts i,
    t ← div (IZR i) (IZR (Z.max 1 (steps - 1)));
    Ok (pts ++ [((sx + (ex - sx) * t)%R, (sy + (ey - sy) * t)%R)])) [].

(** [scene.paths[gid] = p; scene.path_index[gid] = 0] *)
Definition assign_path (scene : GaussianScene) (gid : Z)
    (p : list (R * R)) : GaussianScene := {|
  gaussian_scene.width := gaussian_scene.width scene;
  gaussian_scene.height := gaussian_scene.height scene;
  gaussian_scene.spacing := gaussian_scene.spacing scene;
  gaussians := gaussians scene; _next_id := _next_id scene;
  distribution_type := distribution_type scene;
  paths := <[gid := p]> (paths scene);
  path_index := <[gid := 0%Z]> (path_index scene);
  path_speed := path_speed scene;
  _prev_clusters := _prev_clusters scene
|}.

(** The guarded call that provides the sink field of a scenario: any
    exception of the generator leaves the scenario without a field. *)
Definition sink_field (width height : Z) (spacing : R)
  : option vtkVectorImageData :=
  match vector_field.create_vector_field width height spacing "Sink" with
  | Ok vf => Some vf
  | Raise _ => None
  end.

Definition scenario_merge_split (g : rng) (num_distributions : Z)
    (width height : Z) (spacing : R) (merge_point : option (R * R))
    (split_radius : R) (steps : Z) (distribution : string)
  : result (GaussianScene * option vtkVectorImageData * rng) :=
  let scene := _create_scene width height spacing distribution in
  '(scene, g) ← for_ (range num_distributions) (λ '(scene, g) _,
      let '(u, g) := uniform (5 / 100) (45 / 100) g in
      let x := (u * IZR width * spacing)%R in
      let '(u, g) := uniform (1 / 10) (9 / 10) g in
      let y := (u * IZR height * spacing)%R in
      let '(amp, g) := uniform (6 / 10) (18 / 10) g in
      let '(var, g) := uniform 20 150 g in
      '(scene, g, _) ← add_gaussian scene g (Some x) (Some y) amp var;
      Ok (scene, g)) (scene, g);
  let merge_point :=
    match merge_point with
    | Some p => p
    | None => ((IZR width * spacing * (5 / 10))%R,
               (IZR height * spacing * (5 / 10))%R)
    end in
  split_points ← for_ (range num_distributions) (λ split_points idx,
      theta ← div (2 * PI * IZR idx) (IZR (Z.max 1 num_distributions));
      let sx := (merge_point.1 + split_radius * cos theta)%R in
      let sy := (merge_point.2 + split_radius * sin theta)%R in
      Ok (split_points ++ [(sx, sy)])) [];
  scene ← for_ (enumerate (gaussians scene)) (λ scene '(idx, src),
      let start := (src.(gaussian_scene.x), src.(gaussian_scene.y)) in
      first ← _make_straight_path start merge_point
                (Z.max 2 (steps / 2 + 1));
      split_point ← index split_points idx;
      second ← _make_straight_path merge_point split_point
                 (Z.max 2 (steps / 2 + 1));
      let full := first ++ drop 1 second in
      Ok (assign_path scene (id src) full)) scene;
  let vf := sink_field width height spacing in
  Ok (scene, vf, g).

Definition scenario_separate_paths (g : rng) (num_distributions : Z)
    (width height : Z) (spacing : R) (distribution : string)
  : result (GaussianScene * option vtkVectorImageData * rng) :=
  let scene := _create_scene width height spacing distribution in
  let margin := (5 / 100)%R in
  let '(starts, g) :=
    fold_left (λ '(starts, g) _,
        let '(u, g) := uniform margin (45 / 100) g in
        let sx := (u * IZR width * spacing)%R in
        let '(u, g) := uniform (5 / 100) (95 / 100) g in
        let sy := (u * IZR height * spacing)%R in
        (starts ++ [(sx, sy)], g))
      (range num_distributions) ([], g) in
  '(dests, g) ← for_ (range num_distributions) (λ '(dests, g) i,
      let '(u, g) := uniform (55 / 100) (95 / 100) g in
      let dx := (u * IZR width * spacing)%R in
      q ← div (9 / 10) (IZR (Z.max 1 num_distributions));
      let dy := ((5 / 100 + IZR i * q) * IZR height * spacing)%R in
      Ok (dests ++ [(dx, dy)], g)) ([], g);
  '(scene, g) ← for_ (range num_distributions) (λ '(scene, g) i,
      let '(amp, g) := uniform (6 / 10) (18 / 10) g in
      let '(var, g) := uniform 15 140 g in
      start ← getitem_list starts i;
      '(scene, g, _) ← add_gaussian scene g (Some start.1) (Some start.2)
                         amp var;
      Ok (scene, g)) (scene, g);
  scene ← for_ (enumerate (gaussians scene)) (λ scene '(idx, src),
      dest ← index dests idx;
      p ← _make_straight_path
             (src.(gaussian_scene.x), src.(gaussian_scene.y)) dest 10;
      Ok (assign_path scene (id src) p)) scene;
  Ok (scene, None, g).

Definition scenario_sink_and_vanish (g : rng) (num_distributions : Z)
    (width height : Z) (spacing : R) (sink_point : option (R * R))
    (distribution : string)
  : result (GaussianScene * option vtkVectorImageData * rng) :=
  let scene := _create_scene width height spacing distribution in
  let sink_point :=
    match sink_point with
    | Some p => p
    | None => ((IZR width * spacing * (5 / 10))%R,
               (IZR height * spacing * (5 / 10))%R)
    end in
  '(scene, g) ← for_ (range num_distributions) (λ '(scene, g) _,
      let '(u, g) := uniform (5 / 100) (95 / 100) g in
      let x := (u * IZR width * spacing)%R in
      let '(u, g) := uniform (5 / 100) (95 / 100) g in
      let y := (u * IZR height * spacing)%R in
      let '(amp, g) := uniform (5 / 10) 2 g in
      let '(var, g) := uniform 10 160 g in
      '(scene, g, _) ← add_gaussian scene g (Some x) (Some y) amp var;
      Ok (scene, g)) (scene, g);
  scene ← for_ (gaussians scene) (λ scene src,
      p ← _make_straight_path
             (src.(gaussian_scene.x), src.(gaussian_scene.y)) sink_point 12;
      Ok (assign_path scene (id src) p)) scene;
  let vf := sink_field width height spacing in
  Ok (scene, vf, g).

End scenario_generator.

(** * Vocabulary of the properties *)

(** ** The parent array as a forest *)
Module union_find_model.
Import umbrella_tracker.

(** [root_of p i r]: following [parent] from [i] ends at [r], an index
    that is its own parent. *)
Inductive root_of (p : list nat) : nat → nat → Prop :=
| root_of_here i : p !! i = Some i → root_of p i i
| root_of_step i j r :
    p !! i = Some j → j ≠ i → root_of p j r → root_of p i r.

(** Two indices are in the same group. *)
Definition same_root (p : list nat) (a b : nat) : Prop :=
  ∃ r, root_of p a r ∧ root_of p b r.

(** The number of indices that are their own parent; [k] is the index
    of the head of the list. *)
Fixpoint count_fix (k : nat) (p : list nat) : nat :=
  match p with
  | [] => 0
  | v :: p' => (if decide (v = k) then 1 else 0) + count_fix (S k) p'
  end.

Definition nroots (p : list nat) : nat := count_fix 0 p.

(** [rk] grows strictly along every parent link that is not a loop and
    leaves room for as many links as roots have disappeared: the
    invariant that bounds the iterations of [find]. *)
Definition ranked (p : list nat) (rk : nat → nat) : Prop :=
  ∀ i j, p !! i = Some j →
    j < length p ∧ (j = i ∨ rk i < rk j) ∧ rk i + nroots p ≤ length p.

Definition forest (p : list nat) : Prop := ∃ rk, ranked p rk.

(** Path halving changes parents but no root. *)
Definition roots_kept (p p' : list nat) : Prop :=
  length p' = length p ∧ ∀ a r, root_of p a r → root_of p' a r.
End union_find_model.
Import union_find_model.

(** ** The umbrella criterion *)
Module umbrella_model.
Import umbrella_tracker.

(** Source [gi] does not rise above the value of [gj]'s Gaussian at its
    own position. *)
Definition dominated (gi gj : gaussian) : Prop :=
  (amp gi <=
     amp gj * exp (- ((x gi - x gj) * (x gi - x gj)
                      + (y gi - y gj) * (y gi - y gj)) / (2 * var gj)))%R.

(** The test of the merge pass at the ordered pair [(i, j)]. *)
Definition dominates (gs : list gaussian) (i j : nat) : Prop :=
  i ≠ j ∧ ∃ gi gj, gs !! i = Some gi ∧ gs !! j = Some gj ∧ dominated gi gj.

(** The groups of the forest [p] are the classes of the equivalence
    generated by [E]. *)
Definition grouped (p : list nat) (E : relation nat) : Prop :=
  forest p ∧
  ∀ a b, a < length p → b < length p → (same_root p a b ↔ rtsc E a b).
End umbrella_model.
Import umbrella_model.

(** ** Grouping by key *)
Module grouping_model.
Import umbrella_tracker.

(** The dictionary built by [setdefault(k, []).append(v)] over a list of
    pairs. *)
Definition group_pairs (kvs : list (Z * Z)) : dict (list Z) :=
  fold_left (λ d kv, setdefault_append kv.1 kv.2 d) kvs [].

(** The values filed under [k], in order. *)
Definition members (kvs : list (Z * Z)) (k : Z) : list Z :=
  (filter (λ kv, kv.1 = k) kvs).*2.

(** The pair the grouping loop files for index [idx]: the id of the
    source at its root index and its own id. *)
Definition filed (gs : list gaussian) (p : list nat) (idx : nat)
    (kv : Z * Z) : Prop :=
  ∃ r gr g, root_of p idx r ∧ gs !! r = Some gr ∧ gs !! idx = Some g
            ∧ kv = (id gr, id g).
End grouping_model.
Import grouping_model.

(** ** The calls of [union] and the groups they generate *)
Module closure_model.
Import umbrella_tracker.

(** All ordered pairs of indices, row by row. *)
Definition ordered_pairs (n : nat) : list (nat * nat) :=
  i ← seq 0 n; j ← seq 0 n; [(i, j)].

#[global] Instance dominates_dec gs i j : Decision (dominates gs i j).
Proof.
  unfold dominates.
  destruct (gs !! i) as [gi|]; [| right; intros (_ & ? & ? & ? & _); done].
  destruct (gs !! j) as [gj|]; [| right; intros (_ & ? & ? & _ & ? & _); done].
  destruct (decide (i ≠ j)); [| right; tauto].
  destruct (decide (dominated gi gj)) as [Hd | Hd].
  - left. split; [done |]. by exists gi, gj.
  - right. intros (_ & ? & ? & [= <-] & [= <-] & ?). done.
Defined.

(** The ordered pairs at which the criterion holds. *)
Definition union_calls (gs : list gaussian) : list (nat * nat) :=
  filter (λ ij, dominates gs ij.1 ij.2) (ordered_pairs (length gs)).

(** The same equivalence, on the sources rather than their positions in
    the list. *)
Definition connected (gs : list gaussian) : relation gaussian :=
  rtsc (λ g g', g ∈ gs ∧ g' ∈ gs ∧ dominated g g').
End closure_model.
Import closure_model.

Module pair_example.
Import umbrella_tracker.
(** Two coincident sources: the second has twice the amplitude. *)
Definition source_a : gaussian :=
  {| id := 1; x := 0; y := 0; amp := 1; var := 4 |}.
Definition source_b : gaussian :=
  {| id := 2; x := 0; y := 0; amp := 2; var := 4 |}.

(** The stronger source moved four units away. *)
Definition source_far : gaussian :=
  {| id := 2; x := 4; y := 0; amp := 2; var := 4 |}.
End pair_example.
Import pair_example.

(** ** Overlap of clusterings and the events it implies *)
Module correspondence_model.
Import umbrella_tracker.

(** The member lists of previous root [r_i] and current root [r_j] share
    an id. *)
Definition overlap (prev curr : dict (list Z)) (r_i r_j : Z) : Prop :=
  ∃ mi mj a, lookup prev r_i = Some mi ∧ lookup curr r_j = Some mj
             ∧ a ∈ mi ∧ a ∈ mj.

#[global] Instance overlap_dec prev curr r_i r_j :
  Decision (overlap prev curr r_i r_j).
Proof.
  unfold overlap.
  destruct (lookup prev r_i) as [mi|];
    [| right; intros (? & ? & ? & ? & _); done].
  destruct (lookup curr r_j) as [mj|];
    [| right; intros (? & ? & ? & _ & ? & _); done].
  destruct (decide (Exists (λ a, a ∈ mj) mi)) as [He | He].
  - left. apply Exists_exists in He as (a & ? & ?). by exists mi, mj, a.
  - right. intros (? & ? & a & [= <-] & [= <-] & ? & ?).
    apply He, Exists_exists. by exists a.
Defined.

(** The previous roots that overlap current root [r_j], in order. *)
Definition contributors (prev curr : dict (list Z)) (r_j : Z) : list Z :=
  filter (λ r_i, overlap prev curr r_i r_j) (keys prev).

Definition birth_event (t r : Z) : event :=
  {| ev_time := t; ev_type := "birth"; ev_target := Some [r];
     ev_id := Some r; ev_sources := Some []; ev_root := None |}.

Definition merge_event (t r_j : Z) (sources : list Z) : event :=
  {| ev_time := t; ev_type := "merge"; ev_target := Some [r_j];
     ev_id := None; ev_sources := Some sources; ev_root := None |}.

(** The current roots that were not roots before. *)
Definition new_roots (prev curr : dict (list Z)) : list Z :=
  filter (λ r, r ∉ keys prev) (keys curr).

(** One merge event for every root in [roots] with more than one
    contributor. *)
Definition merges_of (prev curr : dict (list Z)) (t : Z) (roots : list Z)
  : list event :=
  r_j ← roots;
  if decide (1 < length (contributors prev curr r_j))
  then [merge_event t r_j (contributors prev curr r_j)] else [].

(** The correspondence matrix, entry by entry. *)
Definition overlap_cell (prev curr : dict (list Z)) (r_i r_j : Z) : Z :=
  if decide (overlap prev curr r_i r_j) then 1%Z else 0%Z.

Definition overlap_row (prev curr : dict (list Z)) (r_i : Z) : list Z :=
  overlap_cell prev curr r_i <$> keys curr.

Definition overlap_matrix (prev curr : dict (list Z)) : list (list Z) :=
  overlap_row prev curr <$> keys prev.
End correspondence_model.
Import correspondence_model.

(** The merge scenario: [{1: [1,2], 3: [3]}] followed by [{1: [1,2,3]}]. *)
Module merge_scenario.
Definition prev_clusters : dict (list Z) := [(1, [1; 2]); (3, [3])]%Z.
Definition curr_clusters : dict (list Z) := [(1, [1; 2; 3])]%Z.
End merge_scenario.

Module tracking_model.
Import umbrella_tracker.
(** The list [gcopy] that [update_umbrella_tracking] clusters. *)
Definition gcopy (scene : gaussian_scene.GaussianScene) : list gaussian :=
  (λ g, {| id := gaussian_scene.id g;
           x := gaussian_scene.x g;
           y := gaussian_scene.y g;
           amp := gaussian_scene.amp g;
           var := gaussian_scene.var g |})
    <$> gaussian_scene.gaussians scene.

(** A window with one source, before its first tracking step, on a
    storage that holds the output directory but refuses writes. *)
Definition one_source : gaussian_scene.gaussian := {|
  gaussian_scene.id := 1; gaussian_scene.x := 0; gaussian_scene.y := 0;
  gaussian_scene.amp := 1; gaussian_scene.var := 1;
  gaussian_scene.sx := 1; gaussian_scene.sy := 1;
  gaussian_scene.theta := 40; gaussian_scene.gamma := 1;
  gaussian_scene.lambda := 1
|}.

Definition one_source_scene : gaussian_scene.GaussianScene := {|
  gaussian_scene.width := 200; gaussian_scene.height := 200;
  gaussian_scene.spacing := 1;
  gaussian_scene.gaussians := [one_source];
  gaussian_scene._next_id := 2;
  gaussian_scene.distribution_type := "Gaussian";
  gaussian_scene.paths := ∅; gaussian_scene.path_index := ∅;
  gaussian_scene.path_speed := 1 / 2;
  gaussian_scene._prev_clusters := None
|}.

Definition one_source_window : gui.MainWindow := {|
  gui.gaussian_scene := one_source_scene;
  gui.events := [];
  gui.tracking_timestep := 0
|}.

Definition full_disk : filesystem := {|
  read_only := true; dirs := {["umbrella_output"]}; files := ∅
|}.
End tracking_model.
Import tracking_model.

Module scene_model.
Import gaussian_scene.

Definition kernel_names : list string :=
  ["Gaussian"; "Cauchy"; "Mexican Hat"; "Exponential"; "Plateau";
   "Anisotropic Gaussian"; "Multi-Lobe"; "Ridge"; "Perlin Noise"].

(** The spreads of a source created with a positive variance. *)
Definition positive_spread (g : gaussian) : Prop :=
  (0 < var g ∧ 0 < sx g ∧ 0 < sy g ∧ 0 < gamma g ∧ 0 < lambda g)%R.

(** The scene after [add_gaussian] appended [new]. *)
Definition with_new (self : GaussianScene) (new : gaussian)
  : GaussianScene := {|
  width := width self; height := height self; spacing := spacing self;
  gaussians := gaussians self ++ [new];
  _next_id := _next_id self + 1;
  distribution_type := distribution_type self;
  paths := paths self; path_index := path_index self;
  path_speed := path_speed self;
  _prev_clusters := _prev_clusters self
|}.

(** The source after one step of length [sx', sy']. *)
Definition moved_by (g : gaussian) (sx' sy' : R) : gaussian := {|
  id := id g;
  x := (g.(gaussian_scene.x) + sx')%R;
  y := (g.(gaussian_scene.y) + sy')%R;
  amp := amp g; var := var g; sx := sx g; sy := sy g;
  theta := theta g; gamma := gamma g; lambda := lambda g
|}.

Definition steady_rng : rng := {| draws := λ _, 0%R; cursor := 0 |}.
End scene_model.
Import scene_model.

(** ** move_gaussians_by_custom_path *)
Module path_example.
Import gaussian_scene.
(** A source at the origin that follows the single waypoint [(1, 0)]. *)
Definition walker : gaussian := {|
  id := 1; x := 0; y := 0; amp := 1; var := 1;
  sx := 1; sy := 1; theta := 40; gamma := 1; lambda := 1
|}.

Definition walker_scene : GaussianScene := {|
  width := 200; height := 200; spacing := 1;
  gaussians := [walker]; _next_id := 2;
  distribution_type := "Gaussian";
  paths := {[ 1%Z := [(1%R, 0%R)] ]}; path_index := ∅;
  path_speed := 1 / 2;
  _prev_clusters := None
|}.

(** The distance from a source to a waypoint, as the step computes it. *)
Definition distance_to (g : gaussian) (w : R * R) : R :=
  R_sqrt.sqrt ((w.1 - g.(gaussian_scene.x)) * (w.1 - g.(gaussian_scene.x))
               + (w.2 - g.(gaussian_scene.y)) * (w.2 - g.(gaussian_scene.y))).
End path_example.
Import path_example.

Module hat_example.
Import gaussian_scene.
(** One narrow source at the origin of a 1 x 1 scene sampled with the
    Mexican-hat kernel. *)
Definition hat_source : gaussian := {|
  id := 1; x := 0; y := 0; amp := 1; var := 1 / 4;
  sx := 1 / 2; sy := 1 / 4; theta := 40; gamma := 1 / 4; lambda := 1 / 2
|}.

Definition hat_scene : GaussianScene := {|
  width := 1; height := 1; spacing := 1;
  gaussians := [hat_source]; _next_id := 2;
  distribution_type := "Mexican Hat";
  paths := ∅; path_index := ∅; path_speed := 1 / 2;
  _prev_clusters := None
|}.
End hat_example.
Import hat_example.

Module noise_model.
Import noises.
(** An [h] by [w] array. *)
Definition rectangular (h w : nat) (f : list (list R)) : Prop :=
  length f = h ∧ Forall (λ row, length row = w) f.

(** Every entry lies between [lo] and [hi]. *)
Definition within (lo hi : R) (f : list (list R)) : Prop :=
  Forall (Forall (λ v, lo <= v <= hi)%R) f.

(** A stand-in for [np.random] that always draws the lowest value. *)
Definition low_randint (g : unit) (lo hi n : Z) : list Z * unit :=
  (replicate (Z.to_nat n) lo, g).
Definition zero_array (g : unit) : (nat → nat → R) * unit :=
  (λ _ _, 0%R, g).

Definition dot_image : vtk.vtkImageData := {|
  vtk.dims := (1, 1, 1)%Z; vtk.img_spacing := (1, 1, 1)%R;
  vtk.scalars := [[0%R]]
|}.
End noise_model.
Import noise_model.

(** ** Statements about the clusterer's result *)
Module clustering_claims.
Import umbrella_tracker.

(** Every source's id is filed under the id of the source at its root
    index, and every key is the id of the source at some root index. *)
Definition labelled_by_roots (gs : list gaussian) (parent : list nat)
    (clusters : dict (list Z)) : Prop :=
  (∀ idx g, gs !! idx = Some g →
     ∃ r gr ms, root_of parent idx r ∧ gs !! r = Some gr
       ∧ lookup clusters (id gr) = Some ms ∧ id g ∈ ms)
  ∧ (∀ k, k ∈ keys clusters →
       ∃ r gr, root_of parent r r ∧ gs !! r = Some gr ∧ k = id gr).

(** The member lists cover [ids], each id lies in one list only and once,
    no list is empty and every root id is a member of its own list. *)
Definition partitions (ids : list Z) (cl : dict (list Z)) : Prop :=
  (∀ a, a ∈ ids → ∃ k ms, (k, ms) ∈ cl ∧ a ∈ ms)
  ∧ (∀ k1 ms1 k2 ms2 a, (k1, ms1) ∈ cl → (k2, ms2) ∈ cl →
       a ∈ ms1 → a ∈ ms2 → k1 = k2 ∧ ms1 = ms2)
  ∧ concat (values cl) ≡ₚ ids
  ∧ (∀ k ms, (k, ms) ∈ cl → ms ≠ [] ∧ k ∈ ms).

(** Two clusterings have the same member sets, whatever their labels. *)
Definition same_member_sets (cl cl' : dict (list Z)) : Prop :=
  (∀ ms, ms ∈ values cl → ∃ ms', ms' ∈ values cl' ∧ ms ≡ₚ ms')
  ∧ (∀ ms', ms' ∈ values cl' → ∃ ms, ms ∈ values cl ∧ ms ≡ₚ ms').
End clustering_claims.
Import clustering_claims.

(** ** Statements about the scene *)
Module scene_claims.
Import gaussian_scene.

(** The source that [add_gaussian] builds from its arguments. *)
Definition created (self : GaussianScene) (x y : option R)
    (amplitude variance : R) (new : gaussian) : Prop :=
  id new = _next_id self
  ∧ amp new = amplitude ∧ var new = variance
  ∧ match x with
    | Some xv => new.(gaussian_scene.x) = xv
    | None => ∃ u, (2 / 10 <= u <= 8 / 10)%R
                   ∧ new.(gaussian_scene.x)
                     = (u * IZR (width self) * spacing self)%R
    end
  ∧ match y with
    | Some yv => new.(gaussian_scene.y) = yv
    | None => ∃ u, (2 / 10 <= u <= 8 / 10)%R
                   ∧ new.(gaussian_scene.y)
                     = (u * IZR (height self) * spacing self)%R
    end.

(** [v] is the largest of 0 and the kernel values of the sources at
    [(x, y)]; it is the largest kernel value as soon as one of them is not
    negative. *)
Definition floored_maximum (dist_fn : R → R → gaussian → result R)
    (gs : list gaussian) (x y v : R) : Prop :=
  (0 <= v)%R
  ∧ (∀ g, g ∈ gs → ∃ k, dist_fn x y g = Ok k ∧ (k <= v)%R)
  ∧ (v = 0%R ∨ ∃ g, g ∈ gs ∧ dist_fn x y g = Ok v)
  ∧ ((∃ g k, g ∈ gs ∧ dist_fn x y g = Ok k ∧ (0 <= k)%R) →
     ∃ g, g ∈ gs ∧ dist_fn x y g = Ok v).

(** Every point of the image holds the floored maximum at its position. *)
Definition samples_floored_maximum (self : GaussianScene)
    (dist_fn : R → R → gaussian → result R) (img : vtk.vtkImageData)
  : Prop :=
  ∀ i j, (Z.of_nat i < width self * 2)%Z → (Z.of_nat j < height self * 2)%Z →
    ∃ v, vtk.GetScalarComponentAsDouble img i j = Some v
      ∧ floored_maximum dist_fn (gaussians self)
          (IZR (Z.of_nat i) * (spacing self / 2))
          (IZR (Z.of_nat j) * (spacing self / 2)) v.

(** What one step does to a source whose path is empty or a single
    waypoint: the source and the cursor table after it.  Within 0.5 of a
    single waypoint the cursor of the source wraps back to 0; farther
    away no cursor changes. *)
Definition short_path_outcome (self : GaussianScene) (g : gaussian)
    (path : list (R * R)) (path_index path_index' : gmap Z Z)
    (g' : gaussian) : Prop :=
  (path = [] → path_index' = path_index ∧ g' = g)
  ∧ (∀ w, path = [w] →
       if decide (distance_to g w < 5 / 10)%R
       then g' = g ∧ path_index' = <[id g := 0%Z]> path_index
       else path_index' = path_index
            ∧ g' = moved_by g
                (path_speed self * (w.1 - g.(gaussian_scene.x)) / distance_to g w)
                (path_speed self * (w.2 - g.(gaussian_scene.y)) / distance_to g w)).
End scene_claims.
Import scene_claims.

(** ** Statements about the noise library *)
Module noise_claims.
Import noises.

(** The extremes of the output lie within those of [f], up to [ε].  An
    array of [nan] has no value within any range. *)
Definition range_kept (f : field) (out : ndarray) (ε : R) : Prop :=
  match out with
  | array f' =>
      ∃ lo hi lo' hi',
        field_min f = Ok lo ∧ field_max f = Ok hi
        ∧ field_min f' = Ok lo' ∧ field_max f' = Ok hi'
        ∧ (lo - ε <= lo')%R ∧ (hi' <= hi + ε)%R
  | nan_array _ => False
  end.
End noise_claims.
Import noise_claims.

(** ** Vector fields and the motion along them *)
Module flow_model.
Import vtk gaussian_scene.

(** The direction [create_vector_field] gives the flow at the offset
    [(dx, dy)] from the centre of the grid, before it is scaled. *)
Definition direction (field_type : string) (dx dy : R) : R * R :=
  if decide (field_type = "Circular") then ((- dy)%R, dx)
  else if decide (field_type = "Sink") then ((- dx)%R, (- dy)%R)
  else if decide (field_type = "Source") then (dx, dy)
  else if decide (field_type = "Saddle") then (dx, (- dy)%R)
  else (0%R, 0%R).

(** The offset of the grid point [(i, j)] from the centre of a [width] by
    [height] grid. *)
Definition offset (width height : Z) (spacing : R) (i j : Z) : R * R :=
  ((IZR i * spacing - IZR (width - 1) * spacing / 2)%R,
   (IZR j * spacing - IZR (height - 1) * spacing / 2)%R).

(** The tuple of the point [(i, j)] in the array of a [width] wide
    image. *)
Definition tuple_at (vecs : list (R * R * R)) (width : Z) (i j : Z)
  : option (R * R * R) :=
  vecs !! Z.to_nat (j * width + i).

(** The tuple of the point [(i, j)] holds the vector [field_vector]
    computes for it. *)
Definition written (width height : Z) (spacing : R) (field_type : string)
    (vecs : list (R * R * R)) (i j : Z) : Prop :=
  (0 ≤ i < width)%Z ∧ (0 ≤ j < height)%Z
  ∧ ∃ v, vector_field.field_vector width height spacing field_type i j = Ok v
         ∧ tuple_at vecs width i j = Some v.

(** A vector image a step can read: at least one point along each axis,
    one tuple for every point and a spacing that is not zero. *)
Definition well_formed (vf : vtkVectorImageData) : Prop :=
  ∃ vecs, vectors vf = Some vecs
    ∧ (1 ≤ (vec_dims vf).1.1)%Z ∧ (1 ≤ (vec_dims vf).1.2)%Z
    ∧ Z.of_nat (length vecs) = ((vec_dims vf).1.1 * (vec_dims vf).1.2)%Z
    ∧ (vec_spacing vf).1.1 ≠ 0%R ∧ (vec_spacing vf).1.2 ≠ 0%R.

(** Two sources that differ at most in their position. *)
Definition same_but_position (g g' : gaussian) : Prop :=
  id g' = id g ∧ amp g' = amp g ∧ var g' = var g
  ∧ sx g' = sx g ∧ sy g' = sy g ∧ theta g' = theta g
  ∧ gamma g' = gamma g ∧ lambda g' = lambda g.

(** Two scenes that differ at most in the positions of their sources. *)
Definition same_but_positions (self self' : GaussianScene) : Prop :=
  width self' = width self ∧ height self' = height self
  ∧ spacing self' = spacing self ∧ _next_id self' = _next_id self
  ∧ distribution_type self' = distribution_type self
  ∧ paths self' = paths self ∧ path_index self' = path_index self
  ∧ path_speed self' = path_speed self
  ∧ _prev_clusters self' = _prev_clusters self
  ∧ Forall2 same_but_position (gaussians self) (gaussians self').

(** The source lies in the rectangle the motion clamps to. *)
Definition in_bounds (self : GaussianScene) (g : gaussian) : Prop :=
  (0 <= g.(gaussian_scene.x) <= IZR (width self) * spacing self - 1
   ∧ 0 <= g.(gaussian_scene.y) <= IZR (height self) * spacing self - 1)%R.

(** The squared distance between the positions of two sources. *)
Definition moved2 (g g' : gaussian) : R :=
  ((g'.(gaussian_scene.x) - g.(gaussian_scene.x)) ^ 2
   + (g'.(gaussian_scene.y) - g.(gaussian_scene.y)) ^ 2)%R.

(** How the vector [v] stored for a point lies to the offset [d] of that
    point from the centre: [along] is its radial and [across] its
    counter-clockwise part, both scaled by the length of [d]. *)
Definition flows (field_type : string) (d v : R * R) : Prop :=
  let along := (v.1 * d.1 + v.2 * d.2)%R in
  let across := (d.1 * v.2 - d.2 * v.1)%R in
  (field_type = "Circular" →
     along = 0%R ∧ (0 <= across)%R ∧ (across = 0%R → d = (0%R, 0%R)))
  ∧ (field_type = "Sink" →
       across = 0%R ∧ (along <= 0)%R ∧ (along = 0%R → d = (0%R, 0%R)))
  ∧ (field_type = "Source" →
       across = 0%R ∧ (0 <= along)%R ∧ (along = 0%R → d = (0%R, 0%R)))
  ∧ (field_type = "Saddle" →
       (0 <= v.1 * d.1)%R ∧ (v.2 * d.2 <= 0)%R
       ∧ (v = (0%R, 0%R) → d = (0%R, 0%R)))
  ∧ (field_type ∉ ["Circular"; "Sink"; "Source"; "Saddle"] →
       v = (0%R, 0%R)).

(** A one-point image with a unit vector along the first axis. *)
Definition unit_flow : vtkVectorImageData := {|
  vec_dims := (1, 1, 1)%Z; vec_spacing := (1, 1, 1)%R;
  vectors := Some [(1, 0, 0)%R]
|}.
End flow_model.
Import flow_model.

(** ** Generated scenarios *)
Module scenario_model.
Import gaussian_scene scenario_generator.

(** The point at parameter [t] of the segment from [start] to [end_]. *)
Definition along (start end_ : R * R) (t : R) : R * R :=
  ((start.1 + (end_.1 - start.1) * t)%R,
   (start.2 + (end_.2 - start.2) * t)%R).

(** The waypoints [_make_straight_path] lays out: parameter
    [k / max(1, steps - 1)] for the [k]-th of them. *)
Definition waypoints (start end_ : R * R) (steps : Z) : list (R * R) :=
  (λ k, along start end_
          (IZR (Z.of_nat k) / IZR (Z.max 1 (steps - 1))))
    <$> seq 0 (Z.to_nat steps).

(** The centre of the grid, the default meeting point of a scenario. *)
Definition centre (width height : Z) (spacing : R) : R * R :=
  ((IZR width * spacing * (5 / 10))%R, (IZR height * spacing * (5 / 10))%R).

(** A scenario with [n] sources on a grid: the sources carry the ids
    [1 .. n] and spreads that every kernel accepts, and each of them has a
    path of [k] waypoints that starts where the source is, with its cursor
    on that first waypoint; no other id has a path. *)
Definition staged (width height : Z) (spacing : R) (distribution : string)
    (n k : nat) (scene : GaussianScene) : Prop :=
  gaussian_scene.width scene = width
  ∧ gaussian_scene.height scene = height
  ∧ gaussian_scene.spacing scene = spacing
  ∧ distribution_type scene = distribution
  ∧ _next_id scene = (Z.of_nat n + 1)%Z
  ∧ id <$> gaussians scene = Z.of_nat <$> seq 1 n
  ∧ Forall positive_spread (gaussians scene)
  ∧ (∀ gid, is_Some (paths scene !! gid) → gid ∈ id <$> gaussians scene)
  ∧ ∀ src, src ∈ gaussians scene →
      ∃ p, paths scene !! id src = Some p
           ∧ length p = k
           ∧ head p = Some (src.(gaussian_scene.x), src.(gaussian_scene.y))
           ∧ path_index scene !! id src = Some 0%Z.

(** The source [add_gaussian] creates at a given position. *)
Definition fresh (nid : Z) (x y amplitude variance : R) : gaussian := {|
  id := nid; x := x; y := y; amp := amplitude; var := variance;
  sx := R_sqrt.sqrt variance; sy := R_sqrt.sqrt (variance / 10);
  theta := 40; gamma := variance; lambda := R_sqrt.sqrt variance
|}.

(** The scene after the sources [news] were appended one by one. *)
Definition with_sources (self : GaussianScene) (news : list gaussian)
  : GaussianScene := {|
  width := width self; height := height self; spacing := spacing self;
  gaussians := gaussians self ++ news;
  _next_id := _next_id self + Z.of_nat (length news);
  distribution_type := distribution_type self;
  paths := paths self; path_index := path_index self;
  path_speed := path_speed self;
  _prev_clusters := _prev_clusters self
|}.

(** Two scenes that differ at most in their paths and cursors. *)
Definition same_but_paths (self self' : GaussianScene) : Prop :=
  width self' = width self ∧ height self' = height self
  ∧ spacing self' = spacing self ∧ gaussians self' = gaussians self
  ∧ _next_id self' = _next_id self
  ∧ distribution_type self' = distribution_type self
  ∧ path_speed self' = path_speed self
  ∧ _prev_clusters self' = _prev_clusters self.

(** A source spawned by a scenario: its position is a fraction of the
    extent of the grid within [xs] and [ys], its amplitude lies within
    [amps] and its variance within [vars]. *)
Definition spawned (width height : Z) (spacing : R)
    (xs ys amps vars : R * R) (src : gaussian) : Prop :=
  (∃ u, (xs.1 <= u <= xs.2)%R
        ∧ src.(gaussian_scene.x) = (u * IZR width * spacing)%R)
  ∧ (∃ u, (ys.1 <= u <= ys.2)%R
          ∧ src.(gaussian_scene.y) = (u * IZR height * spacing)%R)
  ∧ (amps.1 <= amp src <= amps.2)%R
  ∧ (vars.1 <= var src <= vars.2)%R.

(** The [idx]-th of [n] points spread evenly on the circle of radius
    [radius] around [c]. *)
Definition on_circle (c : R * R) (radius : R) (n : Z) (idx : nat) : R * R :=
  let theta := (2 * PI * IZR (Z.of_nat idx) / IZR (Z.max 1 n))%R in
  ((c.1 + radius * cos theta)%R, (c.2 + radius * sin theta)%R).

(** The number of waypoints of each leg of a merge-and-split path. *)
Definition leg (steps : Z) : nat := Z.to_nat (Z.max 2 (steps / 2 + 1)).
End scenario_model.
Import scenario_model.

(** ** Paths and their cursors *)
Module path_model.
Import gaussian_scene.

(** The waypoint a source with id [gid] is heading for: position
    [path_index.get(gid, 0)] of its path. *)
Definition cursor_of (path_index : gmap Z Z) (gid : Z) : Z :=
  default 0%Z (path_index !! gid).

(** Every cursor points into its path. *)
Definition cursors_valid (paths : gmap Z (list (R * R)))
    (path_index : gmap Z Z) : Prop :=
  ∀ gid p, paths !! gid = Some p → p ≠ [] →
    (0 ≤ cursor_of path_index gid < Z.of_nat (length p))%Z.

(** The cursor after the waypoint at [c] of a path with [n] waypoints was
    reached: the next waypoint, or the first one again after the last. *)
Definition advanced (n : nat) (c : Z) : Z :=
  if decide (Z.of_nat n ≤ c + 1)%Z then 0%Z else (c + 1)%Z.

(** A source on its way from the origin to the waypoint [(1, 0)], which
    comes second on its path. *)
Definition commuter_scene : GaussianScene := {|
  width := 200; height := 200; spacing := 1;
  gaussians := [walker]; _next_id := 2;
  distribution_type := "Gaussian";
  paths := {[ 1%Z := [(0%R, 0%R); (1%R, 0%R)] ]};
  path_index := {[ 1%Z := 1%Z ]};
  path_speed := 1 / 2;
  _prev_clusters := None
|}.

(** The same source before its first step: the cursor is on the first
    waypoint, where the source is. *)
Definition starter_scene : GaussianScene := {|
  width := 200; height := 200; spacing := 1;
  gaussians := [walker]; _next_id := 2;
  distribution_type := "Gaussian";
  paths := {[ 1%Z := [(0%R, 0%R); (1%R, 0%R)] ]};
  path_index := {[ 1%Z := 0%Z ]};
  path_speed := 1 / 2;
  _prev_clusters := None
|}.
End path_model.
Import path_model.

(** ** Tracking steps *)
Module step_model.
Import umbrella_tracker.

(** The event the first tracking step files for the cluster with root
    [r]. *)
Definition first_birth (t r : Z) : event :=
  {| ev_time := t; ev_type := "birth"; ev_target := None;
     ev_id := Some r; ev_sources := None; ev_root := Some r |}.

(** The events of a step from the clustering [prev], if there was one, to
    the clustering [cl]. *)
Definition events_of (prev : option (dict (list Z))) (cl : dict (list Z))
    (t : Z) : list event :=
  match prev with
  | Some prev =>
      (birth_event t <$> new_roots prev cl) ++ merges_of prev cl t (keys cl)
  | None => first_birth t <$> keys cl
  end.

(** The snapshot of that step. *)
Definition snapshot_of (prev : option (dict (list Z))) (cl : dict (list Z))
    (t : Z) : meta :=
  {| timestep := t; clusters := cl;
     correspondence_matrix :=
       match prev with Some prev => overlap_matrix prev cl | None => [] end;
     prev_root_ids := match prev with Some prev => keys prev | None => [] end;
     curr_root_ids := keys cl |}.

(** The storage after the directory [d] was made sure of and the snapshot
    [m] of timestep [t] written to it. *)
Definition stored (fs : filesystem) (d : string) (t : Z) (m : meta)
  : filesystem :=
  {| read_only := read_only fs; dirs := {[d]} ∪ dirs fs;
     files := <[(d, t) := m]> (files fs) |}.

(** The dictionary the tracker copies from a source of the scene. *)
Definition tracked (g : gaussian_scene.gaussian) : gaussian :=
  {| id := gaussian_scene.id g;
     x := gaussian_scene.x g;
     y := gaussian_scene.y g;
     amp := gaussian_scene.amp g;
     var := gaussian_scene.var g |}.

(** The value of the Gaussian kernel of the source [sj] at the position
    of the source [si]. *)
Definition kernel_at (si sj : gaussian_scene.gaussian) : result R :=
  gaussian_scene.f_gaussian (gaussian_scene.x si) (gaussian_scene.y si) sj.

(** A source of variance 4 with the given id, position on the first axis
    and amplitude. *)
Definition bump (nid : Z) (x amplitude : R) : gaussian_scene.gaussian := {|
  gaussian_scene.id := nid; gaussian_scene.x := x; gaussian_scene.y := 0;
  gaussian_scene.amp := amplitude; gaussian_scene.var := 4;
  gaussian_scene.sx := 2; gaussian_scene.sy := 1;
  gaussian_scene.theta := 40; gaussian_scene.gamma := 4;
  gaussian_scene.lambda := 2
|}.

(** A scene that holds the sources [gs]. *)
Definition scene_of (gs : list gaussian_scene.gaussian)
  : gaussian_scene.GaussianScene := {|
  gaussian_scene.width := 200; gaussian_scene.height := 200;
  gaussian_scene.spacing := 1;
  gaussian_scene.gaussians := gs;
  gaussian_scene._next_id := Z.of_nat (length gs) + 1;
  gaussian_scene.distribution_type := "Gaussian";
  gaussian_scene.paths := ∅; gaussian_scene.path_index := ∅;
  gaussian_scene.path_speed := 1 / 2;
  gaussian_scene._prev_clusters := None
|}.

(** A storage that accepts writes and holds nothing yet. *)
Definition empty_disk : filesystem :=
  {| read_only := false; dirs := ∅; files := ∅ |}.
End step_model.
Import step_model.

(** ** Noisy images *)
Module noisy_model.
Import noises.

(** The entry of an array at row [j] and column [i]. *)
Definition entry (f : list (list R)) (i j : nat) : option R :=
  row ← f !! j; row !! i.

(** An array of [h] rows and [w] columns, of numbers or of [nan]. *)
Definition has_shape (h w : nat) (a : ndarray) : Prop :=
  match a with
  | array f => rectangular h w f
  | nan_array s => s = (h, w)
  end.

(** The noise types [apply_noise_to_scalar_field] knows. *)
Definition noise_names : list string :=
  ["Salt"; "Pepper"; "Salt and Pepper"; "Gaussian (White)"; "Gaussian blobs";
   "Poisson"; "Speckle"; "Uniform"; "Laplace"; "Perlin"].

(** What the development assumes of a conversion to single precision: it
    keeps the order of the numbers, and it leaves a number that is its
    own result as it is. *)
Definition rounding (float32 : R → R) : Prop :=
  (∀ a b, a <= b → float32 a <= float32 b)%R
  ∧ ∀ a, float32 (float32 a) = float32 a.

(** The normalisation to [[0, 1]] and the way back. *)
Definition normalised (lo hi : R) (f : list (list R)) : list (list R) :=
  elementwise (λ v, (v - lo) / (hi - lo + 1 / 10 ^ 8))%R f.

Definition restored (lo hi : R) (f : list (list R)) : list (list R) :=
  clip (elementwise (λ v, v * (hi - lo) + lo)%R f) lo hi.

(** What comes back of a value that no noise touches: it is converted,
    normalised, restored and converted again. *)
Definition round_trip1 (float32 : R → R) (lo hi v : R) : R :=
  float32
    (clip1 lo hi
       ((float32 v - lo) / (hi - lo + 1 / 10 ^ 8) * (hi - lo) + lo))%R.

Definition round_trip (float32 : R → R) (lo hi : R) (f : list (list R))
  : list (list R) :=
  elementwise (round_trip1 float32 lo hi) f.

(** The value [add_perlin_noise] stores for row [i] and column [j] of an
    [h] by [w] array when the image is noised: the scale is 20. *)
Definition perlin_value (float32 : R → R) (pnoise2 : R → R → Z → Z → R)
    (h w i j : nat) : R :=
  float32 (pnoise2 (INR i / 20)%R (INR j / 20)%R (Z.of_nat w) (Z.of_nat h)).

(** All the stored values are equal, so that their re-normalisation
    divides zero by zero. *)
Definition perlin_flat (float32 : R → R) (pnoise2 : R → R → Z → Z → R)
    (h w : nat) : Prop :=
  ∀ i j, i < h → j < w →
    perlin_value float32 pnoise2 h w i j
    = perlin_value float32 pnoise2 h w 0 0.

(** The image [apply_noise_to_scalar_field] returns for an array. *)
Definition noised (img : vtk.vtkImageData) (out : ndarray)
  : vtkFloatImageData :=
  {| fdims := vtk.dims img; fspacing := vtk.img_spacing img;
     fscalars := out |}.

(** A two by one image with the values 0 and 1. *)
Definition step_image : vtk.vtkImageData := {|
  vtk.dims := (2, 1, 1)%Z; vtk.img_spacing := (1, 1, 1)%R;
  vtk.scalars := [[0%R; 1%R]]
|}.

(** A two by one image with the value 3 in both points. *)
Definition level_image : vtk.vtkImageData := {|
  vtk.dims := (2, 1, 1)%Z; vtk.img_spacing := (1, 1, 1)%R;
  vtk.scalars := [[3%R; 3%R]]
|}.

(** A stand-in for [pnoise2] that tells the columns apart. *)
Definition ramp_noise (x y : R) (repeatx repeaty : Z) : R := y.

(** The noise with stand-ins for all that the module takes from outside:
    a conversion that changes no number, integer draws that are the
    lowest value, zero for every other draw and [ramp_noise]. *)
Definition quiet_noise (img : vtk.vtkImageData) (noise_type : string)
    (amount : R) : result (vtkFloatImageData * unit) :=
  apply_noise_to_scalar_field (λ v, v) unit low_randint
    (λ g _ _ _, zero_array g) (λ g _ _ _, zero_array g) (λ g _ _, (0%R, g))
    (λ g _ _ _, zero_array g) (λ g _, zero_array g) (λ g _, zero_array g)
    ramp_noise tt img noise_type amount.
End noisy_model.
Import noisy_model.

(** ** The life of a scene *)
Module scene_life.
Import gaussian_scene.

(** The scenes that the methods of [GaussianScene] produce from a new
    one. *)
Inductive reachable : GaussianScene → Prop :=
| reach_init width height : reachable (__init__ width height)
| reach_resize self w h space :
    reachable self → reachable (updateWidthHeight self w h space)
| reach_clear self : reachable self → reachable (clear self)
| reach_add self g x y amplitude variance self' g' returned :
    reachable self →
    add_gaussian self g x y amplitude variance = Ok (self', g', returned) →
    reachable self'
| reach_flow self vector_field speed self' :
    reachable self →
    move_gaussians_by_vector_field self vector_field speed = Ok self' →
    reachable self'
| reach_path self self' :
    reachable self →
    move_gaussians_by_custom_path self = Ok self' →
    reachable self'.

(** The ids of the sources are distinct, start at 1 and lie below the id
    the next source will get. *)
Definition ids_in_order (self : GaussianScene) : Prop :=
  NoDup (id <$> gaussians self)
  ∧ Forall (λ g, 1 ≤ id g < _next_id self)%Z (gaussians self).

(** The position of the grid point [(i, j)] of the image. *)
Definition grid_point (self : GaussianScene) (i j : nat) : R * R :=
  ((IZR (Z.of_nat i) * (spacing self / 2))%R,
   (IZR (Z.of_nat j) * (spacing self / 2))%R).

(** A scene with one Gaussian source of amplitude 5 at the point (3, 4). *)
Definition lone_source_scene : GaussianScene :=
  with_sources (__init__ 200 200) [fresh 1 3 4 5 100].
End scene_life.
Import scene_life.

(** * The union-find forest and the clusterer *)

Section clustering_proofs.
Import umbrella_tracker.

Lemma index_Ok {A} (l : list A) i a : index l i = Ok a ↔ l !! i = Some a.
Proof. unfold index. destruct (l !! i); split; congruence. Qed.

Lemma index_lookup {A} (l : list A) i a : l !! i = Some a → index l i = Ok a.
Proof. apply index_Ok. Qed.

Lemma root_of_is_root p a r : root_of p a r → p !! r = Some r.
Proof. induction 1; auto. Qed.

Lemma root_of_lt p a r : root_of p a r → a < length p.
Proof. destruct 1; eapply lookup_lt_Some; eauto. Qed.

Lemma root_of_det p a r1 r2 : root_of p a r1 → root_of p a r2 → r1 = r2.
Proof.
  intros H1. revert r2. induction H1 as [i Hi | i j r Hi Hne H IH]; intros r2 H2.
  - destruct H2 as [|? j']; [done | congruence].
  - destruct H2 as [? Hi' | ? j' r' Hi' Hne' H']; [congruence |].
    apply IH. congruence.
Qed.

Lemma root_of_root p r : p !! r = Some r → ∀ r', root_of p r r' → r' = r.
Proof. intros Hr r' H. eapply root_of_det; [exact H | by constructor]. Qed.

Lemma count_fix_insert p : ∀ k i v old,
  p !! i = Some old →
  count_fix k (<[i := v]> p) + (if decide (old = k + i) then 1 else 0)
  = count_fix k p + (if decide (v = k + i) then 1 else 0).
Proof.
  induction p as [|w p IH]; intros k i v old Hi; [done |].
  destruct i as [|i]; simpl in *.
  - injection Hi as ->. rewrite Nat.add_0_r. lia.
  - specialize (IH (S k) i v old Hi).
    replace (k + S i) with (S k + i) by lia. lia.
Qed.

Lemma count_fix_seq n : ∀ k, count_fix k (seq k n) = n.
Proof.
  induction n as [|n IH]; intros k; simpl; [done |].
  rewrite decide_True by done. by rewrite IH.
Qed.

Lemma count_fix_pos p : ∀ k i, p !! i = Some (k + i) → 0 < count_fix k p.
Proof.
  induction p as [|w p IH]; intros k i Hi; [done |].
  destruct i as [|i]; simpl in *.
  - injection Hi as ->. rewrite Nat.add_0_r, decide_True by done. lia.
  - replace (k + S i) with (S k + i) in Hi by lia.
    specialize (IH _ _ Hi). lia.
Qed.

Lemma ranked_init n : ranked (seq 0 n) (λ _, 0).
Proof.
  intros i j Hij. apply lookup_seq in Hij as [-> Hlt].
  rewrite length_seq. unfold nroots. rewrite count_fix_seq. simpl.
  split; [done | split; [by left | lia]].
Qed.

(** Every node of a ranked forest has a root. *)
Lemma ranked_root_exists p rk :
  ranked p rk → ∀ i, i < length p → ∃ r, root_of p i r.
Proof.
  intros Hrk i.
  remember (length p - rk i) as m eqn:Hm. revert i Hm.
  induction (lt_wf m) as [m _ IH]. intros i Hm Hi.
  destruct (lookup_lt_is_Some_2 p i Hi) as [j Hj].
  destruct (Hrk i j Hj) as (Hjn & Hor & Hb).
  destruct (decide (j = i)) as [-> | Hne].
  - exists i. by constructor.
  - destruct Hor as [? | Hlt]; [done |].
    destruct (lookup_lt_is_Some_2 p j Hjn) as [j' Hj'].
    destruct (Hrk j j' Hj') as (_ & _ & Hbj).
    destruct (IH (length p - rk j)) with (i := j) as [r Hr]; [lia | done | done |].
    exists r. by econstructor.
Qed.

Lemma ranked_nroots_pos p rk i : ranked p rk → i < length p → 0 < nroots p.
Proof.
  intros Hrk Hi. destruct (ranked_root_exists p rk Hrk i Hi) as [r Hr].
  apply root_of_is_root in Hr. by apply (count_fix_pos p 0 r).
Qed.

Lemma nroots_insert p i v old :
  p !! i = Some old → old ≠ i → v ≠ i → nroots (<[i := v]> p) = nroots p.
Proof.
  intros Hi Ho Hv. pose proof (count_fix_insert p 0 i v old Hi) as H.
  simpl in H. rewrite !decide_False in H by done. unfold nroots. lia.
Qed.

Lemma nroots_insert_root p i v :
  p !! i = Some i → v ≠ i → S (nroots (<[i := v]> p)) = nroots p.
Proof.
  intros Hi Hv. pose proof (count_fix_insert p 0 i v i Hi) as H.
  simpl in H. rewrite decide_True, decide_False in H by done.
  unfold nroots. lia.
Qed.

Section halving.
Context (p : list nat) (rk : nat → nat) (i p_i pp_i : nat).
Hypothesis Hrk : ranked p rk.
Hypothesis Hi : p !! i = Some p_i.
Hypothesis Hne : p_i ≠ i.
Hypothesis Hpi : p !! p_i = Some pp_i.

Lemma halve_rank : rk i < rk pp_i ∧ pp_i ≠ i ∧ pp_i < length p.
Proof.
  destruct (Hrk _ _ Hi) as (_ & [? | H1] & _); [done |].
  destruct (Hrk _ _ Hpi) as (Hn & H2 & _).
  split; [| split; [| done]].
  - destruct H2 as [-> | H2]; lia.
  - intros ->. destruct H2 as [-> | H2]; lia.
Qed.

Lemma halve_ranked : ranked (<[i := pp_i]> p) rk.
Proof.
  destruct halve_rank as (Hlt & Hgi & Hgn).
  intros a b Hab. rewrite length_insert.
  rewrite (nroots_insert p i pp_i p_i) by done.
  destruct (decide (a = i)) as [-> | Hai].
  - rewrite list_lookup_insert_eq in Hab by (by eapply lookup_lt_Some).
    injection Hab as <-. destruct (Hrk _ _ Hi) as (_ & _ & Hb).
    split; [done | split; [by right | done]].
  - rewrite list_lookup_insert_ne in Hab by done. by apply Hrk.
Qed.

Lemma halve_root_of a r : root_of p a r → root_of (<[i := pp_i]> p) a r.
Proof.
  destruct halve_rank as (Hlt & Hgi & Hgn).
  induction 1 as [a Ha | a j r Ha Hja H IH].
  - constructor. rewrite list_lookup_insert_ne; [done | congruence].
  - destruct (decide (a = i)) as [-> | Hai].
    + assert (j = p_i) as -> by congruence.
      assert (<[i := pp_i]> p !! p_i = Some pp_i) as Hp'
        by (by rewrite list_lookup_insert_ne).
      assert (root_of (<[i := pp_i]> p) pp_i r) as Hg.
      { inversion IH as [? Hh | ? j' ? Hh Hj' Hr']; subst.
        - assert (pp_i = r) as -> by congruence. done.
        - assert (j' = pp_i) as -> by congruence. done. }
      eapply root_of_step; [| exact Hgi | exact Hg].
      apply list_lookup_insert_eq. by eapply lookup_lt_Some.
    + eapply root_of_step; [| exact Hja | exact IH].
      by rewrite list_lookup_insert_ne.
Qed.
End halving.

Lemma roots_kept_refl p : roots_kept p p.
Proof. by split. Qed.

Lemma roots_kept_trans p1 p2 p3 :
  roots_kept p1 p2 → roots_kept p2 p3 → roots_kept p1 p3.
Proof. intros [L1 H1] [L2 H2]. split; [congruence | eauto]. Qed.

Lemma roots_kept_inv p p' rk a r :
  ranked p rk → roots_kept p p' → root_of p' a r → root_of p a r.
Proof.
  intros Hrk [Hlen Hk] H'.
  destruct (ranked_root_exists p rk Hrk a) as [r0 H0].
  { rewrite <- Hlen. by eapply root_of_lt. }
  by rewrite (root_of_det _ _ _ _ H' (Hk _ _ H0)).
Qed.

Lemma find_loop_spec rk : ∀ fuel p i,
  ranked p rk → i < length p → length p - nroots p - rk i < fuel →
  ∃ p' r, find_loop fuel p i = Ok (p', r)
    ∧ ranked p' rk ∧ nroots p' = nroots p ∧ roots_kept p p' ∧ root_of p i r.
Proof.
  induction fuel as [|fuel IH]; intros p i Hrk Hi Hfuel; [lia |].
  destruct (lookup_lt_is_Some_2 p i Hi) as [p_i Hpi]. simpl.
  rewrite (index_lookup _ _ _ Hpi). simpl.
  destruct (decide (p_i ≠ i)) as [Hne | Heq].
  - destruct (Hrk _ _ Hpi) as (Hpn & _ & _).
    destruct (lookup_lt_is_Some_2 p p_i Hpn) as [pp_i Hppi].
    rewrite (index_lookup _ _ _ Hppi). simpl.
    destruct (halve_rank p rk i p_i pp_i Hrk Hpi Hne Hppi) as (Hlt & Hgi & Hgn).
    pose proof (halve_ranked p rk i p_i pp_i Hrk Hpi Hne Hppi) as Hrk'.
    assert (<[i := pp_i]> p !! i = Some pp_i) as Hi'
      by (by apply list_lookup_insert_eq).
    rewrite (index_lookup _ _ _ Hi'). simpl.
    assert (nroots (<[i := pp_i]> p) = nroots p) as Hnr
      by (by apply (nroots_insert p i pp_i p_i)).
    destruct (Hrk' _ _ Hi') as (_ & _ & Hb).
    destruct (Hrk _ _ Hppi) as (_ & _ & Hb2).
    destruct (lookup_lt_is_Some_2 p pp_i Hgn) as [x Hx].
    destruct (Hrk _ _ Hx) as (_ & _ & Hb3).
    destruct (IH (<[i := pp_i]> p) pp_i) as (p' & r & Hf & Hrk'' & Hnr' & Hk & Hr).
    { done. } { by rewrite length_insert. }
    { rewrite length_insert, Hnr. lia. }
    exists p', r. split; [done |]. split; [done |]. split; [congruence |].
    assert (roots_kept p (<[i := pp_i]> p)) as Hk0.
    { split; [by rewrite length_insert |].
      intros a b. by apply (halve_root_of p rk i p_i pp_i). }
    split; [by eapply roots_kept_trans |].
    eapply (roots_kept_inv p _ rk); [done | exact Hk0 |].
    by eapply root_of_step.
  - assert (p_i = i) as -> by (by destruct (decide (p_i = i)); [|exfalso; auto]).
    exists p, i. split; [done |]. split; [done |]. split; [done |].
    split; [apply roots_kept_refl | by constructor].
Qed.

Lemma find_spec rk p i :
  ranked p rk → i < length p →
  ∃ p' r, find p i = Ok (p', r)
    ∧ ranked p' rk ∧ nroots p' = nroots p ∧ roots_kept p p' ∧ root_of p i r.
Proof.
  intros Hrk Hi. apply find_loop_spec; [done | done |].
  pose proof (ranked_nroots_pos p rk i Hrk Hi). lia.
Qed.

Section linking.
Context (p : list nat) (rk : nat → nat) (ri rj : nat).
Hypothesis Hrk : ranked p rk.
Hypothesis Hri : p !! ri = Some ri.
Hypothesis Hrj : p !! rj = Some rj.
Hypothesis Hne : ri ≠ rj.

Lemma link_ranked :
  ranked (<[ri := rj]> p)
    (λ a, if decide (a = rj) then Nat.max (rk rj) (S (rk ri)) else rk a).
Proof.
  pose proof (nroots_insert_root p ri rj Hri (not_eq_sym Hne)) as Hnr.
  destruct (Hrk _ _ Hri) as (Hin & _ & Hbi).
  destruct (Hrk _ _ Hrj) as (Hjn & _ & Hbj).
  intros a b Hab. rewrite length_insert.
  destruct (decide (a = ri)) as [-> | Hai].
  - rewrite list_lookup_insert_eq in Hab by done. injection Hab as <-.
    rewrite decide_False by done. rewrite decide_True by done.
    split; [done | split; [right |]; lia].
  - rewrite list_lookup_insert_ne in Hab by done.
    destruct (Hrk _ _ Hab) as (Hbn & Hor & Hb).
    split; [done |]. split.
    + destruct (decide (b = a)) as [-> | Hba]; [by left | right].
      destruct Hor as [? | Hlt]; [done |].
      assert (a ≠ rj) by congruence.
      rewrite (decide_False (P := a = rj)) by done.
      destruct (decide (b = rj)); subst; lia.
    + destruct (decide (a = rj)); lia.
Qed.

Lemma link_root_other a r :
  root_of p a r → r ≠ ri → root_of (<[ri := rj]> p) a r.
Proof.
  induction 1 as [a Ha | a j r Ha Hja H IH]; intros Hr.
  - constructor. by rewrite list_lookup_insert_ne.
  - eapply root_of_step; [| exact Hja | by apply IH].
    rewrite list_lookup_insert_ne; [done | congruence].
Qed.

Lemma link_root_moved a :
  root_of p a ri → root_of (<[ri := rj]> p) a rj.
Proof.
  intros H. remember ri as r eqn:Hr.
  induction H as [a Ha | a j r Ha Hja H IH]; subst.
  - eapply root_of_step; [| exact (not_eq_sym Hne) |].
    + apply list_lookup_insert_eq. by eapply lookup_lt_Some.
    + constructor. by rewrite list_lookup_insert_ne.
  - eapply root_of_step; [| exact Hja | by apply IH].
    rewrite list_lookup_insert_ne; [done | congruence].
Qed.
End linking.

Lemma same_root_iff p a b ra rb :
  root_of p a ra → root_of p b rb → same_root p a b ↔ ra = rb.
Proof.
  intros Ha Hb. split.
  - intros (r & Ha' & Hb').
    rewrite (root_of_det _ _ _ _ Ha Ha'). by rewrite (root_of_det _ _ _ _ Hb Hb').
  - intros ->. by exists rb.
Qed.

Lemma union_spec p i j :
  forest p → i < length p → j < length p →
  ∃ p', union p i j = Ok p' ∧ forest p' ∧ length p' = length p
    ∧ ∀ a b, a < length p → b < length p →
        (same_root p' a b ↔
           same_root p a b ∨ (same_root p a i ∧ same_root p j b)
           ∨ (same_root p a j ∧ same_root p i b)).
Proof.
  intros [rk Hrk] Hi Hj. unfold union.
  destruct (find_spec rk p i Hrk Hi) as (p1 & ri & -> & Hrk1 & _ & Hk1 & Hri).
  simpl.
  assert (j < length p1) as Hj1 by (by rewrite (proj1 Hk1)).
  destruct (find_spec rk p1 j Hrk1 Hj1) as (p2 & rj & -> & Hrk2 & _ & Hk2 & Hrj1).
  simpl.
  pose proof (roots_kept_trans _ _ _ Hk1 Hk2) as Hk.
  assert (root_of p j rj) as Hrj by (by apply (roots_kept_inv p p1 rk)).
  assert (∀ a, a < length p → ∃ r, root_of p a r ∧ root_of p2 a r) as Hroot.
  { intros a Ha. destruct (ranked_root_exists p rk Hrk a Ha) as [r Hr].
    exists r. split; [done | by apply Hk]. }
  destruct (decide (ri ≠ rj)) as [Hne | Heq].
  - exists (<[ri := rj]> p2).
    pose proof (root_of_is_root _ _ _ (proj2 Hk _ _ Hri)) as Hri2.
    pose proof (root_of_is_root _ _ _ (proj2 Hk _ _ Hrj)) as Hrj2.
    split; [done |]. split; [eexists; by apply link_ranked |].
    split; [rewrite length_insert; apply Hk |].
    intros a b Ha Hb.
    destruct (Hroot a Ha) as (ra & Hra & Hra2).
    destruct (Hroot b Hb) as (rb & Hrb & Hrb2).
    assert (∀ c rc, root_of p2 c rc →
      root_of (<[ri := rj]> p2) c (if decide (rc = ri) then rj else rc)) as Hl.
    { intros c rc Hc. destruct (decide (rc = ri)) as [-> | Hn].
      - by eapply link_root_moved.
      - by eapply link_root_other. }
    rewrite (same_root_iff _ _ _ _ _ (Hl _ _ Hra2) (Hl _ _ Hrb2)).
    rewrite (same_root_iff _ _ _ _ _ Hra Hrb).
    rewrite (same_root_iff _ _ _ _ _ Hra Hri).
    rewrite (same_root_iff _ _ _ _ _ Hrj Hrb).
    rewrite (same_root_iff _ _ _ _ _ Hra Hrj).
    rewrite (same_root_iff _ _ _ _ _ Hri Hrb).
    repeat case_decide; intuition congruence.
  - assert (ri = rj) as <- by (by destruct (decide (ri = rj)); [|exfalso; auto]).
    exists p2. split; [done |]. split; [by exists rk |]. split; [apply Hk |].
    intros a b Ha Hb.
    destruct (Hroot a Ha) as (ra & Hra & Hra2).
    destruct (Hroot b Hb) as (rb & Hrb & Hrb2).
    rewrite (same_root_iff _ _ _ _ _ Hra2 Hrb2).
    rewrite (same_root_iff _ _ _ _ _ Hra Hrb).
    rewrite (same_root_iff _ _ _ _ _ Hra Hri).
    rewrite (same_root_iff _ _ _ _ _ Hrj Hrb).
    rewrite (same_root_iff _ _ _ _ _ Hra Hrj).
    rewrite (same_root_iff _ _ _ _ _ Hri Hrb).
    intuition congruence.
Qed.

Lemma rtsc_ext {A} (E E' : relation A) a b :
  (∀ a b, E a b → E' a b) → rtsc E a b → rtsc E' a b.
Proof. intros H. apply (rtsc_congruence (λ a, a) E'). exact H. Qed.

Lemma rtsc_add_edge {A} (E : relation A) i j a b :
  rtsc (λ a b, E a b ∨ (a = i ∧ b = j)) a b ↔
  rtsc E a b ∨ (rtsc E a i ∧ rtsc E j b) ∨ (rtsc E a j ∧ rtsc E i b).
Proof.
  split.
  - induction 1 as [a | a c b Hac _ IH]; [by left |].
    assert (rtsc E a c ∨ (a = i ∧ c = j) ∨ (a = j ∧ c = i)) as Hstep.
    { destruct Hac as [[H | H] | [H | H]].
      - left. by apply rtsc_lr.
      - right. by left.
      - left. by apply rtsc_rl.
      - right. right. by destruct H. }
    destruct Hstep as [Hs | [[-> ->] | [-> ->]]].
    + destruct IH as [IH | [[H1 H2] | [H1 H2]]].
      * left. by etrans.
      * right. left. split; [by etrans | done].
      * right. right. split; [by etrans | done].
    + destruct IH as [IH | [[H1 H2] | [H1 H2]]].
      * right. left. split; [done | done].
      * left. etrans; [symmetry; exact H1 | done].
      * left. done.
    + destruct IH as [IH | [[H1 H2] | [H1 H2]]].
      * right. right. split; [done | done].
      * left. done.
      * left. etrans; [symmetry; exact H1 | done].
  - assert (∀ a b, rtsc E a b → rtsc (λ a b, E a b ∨ a = i ∧ b = j) a b) as Hin.
    { intros ??. apply rtsc_ext. by left. }
    assert (rtsc (λ a b, E a b ∨ a = i ∧ b = j) i j) as Hij
      by (apply rtsc_lr; by right).
    intros [H | [[H1 H2] | [H1 H2]]].
    + by apply Hin.
    + etrans; [by apply Hin |]. etrans; [exact Hij | by apply Hin].
    + etrans; [by apply Hin |]. etrans; [symmetry; exact Hij | by apply Hin].
Qed.

Lemma grouped_ext p (E E' : relation nat) :
  (∀ a b, E a b ↔ E' a b) → grouped p E → grouped p E'.
Proof.
  intros HE [Hf H]. split; [done |]. intros a b Ha Hb. rewrite (H a b Ha Hb).
  split; apply rtsc_ext; intros ??; apply HE.
Qed.

Lemma grouped_union p E i j :
  grouped p E → i < length p → j < length p →
  ∃ p', union p i j = Ok p' ∧ length p' = length p
    ∧ grouped p' (λ a b, E a b ∨ (a = i ∧ b = j)).
Proof.
  intros [Hf H] Hi Hj.
  destruct (union_spec p i j Hf Hi Hj) as (p' & Hu & Hf' & Hlen & Hsame).
  exists p'. split; [done |]. split; [done |]. split; [done |].
  intros a b Ha Hb. rewrite Hlen in Ha, Hb.
  rewrite (Hsame a b Ha Hb), rtsc_add_edge.
  rewrite (H a b Ha Hb), (H a i Ha Hi), (H j b Hj Hb), (H a j Ha Hj),
    (H i b Hi Hb). done.
Qed.

Lemma grouped_init n : grouped (seq 0 n) (λ _ _, False).
Proof.
  split; [eexists; apply ranked_init |].
  intros a b Ha Hb. rewrite length_seq in Ha, Hb.
  assert (∀ c, c < n → root_of (seq 0 n) c c) as Hc.
  { intros c Hlt. constructor. by apply lookup_seq. }
  rewrite (same_root_iff _ _ _ _ _ (Hc a Ha) (Hc b Hb)). split.
  - by intros ->.
  - induction 1 as [| ??? [[]|[]]]; done.
Qed.

Lemma for_inv {A S} (I : list A → S → Prop) (body : S → A → result S) l :
  (∀ seen a s, a ∈ l → I seen s → ∃ s', body s a = Ok s' ∧ I (seen ++ [a]) s') →
  ∀ seen s, I seen s → ∃ s', for_ l body s = Ok s' ∧ I (seen ++ l) s'.
Proof.
  induction l as [|a l IH]; intros Hbody seen s Hs.
  - exists s. by rewrite app_nil_r.
  - destruct (Hbody seen a s) as (s1 & Hb & Hs1); [by left | done |].
    destruct (IH (λ seen' a' s' Ha', Hbody seen' a' s' (list_elem_of_further _ _ _ Ha'))
                (seen ++ [a]) s1 Hs1) as (s2 & Hf & Hs2).
    exists s2. simpl. rewrite Hb. simpl. split; [done |].
    by rewrite <- app_assoc in Hs2.
Qed.

Section merge_pass.
Context (gs : list gaussian).
Lemma umbrella_merge_spec (seen_i : list nat) i (seen_j : list nat) j p :
  i < (length gs) → j < (length gs) → length p = (length gs) →
  grouped p (λ a b, dominates gs a b ∧ (a ∈ seen_i ∨ (a = i ∧ b ∈ seen_j))) →
  ∃ p', umbrella_merge (x <$> gs) (y <$> gs) (amp <$> gs) (var <$> gs) i p j
        = Ok p'
    ∧ length p' = (length gs)
    ∧ grouped p' (λ a b, dominates gs a b
                         ∧ (a ∈ seen_i ∨ (a = i ∧ b ∈ seen_j ++ [j]))).
Proof.
  intros Hi Hj Hlen Hg. unfold umbrella_merge.
  destruct (decide (i = j)) as [<- | Hne].
  { exists p. split; [done |]. split; [done |].
    revert Hg. apply grouped_ext. intros a b.
    rewrite elem_of_app, list_elem_of_singleton. unfold dominates.
    intuition congruence. }
  destruct (lookup_lt_is_Some_2 gs i Hi) as [gi Hgi].
  destruct (lookup_lt_is_Some_2 gs j Hj) as [gj Hgj].
  assert (∀ (f : gaussian → R) k g, gs !! k = Some g →
            index (f <$> gs) k = Ok (f g)) as Hidx.
  { intros f k g Hk. apply index_lookup. by rewrite list_lookup_fmap, Hk. }
  rewrite !(Hidx _ _ _ Hgi), !(Hidx _ _ _ Hgj). simpl.
  assert (dominates gs i j ↔ dominated gi gj) as Hdom.
  { unfold dominates. split.
    - intros (_ & gi' & gj' & ? & ? & ?). congruence.
    - intros ?. split; [done |]. by exists gi, gj. }
  fold (dominated gi gj).
  destruct (decide (dominated gi gj)) as [Hd | Hd].
  - destruct (grouped_union p _ i j Hg) as (p' & Hu & Hlen' & Hg');
      [lia | lia |].
    exists p'. split; [done |]. split; [lia |].
    revert Hg'. apply grouped_ext. intros a b.
    rewrite elem_of_app, list_elem_of_singleton.
    split.
    + intros [[? [? | [? ?]]] | [-> ->]]; [tauto | tauto |].
      split; [by apply Hdom | right; tauto].
    + intros [? [? | [-> [? | ->]]]]; tauto.
  - exists p. split; [done |]. split; [done |].
    revert Hg. apply grouped_ext. intros a b.
    rewrite elem_of_app, list_elem_of_singleton.
    split; [tauto |].
    intros [? [? | [-> [? | ->]]]]; tauto.
Qed.

Lemma umbrella_parents_spec :
  ∃ p, umbrella_parents gs = Ok p ∧ length p = (length gs) ∧ grouped p (dominates gs).
Proof.
  unfold umbrella_parents.
  set (I := λ (seen : list nat) (p : list nat),
         length p = (length gs) ∧ grouped p (λ a b, dominates gs a b ∧ a ∈ seen)).
  destruct (for_inv I (λ parent i,
      for_ (seq 0 (length gs))
        (umbrella_merge (x <$> gs) (y <$> gs) (amp <$> gs) (var <$> gs) i)
        parent) (seq 0 (length gs))) with (seen := @nil nat) (s := seq 0 (length gs))
    as (p & Hp & Hlen & Hg).
  - intros seen i p Hi [Hlen Hg]. apply elem_of_seq in Hi.
    set (J := λ (seen_j : list nat) (p : list nat),
         length p = (length gs)
         ∧ grouped p (λ a b, dominates gs a b
                             ∧ (a ∈ seen ∨ (a = i ∧ b ∈ seen_j)))).
    destruct (for_inv J
        (umbrella_merge (x <$> gs) (y <$> gs) (amp <$> gs) (var <$> gs) i)
        (seq 0 (length gs))) with (seen := @nil nat) (s := p) as (p' & Hp' & Hlen' & Hg').
    + intros seen_j j q Hj [Hq Hgq]. apply elem_of_seq in Hj.
      destruct (umbrella_merge_spec seen i seen_j j q) as (q' & ? & ? & ?);
        [lia | lia | done | done |].
      exists q'. by split.
    + split; [done |]. revert Hg. apply grouped_ext. intros a b.
      rewrite elem_of_nil. tauto.
    + exists p'. split; [done |]. split; [done |].
      revert Hg'. apply grouped_ext. intros a b. simpl.
      rewrite elem_of_app, list_elem_of_singleton, elem_of_seq.
      unfold dominates. split.
      * intros [? [? | [? ?]]]; tauto.
      * intros [(Hne & gi & gj & Hgi & Hgj & Hd) Hor].
        split; [split; [done | by exists gi, gj] |].
        destruct Hor as [? | ->]; [by left | right].
        split; [done |]. apply lookup_lt_Some in Hgj. lia.
  - split; [by rewrite length_seq |].
    generalize (grouped_init (length gs)). apply grouped_ext. intros a b.
    rewrite elem_of_nil. tauto.
  - exists p. split; [done |]. split; [done |].
    revert Hg. apply grouped_ext. intros a b. simpl.
    rewrite elem_of_seq. unfold dominates. split; [tauto |].
    intros (Hne & gi & gj & Hgi & Hgj & Hd).
    split; [split; [done | by exists gi, gj] |].
    apply lookup_lt_Some in Hgi. lia.
Qed.
End merge_pass.

Section dict_facts.
Context {V : Type}.
Implicit Types (d : dict (list V)) (k : Z) (v : V).

Lemma lookup_setdefault_append d k v k' :
  lookup (setdefault_append k v d) k' =
    if decide (k' = k) then Some (default [] (lookup d k) ++ [v])
    else lookup d k'.
Proof.
  induction d as [|[k0 vs] d IH]; simpl.
  - repeat case_decide; congruence.
  - destruct (decide (k = k0)) as [-> | Hne]; simpl.
    + repeat (case_decide; simpl); congruence.
    + rewrite IH. repeat (case_decide; simpl); congruence.
Qed.

Lemma keys_setdefault_append d k v :
  keys (setdefault_append k v d) =
    if decide (k ∈ keys d) then keys d else keys d ++ [k].
Proof.
  unfold keys. induction d as [|[k0 vs] d IH].
  - rewrite decide_False; [done | apply not_elem_of_nil].
  - cbn [setdefault_append].
    destruct (decide (k = k0)) as [-> | Hne].
    + rewrite decide_True; [done | by left].
    + rewrite !fmap_cons, IH. cbn [fst].
      destruct (decide (k ∈ d.*1)) as [Hin | Hin].
      * rewrite decide_True; [done | by right].
      * rewrite decide_False; [done |].
        rewrite elem_of_cons. tauto.
Qed.

Lemma values_setdefault_append d k v :
  concat (values (setdefault_append k v d)) ≡ₚ concat (values d) ++ [v].
Proof.
  unfold values. induction d as [|[k0 vs] d IH]; simpl; [done |].
  destruct (decide (k = k0)) as [-> | Hne]; simpl.
  - rewrite <- !app_assoc. f_equiv. apply Permutation_app_comm.
  - rewrite IH. by rewrite app_assoc.
Qed.

Lemma lookup_None_keys {W} (d : dict W) k : lookup d k = None ↔ k ∉ keys d.
Proof.
  unfold keys. induction d as [|[k0 w] d IH]; simpl.
  - split; [intros _; apply not_elem_of_nil | done].
  - rewrite not_elem_of_cons. case_decide; [| rewrite IH]; intuition congruence.
Qed.

Lemma lookup_elem_of {W} (d : dict W) k w : lookup d k = Some w → (k, w) ∈ d.
Proof.
  induction d as [|[k0 w0] d IH]; simpl; [done |].
  case_decide; [intros [= ->]; subst; by left | intros ?; right; auto].
Qed.

Lemma elem_of_lookup {W} (d : dict W) k w :
  NoDup (keys d) → (k, w) ∈ d → lookup d k = Some w.
Proof.
  unfold keys. induction d as [|[k0 w0] d IH]; simpl.
  - intros _ H. by apply elem_of_nil in H.
  - intros Hnd Hin. apply NoDup_cons in Hnd as [Hk0 Hnd].
    apply elem_of_cons in Hin as [[= -> ->] | Hin].
    + by rewrite decide_True.
    + rewrite decide_False; [by apply IH |].
      intros ->. apply Hk0. apply list_elem_of_fmap. by exists (k0, w).
Qed.
End dict_facts.

Lemma group_pairs_snoc kvs kv :
  group_pairs (kvs ++ [kv]) = setdefault_append kv.1 kv.2 (group_pairs kvs).
Proof. unfold group_pairs. by rewrite fold_left_app. Qed.

Lemma members_snoc kvs kv k :
  members (kvs ++ [kv]) k =
    members kvs k ++ (if decide (kv.1 = k) then [kv.2] else []).
Proof.
  unfold members. rewrite filter_app, fmap_app. f_equal.
  rewrite filter_cons, filter_nil. by case_decide.
Qed.

Lemma lookup_group_pairs kvs k :
  lookup (group_pairs kvs) k =
    if decide (members kvs k = []) then None else Some (members kvs k).
Proof.
  induction kvs as [|kv kvs IH] using rev_ind; [done |].
  rewrite group_pairs_snoc, lookup_setdefault_append, members_snoc.
  destruct (decide (k = kv.1)) as [-> | Hne].
  - rewrite (decide_True (P := kv.1 = kv.1)) by done.
    rewrite (decide_False (P := members kvs kv.1 ++ [kv.2] = []))
      by (intros [_ ?]%app_nil; done).
    rewrite IH. by destruct (decide (members kvs kv.1 = [])) as [-> |].
  - rewrite (decide_False (P := kv.1 = k)) by done. by rewrite app_nil_r.
Qed.

Lemma NoDup_keys_group_pairs kvs : NoDup (keys (group_pairs kvs)).
Proof.
  induction kvs as [|kv kvs IH] using rev_ind; [constructor |].
  rewrite group_pairs_snoc, keys_setdefault_append.
  case_decide; [done |]. apply NoDup_app. split; [done |].
  split; [| apply NoDup_singleton].
  intros k Hk ->%list_elem_of_singleton. done.
Qed.

Lemma values_group_pairs kvs : concat (values (group_pairs kvs)) ≡ₚ kvs.*2.
Proof.
  induction kvs as [|kv kvs IH] using rev_ind; [done |].
  by rewrite group_pairs_snoc, values_setdefault_append, IH, fmap_app.
Qed.

Lemma elem_of_group_pairs kvs k ms :
  (k, ms) ∈ group_pairs kvs ↔ ms = members kvs k ∧ ms ≠ [].
Proof.
  split.
  - intros Hin. apply elem_of_lookup in Hin; [| apply NoDup_keys_group_pairs].
    rewrite lookup_group_pairs in Hin. case_decide; [done |].
    injection Hin as <-. done.
  - intros [-> Hne]. apply lookup_elem_of. rewrite lookup_group_pairs.
    by rewrite decide_False.
Qed.

Lemma elem_of_members kvs k v : v ∈ members kvs k ↔ (k, v) ∈ kvs.
Proof.
  unfold members. rewrite list_elem_of_fmap. split.
  - intros ([k' v'] & -> & [Hk Hin]%list_elem_of_filter). simpl in *. by subst.
  - intros Hin. exists (k, v). split; [done |]. by apply list_elem_of_filter.
Qed.

Section group_pass.
Context (gs : list gaussian) (p0 : list nat).
Hypothesis Hforest : forest p0.
Hypothesis Hlen : length p0 = (length gs).

Lemma umbrella_group_pass :
  ∃ p cl kvs,
    for_ (seq 0 (length gs)) (umbrella_group (id <$> gs)) (p0, []) = Ok (p, cl)
    ∧ cl = group_pairs kvs ∧ Forall2 (filed gs p0) (seq 0 (length gs)) kvs.
Proof.
  destruct Hforest as [rk Hrk].
  set (I := λ (seen : list nat) (st : list nat * dict (list Z)),
         ranked st.1 rk ∧ roots_kept p0 st.1
         ∧ ∃ kvs, st.2 = group_pairs kvs ∧ Forall2 (filed gs p0) seen kvs).
  destruct (for_inv I (umbrella_group (id <$> gs)) (seq 0 (length gs)))
    with (seen := @nil nat) (s := (p0, @nil (Z * list Z)))
    as ([p cl] & Hfor & _ & _ & kvs & Hcl & Hkvs).
  - intros seen idx [p cl] Hidx (Hrkp & Hkept & kvs & Hcl & Hkvs).
    simpl in *. apply elem_of_seq in Hidx.
    destruct (find_spec rk p idx Hrkp) as (p' & r & -> & Hrk' & _ & Hk' & Hr).
    { rewrite (proj1 Hkept). lia. }
    simpl.
    pose proof (roots_kept_inv p0 p rk idx r Hrk Hkept Hr) as Hr0.
    assert (r < (length gs)) as Hrn.
    { rewrite <- Hlen. eapply lookup_lt_Some, root_of_is_root, Hr0. }
    destruct (lookup_lt_is_Some_2 gs r Hrn) as [gr Hgr].
    destruct (lookup_lt_is_Some_2 gs idx) as [g Hg]; [lia |].
    rewrite (index_lookup (id <$> gs) r (id gr))
      by (by rewrite list_lookup_fmap, Hgr).
    simpl.
    rewrite (index_lookup (id <$> gs) idx (id g))
      by (by rewrite list_lookup_fmap, Hg).
    simpl. eexists. split; [done |]. simpl.
    split; [done |]. split; [by eapply roots_kept_trans |].
    exists (kvs ++ [(id gr, id g)]). split.
    + by rewrite group_pairs_snoc, Hcl.
    + apply Forall2_app; [done |]. constructor; [| constructor].
      by exists r, gr, g.
  - split; [done |]. split; [apply roots_kept_refl |].
    exists []. split; [done | constructor].
  - exists p, cl, kvs. done.
Qed.
End group_pass.

Lemma clusters_structure gs :
  ∃ p cl kvs,
    umbrella_parents gs = Ok p ∧ length p = length gs
    ∧ grouped p (dominates gs)
    ∧ umbrella_clusters_with_roots gs = Ok (cl, values cl)
    ∧ cl = group_pairs kvs
    ∧ Forall2 (filed gs p) (seq 0 (length gs)) kvs.
Proof.
  destruct (umbrella_parents_spec gs) as (p & Hp & Hlen & Hg).
  unfold umbrella_clusters_with_roots.
  destruct (decide (length gs = 0)) as [Hz | Hnz].
  - exists p, [], []. rewrite Hz.
    split; [done |]. split; [congruence |]. split; [done |].
    split; [done |]. split; [done | constructor].
  - destruct (umbrella_group_pass gs p (proj1 Hg) Hlen)
      as (p' & cl & kvs & Hfor & Hcl & Hkvs).
    exists p, cl, kvs. rewrite Hp. simpl. rewrite Hfor. simpl. done.
Qed.

Section filed_facts.
Context (gs : list gaussian) (p : list nat) (kvs : list (Z * Z)).
Hypothesis Hkvs : Forall2 (filed gs p) (seq 0 (length gs)) kvs.

Lemma filed_lookup idx g :
  gs !! idx = Some g →
  ∃ r gr, root_of p idx r ∧ gs !! r = Some gr
          ∧ kvs !! idx = Some (id gr, id g).
Proof.
  intros Hg.
  assert (seq 0 (length gs) !! idx = Some idx) as Hs
    by (apply lookup_seq; split; [done | by eapply lookup_lt_Some]).
  destruct (Forall2_lookup_l _ _ _ _ _ Hkvs Hs)
    as (kv & Hkv & r & gr & g' & Hr & Hgr & Hg' & ->).
  exists r, gr. split; [done |]. split; [done |]. congruence.
Qed.

Lemma filed_elem_of k v :
  (k, v) ∈ kvs →
  ∃ idx r gr g, root_of p idx r ∧ gs !! r = Some gr ∧ gs !! idx = Some g
                ∧ k = id gr ∧ v = id g.
Proof.
  intros [i Hi]%list_elem_of_lookup.
  destruct (Forall2_lookup_r _ _ _ _ _ Hkvs Hi)
    as (idx & Hidx & r & gr & g & Hr & Hgr & Hg & [= -> ->]).
  by exists idx, r, gr, g.
Qed.

Lemma filed_values : kvs.*2 = id <$> gs.
Proof.
  apply list_eq. intros i. rewrite !list_lookup_fmap.
  destruct (gs !! i) as [g|] eqn:Hg.
  - destruct (filed_lookup i g Hg) as (r & gr & _ & _ & ->). done.
  - apply lookup_ge_None in Hg.
    rewrite (proj2 (lookup_ge_None kvs i)); [done |].
    rewrite <- (Forall2_length _ _ _ Hkvs), length_seq. done.
Qed.

(** The root's own id is filed under its own key. *)
Lemma filed_root r gr :
  root_of p r r → gs !! r = Some gr → (id gr, id gr) ∈ kvs.
Proof.
  intros Hr Hgr. destruct (filed_lookup r gr Hgr) as (r' & gr' & Hr' & Hgr' & Hk).
  rewrite (root_of_det _ _ _ _ Hr' Hr) in Hgr'.
  assert (gr' = gr) as -> by congruence.
  apply list_elem_of_lookup. by exists r.
Qed.
End filed_facts.

(** What the clusterer returns on sources with pairwise distinct ids. *)
Lemma clusters_partition_facts gs :
  NoDup (id <$> gs) →
  ∃ cl, umbrella_clusters_with_roots gs = Ok (cl, values cl)
    ∧ NoDup (keys cl)
    ∧ concat (values cl) ≡ₚ id <$> gs
    ∧ (∀ k ms, (k, ms) ∈ cl → ms ≠ [] ∧ k ∈ ms)
    ∧ (∀ k1 ms1 k2 ms2 a, (k1, ms1) ∈ cl → (k2, ms2) ∈ cl →
         a ∈ ms1 → a ∈ ms2 → k1 = k2 ∧ ms1 = ms2).
Proof.
  intros Hnd.
  destruct (clusters_structure gs) as (p & cl & kvs & _ & _ & _ & Hcl & -> & Hkvs).
  exists (group_pairs kvs). split; [done |].
  split; [apply NoDup_keys_group_pairs |].
  split; [by rewrite values_group_pairs, (filed_values gs p kvs) |].
  split.
  - intros k ms [-> Hne]%elem_of_group_pairs. split; [done |].
    destruct (members kvs k) as [|v ms] eqn:Hms; [done |].
    assert ((k, v) ∈ kvs) as Hin by (apply elem_of_members; rewrite Hms; by left).
    destruct (filed_elem_of gs p kvs Hkvs k v Hin)
      as (idx & r & gr & g & Hr & Hgr & _ & -> & _).
    rewrite <- Hms. apply elem_of_members.
    apply (filed_root gs p kvs Hkvs r gr); [| done].
    constructor. by eapply root_of_is_root.
  - intros k1 ms1 k2 ms2 a [-> _]%elem_of_group_pairs
      [-> _]%elem_of_group_pairs H1%elem_of_members H2%elem_of_members.
    destruct (filed_elem_of gs p kvs Hkvs _ _ H1)
      as (i1 & r1 & gr1 & g1 & Hr1 & Hgr1 & Hg1 & -> & Ha1).
    destruct (filed_elem_of gs p kvs Hkvs _ _ H2)
      as (i2 & r2 & gr2 & g2 & Hr2 & Hgr2 & Hg2 & -> & Ha2).
    assert (i1 = i2) as ->.
    { apply (NoDup_lookup (id <$> gs) i1 i2 a Hnd);
        rewrite list_lookup_fmap; [rewrite Hg1 | rewrite Hg2]; simpl; congruence. }
    rewrite (root_of_det _ _ _ _ Hr1 Hr2) in Hgr1.
    assert (gr1 = gr2) as -> by congruence. done.
Qed.

Lemma result_bind_Ok {A} (m : result A) : (a ← m; Ok a) = m.
Proof. by destruct m. Qed.

Lemma for_app {A S} (body : S → A → result S) l1 l2 s :
  for_ (l1 ++ l2) body s = (s' ← for_ l1 body s; for_ l2 body s').
Proof.
  revert s. induction l1 as [|a l1 IH]; intros s; simpl; [done |].
  destruct (body s a); simpl; [apply IH | done].
Qed.

Lemma for_ext {A S} (body body' : S → A → result S) l s :
  (∀ s a, a ∈ l → body s a = body' s a) → for_ l body s = for_ l body' s.
Proof.
  revert s. induction l as [|a l IH]; intros s H; simpl; [done |].
  rewrite (H s a) by (by left). destruct (body' s a); simpl; [| done].
  apply IH. intros ???. apply H. by right.
Qed.

Lemma for_bind {A B S} (f : A → list B) (body : S → B → result S) l s :
  for_ (l ≫= f) body s = for_ l (λ s a, for_ (f a) body s) s.
Proof.
  revert s. induction l as [|a l IH]; intros s; [done |].
  change ((a :: l) ≫= f) with (f a ++ (l ≫= f)).
  rewrite for_app. simpl. destruct (for_ (f a) body s); simpl; [apply IH | done].
Qed.

Lemma for_filter {A S} (P : A → Prop) `{∀ a, Decision (P a)}
    (body : S → A → result S) l s :
  (∀ s a, a ∈ l → ¬ P a → body s a = Ok s) →
  for_ (filter P l) body s = for_ l body s.
Proof.
  revert s. induction l as [|a l IH]; intros s Hskip; [done |].
  rewrite filter_cons. destruct (decide (P a)) as [Ha | Ha]; simpl.
  - destruct (body s a); simpl; [| done].
    apply IH. intros ????. apply Hskip; [by right | done].
  - rewrite (Hskip s a) by (done || by left). simpl.
    apply IH. intros ????. apply Hskip; [by right | done].
Qed.

Lemma umbrella_merge_eq gs i j p :
  i < length gs → j < length gs →
  umbrella_merge (x <$> gs) (y <$> gs) (amp <$> gs) (var <$> gs) i p j
  = if decide (dominates gs i j) then union p i j else Ok p.
Proof.
  intros Hi Hj. unfold umbrella_merge.
  destruct (decide (i = j)) as [<- | Hne].
  { rewrite decide_False; [done |]. by intros [? _]. }
  destruct (lookup_lt_is_Some_2 gs i Hi) as [gi Hgi].
  destruct (lookup_lt_is_Some_2 gs j Hj) as [gj Hgj].
  assert (∀ (f : gaussian → R) k g, gs !! k = Some g →
            index (f <$> gs) k = Ok (f g)) as Hidx.
  { intros f k g Hk. apply index_lookup. by rewrite list_lookup_fmap, Hk. }
  rewrite !(Hidx _ _ _ Hgi), !(Hidx _ _ _ Hgj). simpl.
  fold (dominated gi gj).
  assert (dominates gs i j ↔ dominated gi gj) as Hdom.
  { unfold dominates. split.
    - intros (_ & gi' & gj' & ? & ? & ?). congruence.
    - intros ?. split; [done |]. by exists gi, gj. }
  destruct (decide (dominated gi gj)) as [Hd | Hd].
  - rewrite decide_True; [done | by apply Hdom].
  - rewrite decide_False; [done | by rewrite Hdom].
Qed.

Lemma umbrella_parents_unions gs :
  umbrella_parents gs
  = for_ (union_calls gs) (λ parent ij, union parent ij.1 ij.2)
      (seq 0 (length gs)).
Proof.
  unfold umbrella_parents, union_calls, ordered_pairs.
  set (n := length gs).
  set (B := λ (parent : list nat) (ij : nat * nat),
         if decide (dominates gs ij.1 ij.2) then union parent ij.1 ij.2
         else Ok parent).
  rewrite (for_ext _ B).
  2:{ intros s [i j] [Hd _]%list_elem_of_filter. unfold B.
      by rewrite decide_True. }
  rewrite for_filter.
  2:{ intros s [i j] _ Hd. unfold B. by rewrite decide_False. }
  rewrite for_bind. apply for_ext. intros p i Hi%elem_of_seq.
  rewrite for_bind. apply for_ext. intros q j Hj%elem_of_seq.
  simpl. rewrite result_bind_Ok. unfold B. simpl.
  apply umbrella_merge_eq; lia.
Qed.

(** The merge pass and the labels of the groups. *)
Lemma clusters_labelled gs :
  ∃ parent clusters,
    umbrella_parents gs = Ok parent
    ∧ umbrella_parents gs
      = for_ (union_calls gs) (λ parent ij, union parent ij.1 ij.2)
          (seq 0 (length gs))
    ∧ (∀ a b, a < length gs → b < length gs →
         (same_root parent a b ↔ rtsc (dominates gs) a b))
    ∧ umbrella_clusters_with_roots gs = Ok (clusters, values clusters)
    ∧ (∀ idx g, gs !! idx = Some g →
         ∃ r gr ms, root_of parent idx r ∧ gs !! r = Some gr
           ∧ lookup clusters (id gr) = Some ms ∧ id g ∈ ms)
    ∧ (∀ k, k ∈ keys clusters →
         ∃ r gr, root_of parent r r ∧ gs !! r = Some gr ∧ k = id gr).
Proof.
  destruct (clusters_structure gs) as (p & cl & kvs & Hp & Hlen & Hg & Hcl & -> & Hkvs).
  exists p, (group_pairs kvs). split; [done |].
  split; [apply umbrella_parents_unions |].
  split; [intros a b Ha Hb; apply Hg; lia |].
  split; [done |]. split.
  - intros idx g Hidx.
    destruct (filed_lookup gs p kvs Hkvs idx g Hidx) as (r & gr & Hr & Hgr & Hk).
    exists r, gr, (members kvs (id gr)). split; [done |]. split; [done |].
    assert (id g ∈ members kvs (id gr)) as Hin.
    { apply elem_of_members, list_elem_of_lookup. by exists idx. }
    split; [| done]. rewrite lookup_group_pairs.
    rewrite decide_False; [done |]. intros Hnil. rewrite Hnil in Hin.
    by apply elem_of_nil in Hin.
  - intros k Hk. apply list_elem_of_fmap in Hk as ([k' ms] & -> & Hin).
    apply elem_of_group_pairs in Hin as [-> Hne]. simpl.
    destruct (members kvs k') as [|v ms] eqn:Hms; [done |].
    assert ((k', v) ∈ kvs) as Hin by (apply elem_of_members; rewrite Hms; by left).
    destruct (filed_elem_of gs p kvs Hkvs k' v Hin)
      as (idx & r & gr & g & Hr & Hgr & _ & -> & _).
    exists r, gr. split; [| done]. constructor. by eapply root_of_is_root.
Qed.

Lemma connected_of_dominates gs i j gi gj :
  gs !! i = Some gi → gs !! j = Some gj →
  rtsc (dominates gs) i j → connected gs gi gj.
Proof.
  intros Hi Hj H. revert gi Hi.
  induction H as [i | i c j Hic _ IH]; intros gi Hi.
  - assert (gi = gj) as -> by congruence. done.
  - assert (∃ gc, gs !! c = Some gc ∧ connected gs gi gc) as (gc & Hc & Hconn).
    { destruct Hic as [(_ & g1 & g2 & H1 & H2 & Hd) | (_ & g1 & g2 & H1 & H2 & Hd)].
      - exists g2. split; [done |]. assert (g1 = gi) as -> by congruence.
        apply rtsc_lr. split; [by eapply list_elem_of_lookup_2 |].
        split; [by eapply list_elem_of_lookup_2 | done].
      - exists g1. split; [done |]. assert (g2 = gi) as -> by congruence.
        apply rtsc_rl. split; [by eapply list_elem_of_lookup_2 |].
        split; [by eapply list_elem_of_lookup_2 | done]. }
    etrans; [exact Hconn | by apply IH].
Qed.

Lemma dominates_of_connected gs g g' :
  NoDup gs → connected gs g g' →
  ∀ i j, gs !! i = Some g → gs !! j = Some g' → rtsc (dominates gs) i j.
Proof.
  intros Hnd H. induction H as [g | g gc g' Hgc _ IH]; intros i j Hi Hj.
  - by rewrite (NoDup_lookup gs i j g Hnd Hi Hj).
  - assert (gc ∈ gs) as [c Hc]%list_elem_of_lookup
      by (destruct Hgc as [(_ & ? & _) | (? & _ & _)]; done).
    etrans; [| by apply (IH c j)].
    destruct (decide (i = c)) as [-> | Hne]; [done |].
    destruct Hgc as [(_ & _ & Hd) | (_ & _ & Hd)].
    + apply rtsc_lr. split; [done |]. by exists g, gc.
    + apply rtsc_rl. split; [done |]. by exists gc, g.
Qed.

Lemma connected_Permutation gs gs' g g' :
  gs ≡ₚ gs' → connected gs g g' → connected gs' g g'.
Proof.
  intros Hp. apply rtsc_ext. intros a b (Ha & Hb & Hd).
  by rewrite <- Hp.
Qed.

(** Each member list is the class of its elements under [connected]. *)
Lemma clusters_class gs :
  NoDup (id <$> gs) →
  ∃ cl, umbrella_clusters_with_roots gs = Ok (cl, values cl)
    ∧ ∀ k ms, (k, ms) ∈ cl →
        NoDup ms ∧ ms ≠ []
        ∧ (∀ a, a ∈ ms → ∃ g, g ∈ gs ∧ id g = a)
        ∧ (∀ g, g ∈ gs → id g ∈ ms →
             ∀ b, b ∈ ms ↔ ∃ g', g' ∈ gs ∧ id g' = b ∧ connected gs g g').
Proof.
  intros Hnd. pose proof (NoDup_fmap_1 _ _ Hnd) as Hndg.
  destruct (clusters_structure gs) as (p & cl & kvs & _ & Hlen & Hg & Hcl & -> & Hkvs).
  exists (group_pairs kvs). split; [done |].
  intros k ms [-> Hne]%elem_of_group_pairs.
  assert (∀ a, a ∈ members kvs k →
    ∃ idx r gr g, root_of p idx r ∧ gs !! r = Some gr ∧ gs !! idx = Some g
                  ∧ k = id gr ∧ a = id g) as Hmem.
  { intros a Ha%elem_of_members. by apply (filed_elem_of gs p kvs). }
  split.
  { apply (sublist_NoDup (members kvs k) (id <$> gs)); [exact Hnd |].
    rewrite <- (filed_values gs p kvs Hkvs). unfold members.
    apply fmap_sublist, sublist_filter. }
  split; [done |]. split.
  { intros a (idx & r & gr & g & _ & _ & Hgi & _ & ->)%Hmem.
    exists g. split; [by eapply list_elem_of_lookup_2 | done]. }
  intros g Hgin Hgms b.
  destruct (Hmem _ Hgms) as (i & r & gr & g0 & Hr & Hgr & Hg0 & -> & Hid).
  assert (g0 = g) as ->.
  { apply list_elem_of_lookup in Hgin as [i' Hi'].
    assert (i' = i) as ->; [| congruence].
    apply (NoDup_lookup (id <$> gs) i' i (id g) Hnd);
      rewrite list_lookup_fmap; [rewrite Hi' | rewrite Hg0]; simpl; congruence. }
  assert (i < length p) as Hip by (rewrite Hlen; by eapply lookup_lt_Some).
  split.
  - intros (j & r' & gr' & g' & Hr' & Hgr' & Hg' & Hk & ->)%Hmem.
    exists g'. split; [by eapply list_elem_of_lookup_2 |]. split; [done |].
    assert (r' = r) as ->.
    { apply (NoDup_lookup (id <$> gs) r' r (id gr) Hnd);
        rewrite list_lookup_fmap; [rewrite Hgr' | rewrite Hgr]; simpl; congruence. }
    apply (connected_of_dominates gs i j); [done | done |].
    apply Hg; [done | rewrite Hlen; by eapply lookup_lt_Some |].
    by exists r.
  - intros (g' & [j Hj]%list_elem_of_lookup & <- & Hconn).
    apply elem_of_members.
    destruct (filed_lookup gs p kvs Hkvs j g' Hj) as (r' & gr' & Hr' & Hgr' & Hk).
    assert (same_root p i j) as (r0 & H1 & H2).
    { apply Hg; [done | rewrite Hlen; by eapply lookup_lt_Some |].
      by apply (dominates_of_connected gs g g'). }
    rewrite (root_of_det _ _ _ _ Hr H1) in Hgr.
    rewrite (root_of_det _ _ _ _ Hr' H2) in Hgr'.
    assert (gr' = gr) as -> by congruence.
    apply list_elem_of_lookup. by exists j.
Qed.

Lemma clusters_class_transfer gs gs' :
  NoDup (id <$> gs) → gs ≡ₚ gs' →
  ∃ cl cl',
    umbrella_clusters_with_roots gs = Ok (cl, values cl)
    ∧ umbrella_clusters_with_roots gs' = Ok (cl', values cl')
    ∧ ∀ ms, ms ∈ values cl → ∃ ms', ms' ∈ values cl' ∧ ms ≡ₚ ms'.
Proof.
  intros Hnd Hp.
  assert (NoDup (id <$> gs')) as Hnd' by (by rewrite <- Hp).
  destruct (clusters_class gs Hnd) as (cl & Hcl & Hclass).
  destruct (clusters_class gs' Hnd') as (cl' & Hcl' & Hclass').
  destruct (clusters_partition_facts gs' Hnd') as (cl2 & Hcl2 & _ & Hperm & _).
  assert (cl2 = cl') as -> by congruence.
  exists cl, cl'. split; [done |]. split; [done |].
  intros ms ([k ms0] & -> & Hin)%list_elem_of_fmap. simpl.
  destruct (Hclass k ms0 Hin) as (Hndms & Hne & Hsrc & Hchar).
  assert (∃ a, a ∈ ms0) as [a Ha].
  { destruct ms0 as [|a tl]; [done | exists a; by left]. }
  destruct (Hsrc a Ha) as (g & Hg & <-).
  assert (id g ∈ concat (values cl')) as Hcov.
  { rewrite Hperm. apply list_elem_of_fmap. exists g. by rewrite <- Hp. }
  apply list_elem_of_In, in_concat in Hcov as (ms' & Hms' & Hgms').
  apply list_elem_of_In in Hms', Hgms'.
  exists ms'. split; [done |].
  apply list_elem_of_fmap in Hms' as ([k' ms1] & -> & Hin').
  destruct (Hclass' k' ms1 Hin') as (Hndms' & _ & _ & Hchar'). simpl in *.
  apply NoDup_Permutation; [done | done |].
  intros b. rewrite (Hchar g Hg Ha b).
  rewrite (Hchar' g) by (done || by rewrite <- Hp).
  split; intros (g' & Hg' & Hb & Hc); exists g'.
  - split; [by rewrite <- Hp |]. split; [done |].
    by apply (connected_Permutation gs gs').
  - split; [by rewrite Hp |]. split; [done |].
    by apply (connected_Permutation gs' gs).
Qed.

Lemma a_dominated_by_b : dominated source_a source_b.
Proof.
  unfold dominated. simpl.
  replace (- ((0 - 0) * (0 - 0) + (0 - 0) * (0 - 0)) / (2 * 4))%R with 0%R
    by (field; lra).
  rewrite exp_0. lra.
Qed.

Lemma b_not_dominated_by_a : ¬ dominated source_b source_a.
Proof.
  unfold dominated. simpl.
  replace (- ((0 - 0) * (0 - 0) + (0 - 0) * (0 - 0)) / (2 * 4))%R with 0%R
    by (field; lra).
  rewrite exp_0. lra.
Qed.

(** The coincident pair forms one cluster rooted at the stronger source. *)
Lemma coincident_pair_clusters :
  umbrella_clusters_with_roots [source_a; source_b]
  = Ok ([(2, [1; 2])], [[1; 2]])%Z.
Proof.
  unfold umbrella_clusters_with_roots, umbrella_parents. simpl.
  unfold umbrella_merge. simpl.
  fold (dominated source_a source_b). fold (dominated source_b source_a).
  rewrite (decide_True (P := dominated source_a source_b))
    by apply a_dominated_by_b.
  simpl. fold (dominated source_b source_a).
  rewrite (decide_False (P := dominated source_b source_a))
    by apply b_not_dominated_by_a.
  reflexivity.
Qed.

Lemma pair_variances : Forall (λ g, (0 < var g)%R) [source_a; source_b].
Proof. repeat constructor; simpl; lra. Qed.

Lemma pair_ids : NoDup (id <$> [source_a; source_b]).
Proof.
  apply NoDup_cons. split; [intros [=]%list_elem_of_singleton |].
  apply NoDup_singleton.
Qed.

Lemma exp_minus_2 : (exp (-2) < 1 / 3)%R.
Proof.
  replace (-2)%R with (Ropp 2) by lra. rewrite exp_Ropp.
  assert (3 < exp 2)%R as H by (pose proof (exp_ineq1 2); lra).
  apply Rinv_lt_contravar in H; [| nra]. lra.
Qed.

Lemma a_not_dominated_by_far : ¬ dominated source_a source_far.
Proof.
  unfold dominated. simpl.
  replace (- ((0 - 4) * (0 - 4) + (0 - 0) * (0 - 0)) / (2 * 4))%R with (-2)%R
    by (field; lra).
  pose proof exp_minus_2. lra.
Qed.

Lemma far_not_dominated_by_a : ¬ dominated source_far source_a.
Proof.
  unfold dominated. simpl.
  replace (- ((4 - 0) * (4 - 0) + (0 - 0) * (0 - 0)) / (2 * 4))%R with (-2)%R
    by (field; lra).
  pose proof exp_minus_2. lra.
Qed.

(** Four units apart the two sources stay in clusters of their own. *)
Lemma distant_pair_clusters :
  umbrella_clusters_with_roots [source_a; source_far]
  = Ok ([(1, [1]); (2, [2])], [[1]; [2]])%Z.
Proof.
  unfold umbrella_clusters_with_roots, umbrella_parents. simpl.
  unfold umbrella_merge. simpl.
  fold (dominated source_a source_far). fold (dominated source_far source_a).
  rewrite (decide_False (P := dominated source_a source_far))
    by apply a_not_dominated_by_far.
  simpl. fold (dominated source_far source_a).
  rewrite (decide_False (P := dominated source_far source_a))
    by apply far_not_dominated_by_a.
  reflexivity.
Qed.

(** * Correspondence and events *)

Lemma for_enumerate_inv {A St} (I : nat → St → Prop)
    (body : St → nat * A → result St) (l : list A) s :
  I 0 s →
  (∀ k a s, l !! k = Some a → I k s → ∃ s', body s (k, a) = Ok s' ∧ I (S k) s') →
  ∃ s', for_ (enumerate l) body s = Ok s' ∧ I (length l) s'.
Proof.
  intros H0 Hstep. unfold enumerate.
  assert (∀ suf pre s, l = pre ++ suf → I (length pre) s →
    ∃ s', for_ (zip (seq (length pre) (length suf)) suf) body s = Ok s'
          ∧ I (length l) s') as Hgen.
  { induction suf as [|a suf IH]; intros pre s0 Hl Hs0.
    - exists s0. split; [done |]. rewrite Hl, app_nil_r. done.
    - destruct (Hstep (length pre) a s0) as (s1 & Hb & Hs1); [| done |].
      { rewrite Hl. by rewrite list_lookup_middle. }
      destruct (IH (pre ++ [a]) s1) as (s2 & Hf & Hs2).
      { by rewrite <- app_assoc. }
      { rewrite length_app. simpl. by rewrite Nat.add_1_r. }
      exists s2. split; [| done]. simpl. rewrite Hb. simpl.
      rewrite length_app in Hf. simpl in Hf. by rewrite Nat.add_1_r in Hf. }
  apply (Hgen l [] s); done.
Qed.

Lemma getitem_keys {V} (d : dict V) i k :
  keys d !! i = Some k → ∃ v, lookup d k = Some v ∧ getitem d k = Ok v.
Proof.
  intros Hk. destruct (lookup d k) as [v|] eqn:Hl.
  - exists v. split; [done |]. unfold getitem. by rewrite Hl.
  - exfalso. revert i Hk Hl. unfold keys.
    induction d as [|[k0 v0] d IH]; intros i Hk Hl; [done |].
    simpl in Hl. destruct (decide (k = k0)); [done |].
    destruct i as [|i]; simpl in Hk; [congruence |]. by eapply IH.
Qed.

Lemma overlap_sets prev curr r_i r_j mi mj :
  lookup prev r_i = Some mi → lookup curr r_j = Some mj →
  (list_to_set mi : gset Z) ∩ list_to_set mj ≠ ∅ ↔ overlap prev curr r_i r_j.
Proof.
  intros Hi Hj. split.
  - intros [a Ha]%set_choose_L.
    apply elem_of_intersection in Ha as [Ha1 Ha2].
    apply elem_of_list_to_set in Ha1, Ha2. by exists mi, mj, a.
  - intros (mi' & mj' & a & ? & ? & ? & ?) Hempty.
    assert (mi' = mi) as -> by congruence.
    assert (mj' = mj) as -> by congruence.
    assert (a ∈ (list_to_set mi : gset Z) ∩ list_to_set mj) as Ha
      by (apply elem_of_intersection; split; by apply elem_of_list_to_set).
    rewrite Hempty in Ha. by apply elem_of_empty in Ha.
Qed.

Section matrix.
Context (prev curr : dict (list Z)).

Lemma matrix_inner_loop k r_i mi (above : list (list Z)) :
  lookup prev r_i = Some mi → length above = k →
  ∀ below,
  for_ (enumerate (keys curr)) (λ M '(j, r_curr),
      curr_ids ← getitem curr r_curr;
      let curr_ids : gset Z := list_to_set curr_ids in
      if decide ((list_to_set mi : gset Z) ∩ curr_ids ≠ ∅)
      then Ok (mat_set M k j 1%Z) else Ok M)
    (above ++ replicate (length (keys curr)) 0%Z :: below)
  = Ok (above ++ overlap_row prev curr r_i :: below).
Proof.
  intros Hmi Hk below.
  set (I := λ (c : nat) (M : list (list Z)),
    M = above ++ (take c (overlap_row prev curr r_i) ++ replicate ((length (keys curr)) - c) 0%Z) :: below).
  match goal with
  | |- for_ (enumerate ?l) ?body ?s = _ =>
      destruct (for_enumerate_inv I body l s) as (M & HM & HI);
        [| | rewrite HM]
  end.
  - unfold I. by rewrite take_0, Nat.sub_0_r.
  - intros c r_j M Hc ->.
    destruct (getitem_keys curr c r_j Hc) as (mj & Hl & ->). simpl.
    assert (c < (length (keys curr))) as Hcn by (by eapply lookup_lt_Some).
    assert (overlap_row prev curr r_i !! c = Some (overlap_cell prev curr r_i r_j)) as Hfr
      by (unfold overlap_row; by rewrite list_lookup_fmap, Hc).
    assert (length (take c (overlap_row prev curr r_i)) = c) as Htk.
    { rewrite length_take. unfold overlap_row. rewrite length_fmap.
lia. }
    unfold I. rewrite (take_S_r _ _ _ Hfr), <- app_assoc. simpl.
    replace ((length (keys curr)) - c) with (S ((length (keys curr)) - S c)) by lia. simpl.
    destruct (decide (_ ∩ _ ≠ ∅)) as [Hov | Hov];
      rewrite (overlap_sets prev curr r_i r_j mi mj Hmi Hl) in Hov.
    + eexists. split; [done |]. unfold mat_set.
      replace k with (length above + 0) by lia.
      rewrite alter_app_r. simpl. f_equal. f_equal.
      replace c with (length (take c (overlap_row prev curr r_i)) + 0) at 1 by lia.
      rewrite insert_app_r. simpl. unfold overlap_cell. by rewrite decide_True.
    + eexists. split; [done |]. unfold overlap_cell. by rewrite decide_False.
  - f_equal. rewrite HI. f_equal. f_equal.
    assert (length (overlap_row prev curr r_i) = (length (keys curr))) as Hlen
      by (unfold overlap_row; by rewrite length_fmap).
    rewrite take_ge by lia. rewrite Nat.sub_diag. simpl.
    by rewrite app_nil_r.
Qed.

Lemma correspondence_matrix_spec :
  correspondence_matrix_with_roots prev curr
  = Ok (overlap_matrix prev curr, keys prev, keys curr).
Proof.
  unfold correspondence_matrix_with_roots. 
  set (I := λ (k : nat) (M : list (list Z)),
    M = take k (overlap_matrix prev curr)
        ++ replicate ((length (keys prev)) - k) (replicate (length (keys curr)) 0%Z)).
  match goal with
  | |- context [for_ (enumerate ?l) ?body ?s] =>
      destruct (for_enumerate_inv I body l s) as (M & HM & HI);
        [| | rewrite HM]
  end.
  - unfold I. by rewrite take_0, Nat.sub_0_r.
  - intros k r_i M Hk ->.
    destruct (getitem_keys prev k r_i Hk) as (mi & Hl & ->). simpl.
    assert (k < (length (keys prev))) as Hkn by (by eapply lookup_lt_Some).
    assert (overlap_matrix prev curr !! k = Some (overlap_row prev curr r_i)) as Hrow
      by (unfold overlap_matrix; by rewrite list_lookup_fmap, Hk).
    replace ((length (keys prev)) - k) with (S ((length (keys prev)) - S k)) by lia. simpl.
    rewrite (matrix_inner_loop k r_i mi); [| done |].
    2:{ rewrite length_take. unfold overlap_matrix. rewrite length_fmap.
lia. }
    eexists. split; [done |]. unfold I.
    by rewrite (take_S_r _ _ _ Hrow), <- app_assoc.
  - simpl. f_equal. rewrite HI.
    assert (length (overlap_matrix prev curr) = (length (keys prev))) as Hlen
      by (unfold overlap_matrix; by rewrite length_fmap).
    rewrite take_ge by lia. rewrite Nat.sub_diag. simpl.
    by rewrite app_nil_r.
Qed.
End matrix.

Lemma comprehension_fmap {A B} (f : A → result B) (g : A → B) l :
  (∀ a, a ∈ l → f a = Ok (g a)) → comprehension f l = Ok (g <$> l).
Proof.
  induction l as [|a l IH]; intros H; simpl; [done |].
  rewrite (H a) by (by left). simpl. rewrite IH; [done |].
  intros ??. apply H. by right.
Qed.

Lemma where_indices (P : Z → Prop) `{∀ r, Decision (P r)} (l : list Z) :
  ∀ pre,
  let column := (λ r, if decide (P r) then 1%Z else 0%Z) <$> l in
  let rows :=
    (filter (λ iv : nat * Z, iv.2 = 1%Z)
       (zip (seq (length pre) (length l)) column)).*1 in
  comprehension (λ i, index (pre ++ l) i) rows = Ok (filter P l)
  ∧ length rows = length (filter P l).
Proof.
  induction l as [|r l IH]; intros pre; simpl; [done |].
  specialize (IH (pre ++ [r])).
  rewrite length_app, Nat.add_1_r, <- app_assoc in IH. simpl in IH.
  destruct IH as [IH1 IH2].
  rewrite !filter_cons. simpl.
  destruct (decide (P r)) as [Hr | Hr]; simpl.
  - assert (index (pre ++ r :: l) (length pre) = Ok r) as ->
      by (by apply index_lookup, list_lookup_middle).
    simpl. fold_classes. split; [by rewrite IH1 | by f_equal].
  - done.
Qed.

Lemma contributing_sources prev curr j r_j :
  keys curr !! j = Some r_j →
  ∃ contributing,
    contributing_rows (overlap_matrix prev curr) j = Ok contributing
    ∧ comprehension (λ i, index (keys prev) i) contributing
      = Ok (contributors prev curr r_j)
    ∧ length contributing = length (contributors prev curr r_j).
Proof.
  intros Hj. unfold contributing_rows, overlap_matrix.
  rewrite (comprehension_fmap _
    (λ row : list Z, default 0%Z (row !! j))).
  2:{ intros row (r_i & -> & _)%list_elem_of_fmap. apply index_Ok.
      unfold overlap_row. by rewrite list_lookup_fmap, Hj. }
  simpl. eexists. split; [done |].
  rewrite <- list_fmap_compose. unfold enumerate. rewrite length_fmap.
  pose proof (where_indices (λ r_i, overlap prev curr r_i r_j) (keys prev) [])
    as Hw.
  simpl in Hw. unfold contributors.
  rewrite (list_fmap_ext _
    (λ r_i, if decide (overlap prev curr r_i r_j) then 1%Z else 0%Z)
    (keys prev)); [exact Hw |].
  intros _ r_i _. simpl. unfold overlap_row.
  by rewrite list_lookup_fmap, Hj.
Qed.

Lemma births_fold (t : Z) (roots : list Z) :
  ∀ events births,
  fold_left (λ '(events, births) r,
      (events ++ [{| ev_time := t; ev_type := "birth";
                     ev_target := Some [r]; ev_id := Some r;
                     ev_sources := Some []; ev_root := None |}],
       births ++ [r])) roots (events, births)
  = (events ++ (birth_event t <$> roots), births ++ roots).
Proof.
  induction roots as [|r roots IH]; intros events births; simpl.
  - by rewrite !app_nil_r.
  - rewrite IH, <- !app_assoc. done.
Qed.

Lemma merges_of_snoc prev curr t roots r :
  merges_of prev curr t (roots ++ [r])
  = merges_of prev curr t roots
    ++ (if decide (1 < length (contributors prev curr r))
        then [merge_event t r (contributors prev curr r)] else []).
Proof.
  unfold merges_of. rewrite bind_app. f_equal. simpl. by rewrite app_nil_r.
Qed.

Lemma detect_events_spec prev curr t :
  detect_events_from_correspondence_matrix
    (overlap_matrix prev curr) (keys prev) (keys curr) t
  = Ok ((birth_event t <$> new_roots prev curr)
        ++ merges_of prev curr t (keys curr),
        new_roots prev curr).
Proof.
  unfold detect_events_from_correspondence_matrix.
  fold (new_roots prev curr). rewrite births_fold. simpl.
  set (I := λ (k : nat) (events : list event),
    events = (birth_event t <$> new_roots prev curr)
             ++ merges_of prev curr t (take k (keys curr))).
  match goal with
  | |- context [for_ (enumerate ?l) ?body ?s] =>
      destruct (for_enumerate_inv I body l s) as (evs & Hevs & HI);
        [| | rewrite Hevs]
  end.
  - unfold I. by rewrite take_0, app_nil_r.
  - intros k r_j events Hk ->.
    destruct (contributing_sources prev curr k r_j Hk) as (rows & -> & Hsrc & Hlen).
    simpl. unfold I. rewrite (take_S_r _ _ _ Hk), merges_of_snoc, Hlen.
    destruct (decide (1 < length (contributors prev curr r_j))).
    + rewrite Hsrc. simpl. eexists. split; [done |]. by rewrite app_assoc.
    + eexists. split; [done |]. by rewrite !app_nil_r.
  - simpl. rewrite HI, take_ge by done. done.
Qed.

Lemma merge_event_elem_of prev curr t r_j events :
  events = (birth_event t <$> new_roots prev curr)
           ++ merges_of prev curr t (keys curr) →
  r_j ∈ keys curr →
  merge_event t r_j (contributors prev curr r_j) ∈ events
  ↔ 1 < length (contributors prev curr r_j).
Proof.
  intros -> Hr. rewrite elem_of_app. unfold merges_of.
  rewrite list_elem_of_fmap, list_elem_of_bind. split.
  - intros [(r & Heq & _) | (r & Hin & _)]; [done |].
    case_decide; [| by apply elem_of_nil in Hin].
    apply list_elem_of_singleton in Hin. injection Hin as -> _. done.
  - intros Hlen. right. exists r_j. split; [| done].
    rewrite decide_True by done. by left.
Qed.

Lemma update_umbrella_tracking_spec scene fs d t :
  ∃ cl m evs,
    umbrella_clusters_with_roots (gcopy scene) = Ok (cl, values cl)
    ∧ clusters m = cl
    ∧ update_umbrella_tracking scene fs d t =
        match makedirs fs d with
        | Raise e => (Raise e, fs)
        | Ok fs1 =>
            match dump_snapshot fs1 d t m with
            | Raise e => (Raise e, fs1)
            | Ok fs2 => (Ok (set_prev_clusters scene cl, evs), fs2)
            end
        end.
Proof.
  destruct (clusters_structure (gcopy scene)) as (p & cl & kvs & _ & _ & _ & Hcl & _).
  unfold update_umbrella_tracking. fold (gcopy scene). rewrite Hcl. simpl.
  destruct (gaussian_scene._prev_clusters scene) as [prev|]; simpl.
  - rewrite correspondence_matrix_spec. simpl.
    rewrite detect_events_spec. simpl.
    eexists cl, _, _. split; [done |]. split; [| reflexivity]. done.
  - eexists cl, _, _. split; [done |]. split; [| reflexivity]. done.
Qed.

Lemma dump_snapshot_read_only fs d t m :
  read_only fs = true → dump_snapshot fs d t m = Raise OSError.
Proof. intros H. unfold dump_snapshot. by rewrite H. Qed.

Lemma update_umbrella_tracking_read_only scene fs d t :
  read_only fs = true →
  update_umbrella_tracking scene fs d t = (Raise OSError, fs).
Proof.
  intros Hro.
  destruct (update_umbrella_tracking_spec scene fs d t) as (cl & m & evs & _ & _ & ->).
  unfold makedirs. destruct (decide (d ∈ dirs fs)).
  - by rewrite dump_snapshot_read_only.
  - by rewrite Hro.
Qed.

Lemma one_source_clusters :
  umbrella_clusters_with_roots (gcopy one_source_scene)
  = Ok ([(1, [1])], [[1]])%Z.
Proof. reflexivity. Qed.

(** When the snapshot is written the new clustering becomes the previous one. *)
Lemma snapshot_success_keeps_clustering self fs stdout :
  read_only fs = false →
  ∃ cl evs fs',
    umbrella_clusters_with_roots (gcopy (gui.gaussian_scene self))
    = Ok (cl, values cl)
    ∧ gui._update_timer self fs stdout
      = ({| gui.gaussian_scene := set_prev_clusters (gui.gaussian_scene self) cl;
            gui.events := gui.events self ++ evs;
            gui.tracking_timestep := gui.tracking_timestep self + 1 |},
         fs', stdout).
Proof.
  intros Hro. unfold gui._update_timer.
  destruct (update_umbrella_tracking_spec (gui.gaussian_scene self) fs
              "umbrella_output" (gui.tracking_timestep self))
    as (cl & m & evs & Hcl & _ & ->).
  exists cl, evs. unfold makedirs, dump_snapshot.
  destruct (decide ("umbrella_output" ∈ dirs fs)) as [Hin | Hin].
  - rewrite Hro, decide_True by done. eexists. done.
  - rewrite Hro. simpl. rewrite decide_True by set_solver. eexists. done.
Qed.

End clustering_proofs.

(** * The scene *)

Section scene_proofs.
Import gaussian_scene.

Lemma sqrt_Ok a : (0 <= a)%R → sqrt a = Ok (R_sqrt.sqrt a).
Proof. intros H. unfold sqrt. rewrite decide_False; [done | lra]. Qed.

Lemma sqrt_Raise a : (a < 0)%R → sqrt a = Raise ValueError.
Proof. intros H. unfold sqrt. by rewrite decide_True. Qed.

Lemma div_Ok a b : b ≠ 0%R → div a b = Ok (a / b)%R.
Proof. intros H. unfold div. by rewrite decide_False. Qed.

Lemma max_spec a b : (a <= max a b ∧ b <= max a b ∧ (max a b = a ∨ max a b = b))%R.
Proof. unfold max. case_decide; lra. Qed.

Lemma uniform_range a b g :
  (a <= b)%R → (0 <= draws g (cursor g) < 1)%R →
  (a <= (uniform a b g).1 <= b)%R.
Proof. intros Hab Hd. unfold uniform. simpl. nra. Qed.

(** ** add_gaussian *)
Lemma add_gaussian_Ok self g x y amplitude variance :
  (0 <= variance)%R → (∀ n, 0 <= draws g n < 1)%R →
  ∃ new g',
    add_gaussian self g x y amplitude variance = Ok (with_new self new, g', None)
    ∧ id new = _next_id self
    ∧ amp new = amplitude ∧ var new = variance
    ∧ match x with
      | Some xv => new.(gaussian_scene.x) = xv
      | None => ∃ u, (2 / 10 <= u <= 8 / 10)%R
                     ∧ new.(gaussian_scene.x)
                       = (u * IZR (width self) * spacing self)%R
      end
    ∧ match y with
      | Some yv => new.(gaussian_scene.y) = yv
      | None => ∃ u, (2 / 10 <= u <= 8 / 10)%R
                     ∧ new.(gaussian_scene.y)
                       = (u * IZR (height self) * spacing self)%R
      end.
Proof.
  intros Hv Hd. unfold add_gaussian.
  assert (0 <= variance / 10)%R as Hv10 by lra.
  assert (∀ n, 2 / 10 <= 2 / 10 + (8 / 10 - 2 / 10) * draws g n <= 8 / 10)%R
    as Hu by (intros n; specialize (Hd n); lra).
  destruct x as [xv|], y as [yv|]; simpl;
    rewrite !(sqrt_Ok variance Hv), (sqrt_Ok _ Hv10); simpl;
    eexists _, _; (split; [reflexivity |]); simpl;
    repeat split; eauto.
Qed.

Lemma add_gaussian_negative self g x y amplitude variance :
  (variance < 0)%R →
  add_gaussian self g x y amplitude variance = Raise ValueError.
Proof.
  intros Hv. unfold add_gaussian.
  destruct x, y; simpl; by rewrite (sqrt_Raise variance Hv).
Qed.

Lemma steady_rng_range : (∀ n, 0 <= draws steady_rng n < 1)%R.
Proof. intros n. simpl. lra. Qed.

Lemma f_gaussian_zero_variance x y g :
  var g = 0%R → f_gaussian x y g = Raise ZeroDivisionError.
Proof.
  intros Hv. unfold f_gaussian, div. rewrite Hv.
  rewrite decide_True by lra. done.
Qed.

Lemma sum_products_nonneg a b : (0 <= a * a + b * b)%R.
Proof. nra. Qed.

Lemma custom_path_step_empty self path_index g :
  paths self !! id g = Some [] →
  custom_path_step self path_index g = Ok (path_index, g).
Proof. intros H. unfold custom_path_step. by rewrite H. Qed.

Lemma custom_path_step_single self path_index g w :
  paths self !! id g = Some [w] →
  default 0%Z (path_index !! id g) = 0%Z →
  custom_path_step self path_index g =
    if decide (distance_to g w < 5 / 10)%R
    then Ok (<[id g := 0%Z]> (<[id g := 1%Z]> path_index), g)
    else Ok (path_index,
             moved_by g
               (path_speed self * (w.1 - g.(gaussian_scene.x)) / distance_to g w)
               (path_speed self * (w.2 - g.(gaussian_scene.y)) / distance_to g w)).
Proof.
  intros Hp Hc. unfold custom_path_step, distance_to. rewrite Hp, Hc.
  destruct w as [tx ty]. simpl.
  rewrite sqrt_Ok by apply sum_products_nonneg. simpl.
  destruct (decide (R_sqrt.sqrt _ < 5 / 10)%R) as [Hd | Hd]; [done |].
  rewrite !div_Ok by lra. done.
Qed.

Lemma walker_distance : distance_to walker (1%R, 0%R) = 1%R.
Proof.
  unfold distance_to. simpl.
  replace ((1 - 0) * (1 - 0) + (0 - 0) * (0 - 0))%R with 1%R by lra.
  apply sqrt_1.
Qed.

Lemma walker_path : paths walker_scene !! id walker = Some [(1%R, 0%R)].
Proof. reflexivity. Qed.

Lemma walker_cursor : default 0%Z ((∅ : gmap Z Z) !! id walker) = 0%Z.
Proof. by rewrite lookup_empty. Qed.

(** ** generate_image_data *)
Lemma sum_squares_nonneg a b : (0 <= a ^ 2 + b ^ 2)%R.
Proof. nra. Qed.

Lemma kernel_total pnoise2 name x y g :
  name ∈ kernel_names → positive_spread g →
  ∃ dist_fn v, dist_map pnoise2 name = Ok dist_fn ∧ dist_fn x y g = Ok v.
Proof.
  intros Hname (Hvar & Hsx & Hsy & Hgamma & Hlambda).
  pose proof (sum_squares_nonneg (x - g.(gaussian_scene.x))
                (y - g.(gaussian_scene.y))) as Hr2.
  assert (∃ v, f_perlin pnoise2 x y g = Ok v) as [vp Hperlin]
    by (unfold f_perlin; destruct pnoise2; eauto).
  unfold kernel_names in Hname.
  repeat (apply elem_of_cons in Hname as [-> | Hname]);
    [.. | by apply elem_of_nil in Hname];
    (eexists _, _; split; [reflexivity |]).
  - unfold f_gaussian. rewrite div_Ok by lra. done.
  - unfold f_cauchy. rewrite div_Ok by lra. cbn [mbind result_bind].
    rewrite div_Ok; [done |].
    assert (0 <= ((x - g.(gaussian_scene.x)) ^ 2
                  + (y - g.(gaussian_scene.y)) ^ 2) / gamma g)%R
      by (apply Rle_mult_inv_pos; lra).
    lra.
  - unfold f_mexican_hat.
    assert (0 < var g ^ 2)%R by nra.
    rewrite !div_Ok by lra. done.
  - unfold f_exponential_decay. rewrite (sqrt_Ok _ Hr2). cbn [mbind result_bind].
    rewrite div_Ok by lra. done.
  - unfold f_plateau. rewrite (sqrt_Ok _ Hr2). cbn [mbind result_bind].
    rewrite (sqrt_Ok (var g)) by lra. cbn [mbind result_bind].
    pose proof (sqrt_lt_R0 (var g) Hvar) as Hs.
    pose proof (sqrt_pos ((x - g.(gaussian_scene.x)) ^ 2
                          + (y - g.(gaussian_scene.y)) ^ 2)) as Hr.
    rewrite div_Ok by lra. cbn [mbind result_bind].
    rewrite div_Ok; [done |].
    assert (0 <= R_sqrt.sqrt ((x - g.(gaussian_scene.x)) ^ 2
                              + (y - g.(gaussian_scene.y)) ^ 2)
                 / R_sqrt.sqrt (var g))%R as Hq
      by (apply Rle_mult_inv_pos; lra).
    assert (0 <= (R_sqrt.sqrt ((x - g.(gaussian_scene.x)) ^ 2
                               + (y - g.(gaussian_scene.y)) ^ 2)
                  / R_sqrt.sqrt (var g)) ^ 3)%R
      by (apply pow_le; lra).
    lra.
  - unfold f_anisotropic.
    assert (0 < sx g * sx g)%R by nra. assert (0 < sy g * sy g)%R by nra.
    rewrite !div_Ok by lra. done.
  - unfold f_multi_lobe. rewrite div_Ok by lra. done.
  - unfold f_ridge. rewrite (sqrt_Ok _ Hr2). done.
  - exact Hperlin.
Qed.

Lemma sample_value_spec (dist_fn : R → R → gaussian → result R) x y gs :
  (∀ g, g ∈ gs → ∃ k, dist_fn x y g = Ok k) →
  ∀ v0, ∃ v,
    for_ gs (λ val g, k ← dist_fn x y g; Ok (max val k)) v0 = Ok v
    ∧ (v0 <= v)%R
    ∧ (∀ g, g ∈ gs → ∃ k, dist_fn x y g = Ok k ∧ (k <= v)%R)
    ∧ (v = v0 ∨ ∃ g, g ∈ gs ∧ dist_fn x y g = Ok v).
Proof.
  induction gs as [|g gs IH]; intros Htot v0.
  - exists v0. split; [done |]. split; [lra |]. split; [| by left].
    intros g Hg. by apply elem_of_nil in Hg.
  - destruct (Htot g) as [k Hk]; [by left |].
    destruct IH with (v0 := max v0 k) as (v & Hv & Hge & Hall & Hor).
    { intros g' Hg'. apply Htot. by right. }
    destruct (max_spec v0 k) as (H1 & H2 & H3).
    exists v. simpl. rewrite Hk. simpl. split; [done |]. split; [lra |].
    split.
    + intros g' [-> | Hg']%elem_of_cons; [| by apply Hall].
      exists k. split; [done | lra].
    + destruct Hor as [-> | (g' & Hg' & Hgv)].
      * destruct H3 as [-> | ->]; [by left |].
        right. exists g. split; [by left | done].
      * right. exists g'. split; [by right | done].
Qed.

Lemma comprehension_total {A B} (f : A → result B) l :
  (∀ a, a ∈ l → ∃ b, f a = Ok b) →
  ∃ bs, comprehension f l = Ok bs ∧ Forall2 (λ a b, f a = Ok b) l bs.
Proof.
  induction l as [|a l IH]; intros H.
  - exists []. split; [done | constructor].
  - destruct (H a) as [b Hb]; [by left |].
    destruct IH as (bs & Hbs & Hall); [intros ??; apply H; by right |].
    exists (b :: bs). simpl. rewrite Hb. simpl. rewrite Hbs. simpl.
    split; [done | by constructor].
Qed.

Lemma comprehension_Forall2 {A B} (f : A → result B) l : ∀ bs,
  comprehension f l = Ok bs → Forall2 (λ a b, f a = Ok b) l bs.
Proof.
  induction l as [|a l IH]; intros bs Hbs.
  - injection Hbs as <-. constructor.
  - cbn [comprehension] in Hbs. destruct (f a) as [b|] eqn:Hb; [| done].
    cbn [mbind result_bind] in Hbs.
    destruct (comprehension f l) as [bs'|]; [| done].
    injection Hbs as <-. constructor; [done | by apply IH].
Qed.

Lemma lookup_range n i : (Z.of_nat i < n)%Z → range n !! i = Some (Z.of_nat i).
Proof.
  intros H. unfold range. rewrite list_lookup_fmap, lookup_seq_lt; [done | lia].
Qed.

(** What [generate_image_data] stores at a grid point. *)
Lemma generate_image_data_point pnoise2 self :
  distribution_type self ∈ kernel_names →
  Forall positive_spread (gaussians self) →
  ∃ img dist_fn,
    dist_map pnoise2 (distribution_type self) = Ok dist_fn
    ∧ generate_image_data pnoise2 self = Ok img
    ∧ ∀ i j, (Z.of_nat i < width self * 2)%Z → (Z.of_nat j < height self * 2)%Z →
        let x := (IZR (Z.of_nat i) * (spacing self / 2))%R in
        let y := (IZR (Z.of_nat j) * (spacing self / 2))%R in
        ∃ v, vtk.GetScalarComponentAsDouble img i j = Some v
          ∧ (0 <= v)%R
          ∧ (∀ g, g ∈ gaussians self → ∃ k, dist_fn x y g = Ok k ∧ (k <= v)%R)
          ∧ (v = 0%R ∨ ∃ g, g ∈ gaussians self ∧ dist_fn x y g = Ok v).
Proof.
  intros Hname Hpos. rewrite Forall_forall in Hpos.
  assert (∃ dist_fn, dist_map pnoise2 (distribution_type self) = Ok dist_fn
            ∧ ∀ x y g, g ∈ gaussians self → ∃ k, dist_fn x y g = Ok k)
    as (dist_fn & Hmap & Htot).
  { destruct (gaussians self) as [|g0 gs] eqn:Hgs.
    - unfold kernel_names in Hname.
      repeat (apply elem_of_cons in Hname as [-> | Hname]);
        [.. | by apply elem_of_nil in Hname];
        (eexists; split; [reflexivity |]);
        intros ??? Hg; by apply elem_of_nil in Hg.
    - destruct (kernel_total pnoise2 _ 0%R 0%R g0 Hname) as (fn & _ & Hfn & _);
        [apply Hpos; by left |].
      exists fn. split; [done |]. intros x y g Hg.
      destruct (kernel_total pnoise2 _ x y g Hname (Hpos g Hg))
        as (fn' & k & Hfn' & Hk).
      exists k. congruence. }
  assert (∀ x y, ∃ v,
            sample_value dist_fn (gaussians self) x y = Ok v
            ∧ (0 <= v)%R
            ∧ (∀ g, g ∈ gaussians self → ∃ k, dist_fn x y g = Ok k ∧ (k <= v)%R)
            ∧ (v = 0%R ∨ ∃ g, g ∈ gaussians self ∧ dist_fn x y g = Ok v))
    as Hcell.
  { intros x y.
    destruct (sample_value_spec dist_fn x y (gaussians self)) with (v0 := 0%R)
      as (v & Hv & Hrest); [intros ??; by apply Htot |].
    by exists v. }
  unfold generate_image_data. rewrite Hmap.
  cbn [mbind result_bind]. cbv zeta.
  match goal with
  | |- context [mbind _ (comprehension ?f ?l)] =>
      destruct (comprehension_total f l) as (rows & Hrows & Hall)
  end.
  { intros j _.
    match goal with
    | |- ∃ b, comprehension ?f ?l = Ok b =>
        destruct (comprehension_total f l) as (row & Hrow & _);
          [| by exists row]
    end.
    intros i _.
    destruct (Hcell (IZR i * (spacing self / 2))%R
                (IZR j * (spacing self / 2))%R) as (v & Hv & _).
    by exists v. }
  rewrite Hrows. cbn [mbind result_bind].
  eexists _, dist_fn. split; [done |]. split; [reflexivity |].
  intros i j Hi Hj.
  set (x := (IZR (Z.of_nat i) * (spacing self / 2))%R).
  set (y := (IZR (Z.of_nat j) * (spacing self / 2))%R).
  destruct (Forall2_lookup_l _ _ _ _ _ Hall (lookup_range _ j Hj))
    as (row & Hrow & Hcomp).
  apply comprehension_Forall2 in Hcomp.
  destruct (Forall2_lookup_l _ _ _ _ _ Hcomp (lookup_range _ i Hi))
    as (v & Hv & Hsample).
  exists v. split.
  { unfold vtk.GetScalarComponentAsDouble. cbn [vtk.scalars].
    rewrite Hrow. exact Hv. }
  destruct (Hcell x y) as (v' & Hv' & Hrest).
  cbv beta in Hsample. fold x y in Hsample.
  assert (v' = v) as -> by congruence.
  exact Hrest.
Qed.

Lemma hat_source_positive : Forall positive_spread (gaussians hat_scene).
Proof. repeat constructor; simpl; lra. Qed.

Lemma hat_kernel_name : distribution_type hat_scene ∈ kernel_names.
Proof. unfold kernel_names. simpl. set_solver. Qed.

Lemma hat_value_negative :
  ∃ k, f_mexican_hat (IZR (Z.of_nat 1) * (spacing hat_scene / 2))
         (IZR (Z.of_nat 0) * (spacing hat_scene / 2)) hat_source = Ok k
       ∧ (k < 0)%R.
Proof.
  unfold f_mexican_hat. simpl.
  rewrite !div_Ok by lra. simpl. eexists. split; [reflexivity |].
  match goal with |- (1 * (1 - ?q) * exp ?e < 0)%R =>
    assert (q = 4)%R as -> by (field; lra);
    pose proof (exp_pos e) end.
  nra.
Qed.

End scene_proofs.

(** * The noise library *)

(** Membership in the list of the noise types. *)
Ltac named :=
  unfold noise_names;
  repeat first [apply list_elem_of_here | apply list_elem_of_further].

Section noise_proofs.
Import noises.

Lemma clip1_within lo hi v : (lo <= hi)%R → (lo <= clip1 lo hi v <= hi)%R.
Proof.
  intros H. unfold clip1, Rmin, Rmax.
  repeat destruct (Rle_dec _ _); lra.
Qed.

Lemma foldl_Rmin_spec vs : ∀ v,
  foldl Rmin v vs ∈ v :: vs ∧ ∀ u, u ∈ v :: vs → (foldl Rmin v vs <= u)%R.
Proof.
  induction vs as [|w vs IH]; intros v; simpl.
  - split; [by left |]. intros u ->%list_elem_of_singleton. lra.
  - destruct (IH (Rmin v w)) as [Hin Hle]. split.
    + apply elem_of_cons in Hin as [-> | Hin]; [| by do 2 right].
      unfold Rmin. destruct (Rle_dec v w); [by left | right; by left].
    + intros u Hu.
      assert (foldl Rmin (Rmin v w) vs <= Rmin v w)%R as Hm
        by (apply Hle; by left).
      pose proof (Rmin_l v w). pose proof (Rmin_r v w).
      apply elem_of_cons in Hu as [-> | [-> | Hu]%elem_of_cons]; [lra | lra |].
      apply Hle. by right.
Qed.

Lemma foldl_Rmax_spec vs : ∀ v,
  foldl Rmax v vs ∈ v :: vs ∧ ∀ u, u ∈ v :: vs → (u <= foldl Rmax v vs)%R.
Proof.
  induction vs as [|w vs IH]; intros v; simpl.
  - split; [by left |]. intros u ->%list_elem_of_singleton. lra.
  - destruct (IH (Rmax v w)) as [Hin Hle]. split.
    + apply elem_of_cons in Hin as [-> | Hin]; [| by do 2 right].
      unfold Rmax. destruct (Rle_dec v w); [right; by left | by left].
    + intros u Hu.
      assert (Rmax v w <= foldl Rmax (Rmax v w) vs)%R as Hm
        by (apply Hle; by left).
      pose proof (Rmax_l v w). pose proof (Rmax_r v w).
      apply elem_of_cons in Hu as [-> | [-> | Hu]%elem_of_cons]; [lra | lra |].
      apply Hle. by right.
Qed.

Lemma elem_of_concat (f : list (list R)) v :
  v ∈ concat f ↔ ∃ row, row ∈ f ∧ v ∈ row.
Proof.
  rewrite list_elem_of_In, in_concat. split.
  - intros (row & H1 & H2). exists row. by rewrite !list_elem_of_In.
  - intros (row & H1 & H2). exists row. by rewrite <- !list_elem_of_In.
Qed.


Lemma rectangular_concat h w f :
  rectangular h w f → 0 < h → 0 < w → concat f ≠ [].
Proof.
  intros [Hlen Hrows] Hh Hw. destruct f as [|row f]; simpl in *; [lia |].
  apply Forall_cons in Hrows as [Hrow _].
  destruct row; simpl in *; [lia | done].
Qed.

Lemma rectangular_shape h w f :
  rectangular h w f → 0 < h → shape f = (h, w).
Proof.
  intros [Hlen Hrows] Hh. unfold shape. destruct f as [|row f]; simpl in *; [lia |].
  apply Forall_cons in Hrows as [Hrow _]. by rewrite Hlen, Hrow.
Qed.

Lemma field_min_spec f :
  concat f ≠ [] →
  ∃ lo, field_min f = Ok lo ∧ lo ∈ concat f
        ∧ ∀ v, v ∈ concat f → (lo <= v)%R.
Proof.
  intros Hne. unfold field_min. destruct (concat f) as [|v vs]; [done |].
  destruct (foldl_Rmin_spec vs v) as [Hin Hle]. by eexists.
Qed.

Lemma field_max_spec f :
  concat f ≠ [] →
  ∃ hi, field_max f = Ok hi ∧ hi ∈ concat f
        ∧ ∀ v, v ∈ concat f → (v <= hi)%R.
Proof.
  intros Hne. unfold field_max. destruct (concat f) as [|v vs]; [done |].
  destruct (foldl_Rmax_spec vs v) as [Hin Hle]. by eexists.
Qed.

Lemma rectangular_elementwise h w op f :
  rectangular h w f → rectangular h w (elementwise op f).
Proof.
  intros [Hlen Hrows]. unfold elementwise. split; [by rewrite length_fmap |].
  apply Forall_fmap. eapply Forall_impl; [exact Hrows |].
  intros row Hrow. simpl. by rewrite length_fmap.
Qed.

Lemma rectangular_pointwise h w op f g :
  rectangular h w f → rectangular h w (pointwise op f g).
Proof.
  intros [Hlen Hrows]. unfold pointwise. split; [by rewrite length_imap |].
  apply Forall_forall. intros row' [i Hi]%list_elem_of_lookup.
  rewrite list_lookup_imap in Hi.
  destruct (f !! i) as [row|] eqn:Hrow; [| done]. injection Hi as <-.
  rewrite length_imap. rewrite Forall_forall in Hrows.
  apply Hrows. by eapply list_elem_of_lookup_2.
Qed.

Lemma within_clip lo hi f : (lo <= hi)%R → within lo hi (clip f lo hi).
Proof.
  intros H. unfold within, clip, elementwise.
  apply Forall_fmap, Forall_true. intros row. simpl.
  apply Forall_fmap, Forall_true. intros v. simpl. by apply clip1_within.
Qed.

Lemma rectangular_clip h w f lo hi :
  rectangular h w f → rectangular h w (clip f lo hi).
Proof. apply rectangular_elementwise. Qed.

Lemma position_Ok n i :
  (0 ≤ i < Z.of_nat n)%Z → position n i = Ok (Z.to_nat i) ∧ Z.to_nat i < n.
Proof. intros H. unfold position. rewrite decide_True by done. split; [done | lia]. Qed.

Lemma setitem_rectangular h w f rc v :
  rectangular h w f → 0 < h →
  (0 ≤ rc.1 < Z.of_nat h)%Z → (0 ≤ rc.2 < Z.of_nat w)%Z →
  ∃ f', setitem f rc v = Ok f' ∧ rectangular h w f'.
Proof.
  intros Hrect Hh Hr Hc. unfold setitem.
  rewrite (rectangular_shape h w f Hrect Hh). simpl.
  destruct (position_Ok h rc.1 Hr) as [-> _].
  destruct (position_Ok w rc.2 Hc) as [-> _]. simpl.
  eexists. split; [done |]. destruct Hrect as [Hlen Hrows].
  split; [by rewrite length_alter |].
  apply Forall_forall. intros row' [i Hi]%list_elem_of_lookup.
  rewrite Forall_forall in Hrows.
  destruct (decide (i = Z.to_nat rc.1)) as [-> | Hne].
  - rewrite list_lookup_alter_eq in Hi.
    destruct (f !! Z.to_nat rc.1) as [row|] eqn:Hrow; [| done].
    injection Hi as <-. rewrite length_insert.
    apply Hrows. by eapply list_elem_of_lookup_2.
  - rewrite list_lookup_alter_ne in Hi by done.
    apply Hrows. by eapply list_elem_of_lookup_2.
Qed.

Lemma setitems_rectangular h w v rows : ∀ cols f,
  rectangular h w f → 0 < h →
  Forall (λ r, 0 ≤ r < Z.of_nat h)%Z rows →
  Forall (λ c, 0 ≤ c < Z.of_nat w)%Z cols →
  ∃ f', setitems f rows cols v = Ok f' ∧ rectangular h w f'.
Proof.
  unfold setitems.
  induction rows as [|r rows IH]; intros cols f Hrect Hh Hrows Hcols.
  - exists f. by split.
  - destruct cols as [|c cols]; [exists f; by split |].
    apply Forall_cons in Hrows as [Hr Hrows].
    apply Forall_cons in Hcols as [Hc Hcols].
    destruct (setitem_rectangular h w f (r, c) v Hrect Hh Hr Hc)
      as (f1 & Hf1 & Hrect1).
    simpl. rewrite Hf1. simpl. by apply IH.
Qed.

Lemma entry_elementwise op f i j :
  entry (elementwise op f) i j = op <$> entry f i j.
Proof.
  unfold entry, elementwise. rewrite list_lookup_fmap.
  destruct (f !! j) as [row |]; cbn; [| done].
  by rewrite list_lookup_fmap.
Qed.

Lemma entry_clip f lo hi i j :
  entry (clip f lo hi) i j = clip1 lo hi <$> entry f i j.
Proof. apply entry_elementwise. Qed.

Lemma entry_elem_of f i j v : entry f i j = Some v → v ∈ concat f.
Proof.
  unfold entry. destruct (f !! j) as [row |] eqn:Hrow; cbn; [| done].
  intros Hv. apply elem_of_concat. exists row.
  split; by eapply list_elem_of_lookup_2.
Qed.

Lemma rectangular_entry h w f i j :
  rectangular h w f → i < w → j < h → is_Some (entry f i j).
Proof.
  intros [Hlen Hrows] Hi Hj. unfold entry.
  destruct (lookup_lt_is_Some_2 f j ltac:(lia)) as [row Hrow].
  rewrite Hrow. cbn. apply lookup_lt_is_Some_2.
  rewrite (proj1 (Forall_forall _ _) Hrows row); [done |].
  by eapply list_elem_of_lookup_2.
Qed.

Lemma entry_Some_bounds h w f i j v :
  rectangular h w f → entry f i j = Some v → i < w ∧ j < h.
Proof.
  intros [Hlen Hrows]. unfold entry.
  destruct (f !! j) as [row |] eqn:Hrow; cbn; [| done].
  intros Hv. apply lookup_lt_Some in Hv.
  rewrite (proj1 (Forall_forall _ _) Hrows row) in Hv
    by (by eapply list_elem_of_lookup_2).
  apply lookup_lt_Some in Hrow. lia.
Qed.

(** Arrays of one shape with the same entries are equal. *)
Lemma entry_ext h w f f' :
  rectangular h w f → rectangular h w f' →
  (∀ i j, i < w → j < h → entry f i j = entry f' i j) → f = f'.
Proof.
  intros [Hlen Hrows] [Hlen' Hrows'] Hent.
  apply list_eq_same_length with h; [done | done |].
  intros j row row' Hj Hrow Hrow'.
  assert (length row = w).
  { apply (proj1 (Forall_forall _ _) Hrows). by eapply list_elem_of_lookup_2. }
  assert (length row' = w).
  { apply (proj1 (Forall_forall _ _) Hrows'). by eapply list_elem_of_lookup_2. }
  apply list_eq_same_length with w; [done | done |].
  intros i v v' Hi Hv Hv'.
  specialize (Hent i j Hi Hj). unfold entry in Hent.
  rewrite Hrow, Hrow' in Hent. cbn in Hent. congruence.
Qed.

Lemma setitem_entry f rc v f' :
  setitem f rc v = Ok f' →
  ∀ i j, entry f' i j = entry f i j ∨ entry f' i j = Some v.
Proof.
  unfold setitem.
  destruct (position _ rc.1) as [r |]; [| done]. cbn [mbind result_bind].
  destruct (position _ rc.2) as [c |]; [| done]. cbn [mbind result_bind].
  intros [= <-] i j. unfold entry.
  destruct (decide (j = r)) as [-> | Hne].
  - rewrite list_lookup_alter_eq.
    destruct (f !! r) as [row |]; cbn; [| by left].
    destruct (decide (c = i)) as [-> | Hci].
    + destruct (decide (i < length row)).
      * right. by apply list_lookup_insert_eq.
      * left. rewrite !lookup_ge_None_2; [done | lia |].
        rewrite length_insert. lia.
    + left. by apply list_lookup_insert_ne.
  - left. by rewrite list_lookup_alter_ne.
Qed.

Lemma setitems_entry v rows : ∀ cols f f',
  setitems f rows cols v = Ok f' →
  ∀ i j, entry f' i j = entry f i j ∨ entry f' i j = Some v.
Proof.
  unfold setitems.
  induction rows as [| r rows IH]; intros cols f f'.
  - cbn. intros [= <-]. by left.
  - destruct cols as [| c cols]; [cbn; intros [= <-]; by left |].
    cbn [zip zip_with for_].
    destruct (setitem f (r, c) v) as [f1 |] eqn:H1; [| done].
    cbn [mbind result_bind]. intros Hrest i j.
    destruct (IH cols f1 f' Hrest i j) as [-> | ->]; [| by right].
    by apply (setitem_entry f (r, c) v).
Qed.

Lemma entry_restored lo hi f i j :
  entry (restored lo hi f) i j
  = (λ u, clip1 lo hi (u * (hi - lo) + lo))%R <$> entry f i j.
Proof.
  unfold restored. rewrite entry_clip, entry_elementwise.
  by destruct (entry f i j).
Qed.

Lemma restored_one lo hi : (lo <= hi)%R → clip1 lo hi (1 * (hi - lo) + lo) = hi.
Proof.
  intros Hle. unfold clip1.
  replace (1 * (hi - lo) + lo)%R with hi by ring.
  rewrite Rmax_left by done. by rewrite Rmin_left.
Qed.

Lemma restored_zero lo hi : (lo <= hi)%R → clip1 lo hi (0 * (hi - lo) + lo) = lo.
Proof.
  intros Hle. unfold clip1.
  replace (0 * (hi - lo) + lo)%R with lo by ring.
  rewrite Rmax_left by lra. by rewrite Rmin_right.
Qed.

Lemma entry_round_trip float32 lo hi f i j :
  entry (elementwise float32
           (restored lo hi (normalised lo hi (elementwise float32 f)))) i j
  = entry (round_trip float32 lo hi f) i j.
Proof.
  unfold round_trip, normalised.
  rewrite !entry_elementwise, entry_restored, !entry_elementwise.
  by destruct (entry f i j).
Qed.

Lemma clip1_mono lo hi u v : (u <= v)%R → (clip1 lo hi u <= clip1 lo hi v)%R.
Proof.
  intros Huv. unfold clip1.
  apply Rle_min_compat_l, Rle_max_compat_r, Huv.
Qed.

(** The round trip keeps the order of the values, and it keeps the least
    value. *)
Lemma round_trip1_mono float32 lo hi u v :
  rounding float32 → (lo <= hi)%R → (u <= v)%R →
  (round_trip1 float32 lo hi u <= round_trip1 float32 lo hi v)%R.
Proof.
  intros [Hmono _] Hle Huv. unfold round_trip1.
  apply Hmono, clip1_mono. apply Hmono in Huv.
  assert (0 < hi - lo + 1 / 10 ^ 8)%R as Hd by lra.
  apply Rplus_le_compat_r, Rmult_le_compat_r; [lra |].
  apply Rmult_le_compat_r; [| lra].
  left. by apply Rinv_0_lt_compat.
Qed.

Lemma round_trip1_least float32 lo hi v :
  (lo <= hi)%R → float32 v = lo → float32 lo = lo →
  round_trip1 float32 lo hi v = lo.
Proof.
  intros Hle Hv Hlo. unfold round_trip1. rewrite Hv.
  replace ((lo - lo) / (hi - lo + 1 / 10 ^ 8) * (hi - lo) + lo)%R with lo
    by (unfold Rdiv; ring).
  unfold clip1. rewrite Rmax_left by lra. rewrite Rmin_right by lra. done.
Qed.


Lemma entry_pointwise op f g i j :
  entry (pointwise op f g) i j = (λ v, op v (g j i)) <$> entry f i j.
Proof.
  unfold entry, pointwise. rewrite list_lookup_imap.
  destruct (f !! j) as [row |]; cbn; [| done].
  by rewrite list_lookup_imap.
Qed.

Lemma elem_of_entry f v : v ∈ concat f → ∃ i j, entry f i j = Some v.
Proof.
  intros (row & [j Hj]%list_elem_of_lookup & [i Hi]%list_elem_of_lookup)
    %elem_of_concat.
  exists i, j. unfold entry. rewrite Hj. done.
Qed.

Lemma int_nonneg r : (0 <= r)%R → (0 ≤ int r)%Z.
Proof.
  intros Hr. unfold int. rewrite decide_True by done.
  unfold Int_part. destruct (archimed r) as [Hup _].
  assert (0 < up r)%Z by (apply lt_IZR; lra). lia.
Qed.

Lemma size_nonneg f : (0 <= IZR (size f))%R.
Proof. unfold size. apply IZR_le, Z.mul_nonneg_nonneg; lia. Qed.

(** The normalised values lie between 0 and 1. *)
Lemma normalised_unit lo hi f :
  (∀ v, v ∈ concat f → lo <= v <= hi)%R →
  ∀ u, u ∈ concat (normalised lo hi f) → (0 <= u < 1)%R.
Proof.
  intros Hf u (i & j & Hu)%elem_of_entry.
  unfold normalised in Hu. rewrite entry_elementwise in Hu.
  destruct (entry f i j) as [v |] eqn:Hv; [| done].
  injection Hu as <-. apply entry_elem_of, Hf in Hv.
  assert (0 < hi - lo + 1 / 10 ^ 8)%R as Hd by lra.
  split.
  - apply Rle_mult_inv_pos; lra.
  - apply Rmult_lt_reg_r with (hi - lo + 1 / 10 ^ 8)%R; [done |].
    unfold Rdiv at 1. rewrite Rmult_assoc, Rinv_l by lra. lra.
Qed.

Section transforms_spec.
Context (float32 : R → R) (rng : Type).
Context (randint : rng → Z → Z → Z → list Z * rng).
Context (normal uniform laplace :
           rng → R → R → nat * nat → (nat → nat → R) * rng).
Context (uniform1 : rng → R → R → R * rng).
Context (randn : rng → nat * nat → (nat → nat → R) * rng).
Context (poisson : rng → list (list R) → (nat → nat → R) * rng).
Context (pnoise2 : R → R → Z → Z → R).
(** [np.random.randint(lo, hi, n)] draws from [[lo, hi)]. *)
Hypothesis randint_range : ∀ g lo hi n,
  (lo < hi)%Z → Forall (λ v, lo ≤ v < hi)%Z (randint g lo hi n).1.

Context (h w : nat) (Hh : 0 < h) (Hw : 0 < w).

Lemma np_random_randint_Ok g n num :
  0 < n → (0 ≤ num)%Z →
  np_random_randint rng randint g 0 (Z.of_nat n) num
  = Ok (randint g 0 (Z.of_nat n) num).
Proof.
  intros Hn Hnum. unfold np_random_randint.
  rewrite decide_False by lia. by rewrite decide_False by lia.
Qed.

Lemma impulses g f num v :
  rectangular h w f →
  ∃ f', setitems f (randint g 0 (Z.of_nat h) num).1
          (randint (randint g 0 (Z.of_nat h) num).2 0 (Z.of_nat w) num).1
          v = Ok f'
        ∧ rectangular h w f'
        ∧ ∀ i j, entry f' i j = entry f i j ∨ entry f' i j = Some v.
Proof.
  intros Hrect.
  destruct (setitems_rectangular h w v
              (randint g 0 (Z.of_nat h) num).1
              (randint (randint g 0 (Z.of_nat h) num).2 0 (Z.of_nat w) num).1
              f Hrect Hh) as (f' & Hf' & Hrect');
    [apply randint_range; lia | apply randint_range; lia |].
  exists f'. split; [done |]. split; [done |].
  by eapply setitems_entry.
Qed.

Lemma add_salt_noise_spec g f amount :
  rectangular h w f → (0 <= amount)%R →
  ∃ f' g', add_salt_noise rng randint g f amount = Ok (f', g')
           ∧ rectangular h w f'
           ∧ ∀ i j, entry f' i j = entry f i j ∨ entry f' i j = Some 1%R.
Proof.
  intros Hrect Ha. unfold add_salt_noise.
  rewrite (rectangular_shape h w f Hrect Hh). cbn [fst snd].
  set (num := int _).
  assert (0 ≤ num)%Z as Hnum.
  { apply int_nonneg, Rmult_le_pos; [done | apply size_nonneg]. }
  rewrite (np_random_randint_Ok g h num Hh Hnum).
  destruct (impulses g f num 1%R Hrect) as (f' & Hf' & Hrect' & Hent).
  destruct (randint g 0 (Z.of_nat h) num) as [rows g1].
  cbn [mbind result_bind fst snd] in *.
  rewrite (np_random_randint_Ok g1 w num Hw Hnum).
  destruct (randint g1 0 (Z.of_nat w) num) as [cols g2].
  cbn [mbind result_bind fst snd] in *.
  rewrite Hf'. cbn. by eexists _, _.
Qed.

Lemma add_pepper_noise_spec g f amount :
  rectangular h w f → (0 <= amount)%R →
  ∃ f' g', add_pepper_noise rng randint g f amount = Ok (f', g')
           ∧ rectangular h w f'
           ∧ ∀ i j, entry f' i j = entry f i j ∨ entry f' i j = Some 0%R.
Proof.
  intros Hrect Ha. unfold add_pepper_noise.
  rewrite (rectangular_shape h w f Hrect Hh). cbn [fst snd].
  set (num := int _).
  assert (0 ≤ num)%Z as Hnum.
  { apply int_nonneg, Rmult_le_pos; [done | apply size_nonneg]. }
  rewrite (np_random_randint_Ok g h num Hh Hnum).
  destruct (impulses g f num 0%R Hrect) as (f' & Hf' & Hrect' & Hent).
  destruct (randint g 0 (Z.of_nat h) num) as [rows g1].
  cbn [mbind result_bind fst snd] in *.
  rewrite (np_random_randint_Ok g1 w num Hw Hnum).
  destruct (randint g1 0 (Z.of_nat w) num) as [cols g2].
  cbn [mbind result_bind fst snd] in *.
  rewrite Hf'. cbn. by eexists _, _.
Qed.

Lemma add_salt_pepper_noise_spec g f amount salt_ratio :
  rectangular h w f → (0 <= amount)%R → (0 <= salt_ratio <= 1)%R →
  ∃ f' g', add_salt_pepper_noise rng randint g f amount salt_ratio
           = Ok (f', g')
           ∧ rectangular h w f'
           ∧ ∀ i j, entry f' i j = entry f i j
                    ∨ entry f' i j = Some 1%R ∨ entry f' i j = Some 0%R.
Proof.
  intros Hrect Ha Hratio. unfold add_salt_pepper_noise.
  rewrite (rectangular_shape h w f Hrect Hh). cbn [fst snd].
  pose proof (size_nonneg f) as Hsize.
  set (salt := int (_ * salt_ratio)). set (pepper := int (_ * (1 - _))).
  assert (0 ≤ salt)%Z as Hsalt.
  { apply int_nonneg. repeat apply Rmult_le_pos; lra. }
  assert (0 ≤ pepper)%Z as Hpepper.
  { apply int_nonneg. repeat apply Rmult_le_pos; lra. }
  rewrite (np_random_randint_Ok g h salt Hh Hsalt).
  destruct (impulses g f salt 1%R Hrect) as (f1 & Hf1 & Hrect1 & Hent1).
  destruct (randint g 0 (Z.of_nat h) salt) as [rows g1].
  cbn [mbind result_bind fst snd] in *.
  rewrite (np_random_randint_Ok g1 w salt Hw Hsalt).
  destruct (randint g1 0 (Z.of_nat w) salt) as [cols g2].
  cbn [mbind result_bind fst snd] in *.
  rewrite Hf1. cbn [mbind result_bind].
  rewrite (np_random_randint_Ok g2 h pepper Hh Hpepper).
  destruct (impulses g2 f1 pepper 0%R Hrect1) as (f2 & Hf2 & Hrect2 & Hent2).
  destruct (randint g2 0 (Z.of_nat h) pepper) as [rows' g3].
  cbn [mbind result_bind fst snd] in *.
  rewrite (np_random_randint_Ok g3 w pepper Hw Hpepper).
  destruct (randint g3 0 (Z.of_nat w) pepper) as [cols' g4].
  cbn [mbind result_bind fst snd] in *.
  rewrite Hf2. cbn. eexists _, _. split; [done |]. split; [done |].
  intros i j. destruct (Hent2 i j) as [-> | ->]; [| by right; right].
  destruct (Hent1 i j) as [-> | ->]; [by left | by right; left].
Qed.

Lemma add_gaussian_noise_spec g f mean std :
  rectangular h w f → (0 <= std)%R →
  ∃ f' g', add_gaussian_noise rng normal g f mean std = Ok (f', g')
           ∧ rectangular h w f'.
Proof.
  intros Hrect Hstd. unfold add_gaussian_noise, np_random_normal.
  rewrite decide_False by lra. cbn [mbind result_bind].
  destruct (normal _ _ _ _) as [noise g1]. eexists _, _. split; [done |].
  by apply rectangular_clip, rectangular_pointwise.
Qed.

Lemma add_laplace_noise_spec g f scale :
  rectangular h w f → (0 <= scale)%R →
  ∃ f' g', add_laplace_noise rng laplace g f scale = Ok (f', g')
           ∧ rectangular h w f'.
Proof.
  intros Hrect Hscale. unfold add_laplace_noise, np_random_laplace.
  rewrite decide_False by lra. cbn [mbind result_bind].
  destruct (laplace _ _ _ _) as [noise g1]. eexists _, _. split; [done |].
  by apply rectangular_clip, rectangular_pointwise.
Qed.

Lemma add_gaussian_few_noise_rectangular g f amplitude :
  rectangular h w f →
  rectangular h w (add_gaussian_few_noise rng uniform1 g f amplitude).1.
Proof.
  intros Hrect. unfold add_gaussian_few_noise.
  destruct (shape f) as [h' w'].
  match goal with |- context [fold_left ?step ?l (f, g)] =>
    assert (∀ st, rectangular h w st.1 →
              rectangular h w (fold_left step l st).1) as Hfold end.
  { induction (seq 0 5) as [|k ks IH]; intros [noisy g0] Hst; [done |].
    simpl. apply IH.
    destruct (uniform1 g0 0 (INR w')) as [cx g1].
    destruct (uniform1 g1 0 (INR h')) as [cy g2]. simpl.
    by apply rectangular_pointwise. }
  specialize (Hfold (f, g) Hrect).
  destruct (fold_left _ _ _) as [noisy g']. simpl in *.
  by apply rectangular_clip.
Qed.

Lemma add_poisson_noise_spec g f :
  rectangular h w f → (∀ v, v ∈ concat f → 0 <= v)%R →
  ∃ f' g', add_poisson_noise rng poisson g f = Ok (f', g')
           ∧ rectangular h w f'.
Proof.
  intros Hrect Hpos. unfold add_poisson_noise, np_random_poisson.
  rewrite decide_False.
  - cbn [mbind result_bind]. destruct (poisson _ _) as [sampled g1].
    eexists _, _. split; [done |].
    by apply rectangular_clip, rectangular_pointwise.
  - rewrite Exists_exists. intros (u & (i & j & Hu)%elem_of_entry & Hneg).
    rewrite entry_elementwise in Hu.
    destruct (entry f i j) as [v |] eqn:Hv; [| done].
    injection Hu as <-. apply entry_elem_of, Hpos in Hv.
    pose proof (pos_INR (2 ^ Nat.log2_up (length (remove_dups (concat f))))).
    nra.
Qed.

Lemma add_speckle_noise_spec g f var :
  rectangular h w f → (0 <= var)%R →
  ∃ f' g', add_speckle_noise rng randn g f var = (array f', g')
           ∧ rectangular h w f'.
Proof.
  intros Hrect Hvar. unfold add_speckle_noise.
  destruct (randn _ _) as [noise g1]. rewrite decide_False by lra.
  eexists _, _. split; [done |].
  by apply rectangular_clip, rectangular_pointwise.
Qed.

(** The array of the values of [pnoise2] has the entries [perlin_value]. *)
Lemma perlin_entry f i j :
  rectangular h w f → i < w → j < h →
  entry (pointwise (λ _ p : R, p) f (perlin_value float32 pnoise2 h w)) i j
  = Some (perlin_value float32 pnoise2 h w j i).
Proof.
  intros Hrect Hi Hj. rewrite entry_pointwise.
  by destruct (rectangular_entry h w f i j Hrect Hi Hj) as [v ->].
Qed.

Lemma add_perlin_noise_spec f amplitude :
  rectangular h w f →
  (perlin_flat float32 pnoise2 h w →
     add_perlin_noise float32 pnoise2 f 20 amplitude = Ok (nan_array (h, w)))
  ∧ (¬ perlin_flat float32 pnoise2 h w →
     ∃ f', add_perlin_noise float32 pnoise2 f 20 amplitude = Ok (array f')
           ∧ rectangular h w f').
Proof.
  intros Hrect. unfold add_perlin_noise.
  rewrite (rectangular_shape h w f Hrect Hh).
  rewrite decide_False by (intros [? _]; lra).
  change (λ i j : nat, float32 (pnoise2 (INR i / 20)%R (INR j / 20)%R
                                  (Z.of_nat w) (Z.of_nat h)))
    with (perlin_value float32 pnoise2 h w).
  set (perlin := pointwise _ f _).
  assert (rectangular h w perlin) as Hp by (by apply rectangular_pointwise).
  assert (Hval : ∀ v, v ∈ concat perlin →
            ∃ i j, i < h ∧ j < w ∧ v = perlin_value float32 pnoise2 h w i j).
  { intros v (i & j & Hv)%elem_of_entry.
    destruct (entry_Some_bounds h w perlin i j v Hp Hv) as [Hi Hj].
    unfold perlin in Hv. rewrite (perlin_entry f i j Hrect Hi Hj) in Hv.
    injection Hv as <-. by exists j, i. }
  pose proof (rectangular_concat h w perlin Hp Hh Hw) as Hne.
  destruct (field_min_spec perlin Hne) as (lo & -> & Hlo_in & Hlo_le).
  destruct (field_max_spec perlin Hne) as (hi & -> & Hhi_in & Hhi_ge).
  cbn [mbind result_bind]. split.
  - intros Hflat.
    destruct (Hval lo Hlo_in) as (i & j & Hi & Hj & ->).
    destruct (Hval hi Hhi_in) as (i' & j' & Hi' & Hj' & ->).
    rewrite decide_True; [done |].
    by rewrite (Hflat i j), (Hflat i' j').
  - intros Hflat. rewrite decide_False.
    + eexists. split; [done |].
      by apply rectangular_clip, rectangular_pointwise.
    + intros Heq. apply Hflat. intros i j Hi Hj.
      assert (Hall : ∀ i j, i < h → j < w →
                perlin_value float32 pnoise2 h w i j = lo).
      { intros i0 j0 Hi0 Hj0.
        assert (perlin_value float32 pnoise2 h w i0 j0 ∈ concat perlin)
          as Hin.
        { eapply entry_elem_of. unfold perlin.
          by apply (perlin_entry f j0 i0). }
        pose proof (Hlo_le _ Hin). pose proof (Hhi_ge _ Hin). lra. }
      by rewrite (Hall i j), (Hall 0 0).
Qed.

(** What [apply_noise_to_scalar_field] does for a noise type other than
    ["None"]: the image is converted to single precision, normalised,
    changed by the noise, restored and converted again. *)
Lemma apply_noise_spec g img noise_type amount :
  rectangular h w (vtk.scalars img) → noise_type ≠ "None" →
  (0 <= amount)%R ∨ noise_type ∉ noise_names →
  ∃ lo hi out g',
    field_min (elementwise float32 (vtk.scalars img)) = Ok lo
    ∧ field_max (elementwise float32 (vtk.scalars img)) = Ok hi
    ∧ lo ∈ concat (elementwise float32 (vtk.scalars img))
    ∧ hi ∈ concat (elementwise float32 (vtk.scalars img))
    ∧ (∀ v, v ∈ concat (elementwise float32 (vtk.scalars img)) →
         lo <= v <= hi)%R
    ∧ apply_noise_to_scalar_field float32 rng randint normal uniform
        uniform1 laplace randn poisson pnoise2 g img noise_type amount
      = Ok (noised img out, g')
    ∧ ((noise_type = "Perlin" ∧ perlin_flat float32 pnoise2 h w
        ∧ out = nan_array (h, w))
       ∨ (¬ (noise_type = "Perlin" ∧ perlin_flat float32 pnoise2 h w)
          ∧ ∃ noisy,
              rectangular h w noisy
              ∧ out = array (elementwise float32 (restored lo hi noisy))
              ∧ (noise_type ∉ noise_names →
                   noisy = normalised lo hi
                             (elementwise float32 (vtk.scalars img))
                   ∧ g' = g)
              ∧ (noise_type = "Salt" → ∀ i j,
                   entry noisy i j
                   = entry (normalised lo hi
                              (elementwise float32 (vtk.scalars img))) i j
                   ∨ entry noisy i j = Some 1%R)
              ∧ (noise_type = "Pepper" → ∀ i j,
                   entry noisy i j
                   = entry (normalised lo hi
                              (elementwise float32 (vtk.scalars img))) i j
                   ∨ entry noisy i j = Some 0%R)
              ∧ (noise_type = "Salt and Pepper" → ∀ i j,
                   entry noisy i j
                   = entry (normalised lo hi
                              (elementwise float32 (vtk.scalars img))) i j
                   ∨ entry noisy i j = Some 1%R
                   ∨ entry noisy i j = Some 0%R))).
Proof.
  intros Hrect Hnone Hamount.
  set (cast := elementwise float32 (vtk.scalars img)).
  assert (rectangular h w cast) as Hcast
    by (by apply rectangular_elementwise).
  pose proof (rectangular_concat h w _ Hcast Hh Hw) as Hne.
  destruct (field_min_spec _ Hne) as (lo & Hlo & Hlo_in & Hlo_le).
  destruct (field_max_spec _ Hne) as (hi & Hhi & Hhi_in & Hhi_ge).
  assert (Hbounds : ∀ v, v ∈ concat cast → (lo <= v <= hi)%R).
  { intros v Hv. split; [by apply Hlo_le | by apply Hhi_ge]. }
  exists lo, hi.
  unfold apply_noise_to_scalar_field.
  rewrite decide_False by done. fold cast. rewrite Hlo, Hhi.
  cbn [mbind result_bind].
  change (elementwise _ cast) with (normalised lo hi cast).
  set (field_norm := normalised lo hi cast).
  assert (rectangular h w field_norm) as Hnorm
    by (by apply rectangular_elementwise).
  pose proof (normalised_unit lo hi cast Hbounds) as Hunit.
  fold field_norm in Hunit.
  assert (Hknown : noise_type ∈ noise_names → (0 <= amount)%R).
  { intros Hin. by destruct Hamount. }
  match goal with |- context [mbind _ ?m] =>
    assert (∃ a g', m = Ok (a, g')
      ∧ ((noise_type = "Perlin" ∧ perlin_flat float32 pnoise2 h w
          ∧ a = nan_array (h, w))
         ∨ (¬ (noise_type = "Perlin" ∧ perlin_flat float32 pnoise2 h w)
            ∧ ∃ noisy, a = array noisy ∧ rectangular h w noisy
              ∧ (noise_type ∉ noise_names → noisy = field_norm ∧ g' = g)
              ∧ (noise_type = "Salt" → ∀ i j,
                   entry noisy i j = entry field_norm i j
                   ∨ entry noisy i j = Some 1%R)
              ∧ (noise_type = "Pepper" → ∀ i j,
                   entry noisy i j = entry field_norm i j
                   ∨ entry noisy i j = Some 0%R)
              ∧ (noise_type = "Salt and Pepper" → ∀ i j,
                   entry noisy i j = entry field_norm i j
                   ∨ entry noisy i j = Some 1%R
                   ∨ entry noisy i j = Some 0%R))))
      as (a & g' & -> & Ha) end.
  { assert (Hin : noise_type ∈ noise_names →
              ∀ P : Prop, (noise_type ∉ noise_names → P)) by done.
    repeat case_decide; try subst noise_type.
    - destruct (add_salt_noise_spec g field_norm amount Hnorm)
        as (f' & g' & -> & Hrect' & Hent); [apply Hknown; named |].
      cbn. exists (array f'), g'. split; [done |]. right.
      split; [by intros [[=] _] |]. exists f'. split; [done |].
      split; [done |]. split; [apply Hin; named |]. by repeat split.
    - destruct (add_pepper_noise_spec g field_norm amount Hnorm)
        as (f' & g' & -> & Hrect' & Hent); [apply Hknown; named |].
      cbn. exists (array f'), g'. split; [done |]. right.
      split; [by intros [[=] _] |]. exists f'. split; [done |].
      split; [done |]. split; [apply Hin; named |]. by repeat split.
    - destruct (add_salt_pepper_noise_spec g field_norm amount (5 / 10)
                  Hnorm) as (f' & g' & -> & Hrect' & Hent);
        [apply Hknown; named | lra |].
      cbn. exists (array f'), g'. split; [done |]. right.
      split; [by intros [[=] _] |]. exists f'. split; [done |].
      split; [done |]. split; [apply Hin; named |]. by repeat split.
    - destruct (add_gaussian_noise_spec g field_norm 0 amount Hnorm)
        as (f' & g' & -> & Hrect'); [apply Hknown; named |].
      cbn. exists (array f'), g'. split; [done |]. right.
      split; [by intros [[=] _] |]. exists f'. split; [done |].
      split; [done |]. split; [apply Hin; named |]. by repeat split.
    - pose proof (add_gaussian_few_noise_rectangular g field_norm amount
                    Hnorm) as Hfew.
      destruct (add_gaussian_few_noise _ _ _ _ _) as [f' g'].
      exists (array f'), g'. split; [done |]. right.
      split; [by intros [[=] _] |]. exists f'. split; [done |].
      split; [done |]. split; [apply Hin; named |]. by repeat split.
    - destruct (add_poisson_noise_spec g field_norm Hnorm)
        as (f' & g' & -> & Hrect'); [intros v Hv; by apply Hunit |].
      cbn. exists (array f'), g'. split; [done |]. right.
      split; [by intros [[=] _] |]. exists f'. split; [done |].
      split; [done |]. split; [apply Hin; named |]. by repeat split.
    - destruct (add_speckle_noise_spec g field_norm amount Hnorm)
        as (f' & g' & -> & Hrect'); [apply Hknown; named |].
      exists (array f'), g'. split; [done |]. right.
      split; [by intros [[=] _] |]. exists f'. split; [done |].
      split; [done |]. split; [apply Hin; named |]. by repeat split.
    - unfold add_uniform_noise. destruct (uniform _ _ _ _) as [noise g1].
      eexists _, _. split; [done |]. right.
      split; [by intros [[=] _] |]. eexists. split; [done |].
      split; [by apply rectangular_clip, rectangular_pointwise |].
      split; [apply Hin; named |]. by repeat split.
    - destruct (add_laplace_noise_spec g field_norm amount Hnorm)
        as (f' & g' & -> & Hrect'); [apply Hknown; named |].
      cbn. exists (array f'), g'. split; [done |]. right.
      split; [by intros [[=] _] |]. exists f'. split; [done |].
      split; [done |]. split; [apply Hin; named |]. by repeat split.
    - destruct (add_perlin_noise_spec field_norm amount Hnorm)
        as [Hflat Hrough].
      destruct (Classical_Prop.classic (perlin_flat float32 pnoise2 h w))
        as [Hf | Hf].
      + rewrite (Hflat Hf). cbn. eexists _, _. split; [done |]. by left.
      + destruct (Hrough Hf) as (f' & -> & Hrect'). cbn.
        exists (array f'), g. split; [done |]. right.
        split; [by intros [_ ?] |]. exists f'. split; [done |].
        split; [done |]. split; [apply Hin; named |]. by repeat split.
    - exists (array field_norm), g. split; [done |]. right.
      split; [by intros [? _] |]. exists field_norm. split; [done |].
      split; [done |]. split; [done |]. by repeat split. }
  cbn [mbind result_bind]. exists (nd_elementwise float32
    (nd_elementwise (clip1 lo hi)
       (nd_elementwise (λ v, v * (hi - lo) + lo)%R a))), g'.
  split; [done |]. split; [done |]. split; [done |]. split; [done |].
  split; [done |]. split; [done |].
  destruct Ha as [(HP & Hflat & ->) | (Hnot & noisy & -> & Hrect' & Hextra)].
  - left. by repeat split.
  - right. split; [done |]. exists noisy. split; [done |]. split; [done |].
    exact Hextra.
Qed.


End transforms_spec.

Lemma low_randint_range g lo hi n :
  (lo < hi)%Z → Forall (λ v, lo ≤ v < hi)%Z (low_randint g lo hi n).1.
Proof. intros H. simpl. apply Forall_replicate. lia. Qed.

Lemma dot_image_rectangular : rectangular 1 1 (vtk.scalars dot_image).
Proof. split; [done |]. by repeat constructor. Qed.

Lemma step_image_rectangular : rectangular 1 2 (vtk.scalars step_image).
Proof. split; [done |]. by repeat constructor. Qed.

(** The identity satisfies what is assumed of a conversion. *)
Lemma rounding_id : rounding (λ v, v).
Proof. by split. Qed.

End noise_proofs.

(** * The claims *)

Section clustering_claims_proofs.
Import umbrella_tracker.

(** C1. For sources with positive variances the merge pass ends with a
    parent array.  That array is the one obtained by calling [union i j]
    for exactly the ordered pairs [(i, j)], [i ≠ j], at which
    [amp_i <= amp_j * exp (- dist(i,j)^2 / (2 * var_j))], every ordered
    pair being tested, in row-major order; two indices end under one root
    exactly when that relation connects them; and the grouping files every
    source id under the source id of its root index. *)
Theorem umbrella_criterion gs :
  Forall (λ g, (0 < var g)%R) gs →
  ∃ parent clusters,
    umbrella_parents gs = Ok parent
    ∧ umbrella_parents gs
      = for_ (union_calls gs) (λ parent ij, union parent ij.1 ij.2)
          (seq 0 (length gs))
    ∧ (∀ a b, a < length gs → b < length gs →
         (same_root parent a b ↔ rtsc (dominates gs) a b))
    ∧ umbrella_clusters_with_roots gs = Ok (clusters, values clusters)
    ∧ labelled_by_roots gs parent clusters.
Proof.
  intros _.
  destruct (clusters_labelled gs)
    as (parent & clusters & H1 & H2 & H3 & H4 & H5 & H6).
  exists parent, clusters.
  split; [exact H1 |]. split; [exact H2 |]. split; [exact H3 |].
  split; [exact H4 |]. split; [exact H5 | exact H6].
Qed.

Lemma umbrella_criterion_witness :
  Forall (λ g, (0 < var g)%R) [source_a; source_b]
  ∧ ∃ parent clusters,
      umbrella_parents [source_a; source_b] = Ok parent
      ∧ umbrella_parents [source_a; source_b]
        = for_ (union_calls [source_a; source_b])
            (λ parent ij, union parent ij.1 ij.2) (seq 0 2)
      ∧ (∀ a b, a < 2 → b < 2 →
           (same_root parent a b ↔ rtsc (dominates [source_a; source_b]) a b))
      ∧ umbrella_clusters_with_roots [source_a; source_b]
        = Ok (clusters, values clusters)
      ∧ labelled_by_roots [source_a; source_b] parent clusters.
Proof.
  split; [apply pair_variances |].
  apply (umbrella_criterion [source_a; source_b]). apply pair_variances.
Defined.

(** C10. For sources with pairwise distinct ids the clusterer returns a
    partition of the input ids: every input id is in a member list, no id is
    in two lists or twice in one, no member list is empty, and every root id
    is a member of its own list. *)
Theorem clusters_partition gs :
  NoDup (id <$> gs) →
  ∃ cl, umbrella_clusters_with_roots gs = Ok (cl, values cl)
        ∧ partitions (id <$> gs) cl.
Proof.
  intros Hnd.
  destruct (clusters_partition_facts gs Hnd) as (cl & Hcl & Hk & Hperm & Hne & Hu).
  exists cl. split; [done |]. split; [| done].
  intros a Ha. rewrite <- Hperm in Ha.
  apply list_elem_of_In, in_concat in Ha as (ms & Hms & Ha).
  apply list_elem_of_In in Hms, Ha.
  apply list_elem_of_fmap in Hms as ([k ms'] & -> & Hin).
  by exists k, ms'.
Qed.

Lemma clusters_partition_witness :
  NoDup (id <$> [source_a; source_b])
  ∧ ∃ cl, umbrella_clusters_with_roots [source_a; source_b]
          = Ok (cl, values cl)
          ∧ partitions (id <$> [source_a; source_b]) cl.
Proof.
  split; [apply pair_ids |].
  apply (clusters_partition [source_a; source_b]). apply pair_ids.
Defined.

(** C6. For sources with pairwise distinct ids, clustering a permutation of
    the list yields the same member sets as clustering the list itself,
    whatever the root labels are. *)
Theorem clusters_insertion_order gs gs' :
  NoDup (id <$> gs) → gs ≡ₚ gs' →
  ∃ cl cl',
    umbrella_clusters_with_roots gs = Ok (cl, values cl)
    ∧ umbrella_clusters_with_roots gs' = Ok (cl', values cl')
    ∧ same_member_sets cl cl'.
Proof.
  intros Hnd Hp.
  assert (NoDup (id <$> gs')) as Hnd' by (by rewrite <- Hp).
  destruct (clusters_class_transfer gs gs' Hnd Hp) as (cl & cl' & H1 & H2 & H12).
  destruct (clusters_class_transfer gs' gs Hnd' (symmetry Hp))
    as (cl2' & cl2 & H2' & H1' & H21).
  assert (cl2 = cl) as -> by congruence.
  assert (cl2' = cl') as -> by congruence.
  exists cl, cl'. split; [done |]. split; [done |]. split; [done |].
  intros ms' Hms'. destruct (H21 ms' Hms') as (ms & Hms & Hperm).
  exists ms. by split.
Qed.

Lemma clusters_insertion_order_witness :
  NoDup (id <$> [source_a; source_b])
  ∧ [source_a; source_b] ≡ₚ [source_b; source_a]
  ∧ ∃ cl cl',
      umbrella_clusters_with_roots [source_a; source_b] = Ok (cl, values cl)
      ∧ umbrella_clusters_with_roots [source_b; source_a]
        = Ok (cl', values cl')
      ∧ same_member_sets cl cl'.
Proof.
  split; [apply pair_ids |]. split; [apply perm_swap |].
  apply (clusters_insertion_order [source_a; source_b] [source_b; source_a]).
  - apply pair_ids.
  - apply perm_swap.
Defined.

(** C2. For every pair of clusterings the correspondence matrix has a 1 at
    [(i, j)] exactly when the member lists of previous root [i] and current
    root [j] share an id, and the events are the births followed, for every
    current root with more than one such previous root, by one merge event
    whose sources are all those previous roots and whose target is that
    current root.  For [{1: [1,2], 3: [3]}] followed by [{1: [1,2,3]}] that
    is one merge event with sources [[1, 3]] and target [1], and no birth. *)
Theorem merge_events_detected :
  (∀ prev curr t, ∃ M events births,
      correspondence_matrix_with_roots prev curr = Ok (M, keys prev, keys curr)
      ∧ (∀ i j r_i r_j,
           keys prev !! i = Some r_i → keys curr !! j = Some r_j →
           M !! i ≫= (.!! j)
           = Some (if decide (overlap prev curr r_i r_j) then 1%Z else 0%Z))
      ∧ detect_events_from_correspondence_matrix M (keys prev) (keys curr) t
        = Ok (events, births)
      ∧ events = (birth_event t <$> new_roots prev curr)
                 ++ merges_of prev curr t (keys curr)
      ∧ (∀ r_j, r_j ∈ keys curr →
           merge_event t r_j (contributors prev curr r_j) ∈ events
           ↔ 1 < length (contributors prev curr r_j)))
  ∧ (∀ t,
      correspondence_matrix_with_roots
        merge_scenario.prev_clusters merge_scenario.curr_clusters
      = Ok ([[1]; [1]], [1; 3], [1])%Z
      ∧ detect_events_from_correspondence_matrix
          [[1]; [1]]%Z [1; 3]%Z [1]%Z t
        = Ok ([merge_event t 1 [1; 3]%Z], [])).
Proof.
  split.
  - intros prev curr t.
    exists (overlap_matrix prev curr). eexists. eexists.
    split; [apply correspondence_matrix_spec |]. split.
    { intros i j r_i r_j Hi Hj. unfold overlap_matrix.
      rewrite list_lookup_fmap, Hi. simpl. unfold overlap_row.
      by rewrite list_lookup_fmap, Hj. }
    split; [apply detect_events_spec |]. split; [done |].
    intros r_j Hr. by apply merge_event_elem_of.
  - intros t. split; reflexivity.
Qed.

(** C3, as the code has it.  When the storage refuses the snapshot the
    timer callback catches the error, prints it and returns normally, and
    the tracking step is abandoned: the window keeps the previous
    clustering, the events and the timestep it had before the tick.  When
    the snapshot is written the clustering just computed becomes the
    previous clustering, the events are appended and the timestep
    advances. *)
Theorem snapshot_failure_abandons_step self fs stdout :
  ∃ cl evs fs',
    umbrella_clusters_with_roots (gcopy (gui.gaussian_scene self))
    = Ok (cl, values cl)
    ∧ gui._update_timer self fs stdout
      = if read_only fs
        then (self, fs, stdout ++ [gui.UmbrellaTrackingError OSError])
        else ({| gui.gaussian_scene :=
                   set_prev_clusters (gui.gaussian_scene self) cl;
                 gui.events := gui.events self ++ evs;
                 gui.tracking_timestep := gui.tracking_timestep self + 1 |},
              fs', stdout).
Proof.
  destruct (read_only fs) eqn:Hro.
  - destruct (update_umbrella_tracking_spec (gui.gaussian_scene self) fs
                "umbrella_output" (gui.tracking_timestep self))
      as (cl & m & evs & Hcl & _ & _).
    exists cl, evs, fs. split; [done |].
    unfold gui._update_timer.
    by rewrite update_umbrella_tracking_read_only.
  - destruct (snapshot_success_keeps_clustering self fs stdout Hro)
      as (cl & evs & fs' & Hcl & Htick).
    by exists cl, evs, fs'.
Qed.

(** C3 as stated fails: on the first tick of a one-source scene whose
    snapshot cannot be written, the clustering [{1: [1]}] is computed but
    is not the previous clustering after the tick. *)
Lemma snapshot_failure_loses_clustering :
  umbrella_clusters_with_roots (gcopy one_source_scene)
  = Ok ([(1, [1])], [[1]])%Z
  ∧ (update_umbrella_tracking one_source_scene full_disk "umbrella_output" 0).1
    = Raise OSError
  ∧ gaussian_scene._prev_clusters
      (gui.gaussian_scene
         (gui._update_timer one_source_window full_disk []).1.1)
    ≠ Some [(1, [1])]%Z.
Proof.
  split; [apply one_source_clusters |].
  rewrite (update_umbrella_tracking_read_only _ full_disk) by reflexivity.
  split; [done |].
  unfold gui._update_timer.
  rewrite (update_umbrella_tracking_read_only _ full_disk) by reflexivity.
  simpl. discriminate.
Qed.

End clustering_claims_proofs.

Section scene_claims_proofs.
Import gaussian_scene.

(** C7, as the code has it.  [add_gaussian] gives the new source the next
    sequential id, appends it to the source list, advances the id counter
    and returns nothing; an omitted coordinate is drawn within 20 to 80
    percent of the extent of its axis. *)
Theorem add_gaussian_appends self g x y amplitude variance :
  (0 <= variance)%R → (∀ n, 0 <= draws g n < 1)%R →
  ∃ new g',
    add_gaussian self g x y amplitude variance = Ok (with_new self new, g', None)
    ∧ created self x y amplitude variance new.
Proof. apply add_gaussian_Ok. Qed.

Lemma add_gaussian_appends_witness :
  (0 <= 100)%R ∧ (∀ n, 0 <= draws steady_rng n < 1)%R
  ∧ ∃ new g',
      add_gaussian (__init__ 200 200) steady_rng None None 1 100
      = Ok (with_new (__init__ 200 200) new, g', None)
      ∧ created (__init__ 200 200) None None 1 100 new.
Proof.
  split; [lra |]. split; [apply steady_rng_range |].
  apply (add_gaussian_appends (__init__ 200 200) steady_rng None None 1 100);
    [lra | apply steady_rng_range].
Defined.

(** C7 as stated fails: the first source of a fresh scene gets id 1, and
    the call returns [None], not that id. *)
Lemma add_gaussian_returns_nothing :
  ∃ self' g' returned,
    add_gaussian (__init__ 200 200) steady_rng (Some 0%R) (Some 0%R) 1 100
    = Ok (self', g', returned)
    ∧ id <$> gaussians self' = [1%Z]
    ∧ returned ≠ Some 1%Z.
Proof.
  destruct (add_gaussian_Ok (__init__ 200 200) steady_rng
              (Some 0%R) (Some 0%R) 1 100)
    as (new & g' & H1 & H2 & _); [lra | apply steady_rng_range |].
  exists (with_new (__init__ 200 200) new), g', None.
  split; [exact H1 |]. split; [simpl; by rewrite H2 | done].
Qed.

(** C8, as the code has it.  Creating a source with a negative variance
    raises [ValueError] at creation. *)
Theorem add_gaussian_negative_variance self g x y amplitude variance :
  (variance < 0)%R →
  add_gaussian self g x y amplitude variance = Raise ValueError.
Proof. apply add_gaussian_negative. Qed.

Lemma add_gaussian_negative_variance_witness :
  (-1 < 0)%R
  ∧ add_gaussian (__init__ 200 200) steady_rng None None 1 (-1)
    = Raise ValueError.
Proof.
  split; [lra |].
  apply (add_gaussian_negative_variance (__init__ 200 200) steady_rng
           None None 1 (-1)).
  lra.
Defined.

(** C8 as stated fails: a zero variance is accepted at creation, and the
    error only shows when the field is evaluated. *)
Lemma add_gaussian_zero_variance :
  ∃ self' g',
    add_gaussian (__init__ 1 1) steady_rng (Some 0%R) (Some 0%R) 1 0
    = Ok (self', g', None)
    ∧ var <$> gaussians self' = [0%R]
    ∧ generate_image_data None self' = Raise ZeroDivisionError.
Proof.
  destruct (add_gaussian_Ok (__init__ 1 1) steady_rng
              (Some 0%R) (Some 0%R) 1 0)
    as (new & g' & H1 & _ & _ & H4 & _); [lra | apply steady_rng_range |].
  exists (with_new (__init__ 1 1) new), g'.
  split; [exact H1 |]. split; [simpl; by rewrite H4 |].
  unfold generate_image_data. simpl. unfold sample_value. cbn [for_].
  rewrite !f_gaussian_zero_variance by exact H4. reflexivity.
Qed.

(** C9, as the code has it.  A step on a source whose path is empty raises
    nothing and changes nothing.  A step on a source whose path is a single
    waypoint, with the cursor at 0, raises nothing; when the waypoint is
    closer than 0.5 it leaves the source in place and the cursor of the
    source wraps back to 0, and otherwise it moves the source towards the
    waypoint by the path speed and changes no cursor. *)
Theorem short_path_step self path_index g path :
  paths self !! id g = Some path →
  path = [] ∨ (∃ w, path = [w]) ∧ default 0%Z (path_index !! id g) = 0%Z →
  ∃ path_index' g',
    custom_path_step self path_index g = Ok (path_index', g')
    ∧ short_path_outcome self g path path_index path_index' g'.
Proof.
  intros Hp [-> | [[w ->] Hc]].
  - rewrite (custom_path_step_empty _ _ _ Hp).
    exists path_index, g. split; [done |]. split; [done |]. intros ? [=].
  - rewrite (custom_path_step_single _ _ _ w Hp Hc).
    destruct (decide (distance_to g w < 5 / 10)%R) as [Hd | Hd].
    + eexists _, _. split; [done |]. split; [intros [=] |].
      intros w' [= <-]. rewrite decide_True by done.
      split; [done |]. apply insert_insert_eq.
    + eexists _, _. split; [done |]. split; [intros [=] |].
      intros w' [= <-]. by rewrite decide_False.
Qed.

Lemma short_path_step_witness :
  paths walker_scene !! id walker = Some [(1%R, 0%R)]
  ∧ ([(1%R, 0%R)] = []
     ∨ (∃ w, [(1%R, 0%R)] = [w])
       ∧ default 0%Z ((∅ : gmap Z Z) !! id walker) = 0%Z)
  ∧ ∃ path_index' g',
      custom_path_step walker_scene ∅ walker = Ok (path_index', g')
      ∧ short_path_outcome walker_scene walker [(1%R, 0%R)] ∅ path_index' g'.
Proof.
  split; [apply walker_path |].
  split; [right; split; [by eexists | apply walker_cursor] |].
  apply (short_path_step walker_scene ∅ walker [(1%R, 0%R)]).
  - apply walker_path.
  - right. split; [by eexists | apply walker_cursor].
Defined.

(** C9 as stated fails: a source at the origin whose path is the single
    waypoint [(1, 0)] is moved to [x = 1/2] by one tick. *)
Lemma single_waypoint_moves :
  ∃ self' g',
    move_gaussians_by_custom_path walker_scene = Ok self'
    ∧ gaussians self' = [g']
    ∧ g'.(gaussian_scene.x) = (1 / 2)%R
    ∧ g'.(gaussian_scene.x) ≠ walker.(gaussian_scene.x).
Proof.
  unfold move_gaussians_by_custom_path. simpl.
  rewrite (custom_path_step_single walker_scene ∅ walker (1%R, 0%R)
             walker_path walker_cursor).
  rewrite walker_distance. rewrite decide_False by lra. simpl.
  eexists _, _. split; [reflexivity |]. split; [reflexivity |].
  simpl. split; lra.
Qed.

(** C4, as the code has it.  For each of the nine kernels and sources with
    positive spreads, the value stored at every grid point is the largest
    of 0 and the kernel values of the sources there: a maximum, not a sum,
    floored at 0. *)
Theorem sample_is_floored_maximum pnoise2 self :
  distribution_type self ∈ kernel_names →
  Forall positive_spread (gaussians self) →
  ∃ img dist_fn,
    dist_map pnoise2 (distribution_type self) = Ok dist_fn
    ∧ generate_image_data pnoise2 self = Ok img
    ∧ samples_floored_maximum self dist_fn img.
Proof.
  intros Hname Hpos.
  destruct (generate_image_data_point pnoise2 self Hname Hpos)
    as (img & dist_fn & Hmap & Himg & Hpt).
  exists img, dist_fn. split; [done |]. split; [done |].
  intros i j Hi Hj.
  destruct (Hpt i j Hi Hj) as (v & Hv & Hge & Hall & Hor).
  exists v. split; [done |]. split; [done |]. split; [done |].
  split; [done |].
  intros (g & k & Hg & Hk & Hk0).
  destruct Hor as [-> | Hsome]; [| done].
  destruct (Hall g Hg) as (k' & Hk' & Hle).
  assert (k' = k) as -> by congruence.
  assert (k = 0%R) as -> by lra.
  by exists g.
Qed.

Lemma sample_is_floored_maximum_witness :
  distribution_type hat_scene ∈ kernel_names
  ∧ Forall positive_spread (gaussians hat_scene)
  ∧ ∃ img dist_fn,
      dist_map None (distribution_type hat_scene) = Ok dist_fn
      ∧ generate_image_data None hat_scene = Ok img
      ∧ samples_floored_maximum hat_scene dist_fn img.
Proof.
  split; [apply hat_kernel_name |]. split; [apply hat_source_positive |].
  apply (sample_is_floored_maximum None hat_scene).
  - apply hat_kernel_name.
  - apply hat_source_positive.
Defined.

(** C4 as stated fails: with one Mexican-hat source the point [(1, 0)]
    holds 0 although the kernel value of the only source there, hence the
    maximum over the sources, is negative. *)
Lemma sample_above_maximum :
  ∃ img k,
    generate_image_data None hat_scene = Ok img
    ∧ vtk.GetScalarComponentAsDouble img 1 0 = Some 0%R
    ∧ (∀ g, g ∈ gaussians hat_scene →
         f_mexican_hat (IZR (Z.of_nat 1) * (spacing hat_scene / 2))
           (IZR (Z.of_nat 0) * (spacing hat_scene / 2)) g = Ok k)
    ∧ (k < 0)%R.
Proof.
  destruct (generate_image_data_point None hat_scene hat_kernel_name
              hat_source_positive) as (img & dist_fn & Hmap & Himg & Hpt).
  assert (dist_map None (distribution_type hat_scene) = Ok f_mexican_hat)
    as Hhat by reflexivity.
  rewrite Hhat in Hmap. injection Hmap as <-.
  destruct hat_value_negative as (k & Hk & Hneg).
  destruct (Hpt 1 0) as (v & Hv & Hge & _ & Hor); [simpl; lia | simpl; lia |].
  exists img, k. split; [done |].
  assert (v = 0%R) as ->.
  { destruct Hor as [-> | (g & Hg & Hgv)]; [done |].
    apply list_elem_of_singleton in Hg as ->.
    rewrite Hk in Hgv. injection Hgv as <-. lra. }
  split; [done |]. split; [| done].
  intros g Hg. by apply list_elem_of_singleton in Hg as ->.
Qed.

End scene_claims_proofs.

Section noise_claims_proofs.
Import noises.

(** C5 fails on the code, against the docstring of
    [apply_noise_to_scalar_field].  A one-point image noised with
    ["Perlin"] comes back with [nan] as its scalar, whatever the amount,
    the conversion and the values of [pnoise2]: [add_perlin_noise] stores
    one value, its re-normalisation divides zero by zero, and [nan] lies
    within no range, whatever [ε]. *)
Theorem perlin_noise_loses_range
    (float32 : R → R) (rng : Type)
    (randint : rng → Z → Z → Z → list Z * rng)
    (normal uniform : rng → R → R → nat * nat → (nat → nat → R) * rng)
    (uniform1 : rng → R → R → R * rng)
    (laplace : rng → R → R → nat * nat → (nat → nat → R) * rng)
    (randn : rng → nat * nat → (nat → nat → R) * rng)
    (poisson : rng → list (list R) → (nat → nat → R) * rng)
    (pnoise2 : R → R → Z → Z → R) (g : rng) (amount ε : R) :
  apply_noise_to_scalar_field float32 rng randint normal uniform uniform1
    laplace randn poisson pnoise2 g dot_image "Perlin" amount
  = Ok (noised dot_image (nan_array (1, 1)), g)
  ∧ ¬ range_kept (vtk.scalars dot_image) (nan_array (1, 1)) ε.
Proof.
  split; [| by intros []].
  unfold apply_noise_to_scalar_field. rewrite decide_False by done.
  cbn [dot_image vtk.scalars elementwise fmap list_fmap field_min field_max
       concat app foldl mbind result_bind].
  repeat (rewrite decide_False by done). rewrite decide_True by done.
  match goal with |- context [add_perlin_noise _ _ ?f _ _] =>
    destruct (add_perlin_noise_spec float32 pnoise2 1 1 ltac:(lia)
                ltac:(lia) f amount) as [Hflat _]
  end.
  { split; [done |]. by repeat constructor. }
  rewrite Hflat; [done |].
  intros i j Hi Hj. by replace i with 0 by lia; replace j with 0 by lia.
Qed.

End noise_claims_proofs.

(** * Vector fields and the motion along them *)

Section flow_proofs.
Import vtk gaussian_scene vector_field.

Lemma scaled_direction_Ok vx vy dx dy :
  ∃ k, (0 < k)%R
    ∧ (k * R_sqrt.sqrt (vx * vx + vy * vy) < 1)%R
    ∧ (m ← sqrt (vx * vx + vy * vy);
       let mag := (m + 1 / 10 ^ 6)%R in
       r ← sqrt (dx * dx + dy * dy);
       s ← div 1 (1 + 1 / 10 * r);
       a ← div (s * vx) mag;
       b ← div (s * vy) mag;
       Ok (a, b, 0%R))
      = Ok ((k * vx)%R, (k * vy)%R, 0%R).
Proof.
  pose proof (sqrt_pos (vx * vx + vy * vy)) as Hm.
  pose proof (sqrt_pos (dx * dx + dy * dy)) as Hr.
  set (m := R_sqrt.sqrt (vx * vx + vy * vy)) in *.
  set (r := R_sqrt.sqrt (dx * dx + dy * dy)) in *.
  assert (Hden : (0 < 1 + 1 / 10 * r)%R) by lra.
  assert (Hmag : (0 < m + 1 / 10 ^ 6)%R) by lra.
  set (s := (1 / (1 + 1 / 10 * r))%R).
  set (k := (s / (m + 1 / 10 ^ 6))%R).
  assert (Hs1 : (s * (1 + 1 / 10 * r) = 1)%R) by (unfold s; field; lra).
  assert (Hs0 : (0 < s)%R) by (apply Rdiv_lt_0_compat; lra).
  assert (Hk1 : (k * (m + 1 / 10 ^ 6) = s)%R) by (unfold k; field; lra).
  assert (Hk0 : (0 < k)%R) by (apply Rdiv_lt_0_compat; lra).
  exists k. split; [done |]. split; [nra |].
  - rewrite (sqrt_Ok _ (sum_products_nonneg vx vy)). cbn [mbind result_bind].
    rewrite (sqrt_Ok _ (sum_products_nonneg dx dy)). cbn [mbind result_bind].
    fold m r.
    rewrite !div_Ok by lra. cbn [mbind result_bind].
    rewrite !div_Ok by lra. cbn [mbind result_bind].
    unfold k, s. do 3 f_equal; field; lra.
Qed.

Lemma field_vector_Ok width height spacing field_type i j :
  let d := offset width height spacing i j in
  let v := direction field_type d.1 d.2 in
  ∃ k, (0 < k)%R
    ∧ (k * R_sqrt.sqrt (v.1 * v.1 + v.2 * v.2) < 1)%R
    ∧ field_vector width height spacing field_type i j
      = Ok ((k * v.1)%R, (k * v.2)%R, 0%R).
Proof.
  intros d v. subst d v. unfold field_vector, direction, offset.
  cbn [fst snd].
  repeat case_decide; cbn [fst snd]; apply scaled_direction_Ok.
Qed.

Lemma elem_of_range n a : a ∈ range n ↔ (0 ≤ a < n)%Z.
Proof.
  unfold range. rewrite list_elem_of_fmap. split.
  - intros (k & -> & Hk). apply elem_of_seq in Hk. lia.
  - intros Ha. exists (Z.to_nat a). split; [lia |]. apply elem_of_seq. lia.
Qed.

Section filling.
Variables (width height : Z) (spacing : R) (field_type : string).
Hypothesis width_nonneg : (0 ≤ width)%Z.
Hypothesis height_nonneg : (0 ≤ height)%Z.

Lemma tuple_index_lt i j :
  (0 ≤ i < width)%Z → (0 ≤ j < height)%Z →
  (0 ≤ j * width + i < width * height)%Z.
Proof.
  intros Hi Hj.
  assert (j * width ≤ (height - 1) * width)%Z
    by (apply Z.mul_le_mono_nonneg_r; lia).
  assert (0 ≤ j * width)%Z by (apply Z.mul_nonneg_nonneg; lia).
  lia.
Qed.

Lemma tuple_index_inj i j i' j' :
  (0 ≤ i < width)%Z → (0 ≤ i' < width)%Z → (0 ≤ j)%Z → (0 ≤ j')%Z →
  (j * width + i = j' * width + i')%Z → i = i' ∧ j = j'.
Proof.
  intros Hi Hi' Hj Hj' Heq.
  assert (j = j') as ->.
  { destruct (Z.lt_trichotomy j j') as [Hlt | [-> | Hlt]]; [| done |].
    - assert ((j + 1) * width ≤ j' * width)%Z
        by (apply Z.mul_le_mono_nonneg_r; lia). lia.
    - assert ((j' + 1) * width ≤ j * width)%Z
        by (apply Z.mul_le_mono_nonneg_r; lia). lia. }
  split; [lia | done].
Qed.

Lemma write_tuple (S : Z → Z → Prop) vecs i0 j0 :
  length vecs = Z.to_nat (width * height) →
  (0 ≤ i0 < width)%Z → (0 ≤ j0 < height)%Z →
  (∀ i j, S i j → written width height spacing field_type vecs i j) →
  ∃ vecs',
    (v ← field_vector width height spacing field_type i0 j0;
     SetTuple3 vecs (j0 * width + i0) v) = Ok vecs'
    ∧ length vecs' = Z.to_nat (width * height)
    ∧ ∀ i j, S i j ∨ (i = i0 ∧ j = j0) → written width height spacing field_type vecs' i j.
Proof.
  intros Hlen Hi0 Hj0 HS.
  destruct (field_vector_Ok width height spacing field_type i0 j0)
    as (k & _ & _ & Hv).
  rewrite Hv. cbn [mbind result_bind]. unfold SetTuple3.
  pose proof (tuple_index_lt i0 j0 Hi0 Hj0) as Hidx.
  rewrite decide_True by lia.
  eexists. split; [done |]. split; [by rewrite length_insert |].
  intros i j [Hij | [-> ->]].
  - destruct (HS i j Hij) as (Hi & Hj & v & Hfv & Hat).
    split; [done |]. split; [done |]. exists v. split; [done |].
    unfold tuple_at in *.
    destruct (decide (Z.to_nat (j0 * width + i0) = Z.to_nat (j * width + i)))
      as [Heq | Hne].
    + pose proof (tuple_index_lt i j Hi Hj).
      destruct (tuple_index_inj i0 j0 i j) as [-> ->]; [lia.. |].
      rewrite list_lookup_insert_eq by lia. congruence.
    + by rewrite list_lookup_insert_ne.
  - split; [done |]. split; [done |]. eexists. split; [exact Hv |].
    unfold tuple_at. rewrite list_lookup_insert_eq by lia. done.
Qed.

Lemma fill_row (S : Z → Z → Prop) vecs j0 :
  length vecs = Z.to_nat (width * height) →
  (0 ≤ j0 < height)%Z →
  (∀ i j, S i j → written width height spacing field_type vecs i j) →
  ∃ vecs',
    for_ (range width) (λ vecs i,
      v ← field_vector width height spacing field_type i j0;
      SetTuple3 vecs (j0 * width + i) v) vecs = Ok vecs'
    ∧ length vecs' = Z.to_nat (width * height)
    ∧ ∀ i j, S i j ∨ ((0 ≤ i < width)%Z ∧ j = j0) → written width height spacing field_type vecs' i j.
Proof.
  intros Hlen Hj0 HS.
  edestruct (for_inv
    (λ (seen : list Z) (vecs : list (R * R * R)),
       length vecs = Z.to_nat (width * height)
       ∧ ∀ i j, S i j ∨ (i ∈ seen ∧ j = j0) → written width height spacing field_type vecs i j)
    (λ vecs i,
      v ← field_vector width height spacing field_type i j0;
      SetTuple3 vecs (j0 * width + i) v) (range width))
    as (vecs' & Hfor & Hlen' & Hall).
  - intros seen a vs Ha [Hl Hw]. apply elem_of_range in Ha.
    destruct (write_tuple (λ i j, S i j ∨ (i ∈ seen ∧ j = j0)) vs a j0)
      as (vs' & Hbody & Hl' & Hw'); [done.. |].
    exists vs'. split; [done |]. split; [done |].
    intros i j [Hij | [Hi ->]]; apply Hw'.
    + left. by left.
    + apply elem_of_app in Hi as [Hi | Hi%list_elem_of_singleton].
      * left. right. done.
      * right. done.
  - split; [exact Hlen |]. intros i j [Hij | [Hi _]]; [by apply HS |].
    by apply elem_of_nil in Hi.
  - exists vecs'. split; [exact Hfor |]. split; [done |].
    intros i j [Hij | [Hi ->]]; apply Hall; [by left |].
    right. split; [| done]. rewrite app_nil_l. by apply elem_of_range.
Qed.

Lemma fill_rows :
  ∃ vecs,
    for_ (range height) (λ vecs j,
      for_ (range width) (λ vecs i,
        v ← field_vector width height spacing field_type i j;
        SetTuple3 vecs (j * width + i) v) vecs)
      (replicate (Z.to_nat (width * height)) (0%R, 0%R, 0%R)) = Ok vecs
    ∧ length vecs = Z.to_nat (width * height)
    ∧ ∀ i j, (0 ≤ i < width)%Z → (0 ≤ j < height)%Z → written width height spacing field_type vecs i j.
Proof.
  edestruct (for_inv
    (λ (seen : list Z) (vecs : list (R * R * R)),
       length vecs = Z.to_nat (width * height)
       ∧ ∀ i j, (0 ≤ i < width)%Z ∧ j ∈ seen → written width height spacing field_type vecs i j)
    (λ vecs j,
      for_ (range width) (λ vecs i,
        v ← field_vector width height spacing field_type i j;
        SetTuple3 vecs (j * width + i) v) vecs) (range height))
    as (vecs' & Hfor & Hlen' & Hall).
  - intros seen a vs Ha [Hl Hw]. apply elem_of_range in Ha.
    destruct (fill_row (λ i j, (0 ≤ i < width)%Z ∧ j ∈ seen) vs a)
      as (vs' & Hbody & Hl' & Hw'); [done.. |].
    exists vs'. split; [done |]. split; [done |].
    intros i j [Hi Hj]. apply Hw'.
    apply elem_of_app in Hj as [Hj | Hj%list_elem_of_singleton].
    + by left.
    + by right.
  - split; [by rewrite length_replicate |]. intros i j [_ Hj].
    by apply elem_of_nil in Hj.
  - exists vecs'. split; [exact Hfor |]. split; [done |].
    intros i j Hi Hj. apply Hall. split; [done |].
    rewrite app_nil_l. by apply elem_of_range.
Qed.

Lemma create_vector_field_spec :
  ∃ vecs,
    create_vector_field width height spacing field_type
    = Ok {| vec_dims := (width, height, 1%Z);
            vec_spacing := (spacing, spacing, 1%R);
            vectors := Some vecs |}
    ∧ length vecs = Z.to_nat (width * height)
    ∧ (∀ i j, (0 ≤ i < width)%Z → (0 ≤ j < height)%Z → written width height spacing field_type vecs i j)
    ∧ (∀ v, v ∈ vecs →
         ∃ i j, (0 ≤ i < width)%Z ∧ (0 ≤ j < height)%Z
                ∧ field_vector width height spacing field_type i j = Ok v).
Proof.
  destruct fill_rows as (vecs & Hfor & Hlen & Hw).
  exists vecs. unfold create_vector_field. rewrite Hfor.
  split; [done |]. split; [done |]. split; [done |].
  intros v (k & Hk)%list_elem_of_lookup.
  pose proof (lookup_lt_Some _ _ _ Hk) as Hlt. rewrite Hlen in Hlt.
  assert (Hwpos : (0 < width)%Z) by nia.
  set (i := (Z.of_nat k mod width)%Z). set (j := (Z.of_nat k / width)%Z).
  pose proof (Z.mod_pos_bound (Z.of_nat k) width Hwpos) as Hi.
  pose proof (Z.div_mod (Z.of_nat k) width ltac:(lia)) as Hdm.
  fold i j in Hi, Hdm.
  assert (Hj : (0 ≤ j < height)%Z).
  { split; [apply Z.div_pos; lia |].
    apply Z.div_lt_upper_bound; [done |]. lia. }
  destruct (Hw i j Hi Hj) as (_ & _ & v' & Hfv & Hat).
  exists i, j. split; [done |]. split; [done |].
  unfold tuple_at in Hat.
  replace (Z.to_nat (j * width + i)) with k in Hat by lia.
  congruence.
Qed.

End filling.

(** ** move_gaussians_by_vector_field *)

Lemma min_max_le a B : (min (max a 0) B <= B)%R.
Proof. unfold min, max. repeat case_decide; lra. Qed.

Lemma min_max_ge a B : (0 <= B)%R → (0 <= min (max a 0) B)%R.
Proof. unfold min, max. repeat case_decide; lra. Qed.

Lemma min_max_id a B : (0 <= a <= B)%R → min (max a 0) B = a.
Proof. unfold min, max. repeat case_decide; lra. Qed.

Lemma min_max_step a d B :
  (0 <= a <= B)%R → ((min (max (a + d) 0) B - a) ^ 2 <= d ^ 2)%R.
Proof. unfold min, max. repeat case_decide; nra. Qed.

Section reading.
Variables (vecs : list (R * R * R)) (width height : Z).
Hypothesis width_pos : (1 ≤ width)%Z.
Hypothesis height_pos : (1 ≤ height)%Z.
Hypothesis one_tuple_per_point :
  Z.of_nat (length vecs) = (width * height)%Z.

Lemma clamped_index_lt ix iy :
  let cx := Z.max 0 (Z.min ix (width - 1)) in
  let cy := Z.max 0 (Z.min iy (height - 1)) in
  (0 ≤ cy * width + cx < width * height)%Z.
Proof.
  intros cx cy.
  assert (0 ≤ cx < width)%Z by lia. assert (0 ≤ cy < height)%Z by lia.
  apply tuple_index_lt; lia.
Qed.

Lemma get_vector_Ok ix iy :
  ∃ v, get_vector vecs width height ix iy = Ok v
       ∧ tuple_at vecs width (Z.max 0 (Z.min ix (width - 1)))
           (Z.max 0 (Z.min iy (height - 1))) = Some v.
Proof.
  unfold get_vector, GetTuple3, tuple_at.
  pose proof (clamped_index_lt ix iy) as Hidx. cbv zeta in Hidx.
  rewrite decide_True by lia.
  destruct (lookup_lt_is_Some_2 vecs
    (Z.to_nat (Z.max 0 (Z.min iy (height - 1)) * width
               + Z.max 0 (Z.min ix (width - 1))))) as [v Hv]; [lia |].
  exists v. split; [| done]. by apply index_lookup.
Qed.

Lemma bilinear_sample_Ok spacing x y :
  spacing.1.1 ≠ 0%R → spacing.1.2 ≠ 0%R →
  ∃ vx vy, bilinear_sample vecs width height spacing x y = Ok (vx, vy, 0%R).
Proof.
  intros Hs1 Hs2. unfold bilinear_sample.
  rewrite !div_Ok by done. cbn [mbind result_bind].
  destruct (get_vector_Ok (floor (x / spacing.1.1)) (floor (y / spacing.1.2)))
    as (v00 & -> & _).
  destruct (get_vector_Ok
    (Z.min (floor (x / spacing.1.1) + 1) (width - 1))
    (floor (y / spacing.1.2))) as (v10 & -> & _).
  destruct (get_vector_Ok (floor (x / spacing.1.1))
    (Z.min (floor (y / spacing.1.2) + 1) (height - 1))) as (v01 & -> & _).
  destruct (get_vector_Ok
    (Z.min (floor (x / spacing.1.1) + 1) (width - 1))
    (Z.min (floor (y / spacing.1.2) + 1) (height - 1))) as (v11 & -> & _).
  cbn [mbind result_bind]. by eexists _, _.
Qed.

Lemma IZR_floor (i : Z) : floor (IZR i) = i.
Proof.
  unfold floor. apply Zfloor_eq. lra.
Qed.

Lemma bilinear_sample_node spacing i j v :
  spacing.1.1 ≠ 0%R → spacing.1.2 ≠ 0%R →
  (0 ≤ i < width)%Z → (0 ≤ j < height)%Z →
  tuple_at vecs width i j = Some v →
  bilinear_sample vecs width height spacing
    (IZR i * spacing.1.1) (IZR j * spacing.1.2) = Ok (v.1.1, v.1.2, 0%R).
Proof.
  intros Hs1 Hs2 Hi Hj Hv. unfold bilinear_sample.
  rewrite !div_Ok by done. cbn [mbind result_bind].
  replace (IZR i * spacing.1.1 / spacing.1.1)%R with (IZR i) by (field; done).
  replace (IZR j * spacing.1.2 / spacing.1.2)%R with (IZR j) by (field; done).
  rewrite !IZR_floor.
  destruct (get_vector_Ok i j) as (v00 & H00 & Hat).
  replace (Z.max 0 (Z.min i (width - 1))) with i in Hat by lia.
  replace (Z.max 0 (Z.min j (height - 1))) with j in Hat by lia.
  assert (v00 = v) as -> by congruence.
  rewrite H00. cbn [mbind result_bind].
  destruct (get_vector_Ok (Z.min (i + 1) (width - 1)) j) as (v10 & -> & _).
  destruct (get_vector_Ok i (Z.min (j + 1) (height - 1))) as (v01 & -> & _).
  destruct (get_vector_Ok (Z.min (i + 1) (width - 1))
    (Z.min (j + 1) (height - 1))) as (v11 & -> & _).
  cbn [mbind result_bind]. do 3 f_equal; ring.
Qed.

Lemma vector_field_step_spec self spacing speed g :
  spacing.1.1 ≠ 0%R → spacing.1.2 ≠ 0%R →
  ∃ ux uy,
    (ux ^ 2 + uy ^ 2 < 1)%R
    ∧ (bilinear_sample vecs width height spacing
         g.(gaussian_scene.x) g.(gaussian_scene.y) = Ok (0%R, 0%R, 0%R) →
       ux = 0%R ∧ uy = 0%R)
    ∧ vector_field_step self vecs width height spacing speed g
      = Ok {| id := id g;
              x := min (max (g.(gaussian_scene.x) + speed * ux) 0)
                     (IZR (gaussian_scene.width self)
                      * gaussian_scene.spacing self - 1);
              y := min (max (g.(gaussian_scene.y) + speed * uy) 0)
                     (IZR (gaussian_scene.height self)
                      * gaussian_scene.spacing self - 1);
              amp := amp g; var := var g; sx := sx g; sy := sy g;
              theta := theta g; gamma := gamma g; lambda := lambda g |}.
Proof.
  intros Hs1 Hs2. unfold vector_field_step.
  rewrite !div_Ok by done. cbn [mbind result_bind].
  destruct (bilinear_sample_Ok spacing g.(gaussian_scene.x)
              g.(gaussian_scene.y) Hs1 Hs2) as (vx & vy & ->).
  cbn [mbind result_bind].
  pose proof (sqrt_pos (vx ^ 2 + vy ^ 2)) as Hm.
  pose proof (sqrt_sqrt (vx ^ 2 + vy ^ 2) (sum_squares_nonneg vx vy)) as Hmm.
  set (m := R_sqrt.sqrt (vx ^ 2 + vy ^ 2)) in *.
  assert (Hmag : (0 < m + 1 / 10 ^ 8)%R) by lra.
  rewrite !div_Ok by lra. cbn [mbind result_bind].
  exists (vx / (m + 1 / 10 ^ 8))%R, (vy / (m + 1 / 10 ^ 8))%R.
  split; [| split; [| done]].
  - set (q := (/ (m + 1 / 10 ^ 8))%R).
    assert (Hq : (q * (m + 1 / 10 ^ 8) = 1)%R) by (unfold q; field; lra).
    assert (Hq0 : (0 < q)%R) by (by apply Rinv_0_lt_compat).
    assert (Hqm : (0 <= q * m < 1)%R) by nra.
    change (((vx * q) ^ 2 + (vy * q) ^ 2 < 1)%R).
    replace ((vx * q) ^ 2 + (vy * q) ^ 2)%R
      with ((q * m) * (q * m))%R
      by (transitivity (q * q * (m * m))%R; [ring | rewrite Hmm; ring]).
    assert (Hsq : ∀ t, (0 <= t < 1 → t * t < 1)%R) by (intros; nra).
    apply Hsq, Hqm.
  - intros [= -> ->]. split; unfold Rdiv; ring.
Qed.

Lemma bilinear_sample_zero spacing x y :
  spacing.1.1 ≠ 0%R → spacing.1.2 ≠ 0%R →
  Forall (λ v, v.1.1 = 0%R ∧ v.1.2 = 0%R) vecs →
  bilinear_sample vecs width height spacing x y = Ok (0%R, 0%R, 0%R).
Proof.
  intros Hs1 Hs2 Hz. unfold bilinear_sample.
  rewrite !div_Ok by done. cbn [mbind result_bind].
  assert (Hget : ∀ ix iy, ∃ v, get_vector vecs width height ix iy = Ok v
                               ∧ v.1.1 = 0%R ∧ v.1.2 = 0%R).
  { intros ix iy. destruct (get_vector_Ok ix iy) as (v & Hv & Hat).
    exists v. split; [done |].
    apply (proj1 (Forall_forall _ _) Hz), (list_elem_of_lookup_2 _ _ _ Hat). }
  destruct (Hget (floor (x / spacing.1.1)) (floor (y / spacing.1.2)))
    as (v00 & -> & Ha0 & Hb0).
  destruct (Hget (Z.min (floor (x / spacing.1.1) + 1) (width - 1))
    (floor (y / spacing.1.2))) as (v10 & -> & Ha1 & Hb1).
  destruct (Hget (floor (x / spacing.1.1))
    (Z.min (floor (y / spacing.1.2) + 1) (height - 1)))
    as (v01 & -> & Ha2 & Hb2).
  destruct (Hget (Z.min (floor (x / spacing.1.1) + 1) (width - 1))
    (Z.min (floor (y / spacing.1.2) + 1) (height - 1)))
    as (v11 & -> & Ha3 & Hb3).
  cbn [mbind result_bind].
  rewrite Ha0, Ha1, Ha2, Ha3, Hb0, Hb1, Hb2, Hb3. do 3 f_equal; ring.
Qed.

End reading.

Lemma move_gaussians_by_vector_field_spec self vf speed :
  well_formed vf →
  ∃ vecs moved,
    vectors vf = Some vecs
    ∧ move_gaussians_by_vector_field self (Some vf) speed
      = Ok {| width := width self; height := height self;
              spacing := spacing self;
              gaussians := moved; _next_id := _next_id self;
              distribution_type := distribution_type self;
              paths := paths self; path_index := path_index self;
              path_speed := path_speed self;
              _prev_clusters := _prev_clusters self |}
    ∧ Forall2 (λ g g', ∃ ux uy,
        (ux ^ 2 + uy ^ 2 < 1)%R
        ∧ (bilinear_sample vecs (vec_dims vf).1.1 (vec_dims vf).1.2
             (vec_spacing vf) g.(gaussian_scene.x) g.(gaussian_scene.y)
           = Ok (0%R, 0%R, 0%R) → ux = 0%R ∧ uy = 0%R)
        ∧ g' = {| id := id g;
                  x := min (max (g.(gaussian_scene.x) + speed * ux) 0)
                         (IZR (width self) * spacing self - 1);
                  y := min (max (g.(gaussian_scene.y) + speed * uy) 0)
                         (IZR (height self) * spacing self - 1);
                  amp := amp g; var := var g; sx := sx g; sy := sy g;
                  theta := theta g; gamma := gamma g;
                  lambda := lambda g |})
        (gaussians self) moved.
Proof.
  intros (vecs & Hvecs & Hw & Hh & Hlen & Hs1 & Hs2).
  unfold move_gaussians_by_vector_field. rewrite Hvecs. cbv zeta.
  destruct (comprehension_total
    (vector_field_step self vecs (vec_dims vf).1.1 (vec_dims vf).1.2
       (vec_spacing vf) speed) (gaussians self)) as (moved & -> & Hall).
  { intros g _.
    destruct (vector_field_step_spec vecs _ _ Hw Hh Hlen self
                (vec_spacing vf) speed g Hs1 Hs2) as (ux & uy & _ & _ & ->).
    by eexists. }
  exists vecs, moved. split; [done |]. split; [done |].
  eapply Forall2_impl; [exact Hall |]. intros g g' Hg. cbv beta in Hg.
  destruct (vector_field_step_spec vecs _ _ Hw Hh Hlen self
              (vec_spacing vf) speed g Hs1 Hs2) as (ux & uy & Hu & Hz & Hstep).
  exists ux, uy. split; [done |]. split; [done |]. congruence.
Qed.

Lemma generated_field_well_formed width height spacing field_type :
  (1 ≤ width)%Z → (1 ≤ height)%Z → spacing ≠ 0%R →
  ∃ vf vecs,
    create_vector_field width height spacing field_type = Ok vf
    ∧ well_formed vf ∧ vectors vf = Some vecs
    ∧ vec_dims vf = (width, height, 1%Z)
    ∧ vec_spacing vf = (spacing, spacing, 1%R)
    ∧ ∀ v, v ∈ vecs →
        ∃ i j, field_vector width height spacing field_type i j = Ok v.
Proof.
  intros Hw Hh Hs.
  destruct (create_vector_field_spec width height spacing field_type)
    as (vecs & Hc & Hlen & _ & Hin); [lia.. |].
  eexists _, vecs. split; [exact Hc |]. split.
  - exists vecs. cbn. split; [done |]. split; [done |]. split; [done |].
    split; [| done]. rewrite Hlen. nia.
  - split; [done |]. split; [done |]. split; [done |].
    intros v Hv. destruct (Hin v Hv) as (i & j & _ & _ & Hf). by exists i, j.
Qed.

End flow_proofs.

(** ** Properties of the vector fields *)

Section flow_properties.
Import vtk gaussian_scene vector_field.

(** A generated field has one tuple for every grid point; every vector
    lies in the plane and is shorter than 1.
    [create_vector_field] never raises. *)
Theorem generated_field_shape width height spacing field_type :
  (0 ≤ width)%Z → (0 ≤ height)%Z →
  ∃ vf vecs,
    create_vector_field width height spacing field_type = Ok vf
    ∧ vec_dims vf = (width, height, 1%Z)
    ∧ vec_spacing vf = (spacing, spacing, 1%R)
    ∧ vectors vf = Some vecs
    ∧ length vecs = Z.to_nat (width * height)
    ∧ Forall (λ v, v.2 = 0%R ∧ (v.1.1 ^ 2 + v.1.2 ^ 2 < 1)%R) vecs.
Proof.
  intros Hw Hh.
  destruct (create_vector_field_spec width height spacing field_type Hw Hh)
    as (vecs & Hc & Hlen & _ & Hin).
  eexists _, vecs. split; [exact Hc |]. do 4 (split; [done |]).
  apply Forall_forall. intros v Hv.
  destruct (Hin v Hv) as (i & j & _ & _ & Hf).
  destruct (field_vector_Ok width height spacing field_type i j)
    as (k & Hk & Hnorm & Hf').
  rewrite Hf' in Hf. injection Hf as <-. cbn [fst snd]. split; [done |].
  set (d := direction field_type _ _) in *.
  pose proof (sqrt_pos (d.1 * d.1 + d.2 * d.2)) as Hm.
  pose proof (sqrt_sqrt _ (sum_products_nonneg d.1 d.2)) as Hmm.
  set (m := R_sqrt.sqrt (d.1 * d.1 + d.2 * d.2)) in *.
  replace ((k * d.1) ^ 2 + (k * d.2) ^ 2)%R with ((k * m) * (k * m))%R
    by (transitivity (k * k * (m * m))%R; [ring | rewrite Hmm; ring]).
  assert (Hkm : (0 <= k * m)%R) by nra.
  assert (Hsq : ∀ t, (0 <= t < 1 → t * t < 1)%R) by (intros; nra).
  by apply Hsq.
Qed.

Lemma generated_field_shape_witness :
  (0 ≤ 2)%Z ∧ (0 ≤ 3)%Z
  ∧ ∃ vf vecs,
      create_vector_field 2 3 1 "Sink" = Ok vf
      ∧ vec_dims vf = (2, 3, 1)%Z
      ∧ vec_spacing vf = (1, 1, 1)%R
      ∧ vectors vf = Some vecs
      ∧ length vecs = Z.to_nat (2 * 3)
      ∧ Forall (λ v, v.2 = 0%R ∧ (v.1.1 ^ 2 + v.1.2 ^ 2 < 1)%R) vecs.
Proof.
  split; [lia |]. split; [lia |].
  apply (generated_field_shape 2 3 1 "Sink"); lia.
Defined.

(** The vector stored for a grid point turns counter-clockwise around the
    centre in a circular field, points to the centre in a sink, away from
    it in a source, away along the first and towards along the second axis
    in a saddle, and is zero for any other field type; in the four named
    fields it vanishes at the centre only. *)
Theorem generated_field_directions width height spacing field_type :
  (0 ≤ width)%Z → (0 ≤ height)%Z →
  ∃ vf vecs,
    create_vector_field width height spacing field_type = Ok vf
    ∧ vectors vf = Some vecs
    ∧ ∀ i j, (0 ≤ i < width)%Z → (0 ≤ j < height)%Z →
        ∃ a b, tuple_at vecs width i j = Some (a, b, 0%R)
               ∧ flows field_type (offset width height spacing i j) (a, b).
Proof.
  intros Hw Hh.
  destruct (create_vector_field_spec width height spacing field_type Hw Hh)
    as (vecs & Hc & Hlen & Hwr & _).
  eexists _, vecs. split; [exact Hc |]. split; [done |].
  intros i j Hi Hj. destruct (Hwr i j Hi Hj) as (_ & _ & v & Hf & Hat).
  destruct (field_vector_Ok width height spacing field_type i j)
    as (k & Hk & _ & Hf').
  rewrite Hf' in Hf. injection Hf as <-.
  eexists _, _. split; [exact Hat |].
  clear Hf' Hat. unfold flows, direction, offset. cbn [fst snd].
  set (dx := (IZR i * spacing - _)%R). set (dy := (IZR j * spacing - _)%R).
  clearbody dx dy.
  assert (Hzero : ∀ a b : R,
            (k * (a * a + b * b) = 0)%R → (a, b) = (0%R, 0%R)).
  { intros a b Hab.
    apply Rmult_integral in Hab as [-> | Hab]; [lra |].
    assert (a = 0%R) by nra. assert (b = 0%R) by nra. by subst. }
  split; [| split; [| split; [| split]]].
  - intros ->. repeat case_decide; try done. cbn [fst snd].
    split; [ring |]. split; [nra |]. intros Hvanish. apply Hzero. lra.
  - intros ->. repeat case_decide; try done. cbn [fst snd].
    split; [ring |]. split; [nra |]. intros Hvanish. apply Hzero. lra.
  - intros ->. repeat case_decide; try done. cbn [fst snd].
    split; [ring |]. split; [nra |]. intros Hvanish. apply Hzero. lra.
  - intros ->. repeat case_decide; try done. cbn [fst snd].
    split; [nra |]. split; [nra |]. intros [= Ha Hb]. apply Hzero. nra.
  - intros Hn. rewrite !not_elem_of_cons in Hn.
    destruct Hn as (? & ? & ? & ? & _).
    rewrite !decide_False by done. cbn [fst snd]. f_equal; ring.
Qed.

Lemma generated_field_directions_witness :
  (0 ≤ 2)%Z ∧ (0 ≤ 3)%Z
  ∧ ∃ vf vecs,
      create_vector_field 2 3 1 "Sink" = Ok vf
      ∧ vectors vf = Some vecs
      ∧ ∀ i j, (0 ≤ i < 2)%Z → (0 ≤ j < 3)%Z →
          ∃ a b, tuple_at vecs 2 i j = Some (a, b, 0%R)
                 ∧ flows "Sink" (offset 2 3 1 i j) (a, b).
Proof.
  split; [lia |]. split; [lia |].
  apply (generated_field_directions 2 3 1 "Sink"); lia.
Defined.

(** A step along a well-formed vector image never fails and never reads
    outside the vector array; it keeps the sources in number and order and
    changes nothing but their positions. *)
Theorem advection_changes_positions_only self vf speed :
  well_formed vf →
  ∃ self',
    move_gaussians_by_vector_field self (Some vf) speed = Ok self'
    ∧ same_but_positions self self'.
Proof.
  intros Hwf.
  destruct (move_gaussians_by_vector_field_spec self vf speed Hwf)
    as (vecs & moved & _ & Hmove & Hall).
  eexists. split; [exact Hmove |].
  unfold same_but_positions. cbn. do 9 (split; [done |]).
  eapply Forall2_impl; [exact Hall |].
  intros g g' (ux & uy & _ & _ & ->). by repeat split.
Qed.

Lemma advection_changes_positions_only_witness :
  well_formed unit_flow
  ∧ ∃ self',
      move_gaussians_by_vector_field walker_scene (Some unit_flow) (1 / 2)
      = Ok self'
      ∧ same_but_positions walker_scene self'.
Proof.
  assert (Hwf : well_formed unit_flow).
  { exists [(1, 0, 0)%R]. cbn. repeat split; try lia; lra. }
  split; [exact Hwf |].
  exact (advection_changes_positions_only walker_scene unit_flow (1 / 2) Hwf).
Defined.

(** After a step every source lies in the rectangle from the origin to
    [(width * spacing - 1, height * spacing - 1)], provided the rectangle
    is not empty. *)
Theorem advection_ends_in_bounds self vf speed :
  well_formed vf →
  (1 <= IZR (width self) * spacing self)%R →
  (1 <= IZR (height self) * spacing self)%R →
  ∃ self',
    move_gaussians_by_vector_field self (Some vf) speed = Ok self'
    ∧ Forall (in_bounds self') (gaussians self').
Proof.
  intros Hwf HW HH.
  destruct (move_gaussians_by_vector_field_spec self vf speed Hwf)
    as (vecs & moved & _ & Hmove & Hall).
  eexists. split; [exact Hmove |]. cbn.
  apply Forall_forall. intros g' Hg'.
  apply list_elem_of_lookup in Hg' as (n & Hn).
  destruct (Forall2_lookup_r _ _ _ _ _ Hall Hn)
    as (g & _ & ux & uy & _ & _ & ->).
  unfold in_bounds. cbn.
  split; (split; [apply min_max_ge; lra | apply min_max_le]).
Qed.

Lemma advection_ends_in_bounds_witness :
  well_formed unit_flow
  ∧ (1 <= IZR (width walker_scene) * spacing walker_scene)%R
  ∧ (1 <= IZR (height walker_scene) * spacing walker_scene)%R
  ∧ ∃ self',
      move_gaussians_by_vector_field walker_scene (Some unit_flow) (1 / 2)
      = Ok self'
      ∧ Forall (in_bounds self') (gaussians self').
Proof.
  assert (Hwf : well_formed unit_flow).
  { exists [(1, 0, 0)%R]. cbn. repeat split; try lia; lra. }
  assert (HW : (1 <= IZR (width walker_scene) * spacing walker_scene)%R)
    by (cbn; lra).
  assert (HH : (1 <= IZR (height walker_scene) * spacing walker_scene)%R)
    by (cbn; lra).
  split; [exact Hwf |]. split; [exact HW |]. split; [exact HH |].
  exact (advection_ends_in_bounds walker_scene unit_flow (1 / 2) Hwf HW HH).
Defined.

(** A source that is inside the rectangle moves by at most [speed] in one
    step. *)
Theorem advection_step_length self vf speed :
  well_formed vf →
  Forall (in_bounds self) (gaussians self) →
  ∃ self',
    move_gaussians_by_vector_field self (Some vf) speed = Ok self'
    ∧ Forall2 (λ g g', (moved2 g g' <= speed ^ 2)%R)
        (gaussians self) (gaussians self').
Proof.
  intros Hwf Hin.
  destruct (move_gaussians_by_vector_field_spec self vf speed Hwf)
    as (vecs & moved & _ & Hmove & Hall).
  eexists. split; [exact Hmove |]. cbn.
  apply Forall2_same_length_lookup. split; [by eapply Forall2_length |].
  intros n g g' Hg Hg'.
  destruct (Forall2_lookup_l _ _ _ _ _ Hall Hg)
    as (g'' & Hg'' & ux & uy & Hu & _ & ->).
  rewrite Hg'' in Hg'. injection Hg' as <-.
  destruct (proj1 (Forall_forall _ _) Hin g (list_elem_of_lookup_2 _ _ _ Hg))
    as [Hx Hy].
  unfold moved2. cbn.
  pose proof (min_max_step _ (speed * ux) _ Hx) as Hdx.
  pose proof (min_max_step _ (speed * uy) _ Hy) as Hdy.
  assert ((speed * ux) ^ 2 + (speed * uy) ^ 2 <= speed ^ 2)%R; [| lra].
  replace ((speed * ux) ^ 2 + (speed * uy) ^ 2)%R
    with (speed ^ 2 * (ux ^ 2 + uy ^ 2))%R by ring.
  assert (0 <= speed ^ 2)%R by nra. nra.
Qed.

Lemma advection_step_length_witness :
  well_formed unit_flow
  ∧ Forall (in_bounds walker_scene) (gaussians walker_scene)
  ∧ ∃ self',
      move_gaussians_by_vector_field walker_scene (Some unit_flow) (1 / 2)
      = Ok self'
      ∧ Forall2 (λ g g', (moved2 g g' <= (1 / 2) ^ 2)%R)
          (gaussians walker_scene) (gaussians self').
Proof.
  assert (Hwf : well_formed unit_flow).
  { exists [(1, 0, 0)%R]. cbn. repeat split; try lia; lra. }
  assert (Hin : Forall (in_bounds walker_scene) (gaussians walker_scene)).
  { repeat constructor; cbn; lra. }
  split; [exact Hwf |]. split; [exact Hin |].
  exact (advection_step_length walker_scene unit_flow (1 / 2) Hwf Hin).
Defined.

(** Sampling the field at a grid node returns the vector stored for that
    node. *)
Theorem bilinear_sample_at_node vf vecs i j v :
  well_formed vf → vectors vf = Some vecs →
  (0 ≤ i < (vec_dims vf).1.1)%Z → (0 ≤ j < (vec_dims vf).1.2)%Z →
  tuple_at vecs (vec_dims vf).1.1 i j = Some v →
  bilinear_sample vecs (vec_dims vf).1.1 (vec_dims vf).1.2 (vec_spacing vf)
    (IZR i * (vec_spacing vf).1.1) (IZR j * (vec_spacing vf).1.2)
  = Ok (v.1.1, v.1.2, 0%R).
Proof.
  intros (vecs' & Hvecs & Hw & Hh & Hlen & Hs1 & Hs2) Hv Hi Hj Hat.
  assert (vecs' = vecs) as -> by congruence.
  by apply bilinear_sample_node.
Qed.

Lemma bilinear_sample_at_node_witness :
  well_formed unit_flow ∧ vectors unit_flow = Some [(1, 0, 0)%R]
  ∧ (0 ≤ 0 < (vec_dims unit_flow).1.1)%Z
  ∧ (0 ≤ 0 < (vec_dims unit_flow).1.2)%Z
  ∧ tuple_at [(1, 0, 0)%R] (vec_dims unit_flow).1.1 0 0 = Some (1, 0, 0)%R
  ∧ bilinear_sample [(1, 0, 0)%R] (vec_dims unit_flow).1.1
      (vec_dims unit_flow).1.2 (vec_spacing unit_flow)
      (IZR 0 * (vec_spacing unit_flow).1.1)
      (IZR 0 * (vec_spacing unit_flow).1.2)
    = Ok (1%R, 0%R, 0%R).
Proof.
  assert (Hwf : well_formed unit_flow).
  { exists [(1, 0, 0)%R]. cbn. repeat split; try lia; lra. }
  assert (Hi : (0 ≤ 0 < (vec_dims unit_flow).1.1)%Z) by (cbn; lia).
  assert (Hj : (0 ≤ 0 < (vec_dims unit_flow).1.2)%Z) by (cbn; lia).
  split; [exact Hwf |]. split; [reflexivity |].
  split; [exact Hi |]. split; [exact Hj |]. split; [reflexivity |].
  exact (bilinear_sample_at_node unit_flow [(1, 0, 0)%R] 0 0 (1, 0, 0)%R
           Hwf eq_refl Hi Hj eq_refl).
Defined.

(** A field generated for a grid with at least one point along each axis
    and a spacing other than zero is well formed, so a step along it
    succeeds whatever the scene and the speed. *)
Theorem advection_along_generated_field
    self width height spacing field_type speed :
  (1 ≤ width)%Z → (1 ≤ height)%Z → spacing ≠ 0%R →
  ∃ vf self',
    create_vector_field width height spacing field_type = Ok vf
    ∧ well_formed vf
    ∧ move_gaussians_by_vector_field self (Some vf) speed = Ok self'.
Proof.
  intros Hw Hh Hs.
  destruct (generated_field_well_formed width height spacing field_type
              Hw Hh Hs) as (vf & vecs & Hc & Hwf & _).
  destruct (move_gaussians_by_vector_field_spec self vf speed Hwf)
    as (_ & moved & _ & Hmove & _).
  by eexists vf, _.
Qed.

Lemma advection_along_generated_field_witness :
  (1 ≤ 20)%Z ∧ (1 ≤ 20)%Z ∧ (1%R ≠ 0%R)
  ∧ ∃ vf self',
      create_vector_field 20 20 1 "Sink" = Ok vf
      ∧ well_formed vf
      ∧ move_gaussians_by_vector_field walker_scene (Some vf) (1 / 2)
        = Ok self'.
Proof.
  assert (Hs : 1%R ≠ 0%R) by lra.
  split; [lia |]. split; [lia |]. split; [exact Hs |].
  exact (advection_along_generated_field walker_scene 20 20 1 "Sink" (1 / 2)
           ltac:(lia) ltac:(lia) Hs).
Defined.

(** A field of a type other than the four named ones is zero everywhere,
    and a step along it leaves a scene whose sources are inside the
    rectangle exactly as it was. *)
Theorem advection_along_zero_field
    self width height spacing field_type speed :
  (1 ≤ width)%Z → (1 ≤ height)%Z → spacing ≠ 0%R →
  field_type ∉ ["Circular"; "Sink"; "Source"; "Saddle"] →
  Forall (in_bounds self) (gaussians self) →
  ∃ vf,
    create_vector_field width height spacing field_type = Ok vf
    ∧ move_gaussians_by_vector_field self (Some vf) speed = Ok self.
Proof.
  intros Hw Hh Hs Hft Hin.
  destruct (generated_field_well_formed width height spacing field_type
              Hw Hh Hs) as (vf & vecs & Hc & Hwf & Hvecs & Hd & Hsp & Hall).
  exists vf. split; [exact Hc |].
  destruct (move_gaussians_by_vector_field_spec self vf speed Hwf)
    as (vecs' & moved & Hvecs' & Hmove & Hmoved).
  assert (vecs' = vecs) as -> by congruence.
  rewrite Hmove.
  assert (Hzero : Forall (λ v : R * R * R, v.1.1 = 0%R ∧ v.1.2 = 0%R) vecs).
  { apply Forall_forall. intros v Hv. destruct (Hall v Hv) as (i & j & Hf).
    destruct (field_vector_Ok width height spacing field_type i j)
      as (k & _ & _ & Hf').
    rewrite Hf' in Hf. injection Hf as <-. unfold direction.
    rewrite !not_elem_of_cons in Hft. destruct Hft as (? & ? & ? & ? & _).
    rewrite !decide_False by done. cbn [fst snd]. split; ring. }
  destruct Hwf as (vecs' & Hvecs'' & Hw' & Hh' & Hlen & Hs1 & Hs2).
  assert (vecs' = vecs) as -> by congruence.
  assert (moved = gaussians self) as ->.
  { apply list_eq. intros n.
    destruct (gaussians self !! n) as [g |] eqn:Hg.
    - destruct (Forall2_lookup_l _ _ _ _ _ Hmoved Hg)
        as (g' & -> & ux & uy & _ & Hu & ->).
      destruct Hu as [-> ->]; [by apply bilinear_sample_zero |].
      destruct (proj1 (Forall_forall _ _) Hin g
                  (list_elem_of_lookup_2 _ _ _ Hg)) as [Hx Hy].
      rewrite !Rmult_0_r, !Rplus_0_r, !min_max_id by done.
      by destruct g.
    - apply lookup_ge_None. apply lookup_ge_None in Hg.
      by rewrite <- (Forall2_length _ _ _ Hmoved). }
  by destruct self.
Qed.

Lemma advection_along_zero_field_witness :
  (1 ≤ 20)%Z ∧ (1 ≤ 20)%Z ∧ (1%R ≠ 0%R)
  ∧ ("Still" ∉ ["Circular"; "Sink"; "Source"; "Saddle"])
  ∧ Forall (in_bounds walker_scene) (gaussians walker_scene)
  ∧ ∃ vf,
      create_vector_field 20 20 1 "Still" = Ok vf
      ∧ move_gaussians_by_vector_field walker_scene (Some vf) (1 / 2)
        = Ok walker_scene.
Proof.
  assert (Hs : 1%R ≠ 0%R) by lra.
  assert (Hft : "Still" ∉ ["Circular"; "Sink"; "Source"; "Saddle"]).
  { rewrite !not_elem_of_cons. repeat split; try done. apply not_elem_of_nil. }
  assert (Hin : Forall (in_bounds walker_scene) (gaussians walker_scene)).
  { repeat constructor; cbn; lra. }
  split; [lia |]. split; [lia |]. split; [exact Hs |].
  split; [exact Hft |]. split; [exact Hin |].
  exact (advection_along_zero_field walker_scene 20 20 1 "Still" (1 / 2)
           ltac:(lia) ltac:(lia) Hs Hft Hin).
Defined.

End flow_properties.

(** * Generated scenarios *)

Section scenario_proofs.
Import vtk gaussian_scene vector_field scenario_generator.

Lemma for_snoc_each {A B} (h : A → B)
    (body : list B → A → result (list B)) l :
  (∀ acc a, a ∈ l → body acc a = Ok (acc ++ [h a])) →
  ∀ acc, for_ l body acc = Ok (acc ++ (h <$> l)).
Proof.
  induction l as [| a l IH]; intros Hbody acc; cbn.
  - by rewrite app_nil_r.
  - rewrite Hbody by left. cbn [mbind result_bind].
    rewrite IH by (intros; apply Hbody; by right).
    by rewrite <- app_assoc.
Qed.

Lemma _make_straight_path_spec start end_ steps :
  _make_straight_path start end_ steps = Ok (waypoints start end_ steps).
Proof.
  destruct start as [sx sy], end_ as [ex ey].
  unfold _make_straight_path, waypoints, range.
  rewrite (for_snoc_each
    (λ i, along (sx, sy) (ex, ey) (IZR i / IZR (Z.max 1 (steps - 1))))).
  - by rewrite <- list_fmap_compose.
  - intros acc a _. rewrite div_Ok; [done |].
    apply not_0_IZR. lia.
Qed.

Lemma waypoints_length start end_ steps :
  length (waypoints start end_ steps) = Z.to_nat steps.
Proof. unfold waypoints. by rewrite length_fmap, length_seq. Qed.

Lemma waypoints_head start end_ steps :
  (1 ≤ steps)%Z → head (waypoints start end_ steps) = Some start.
Proof.
  intros Hs. unfold waypoints.
  destruct (Z.to_nat steps) as [| n] eqn:Hn; [lia |]. cbn.
  unfold along. destruct start as [sx sy]. cbn. do 2 f_equal.
  - unfold Rdiv. ring.
  - unfold Rdiv. ring.
Qed.

Lemma waypoints_last start end_ steps :
  (2 ≤ steps)%Z → last (waypoints start end_ steps) = Some end_.
Proof.
  intros Hs. unfold waypoints.
  replace (Z.to_nat steps) with (S (Z.to_nat steps - 1)) by lia.
  rewrite seq_S, fmap_app. simpl (_ <$> [_]). rewrite last_snoc.
  unfold along. destruct end_ as [ex ey]. cbn.
  replace (Z.max 1 (steps - 1)) with (steps - 1)%Z by lia.
  replace (Z.of_nat (Z.to_nat steps - 1)) with (steps - 1)%Z by lia.
  assert (IZR (steps - 1) ≠ 0%R) by (apply not_0_IZR; lia).
  do 2 f_equal; field; done.
Qed.

Lemma add_gaussian_at self g x y amplitude variance :
  (0 <= variance)%R →
  add_gaussian self g (Some x) (Some y) amplitude variance
  = Ok (with_sources self [fresh (_next_id self) x y amplitude variance],
        g, None).
Proof.
  intros Hv. unfold add_gaussian.
  rewrite (sqrt_Ok _ Hv). cbn [mbind result_bind].
  rewrite sqrt_Ok by lra. cbn [mbind result_bind]. done.
Qed.

Lemma fresh_positive_spread nid x y amplitude variance :
  (0 < variance)%R → positive_spread (fresh nid x y amplitude variance).
Proof.
  intros Hv. unfold positive_spread, fresh. cbn.
  repeat split; try done; apply sqrt_lt_R0; lra.
Qed.

Lemma with_sources_nil self : with_sources self [] = self.
Proof.
  destruct self. unfold with_sources. cbn. by rewrite app_nil_r, Z.add_0_r.
Qed.

Lemma with_sources_app self news news' :
  with_sources (with_sources self news) news' = with_sources self (news ++ news').
Proof.
  unfold with_sources. cbn. rewrite length_app, <- app_assoc. f_equal. lia.
Qed.

(** A loop that draws the parameters of one source per round and adds
    it. *)
Lemma spawn_loop (Q : Z → gaussian → Prop)
    (body : GaussianScene * rng → Z → result (GaussianScene * rng))
    (draws0 : nat → R) l :
  (∀ scene g i, i ∈ l → draws g = draws0 →
     ∃ x y a v g',
       body (scene, g) i
       = ('(scene', g'', _) ← add_gaussian scene g' (Some x) (Some y) a v;
          Ok (scene', g''))
       ∧ draws g' = draws0 ∧ (0 < v)%R ∧ ∀ nid, Q i (fresh nid x y a v)) →
  ∀ scene g, draws g = draws0 →
    ∃ news g',
      for_ l body (scene, g) = Ok (with_sources scene news, g')
      ∧ draws g' = draws0
      ∧ Forall2 Q l news
      ∧ Forall positive_spread news
      ∧ id <$> news
        = (λ k, (_next_id scene + Z.of_nat k)%Z) <$> seq 0 (length l).
Proof.
  induction l as [| i l IH]; intros Hbody scene g Hg.
  - exists [], g. rewrite with_sources_nil. by repeat split.
  - destruct (Hbody scene g i ltac:(left) Hg)
      as (x & y & a & v & g1 & Hb & Hg1 & Hv & HQ).
    cbn [for_]. rewrite Hb, add_gaussian_at by lra.
    cbn [mbind result_bind].
    destruct (IH (λ scene g i Hi, Hbody scene g i (list_elem_of_further _ _ _ Hi))
                (with_sources scene [fresh (_next_id scene) x y a v]) g1 Hg1)
      as (news & g' & Hfor & Hg' & HQs & Hpos & Hids).
    exists (fresh (_next_id scene) x y a v :: news), g'.
    rewrite Hfor, with_sources_app. split; [done |]. split; [done |].
    split; [by constructor |].
    split; [constructor; [by apply fresh_positive_spread | done] |].
    cbn [fmap list_fmap length seq]. f_equal; [cbn; lia |].
    fold (@fmap list _ _ _ id news). rewrite Hids. cbn [with_sources _next_id length].
    rewrite <- seq_shift, <- list_fmap_compose.
    apply list_fmap_ext. intros ? k _. cbn. lia.
Qed.

Lemma for_enumerate_forget {A St} (body : St → A → result St) l : ∀ s,
  for_ (enumerate l) (λ s '(_, a), body s a) s = for_ l body s.
Proof.
  unfold enumerate. generalize 0.
  induction l as [| a l IH]; intros n s; [done |].
  cbn. destruct (body s a); cbn; [apply IH | done].
Qed.

(** A loop that gives every source of [gs] a path and puts its cursor on
    the first waypoint. *)
Lemma assign_paths_loop (pathf : nat → gaussian → list (R * R))
    (body : GaussianScene → nat * gaussian → result GaussianScene) gs :
  (∀ scene idx src, gs !! idx = Some src →
     body scene (idx, src) = Ok (assign_path scene (id src) (pathf idx src))) →
  NoDup (id <$> gs) →
  ∀ scene0,
    ∃ scene,
      for_ (enumerate gs) body scene0 = Ok scene
      ∧ same_but_paths scene0 scene
      ∧ (∀ idx src, gs !! idx = Some src →
           paths scene !! id src = Some (pathf idx src)
           ∧ path_index scene !! id src = Some 0%Z)
      ∧ (∀ gid, gid ∉ id <$> gs →
           paths scene !! gid = paths scene0 !! gid
           ∧ path_index scene !! gid = path_index scene0 !! gid).
Proof.
  intros Hbody Hnd scene0.
  destruct (for_enumerate_inv
    (λ k scene,
       same_but_paths scene0 scene
       ∧ (∀ idx src, idx < k → gs !! idx = Some src →
            paths scene !! id src = Some (pathf idx src)
            ∧ path_index scene !! id src = Some 0%Z)
       ∧ (∀ gid, gid ∉ id <$> take k gs →
            paths scene !! gid = paths scene0 !! gid
            ∧ path_index scene !! gid = path_index scene0 !! gid))
    body gs scene0) as (scene & Hfor & Hsame & Hin & Hout).
  - split; [by repeat split |]. split; [intros; lia |]. done.
  - intros k src scene Hk (Hsame & Hin & Hout).
    exists (assign_path scene (id src) (pathf k src)).
    split; [by apply Hbody |]. split; [| split].
    + destruct Hsame as (? & ? & ? & ? & ? & ? & ? & ?). by repeat split.
    + intros idx src' Hidx Hsrc'. cbn.
      destruct (decide (idx = k)) as [-> | Hne].
      * assert (src' = src) as -> by congruence.
        by rewrite !lookup_insert_eq.
      * assert (id src' ≠ id src).
        { intros Heq. apply Hne.
          eapply (NoDup_lookup _ _ _ _ Hnd); rewrite list_lookup_fmap.
          - by rewrite Hsrc'.
          - rewrite Hk. cbn. by rewrite Heq. }
        rewrite !lookup_insert_ne by done. apply Hin; [lia | done].
    + intros gid Hgid. cbn.
      rewrite (take_S_r _ _ _ Hk), fmap_app, not_elem_of_app in Hgid.
      destruct Hgid as [Hgid Hne]. cbn in Hne.
      rewrite list_elem_of_singleton in Hne.
      rewrite !lookup_insert_ne by done. by apply Hout.
  - exists scene. split; [done |]. split; [done |]. split.
    + intros idx src Hsrc. apply Hin; [| done]. by eapply lookup_lt_Some.
    + intros gid Hgid. apply Hout. by rewrite firstn_all.
Qed.

Lemma uniform_spec a b g :
  draws (uniform a b g).2 = draws g
  ∧ ((a <= b)%R → (∀ n, 0 <= draws g n < 1)%R →
     (a <= (uniform a b g).1 <= b)%R).
Proof.
  split; [done |]. intros Hab Hg. by apply uniform_range.
Qed.

Lemma seq_ids n :
  (λ k, (1 + Z.of_nat k)%Z) <$> seq 0 n = Z.of_nat <$> seq 1 n.
Proof.
  rewrite <- (fmap_S_seq 0), <- list_fmap_compose.
  apply list_fmap_ext. intros ? k _. cbn. lia.
Qed.

Lemma seq_ids_NoDup n : NoDup (Z.of_nat <$> seq 1 n).
Proof. apply NoDup_fmap; [apply _ | apply NoDup_seq]. Qed.

Lemma staged_intro width height spacing distribution news scene k
    (pathf : nat → gaussian → list (R * R)) :
  id <$> news = Z.of_nat <$> seq 1 (length news) →
  Forall positive_spread news →
  same_but_paths
    (with_sources (_create_scene width height spacing distribution) news)
    scene →
  (∀ idx src, news !! idx = Some src →
     paths scene !! id src = Some (pathf idx src)
     ∧ path_index scene !! id src = Some 0%Z) →
  (∀ gid, gid ∉ id <$> news → paths scene !! gid = None) →
  (∀ idx src, news !! idx = Some src →
     length (pathf idx src) = k
     ∧ head (pathf idx src)
       = Some (src.(gaussian_scene.x), src.(gaussian_scene.y))) →
  staged width height spacing distribution (length news) k scene.
Proof.
  intros Hids Hpos (Hw & Hh & Hs & Hg & Hn & Hd & _ & _) Hin Hout Hpath.
  cbn in *. unfold staged.
  split; [done |]. split; [done |]. split; [done |]. split; [done |].
  split; [rewrite Hn; lia |]. rewrite Hg.
  split; [done |]. split; [done |]. split.
  - intros gid [p Hp].
    destruct (decide (gid ∈ id <$> news)) as [| Hno]; [done |].
    rewrite (Hout gid Hno) in Hp. done.
  - intros src (idx & Hidx)%list_elem_of_lookup.
    destruct (Hin idx src Hidx) as [Hp Hc].
    destruct (Hpath idx src Hidx) as [Hl Hhd].
    by exists (pathf idx src).
Qed.


Lemma lookup_range_Some n idx :
  idx < Z.to_nat n → range n !! idx = Some (Z.of_nat idx).
Proof.
  intros Hidx. unfold range. rewrite list_lookup_fmap, lookup_seq_lt by done.
  done.
Qed.

Lemma length_range n : length (range n) = Z.to_nat n.
Proof. unfold range. by rewrite length_fmap, length_seq. Qed.

Lemma last_app_drop {A} (l1 l2 : list A) :
  2 ≤ length l2 → last (l1 ++ drop 1 l2) = last l2.
Proof.
  intros Hl. destruct l2 as [| a [| b l2]]; cbn in Hl; [lia.. |].
  cbn [drop]. rewrite last_app. change (last (a :: b :: l2)) with (last (b :: l2)).
  destruct (last (b :: l2)) eqn:E; [done |]. by apply last_None in E.
Qed.


(** Loops that draw one point per round. *)
Lemma fold_draws (P : Z → R * R → Prop)
    (step : list (R * R) * rng → Z → list (R * R) * rng)
    (draws0 : nat → R) l :
  (∀ acc g i, i ∈ l → draws g = draws0 →
     ∃ pt g', step (acc, g) i = (acc ++ [pt], g')
              ∧ draws g' = draws0 ∧ P i pt) →
  ∀ acc g, draws g = draws0 →
    ∃ pts g', fold_left step l (acc, g) = (acc ++ pts, g')
              ∧ draws g' = draws0 ∧ Forall2 P l pts.
Proof.
  induction l as [| i l IH]; intros Hstep acc g Hg.
  - exists [], g. by rewrite app_nil_r.
  - destruct (Hstep acc g i ltac:(left) Hg) as (pt & g1 & Hs & Hg1 & HP).
    destruct (IH (λ acc g i Hi, Hstep acc g i (list_elem_of_further _ _ _ Hi))
                (acc ++ [pt]) g1 Hg1) as (pts & g' & Hf & Hg' & HPs).
    exists (pt :: pts), g'. cbn [fold_left]. rewrite Hs, Hf, <- app_assoc.
    split; [done |]. split; [done |]. by constructor.
Qed.

Lemma for_draws (P : Z → R * R → Prop)
    (step : list (R * R) * rng → Z → result (list (R * R) * rng))
    (draws0 : nat → R) l :
  (∀ acc g i, i ∈ l → draws g = draws0 →
     ∃ pt g', step (acc, g) i = Ok (acc ++ [pt], g')
              ∧ draws g' = draws0 ∧ P i pt) →
  ∀ acc g, draws g = draws0 →
    ∃ pts g', for_ l step (acc, g) = Ok (acc ++ pts, g')
              ∧ draws g' = draws0 ∧ Forall2 P l pts.
Proof.
  induction l as [| i l IH]; intros Hstep acc g Hg.
  - exists [], g. by rewrite app_nil_r.
  - destruct (Hstep acc g i ltac:(left) Hg) as (pt & g1 & Hs & Hg1 & HP).
    destruct (IH (λ acc g i Hi, Hstep acc g i (list_elem_of_further _ _ _ Hi))
                (acc ++ [pt]) g1 Hg1) as (pts & g' & Hf & Hg' & HPs).
    exists (pt :: pts), g'. cbn [for_]. rewrite Hs. cbn [mbind result_bind].
    rewrite Hf, <- app_assoc.
    split; [done |]. split; [done |]. by constructor.
Qed.

Lemma getitem_list_range {A} (l : list A) idx a :
  l !! idx = Some a →
  getitem_list l (Z.of_nat idx) = Ok a.
Proof.
  intros Hl. unfold getitem_list. rewrite decide_True by lia.
  rewrite Nat2Z.id. by apply index_lookup.
Qed.

End scenario_proofs.

(** ** Properties of the generated scenarios *)

Section scenario_properties.
Import vtk gaussian_scene vector_field scenario_generator.

(** A straight path never fails to be built and has [steps] waypoints,
    evenly spaced on the segment: the first is the start as soon as there
    is one, the last is the end as soon as there are two. *)
Theorem straight_path start end_ steps :
  ∃ pts,
    _make_straight_path start end_ steps = Ok pts
    ∧ length pts = Z.to_nat steps
    ∧ (∀ k, k < Z.to_nat steps →
         pts !! k = Some (along start end_
                            (IZR (Z.of_nat k) / IZR (Z.max 1 (steps - 1)))))
    ∧ ((1 ≤ steps)%Z → head pts = Some start)
    ∧ ((2 ≤ steps)%Z → last pts = Some end_).
Proof.
  exists (waypoints start end_ steps).
  split; [apply _make_straight_path_spec |].
  split; [apply waypoints_length |]. split; [| split].
  - intros k Hk. unfold waypoints.
    by rewrite list_lookup_fmap, lookup_seq_lt.
  - apply waypoints_head.
  - apply waypoints_last.
Qed.

(** The merge-and-split scenario never fails: it holds [n] sources with
    the ids [1 .. n], drawn in the left part of the grid, and gives each a
    path of two legs from where the source is, through the meeting point,
    to its own point on the circle around the meeting point. *)
Theorem merge_split_scenario g n width height spacing merge_point
    split_radius steps distribution :
  (∀ k, 0 <= draws g k < 1)%R →
  ∃ scene g',
    scenario_merge_split g n width height spacing merge_point split_radius
      steps distribution
    = Ok (scene, sink_field width height spacing, g')
    ∧ staged width height spacing distribution (Z.to_nat n)
        (leg steps + (leg steps - 1)) scene
    ∧ Forall (spawned width height spacing
                (5 / 100, 45 / 100) (1 / 10, 9 / 10)
                (6 / 10, 18 / 10) (20, 150))%R (gaussians scene)
    ∧ ∀ idx src, gaussians scene !! idx = Some src →
        ∃ p, paths scene !! id src = Some p
             ∧ p !! (leg steps - 1)
               = Some (default (centre width height spacing) merge_point)
             ∧ last p
               = Some (on_circle
                         (default (centre width height spacing) merge_point)
                         split_radius n idx).
Proof.
  intros Hg. set (M := default (centre width height spacing) merge_point).
  unfold scenario_merge_split.
  set (scene0 := _create_scene width height spacing distribution).
  set (mp := match merge_point with Some p => p | None => _ end).
  assert (Hmp : mp = M) by (by destruct merge_point).
  match goal with
  | |- context [for_ (range n) ?body (scene0, g)] =>
      destruct (spawn_loop
        (λ _, spawned width height spacing
                (5 / 100, 45 / 100) (1 / 10, 9 / 10)
                (6 / 10, 18 / 10) (20, 150))%R
        body (draws g) (range n)) with scene0 g
        as (news & g' & Hfor & Hg' & HQ & Hpos & Hids); [| done |]
  end.
  { intros scene g0 i _ Hg0.
    destruct (uniform_spec (5 / 100) (45 / 100) g0) as [Hd1 Hr1].
    destruct (uniform (5 / 100) (45 / 100) g0) as [u1 g1]. cbn in Hd1, Hr1.
    destruct (uniform_spec (1 / 10) (9 / 10) g1) as [Hd2 Hr2].
    destruct (uniform (1 / 10) (9 / 10) g1) as [u2 g2]. cbn in Hd2, Hr2.
    destruct (uniform_spec (6 / 10) (18 / 10) g2) as [Hd3 Hr3].
    destruct (uniform (6 / 10) (18 / 10) g2) as [u3 g3]. cbn in Hd3, Hr3.
    destruct (uniform_spec 20 150 g3) as [Hd4 Hr4].
    destruct (uniform 20 150 g3) as [u4 g4]. cbn in Hd4, Hr4.
    assert (H1 : (∀ k, 0 <= draws g0 k < 1)%R) by (by rewrite Hg0).
    assert (H2 : (∀ k, 0 <= draws g1 k < 1)%R) by (by rewrite Hd1).
    assert (H3 : (∀ k, 0 <= draws g2 k < 1)%R) by (by rewrite Hd2).
    assert (H4 : (∀ k, 0 <= draws g3 k < 1)%R) by (by rewrite Hd3).
    specialize (Hr1 ltac:(lra) H1). specialize (Hr2 ltac:(lra) H2).
    specialize (Hr3 ltac:(lra) H3). specialize (Hr4 ltac:(lra) H4).
    eexists _, _, u3, u4, g4. split; [reflexivity |].
    split; [congruence |]. split; [lra |].
    intros nid. unfold spawned, fresh. cbn.
    split; [by exists u1 |]. split; [by exists u2 |]. done. }
  rewrite Hfor. cbn [mbind result_bind].
  change (gaussians (with_sources scene0 news)) with news.
  assert (Hlen : length news = Z.to_nat n).
  { by rewrite <- (Forall2_length _ _ _ HQ), length_range. }
  assert (Hids' : id <$> news = Z.of_nat <$> seq 1 (length news)).
  { rewrite Hids, (Forall2_length _ _ _ HQ). apply seq_ids. }
  rewrite (for_snoc_each
    (λ idx, ((mp.1 + split_radius
                     * cos (2 * PI * IZR idx / IZR (Z.max 1 n)))%R,
             (mp.2 + split_radius
                     * sin (2 * PI * IZR idx / IZR (Z.max 1 n)))%R))).
  2:{ intros acc a _. rewrite div_Ok; [done |]. apply not_0_IZR. lia. }
  cbn [mbind result_bind app].
  match goal with
  | |- context [for_ (enumerate news) ?body (with_sources scene0 news)] =>
      destruct (assign_paths_loop
        (λ idx src,
           waypoints (src.(gaussian_scene.x), src.(gaussian_scene.y)) mp
             (Z.max 2 (steps / 2 + 1))
           ++ drop 1 (waypoints mp (on_circle mp split_radius n idx)
                        (Z.max 2 (steps / 2 + 1))))
        body news) with (with_sources scene0 news)
        as (scene & Hfor2 & Hsame & Hin & Hout)
  end.
  { intros scene idx src Hsrc. rewrite !_make_straight_path_spec.
    cbn [mbind result_bind].
    assert (Hidx : idx < Z.to_nat n)
      by (rewrite <- Hlen; by eapply lookup_lt_Some).
    rewrite (index_lookup _ idx (on_circle mp split_radius n idx)).
    - cbn [mbind result_bind]. by rewrite _make_straight_path_spec.
    - rewrite list_lookup_fmap, lookup_range_Some by done. done. }
  { rewrite Hids'. apply seq_ids_NoDup. }
  rewrite Hfor2. cbn [mbind result_bind].
  exists scene, g'. split; [done |].
  pose proof Hsame as (_ & _ & _ & Hgs & _).
  assert (Hleg : 2 ≤ leg steps) by (unfold leg; lia).
  split; [| split].
  - rewrite <- Hlen.
    apply (staged_intro _ _ _ _ news scene _
      (λ idx src,
         waypoints (src.(gaussian_scene.x), src.(gaussian_scene.y)) mp
           (Z.max 2 (steps / 2 + 1))
         ++ drop 1 (waypoints mp (on_circle mp split_radius n idx)
                      (Z.max 2 (steps / 2 + 1)))));
      [done | done | done | done | |].
    + intros gid Hgid. by rewrite (proj1 (Hout gid Hgid)).
    + intros idx src _.
      rewrite length_app, length_drop, !waypoints_length. split; [done |].
      rewrite head_app, waypoints_head by lia. done.
  - rewrite Hgs. cbn. eapply Forall2_Forall_r; [exact HQ |].
    apply Forall_forall. by intros.
  - rewrite Hgs. cbn. intros idx src Hidx.
    destruct (Hin idx src Hidx) as [Hp _]. eexists. split; [exact Hp |].
    rewrite <- Hmp. split.
    + rewrite lookup_app_l by (rewrite waypoints_length; unfold leg in *; lia).
      pose proof (waypoints_last
        (src.(gaussian_scene.x), src.(gaussian_scene.y)) mp
        (Z.max 2 (steps / 2 + 1)) ltac:(lia)) as Hlast.
      rewrite last_lookup, waypoints_length in Hlast.
      unfold leg. rewrite <- Hlast. f_equal. lia.
    + rewrite last_app_drop by (rewrite waypoints_length; unfold leg in *; lia).
      apply waypoints_last. lia.
Qed.

Lemma merge_split_scenario_witness :
  (∀ k, 0 <= draws steady_rng k < 1)%R
  ∧ ∃ scene g',
      scenario_merge_split steady_rng 3 200 200 1 None 40 2 "Gaussian"
      = Ok (scene, sink_field 200 200 1, g')
      ∧ staged 200 200 1 "Gaussian" (Z.to_nat 3) (leg 2 + (leg 2 - 1)) scene
      ∧ Forall (spawned 200 200 1
                  (5 / 100, 45 / 100) (1 / 10, 9 / 10)
                  (6 / 10, 18 / 10) (20, 150))%R (gaussians scene)
      ∧ ∀ idx src, gaussians scene !! idx = Some src →
          ∃ p, paths scene !! id src = Some p
               ∧ p !! (leg 2 - 1) = Some (default (centre 200 200 1) None)
               ∧ last p
                 = Some (on_circle (default (centre 200 200 1) None)
                           40 3 idx).
Proof.
  split; [exact steady_rng_range |].
  exact (merge_split_scenario steady_rng 3 200 200 1 None 40 2 "Gaussian"
           steady_rng_range).
Defined.

(** The separate-paths scenario never fails: it holds [n] sources with the
    ids [1 .. n], drawn in the left part of the grid, and gives each a
    path of ten waypoints from where the source is to a destination in the
    right part, the destinations being stacked at equal steps along the
    second axis. *)
Theorem separate_paths_scenario g n width height spacing distribution :
  (∀ k, 0 <= draws g k < 1)%R →
  ∃ scene g',
    scenario_separate_paths g n width height spacing distribution
    = Ok (scene, None, g')
    ∧ staged width height spacing distribution (Z.to_nat n) 10 scene
    ∧ Forall (spawned width height spacing
                (5 / 100, 45 / 100) (5 / 100, 95 / 100)
                (6 / 10, 18 / 10) (15, 140))%R (gaussians scene)
    ∧ ∀ idx src, gaussians scene !! idx = Some src →
        ∃ p e u, paths scene !! id src = Some p
                 ∧ last p = Some e
                 ∧ (55 / 100 <= u <= 95 / 100)%R
                 ∧ e.1 = (u * IZR width * spacing)%R
                 ∧ e.2 = ((5 / 100 + IZR (Z.of_nat idx)
                                     * (9 / 10 / IZR (Z.max 1 n)))
                          * IZR height * spacing)%R.
Proof.
  intros Hg. unfold scenario_separate_paths.
  set (scene0 := _create_scene width height spacing distribution).
  cbv zeta.
  match goal with
  | |- context [fold_left ?step (range n) ([], g)] =>
      destruct (fold_draws
        (λ _ pt, (∃ u, (5 / 100 <= u <= 45 / 100)%R
                       ∧ pt.1 = (u * IZR width * spacing)%R)
                 ∧ (∃ u, (5 / 100 <= u <= 95 / 100)%R
                         ∧ pt.2 = (u * IZR height * spacing)%R))
        step (draws g) (range n)) with ([] : list (R * R)) g
        as (starts & g1 & Hstarts & Hg1 & HPs); [| done |]
  end.
  { intros acc g0 i _ Hg0.
    destruct (uniform_spec (5 / 100) (45 / 100) g0) as [Hd1 Hr1].
    destruct (uniform (5 / 100) (45 / 100) g0) as [u1 g01]. cbn in Hd1, Hr1.
    destruct (uniform_spec (5 / 100) (95 / 100) g01) as [Hd2 Hr2].
    destruct (uniform (5 / 100) (95 / 100) g01) as [u2 g02].
    cbn in Hd2, Hr2.
    assert (H1 : (∀ k, 0 <= draws g0 k < 1)%R) by (by rewrite Hg0).
    assert (H2 : (∀ k, 0 <= draws g01 k < 1)%R) by (by rewrite Hd1).
    specialize (Hr1 ltac:(lra) H1). specialize (Hr2 ltac:(lra) H2).
    eexists _, g02. split; [reflexivity |]. split; [congruence |]. cbn.
    split; [by exists u1 | by exists u2]. }
  rewrite Hstarts. cbn [app].
  match goal with
  | |- context [for_ (range n) ?step ([], g1)] =>
      destruct (for_draws
        (λ i pt, (∃ u, (55 / 100 <= u <= 95 / 100)%R
                       ∧ pt.1 = (u * IZR width * spacing)%R)
                 ∧ pt.2 = ((5 / 100 + IZR i * (9 / 10 / IZR (Z.max 1 n)))
                           * IZR height * spacing)%R)
        step (draws g) (range n)) with ([] : list (R * R)) g1
        as (dests & g2 & Hdests & Hg2 & HPd); [| done |]
  end.
  { intros acc g0 i _ Hg0.
    destruct (uniform_spec (55 / 100) (95 / 100) g0) as [Hd1 Hr1].
    destruct (uniform (55 / 100) (95 / 100) g0) as [u1 g01]. cbn in Hd1, Hr1.
    assert (H1 : (∀ k, 0 <= draws g0 k < 1)%R) by (by rewrite Hg0).
    specialize (Hr1 ltac:(lra) H1).
    rewrite div_Ok by (apply not_0_IZR; lia). cbn [mbind result_bind].
    eexists _, g01. split; [reflexivity |]. split; [congruence |]. cbn.
    split; [by exists u1 | done]. }
  rewrite Hdests. cbn [mbind result_bind app].
  assert (Hls : length starts = Z.to_nat n)
    by (by rewrite <- (Forall2_length _ _ _ HPs), length_range).
  assert (Hld : length dests = Z.to_nat n)
    by (by rewrite <- (Forall2_length _ _ _ HPd), length_range).
  match goal with
  | |- context [for_ (range n) ?body (scene0, g2)] =>
      destruct (spawn_loop
        (λ _, spawned width height spacing
                (5 / 100, 45 / 100) (5 / 100, 95 / 100)
                (6 / 10, 18 / 10) (15, 140))%R
        body (draws g) (range n)) with scene0 g2
        as (news & g' & Hfor & Hg' & HQ & Hpos & Hids); [| done |]
  end.
  { intros scene g0 i Hi Hg0.
    destruct (uniform_spec (6 / 10) (18 / 10) g0) as [Hd3 Hr3].
    destruct (uniform (6 / 10) (18 / 10) g0) as [u3 g3]. cbn in Hd3, Hr3.
    destruct (uniform_spec 15 140 g3) as [Hd4 Hr4].
    destruct (uniform 15 140 g3) as [u4 g4]. cbn in Hd4, Hr4.
    assert (H3 : (∀ k, 0 <= draws g0 k < 1)%R) by (by rewrite Hg0).
    assert (H4 : (∀ k, 0 <= draws g3 k < 1)%R) by (by rewrite Hd3).
    specialize (Hr3 ltac:(lra) H3). specialize (Hr4 ltac:(lra) H4).
    apply elem_of_range in Hi.
    destruct (lookup_lt_is_Some_2 starts (Z.to_nat i) ltac:(lia))
      as [start Hstart].
    destruct (Forall2_lookup_r _ _ _ _ _ HPs Hstart)
      as (i' & _ & (ux & Hux & Hx) & (uy & Huy & Hy)).
    replace i with (Z.of_nat (Z.to_nat i)) by lia.
    rewrite (getitem_list_range starts _ start Hstart).
    cbn [mbind result_bind].
    eexists _, _, u3, u4, g4. split; [reflexivity |].
    split; [congruence |]. split; [lra |].
    intros nid. unfold spawned, fresh. cbn.
    split; [by exists ux |]. split; [by exists uy |]. done. }
  rewrite Hfor. cbn [mbind result_bind].
  change (gaussians (with_sources scene0 news)) with news.
  assert (Hlen : length news = Z.to_nat n).
  { by rewrite <- (Forall2_length _ _ _ HQ), length_range. }
  assert (Hids' : id <$> news = Z.of_nat <$> seq 1 (length news)).
  { rewrite Hids, (Forall2_length _ _ _ HQ). apply seq_ids. }
  match goal with
  | |- context [for_ (enumerate news) ?body (with_sources scene0 news)] =>
      destruct (assign_paths_loop
        (λ idx src,
           waypoints (src.(gaussian_scene.x), src.(gaussian_scene.y))
             (default (0%R, 0%R) (dests !! idx)) 10)
        body news) with (with_sources scene0 news)
        as (scene & Hfor2 & Hsame & Hin & Hout)
  end.
  { intros scene idx src Hsrc.
    assert (Hidx : idx < length dests)
      by (rewrite Hld, <- Hlen; by eapply lookup_lt_Some).
    destruct (lookup_lt_is_Some_2 dests idx Hidx) as [dest Hdest].
    rewrite (index_lookup _ _ _ Hdest), Hdest. cbn [mbind result_bind default].
    by rewrite _make_straight_path_spec. }
  { rewrite Hids'. apply seq_ids_NoDup. }
  rewrite Hfor2. cbn [mbind result_bind].
  exists scene, g'. split; [done |].
  pose proof Hsame as (_ & _ & _ & Hgs & _).
  split; [| split].
  - rewrite <- Hlen.
    apply (staged_intro _ _ _ _ news scene 10
      (λ idx src,
         waypoints (src.(gaussian_scene.x), src.(gaussian_scene.y))
           (default (0%R, 0%R) (dests !! idx)) 10));
      [done | done | done | done | |].
    + intros gid Hgid. by rewrite (proj1 (Hout gid Hgid)).
    + intros idx src _. rewrite waypoints_length. split; [done |].
      by apply waypoints_head.
  - rewrite Hgs. cbn. eapply Forall2_Forall_r; [exact HQ |].
    apply Forall_forall. by intros.
  - rewrite Hgs. cbn. intros idx src Hidx.
    destruct (Hin idx src Hidx) as [Hp _].
    assert (Hlt : idx < length dests)
      by (rewrite Hld, <- Hlen; by eapply lookup_lt_Some).
    destruct (lookup_lt_is_Some_2 dests idx Hlt) as [dest Hdest].
    destruct (Forall2_lookup_r _ _ _ _ _ HPd Hdest)
      as (i & Hi & (u & Hu & Hx) & Hy).
    rewrite lookup_range_Some in Hi by (rewrite <- Hld; done).
    injection Hi as <-.
    exists (waypoints (src.(gaussian_scene.x), src.(gaussian_scene.y))
              dest 10), dest, u.
    rewrite Hdest in Hp. split; [exact Hp |].
    split; [by apply waypoints_last |]. done.
Qed.

Lemma separate_paths_scenario_witness :
  (∀ k, 0 <= draws steady_rng k < 1)%R
  ∧ ∃ scene g',
      scenario_separate_paths steady_rng 4 200 200 1 "Gaussian"
      = Ok (scene, None, g')
      ∧ staged 200 200 1 "Gaussian" (Z.to_nat 4) 10 scene
      ∧ Forall (spawned 200 200 1
                  (5 / 100, 45 / 100) (5 / 100, 95 / 100)
                  (6 / 10, 18 / 10) (15, 140))%R (gaussians scene)
      ∧ ∀ idx src, gaussians scene !! idx = Some src →
          ∃ p e u, paths scene !! id src = Some p
                   ∧ last p = Some e
                   ∧ (55 / 100 <= u <= 95 / 100)%R
                   ∧ e.1 = (u * IZR 200 * 1)%R
                   ∧ e.2 = ((5 / 100 + IZR (Z.of_nat idx)
                                       * (9 / 10 / IZR (Z.max 1 4)))
                            * IZR 200 * 1)%R.
Proof.
  split; [exact steady_rng_range |].
  exact (separate_paths_scenario steady_rng 4 200 200 1 "Gaussian"
           steady_rng_range).
Defined.

(** The sink-and-vanish scenario never fails: it holds [n] sources with
    the ids [1 .. n], drawn anywhere but at the rim of the grid, and
    gives each a path of twelve waypoints from where the source is to the
    sink point. *)
Theorem sink_and_vanish_scenario g n width height spacing sink_point
    distribution :
  (∀ k, 0 <= draws g k < 1)%R →
  ∃ scene g',
    scenario_sink_and_vanish g n width height spacing sink_point
      distribution
    = Ok (scene, sink_field width height spacing, g')
    ∧ staged width height spacing distribution (Z.to_nat n) 12 scene
    ∧ Forall (spawned width height spacing
                (5 / 100, 95 / 100) (5 / 100, 95 / 100)
                (5 / 10, 2) (10, 160))%R (gaussians scene)
    ∧ ∀ src, src ∈ gaussians scene →
        ∃ p, paths scene !! id src = Some p
             ∧ last p = Some (default (centre width height spacing)
                                sink_point).
Proof.
  intros Hg. unfold scenario_sink_and_vanish.
  set (scene0 := _create_scene width height spacing distribution).
  set (sink := match sink_point with Some p => p | None => _ end).
  assert (Hsink : sink = default (centre width height spacing) sink_point)
    by (by destruct sink_point).
  match goal with
  | |- context [for_ (range n) ?body (scene0, g)] =>
      destruct (spawn_loop
        (λ _, spawned width height spacing
                (5 / 100, 95 / 100) (5 / 100, 95 / 100)
                (5 / 10, 2) (10, 160))%R
        body (draws g) (range n)) with scene0 g
        as (news & g' & Hfor & Hg' & HQ & Hpos & Hids); [| done |]
  end.
  { intros scene g0 i _ Hg0.
    destruct (uniform_spec (5 / 100) (95 / 100) g0) as [Hd1 Hr1].
    destruct (uniform (5 / 100) (95 / 100) g0) as [u1 g1]. cbn in Hd1, Hr1.
    destruct (uniform_spec (5 / 100) (95 / 100) g1) as [Hd2 Hr2].
    destruct (uniform (5 / 100) (95 / 100) g1) as [u2 g2]. cbn in Hd2, Hr2.
    destruct (uniform_spec (5 / 10) 2 g2) as [Hd3 Hr3].
    destruct (uniform (5 / 10) 2 g2) as [u3 g3]. cbn in Hd3, Hr3.
    destruct (uniform_spec 10 160 g3) as [Hd4 Hr4].
    destruct (uniform 10 160 g3) as [u4 g4]. cbn in Hd4, Hr4.
    assert (H1 : (∀ k, 0 <= draws g0 k < 1)%R) by (by rewrite Hg0).
    assert (H2 : (∀ k, 0 <= draws g1 k < 1)%R) by (by rewrite Hd1).
    assert (H3 : (∀ k, 0 <= draws g2 k < 1)%R) by (by rewrite Hd2).
    assert (H4 : (∀ k, 0 <= draws g3 k < 1)%R) by (by rewrite Hd3).
    specialize (Hr1 ltac:(lra) H1). specialize (Hr2 ltac:(lra) H2).
    specialize (Hr3 ltac:(lra) H3). specialize (Hr4 ltac:(lra) H4).
    eexists _, _, u3, u4, g4. split; [reflexivity |].
    split; [congruence |]. split; [lra |].
    intros nid. unfold spawned, fresh. cbn.
    split; [by exists u1 |]. split; [by exists u2 |]. done. }
  rewrite Hfor. cbn [mbind result_bind].
  change (gaussians (with_sources scene0 news)) with news.
  assert (Hids' : id <$> news = Z.of_nat <$> seq 1 (length news)).
  { rewrite Hids, (Forall2_length _ _ _ HQ). apply seq_ids. }
  match goal with
  | |- context [for_ news ?body (with_sources scene0 news)] =>
      rewrite <- (for_enumerate_forget body);
      destruct (assign_paths_loop
        (λ _ src, waypoints (src.(gaussian_scene.x), src.(gaussian_scene.y))
                    sink 12)
        (λ scene '(_, src), body scene src) news)
        with (with_sources scene0 news)
        as (scene & Hfor2 & Hsame & Hin & Hout)
  end.
  { intros scene idx src _. by rewrite _make_straight_path_spec. }
  { rewrite Hids'. apply seq_ids_NoDup. }
  rewrite Hfor2. cbn [mbind result_bind].
  exists scene, g'. split; [done |].
  assert (Hlen : length news = Z.to_nat n).
  { rewrite <- (Forall2_length _ _ _ HQ). unfold range.
    by rewrite length_fmap, length_seq. }
  pose proof Hsame as (_ & _ & _ & Hgs & _).
  split; [| split].
  - rewrite <- Hlen.
    apply (staged_intro _ _ _ _ news scene 12
      (λ _ src, waypoints (src.(gaussian_scene.x), src.(gaussian_scene.y))
                  sink 12)); [done | done | done | done | |].
    + intros gid Hgid. by rewrite (proj1 (Hout gid Hgid)).
    + intros idx src _. rewrite waypoints_length. split; [done |].
      by apply waypoints_head.
  - rewrite Hgs. cbn. eapply Forall2_Forall_r; [exact HQ |].
    apply Forall_forall. by intros.
  - rewrite Hgs. cbn. intros src (idx & Hidx)%list_elem_of_lookup.
    destruct (Hin idx src Hidx) as [Hp _]. eexists. split; [exact Hp |].
    rewrite <- Hsink. by apply waypoints_last.
Qed.

Lemma sink_and_vanish_scenario_witness :
  (∀ k, 0 <= draws steady_rng k < 1)%R
  ∧ ∃ scene g',
      scenario_sink_and_vanish steady_rng 6 200 200 1 None "Gaussian"
      = Ok (scene, sink_field 200 200 1, g')
      ∧ staged 200 200 1 "Gaussian" (Z.to_nat 6) 12 scene
      ∧ Forall (spawned 200 200 1
                  (5 / 100, 95 / 100) (5 / 100, 95 / 100)
                  (5 / 10, 2) (10, 160))%R (gaussians scene)
      ∧ ∀ src, src ∈ gaussians scene →
          ∃ p, paths scene !! id src = Some p
               ∧ last p = Some (default (centre 200 200 1) None).
Proof.
  split; [exact steady_rng_range |].
  exact (sink_and_vanish_scenario steady_rng 6 200 200 1 None "Gaussian"
           steady_rng_range).
Defined.

End scenario_properties.

(** * Motion along paths *)

Section path_proofs.
Import gaussian_scene.

Lemma custom_path_step_spec self path_index g p w :
  paths self !! id g = Some p →
  (0 ≤ cursor_of path_index (id g))%Z →
  p !! Z.to_nat (cursor_of path_index (id g)) = Some w →
  custom_path_step self path_index g =
    if decide (distance_to g w < 5 / 10)%R
    then Ok (<[id g := advanced (length p) (cursor_of path_index (id g))]>
               path_index, g)
    else Ok (path_index,
             moved_by g
               (path_speed self * (w.1 - g.(gaussian_scene.x)) / distance_to g w)
               (path_speed self * (w.2 - g.(gaussian_scene.y)) / distance_to g w)).
Proof.
  intros Hp Hc Hw. unfold custom_path_step. rewrite Hp.
  assert (Hlen : 0 < length p) by (apply lookup_lt_Some in Hw; lia).
  rewrite decide_True by done. cbv zeta.
  change (default 0%Z (path_index !! id g)) with (cursor_of path_index (id g)).
  unfold getitem_list.
  destruct (decide (0 ≤ cursor_of path_index (id g))%Z); [| done].
  rewrite (index_lookup _ _ _ Hw). cbn [mbind result_bind].
  destruct w as [tx ty].
  rewrite (sqrt_Ok _ (sum_products_nonneg _ _)). cbn [mbind result_bind].
  unfold distance_to. cbn [fst snd].
  set (d := R_sqrt.sqrt _).
  destruct (decide (d < 5 / 10)%R) as [Hd | Hd].
  - unfold advanced. destruct (decide _); [| done].
    by rewrite insert_insert_eq.
  - rewrite !div_Ok by lra. done.
Qed.

Lemma custom_path_step_no_path self path_index g :
  paths self !! id g = None ∨ paths self !! id g = Some [] →
  custom_path_step self path_index g = Ok (path_index, g).
Proof.
  intros [Hp | Hp]; unfold custom_path_step; rewrite Hp; done.
Qed.

(** The loop of [move_gaussians_by_custom_path], with an invariant on the
    cursors that may depend on the sources already visited. *)
Lemma custom_path_loop (I : list gaussian → gmap Z Z → Prop)
    (Rel : gaussian → gaussian → Prop) self :
  (∀ seen g rest pi, gaussians self = seen ++ g :: rest → I seen pi →
     ∃ pi' g', custom_path_step self pi g = Ok (pi', g')
               ∧ I (seen ++ [g]) pi' ∧ Rel g g') →
  I [] (path_index self) →
  ∃ pi moved,
    move_gaussians_by_custom_path self
    = Ok {| width := width self; height := height self;
            spacing := spacing self;
            gaussians := moved; _next_id := _next_id self;
            distribution_type := distribution_type self;
            paths := paths self; path_index := pi;
            path_speed := path_speed self;
            _prev_clusters := _prev_clusters self |}
    ∧ I (gaussians self) pi
    ∧ Forall2 Rel (gaussians self) moved.
Proof.
  intros Hstep H0. unfold move_gaussians_by_custom_path.
  assert (Hloop : ∀ rest seen pi moved,
    gaussians self = seen ++ rest → I seen pi → Forall2 Rel seen moved →
    ∃ pi' moved',
      for_ rest (λ '(path_index, moved) g,
        '(path_index, g) ← custom_path_step self path_index g;
        Ok (path_index, moved ++ [g])) (pi, moved) = Ok (pi', moved')
      ∧ I (gaussians self) pi' ∧ Forall2 Rel (gaussians self) moved').
  { induction rest as [| g rest IH]; intros seen pi moved Hgs HI HR.
    - rewrite app_nil_r in Hgs. subst seen. by exists pi, moved.
    - destruct (Hstep seen g rest pi Hgs HI) as (pi' & g' & Hs & HI' & Hg').
      cbn [for_]. rewrite Hs. cbn [mbind result_bind].
      apply (IH (seen ++ [g])); [by rewrite <- app_assoc | done |].
      apply Forall2_app; [done | by constructor]. }
  destruct (Hloop (gaussians self) [] (path_index self) [] eq_refl H0
              ltac:(constructor)) as (pi & moved & -> & HI & HR).
  by exists pi, moved.
Qed.

Lemma advanced_valid n c :
  (0 ≤ c < Z.of_nat n)%Z → (0 ≤ advanced n c < Z.of_nat n)%Z.
Proof. unfold advanced. case_decide; lia. Qed.

Lemma moved_distance g w s :
  let d := distance_to g w in
  d ≠ 0%R →
  distance_to
    (moved_by g (s * (w.1 - g.(gaussian_scene.x)) / d)
       (s * (w.2 - g.(gaussian_scene.y)) / d)) w
  = Rabs (d - s).
Proof.
  intros d Hd. unfold distance_to at 1. cbn [moved_by x y].
  set (dx := (w.1 - g.(gaussian_scene.x))%R) in *.
  set (dy := (w.2 - g.(gaussian_scene.y))%R) in *.
  assert (Hdd : (d * d = dx * dx + dy * dy)%R).
  { unfold d, distance_to. fold dx dy.
    apply sqrt_sqrt, sum_products_nonneg. }
  rewrite <- sqrt_Rsqr_abs. f_equal. unfold Rsqr.
  replace (w.1 - (g.(gaussian_scene.x) + s * dx / d))%R
    with (dx * ((d - s) / d))%R by (unfold dx; field; done).
  replace (w.2 - (g.(gaussian_scene.y) + s * dy / d))%R
    with (dy * ((d - s) / d))%R by (unfold dy; field; done).
  transitivity ((dx * dx + dy * dy) * ((d - s) / d * ((d - s) / d)))%R;
    [ring |].
  rewrite <- Hdd. field. done.
Qed.

End path_proofs.

(** ** Properties of the motion along paths *)

Section path_properties.
Import gaussian_scene.

(** One step of a source towards the waypoint under its cursor: within
    half a unit of the waypoint the source stays and its cursor moves on,
    to the next waypoint or from the last one back to the first; farther
    away the cursor stays and the source moves straight towards the
    waypoint, its distance to it changing from [d] to [|d - path_speed|].
    Nothing else changes and no error is raised. *)
Theorem custom_path_progress self path_index g p w :
  paths self !! id g = Some p →
  (0 ≤ cursor_of path_index (id g))%Z →
  p !! Z.to_nat (cursor_of path_index (id g)) = Some w →
  ∃ path_index' g',
    custom_path_step self path_index g = Ok (path_index', g')
    ∧ same_but_position g g'
    ∧ (∀ gid, gid ≠ id g → path_index' !! gid = path_index !! gid)
    ∧ if decide (distance_to g w < 5 / 10)%R
      then g' = g
           ∧ path_index' !! id g
             = Some (advanced (length p) (cursor_of path_index (id g)))
      else path_index' = path_index
           ∧ distance_to g' w = Rabs (distance_to g w - path_speed self).
Proof.
  intros Hp Hc Hw. rewrite (custom_path_step_spec _ _ _ _ _ Hp Hc Hw).
  destruct (decide (distance_to g w < 5 / 10)%R) as [Hd | Hd].
  - eexists _, g. split; [done |]. split; [by repeat split |]. split.
    + intros gid Hgid. by rewrite lookup_insert_ne.
    + split; [done |]. by rewrite lookup_insert_eq.
  - eexists path_index, _. split; [done |]. split; [by repeat split |].
    split; [done |]. split; [done |].
    apply moved_distance. lra.
Qed.

Lemma custom_path_progress_witness :
  paths commuter_scene !! id walker = Some [(0%R, 0%R); (1%R, 0%R)]
  ∧ (0 ≤ cursor_of (path_index commuter_scene) (id walker))%Z
  ∧ [(0%R, 0%R); (1%R, 0%R)]
      !! Z.to_nat (cursor_of (path_index commuter_scene) (id walker))
    = Some (1%R, 0%R)
  ∧ ∃ path_index' g',
      custom_path_step commuter_scene (path_index commuter_scene) walker
      = Ok (path_index', g')
      ∧ same_but_position walker g'
      ∧ (∀ gid, gid ≠ id walker →
           path_index' !! gid = path_index commuter_scene !! gid)
      ∧ if decide (distance_to walker (1%R, 0%R) < 5 / 10)%R
        then g' = walker
             ∧ path_index' !! id walker
               = Some (advanced (length [(0%R, 0%R); (1%R, 0%R)])
                         (cursor_of (path_index commuter_scene) (id walker)))
        else path_index' = path_index commuter_scene
             ∧ distance_to g' (1%R, 0%R)
               = Rabs (distance_to walker (1%R, 0%R)
                       - path_speed commuter_scene).
Proof.
  assert (Hp : paths commuter_scene !! id walker
               = Some [(0%R, 0%R); (1%R, 0%R)]) by apply lookup_singleton_eq.
  assert (Hc : cursor_of (path_index commuter_scene) (id walker) = 1%Z).
  { unfold cursor_of, commuter_scene. cbn [path_index id walker].
    by rewrite lookup_singleton_eq. }
  assert (Hc0 : (0 ≤ cursor_of (path_index commuter_scene) (id walker))%Z)
    by (rewrite Hc; lia).
  assert (Hw : [(0%R, 0%R); (1%R, 0%R)]
                 !! Z.to_nat (cursor_of (path_index commuter_scene)
                                (id walker)) = Some (1%R, 0%R))
    by (by rewrite Hc).
  split; [exact Hp |]. split; [exact Hc0 |]. split; [exact Hw |].
  exact (custom_path_progress commuter_scene (path_index commuter_scene)
           walker _ _ Hp Hc0 Hw).
Defined.

(** When every cursor points into its path, a step along the paths raises
    no error, leaves every cursor pointing into its path, and changes
    nothing but cursors and positions. *)
Theorem custom_path_keeps_cursors_valid self :
  cursors_valid (paths self) (path_index self) →
  ∃ self',
    move_gaussians_by_custom_path self = Ok self'
    ∧ cursors_valid (paths self') (path_index self')
    ∧ paths self' = paths self
    ∧ width self' = width self ∧ height self' = height self
    ∧ spacing self' = spacing self ∧ _next_id self' = _next_id self
    ∧ distribution_type self' = distribution_type self
    ∧ path_speed self' = path_speed self
    ∧ _prev_clusters self' = _prev_clusters self
    ∧ Forall2 same_but_position (gaussians self) (gaussians self').
Proof.
  intros Hvalid.
  destruct (custom_path_loop (λ _, cursors_valid (paths self))
              same_but_position self) as (pi & moved & Hmove & HI & HR);
    [| done |].
  - intros seen g rest pi _ HI.
    destruct (paths self !! id g) as [p |] eqn:Hp.
    2:{ exists pi, g. rewrite custom_path_step_no_path by (by left).
        split; [done |]. split; [exact HI |]. by repeat split. }
    destruct (decide (p = [])) as [-> | Hne].
    { exists pi, g. rewrite custom_path_step_no_path by (by right).
      split; [done |]. split; [exact HI |]. by repeat split. }
    destruct (HI (id g) p Hp Hne) as [Hc0 Hc1].
    destruct (lookup_lt_is_Some_2 p (Z.to_nat (cursor_of pi (id g)))
                ltac:(lia)) as [w Hw].
    rewrite (custom_path_step_spec _ _ _ _ _ Hp Hc0 Hw).
    destruct (decide (distance_to g w < 5 / 10)%R).
    + eexists _, g. split; [done |]. split; [| by repeat split].
      intros gid q Hq Hqne. unfold cursor_of.
      destruct (decide (gid = id g)) as [-> | Hgid].
      * rewrite lookup_insert_eq. cbn.
        assert (q = p) as -> by congruence. by apply advanced_valid.
      * rewrite lookup_insert_ne by done. by apply HI.
    + eexists pi, _. split; [done |]. split; [exact HI |]. by repeat split.
  - eexists. split; [exact Hmove |]. cbn. split; [exact HI |].
    by repeat split.
Qed.

Lemma custom_path_keeps_cursors_valid_witness :
  cursors_valid (paths commuter_scene) (path_index commuter_scene)
  ∧ ∃ self',
      move_gaussians_by_custom_path commuter_scene = Ok self'
      ∧ cursors_valid (paths self') (path_index self')
      ∧ paths self' = paths commuter_scene
      ∧ width self' = width commuter_scene
      ∧ height self' = height commuter_scene
      ∧ spacing self' = spacing commuter_scene
      ∧ _next_id self' = _next_id commuter_scene
      ∧ distribution_type self' = distribution_type commuter_scene
      ∧ path_speed self' = path_speed commuter_scene
      ∧ _prev_clusters self' = _prev_clusters commuter_scene
      ∧ Forall2 same_but_position (gaussians commuter_scene)
          (gaussians self').
Proof.
  assert (Hv : cursors_valid (paths commuter_scene)
                 (path_index commuter_scene)).
  { intros gid p Hp _. unfold cursor_of, commuter_scene in *.
    cbn [paths path_index] in *.
    apply lookup_singleton_Some in Hp as [<- <-].
    rewrite lookup_singleton_eq. cbn. lia. }
  split; [exact Hv |].
  exact (custom_path_keeps_cursors_valid commuter_scene Hv).
Defined.

(** The first step of a staged scenario, whose sources sit on the first
    waypoint of their paths of at least two waypoints, moves no source and
    puts every cursor on the second waypoint. *)
Theorem staged_first_step width height spacing distribution n k self :
  staged width height spacing distribution n k self → 2 ≤ k →
  ∃ self',
    move_gaussians_by_custom_path self = Ok self'
    ∧ gaussians self' = gaussians self
    ∧ paths self' = paths self
    ∧ ∀ src, src ∈ gaussians self → path_index self' !! id src = Some 1%Z.
Proof.
  intros (_ & _ & _ & _ & _ & Hids & _ & _ & Hpaths) Hk.
  assert (Hnd : NoDup (id <$> gaussians self))
    by (rewrite Hids; apply seq_ids_NoDup).
  destruct (custom_path_loop
    (λ seen pi,
       (∀ src, src ∈ seen → pi !! id src = Some 1%Z)
       ∧ (∀ src, src ∈ gaussians self → id src ∉ id <$> seen →
            pi !! id src = Some 0%Z))
    eq self) as (pi & moved & Hmove & [Hone _] & HR).
  - intros seen g rest pi Hgs [Hseen Hrest].
    assert (Hg : g ∈ gaussians self).
    { rewrite Hgs. apply elem_of_app. right. left. }
    assert (Hnew : id g ∉ id <$> seen).
    { rewrite Hgs, fmap_app in Hnd. cbn in Hnd.
      apply NoDup_app in Hnd as (_ & Hdis & _).
      intros Hin. apply (Hdis _ Hin). left. }
    destruct (Hpaths g Hg) as (p & Hp & Hlen & Hhd & _).
    assert (Hc : cursor_of pi (id g) = 0%Z)
      by (unfold cursor_of; by rewrite (Hrest g Hg Hnew)).
    assert (Hw : p !! Z.to_nat (cursor_of pi (id g))
                 = Some (g.(gaussian_scene.x), g.(gaussian_scene.y))).
    { rewrite Hc. by destruct p. }
    assert (Hc0 : (0 ≤ cursor_of pi (id g))%Z) by lia.
    rewrite (custom_path_step_spec _ _ _ _ _ Hp Hc0 Hw).
    assert (Hd : distance_to g (g.(gaussian_scene.x), g.(gaussian_scene.y))
                 = 0%R).
    { unfold distance_to. cbn [fst snd].
      replace (_ + _)%R with 0%R by ring. apply sqrt_0. }
    rewrite Hd, decide_True by lra.
    eexists _, g. split; [done |]. split; [| done].
    rewrite Hc. unfold advanced. rewrite decide_False by lia. split.
    + intros src [Hsrc | ->%list_elem_of_singleton]%elem_of_app.
      * destruct (decide (id src = id g)) as [-> | Hne];
          [by rewrite lookup_insert_eq |].
        rewrite lookup_insert_ne by done. by apply Hseen.
      * by rewrite lookup_insert_eq.
    + intros src Hsrc Hno. rewrite fmap_app, not_elem_of_app in Hno.
      destruct Hno as [Hno Hne]. cbn in Hne.
      rewrite list_elem_of_singleton in Hne.
      rewrite lookup_insert_ne by done. by apply Hrest.
  - split; [intros src Hsrc; by apply elem_of_nil in Hsrc |].
    intros src Hsrc _. by destruct (Hpaths src Hsrc) as (p & _ & _ & _ & ?).
  - eexists. split; [exact Hmove |]. cbn.
    split; [symmetry; by apply list_eq_Forall2 |]. done.
Qed.

Lemma staged_first_step_witness :
  staged 200 200 1 "Gaussian" 1 2 starter_scene ∧ 2 ≤ 2
  ∧ ∃ self',
      move_gaussians_by_custom_path starter_scene = Ok self'
      ∧ gaussians self' = gaussians starter_scene
      ∧ paths self' = paths starter_scene
      ∧ ∀ src, src ∈ gaussians starter_scene →
          path_index self' !! id src = Some 1%Z.
Proof.
  assert (Hst : staged 200 200 1 "Gaussian" 1 2 starter_scene).
  { unfold staged, starter_scene. cbn [width height spacing distribution_type
      _next_id gaussians paths path_index].
    do 6 (split; [reflexivity |]).
    split; [repeat constructor; cbn; lra |]. split.
    - intros gid Hgid. apply lookup_singleton_is_Some in Hgid as <-.
      cbn. left.
    - intros src ->%list_elem_of_singleton.
      exists [(0%R, 0%R); (1%R, 0%R)]. cbn [id walker].
      split; [apply lookup_singleton_eq |]. split; [done |].
      split; [done |]. apply lookup_singleton_eq. }
  split; [exact Hst |]. split; [lia |].
  exact (staged_first_step 200 200 1 "Gaussian" 1 2 starter_scene Hst
           ltac:(lia)).
Defined.

End path_properties.

(** * Tracking steps *)

Section step_proofs.
Import umbrella_tracker.

Lemma clusters_total gs :
  ∃ cl, umbrella_clusters_with_roots gs = Ok (cl, values cl).
Proof.
  destruct (clusters_structure gs) as (p & cl & kvs & _ & _ & _ & Hcl & _).
  by exists cl.
Qed.

Lemma update_umbrella_tracking_events scene fs d t :
  ∃ cl,
    umbrella_clusters_with_roots (gcopy scene) = Ok (cl, values cl)
    ∧ update_umbrella_tracking scene fs d t =
        match makedirs fs d with
        | Raise e => (Raise e, fs)
        | Ok fs1 =>
            match dump_snapshot fs1 d t
                    (snapshot_of (gaussian_scene._prev_clusters scene) cl t)
            with
            | Raise e => (Raise e, fs1)
            | Ok fs2 =>
                (Ok (set_prev_clusters scene cl,
                     events_of (gaussian_scene._prev_clusters scene) cl t),
                 fs2)
            end
        end.
Proof.
  destruct (clusters_total (gcopy scene)) as (cl & Hcl).
  exists cl. split; [done |].
  unfold update_umbrella_tracking. fold (gcopy scene). rewrite Hcl. simpl.
  destruct (gaussian_scene._prev_clusters scene) as [prev|]; simpl.
  - rewrite correspondence_matrix_spec. simpl.
    rewrite detect_events_spec. simpl. done.
  - done.
Qed.

Lemma writable_step fs d t m :
  read_only fs = false →
  ∃ fs1, makedirs fs d = Ok fs1
         ∧ dump_snapshot fs1 d t m = Ok (stored fs d t m).
Proof.
  intros Hrw. unfold makedirs, dump_snapshot, stored.
  destruct (decide (d ∈ dirs fs)) as [Hd | Hd].
  - exists fs. split; [done |]. rewrite Hrw, decide_True by done.
    do 2 f_equal. symmetry. apply subseteq_union_1_L. set_solver.
  - rewrite Hrw. eexists. split; [done |]. cbn.
    rewrite decide_True by set_solver. done.
Qed.

Lemma update_umbrella_tracking_writable scene fs d t :
  read_only fs = false →
  ∃ cl,
    umbrella_clusters_with_roots (gcopy scene) = Ok (cl, values cl)
    ∧ update_umbrella_tracking scene fs d t
      = (Ok (set_prev_clusters scene cl,
             events_of (gaussian_scene._prev_clusters scene) cl t),
         stored fs d t
           (snapshot_of (gaussian_scene._prev_clusters scene) cl t)).
Proof.
  intros Hrw.
  destruct (update_umbrella_tracking_events scene fs d t) as (cl & Hcl & ->).
  exists cl. split; [done |].
  destruct (writable_step fs d t
              (snapshot_of (gaussian_scene._prev_clusters scene) cl t) Hrw)
    as (fs1 & -> & ->).
  done.
Qed.

Lemma gcopy_tracked scene :
  gcopy scene = tracked <$> gaussian_scene.gaussians scene.
Proof. done. Qed.

Lemma gcopy_ids scene :
  id <$> gcopy scene = gaussian_scene.id <$> gaussian_scene.gaussians scene.
Proof.
  rewrite gcopy_tracked, <- list_fmap_compose. done.
Qed.

Lemma NoDup_only {A} (l : list A) r :
  NoDup l → (∀ a, a ∈ l ↔ a = r) → l = [r].
Proof.
  intros Hnd Hl. destruct l as [| a l].
  - pose proof (proj2 (Hl r) eq_refl) as Hr. by apply elem_of_nil in Hr.
  - assert (a = r) as -> by (apply Hl; left).
    apply NoDup_cons in Hnd as [Hr Hnd]. f_equal.
    destruct l as [| b l]; [done |].
    assert (b = r) as -> by (apply Hl; right; left).
    exfalso. apply Hr. left.
Qed.

(** In a clustering whose member lists are disjoint, a cluster overlaps
    itself only. *)
Lemma contributors_self (cl : dict (list Z)) r :
  NoDup (keys cl) →
  (∀ k ms, (k, ms) ∈ cl → ms ≠ [] ∧ k ∈ ms) →
  (∀ k1 ms1 k2 ms2 a, (k1, ms1) ∈ cl → (k2, ms2) ∈ cl →
     a ∈ ms1 → a ∈ ms2 → k1 = k2 ∧ ms1 = ms2) →
  r ∈ keys cl → contributors cl cl r = [r].
Proof.
  intros Hnd Hne Hdis Hr. unfold contributors.
  apply NoDup_only; [by apply NoDup_filter |].
  intros r_i. rewrite list_elem_of_filter. split.
  - intros [(mi & mj & a & Hi & Hj & Hai & Haj) _].
    apply lookup_elem_of in Hi, Hj.
    by destruct (Hdis _ _ _ _ a Hi Hj Hai Haj).
  - intros ->. split; [| done].
    destruct (lookup cl r) as [ms |] eqn:Hl.
    + destruct (Hne r ms (lookup_elem_of _ _ _ Hl)) as [_ Hin].
      by exists ms, ms, r.
    + by apply lookup_None_keys in Hl.
Qed.

Lemma events_of_self (cl : dict (list Z)) t :
  NoDup (keys cl) →
  (∀ k ms, (k, ms) ∈ cl → ms ≠ [] ∧ k ∈ ms) →
  (∀ k1 ms1 k2 ms2 a, (k1, ms1) ∈ cl → (k2, ms2) ∈ cl →
     a ∈ ms1 → a ∈ ms2 → k1 = k2 ∧ ms1 = ms2) →
  events_of (Some cl) cl t = [].
Proof.
  intros Hnd Hne Hdis. unfold events_of.
  assert (Hnew : new_roots cl cl = []).
  { apply elem_of_nil_inv. intros r. unfold new_roots.
    rewrite list_elem_of_filter. tauto. }
  rewrite Hnew. cbn.
  apply elem_of_nil_inv. intros e. unfold merges_of.
  rewrite list_elem_of_bind. intros (r & He & Hr).
  rewrite (contributors_self cl r Hnd Hne Hdis Hr) in He.
  cbn in He. by apply elem_of_nil in He.
Qed.

Lemma dominated_kernel si sj v :
  kernel_at si sj = Ok v →
  dominated (tracked si) (tracked sj) ↔ (gaussian_scene.amp si <= v)%R.
Proof.
  unfold kernel_at, gaussian_scene.f_gaussian, div, dominated.
  case_decide; [done |]. cbn [mbind result_bind tracked amp x y var].
  intros [= <-].
  replace ((gaussian_scene.x si - gaussian_scene.x sj)
           * (gaussian_scene.x si - gaussian_scene.x sj)
           + (gaussian_scene.y si - gaussian_scene.y sj)
             * (gaussian_scene.y si - gaussian_scene.y sj))%R
    with ((gaussian_scene.x si - gaussian_scene.x sj) ^ 2
          + (gaussian_scene.y si - gaussian_scene.y sj) ^ 2)%R by ring.
  done.
Qed.

Lemma elem_of_concat_lists {A} (ls : list (list A)) a :
  a ∈ concat ls ↔ ∃ l, l ∈ ls ∧ a ∈ l.
Proof.
  induction ls as [| l ls IH]; cbn.
  - split; [by intros ?%elem_of_nil | by intros (? & ?%elem_of_nil & _)].
  - rewrite elem_of_app, IH. split.
    + intros [Ha | (l' & Hl' & Ha)].
      * exists l. split; [left | done].
      * exists l'. split; [by right | done].
    + intros (l' & [-> | Hl']%elem_of_cons & Ha); [by left |].
      right. by exists l'.
Qed.

Lemma cluster_of scene si :
  NoDup (gaussian_scene.id <$> gaussian_scene.gaussians scene) →
  si ∈ gaussian_scene.gaussians scene →
  ∃ cl k ms,
    umbrella_clusters_with_roots (gcopy scene) = Ok (cl, values cl)
    ∧ (k, ms) ∈ cl ∧ k ∈ ms ∧ NoDup ms
    ∧ ∀ b, b ∈ ms ↔
        ∃ sj, sj ∈ gaussian_scene.gaussians scene
              ∧ gaussian_scene.id sj = b
              ∧ connected (gcopy scene) (tracked si) (tracked sj).
Proof.
  intros Hnd Hsi. rewrite <- gcopy_ids in Hnd.
  destruct (clusters_partition_facts (gcopy scene) Hnd)
    as (cl & Hcl & _ & Hcover & Hne & _).
  destruct (clusters_class (gcopy scene) Hnd) as (cl' & Hcl' & Hclass).
  assert (cl' = cl) as -> by congruence.
  assert (Hin : gaussian_scene.id si ∈ concat (values cl)).
  { rewrite Hcover, gcopy_ids. by apply list_elem_of_fmap_2. }
  apply elem_of_concat_lists in Hin as (ms & Hvals & Hms).
  apply list_elem_of_fmap in Hvals as ([k ms'] & -> & Hk). cbn in Hms.
  destruct (Hclass k ms' Hk) as (Hnd' & _ & _ & Hiff).
  exists cl, k, ms'. split; [done |]. split; [done |].
  split; [by apply (Hne k ms') |]. split; [done |].
  intros b.
  rewrite (Hiff (tracked si)); [| rewrite gcopy_tracked; by apply list_elem_of_fmap_2 | done].
  split.
  - intros (g' & Hg' & <- & Hc).
    rewrite gcopy_tracked in Hg'.
    apply list_elem_of_fmap in Hg' as (sj & -> & Hsj). by exists sj.
  - intros (sj & Hsj & <- & Hc). exists (tracked sj).
    split; [rewrite gcopy_tracked; by apply list_elem_of_fmap_2 |]. done.
Qed.

End step_proofs.

(** ** Properties of the tracking steps *)

Section step_properties.
Import umbrella_tracker.

(** A tracking step on a storage that accepts writes succeeds.  The
    clustering it computed becomes the previous clustering of the scene,
    the snapshot of the timestep can be read back from the output
    directory and holds that clustering under its roots, and no other
    snapshot is touched. *)
Theorem snapshot_round_trip scene fs d t :
  read_only fs = false →
  ∃ cl evs fs' m,
    umbrella_clusters_with_roots (gcopy scene) = Ok (cl, values cl)
    ∧ update_umbrella_tracking scene fs d t
      = (Ok (set_prev_clusters scene cl, evs), fs')
    ∧ d ∈ dirs fs'
    ∧ files fs' !! (d, t) = Some m
    ∧ timestep m = t ∧ clusters m = cl ∧ curr_root_ids m = keys cl
    ∧ ∀ d' t', (d', t') ≠ (d, t) →
        files fs' !! (d', t') = files fs !! (d', t').
Proof.
  intros Hrw.
  destruct (update_umbrella_tracking_writable scene fs d t Hrw)
    as (cl & Hcl & Hup).
  eexists cl, _, _, _. split; [exact Hcl |]. split; [exact Hup |].
  cbn. split; [set_solver |]. split; [apply lookup_insert_eq |].
  do 3 (split; [done |]).
  intros d' t' Hne. by rewrite lookup_insert_ne.
Qed.

Lemma snapshot_round_trip_witness :
  read_only empty_disk = false
  ∧ ∃ cl evs fs' m,
      umbrella_clusters_with_roots (gcopy one_source_scene)
      = Ok (cl, values cl)
      ∧ update_umbrella_tracking one_source_scene empty_disk
          "umbrella_output" 0
        = (Ok (set_prev_clusters one_source_scene cl, evs), fs')
      ∧ "umbrella_output" ∈ dirs fs'
      ∧ files fs' !! ("umbrella_output", 0%Z) = Some m
      ∧ timestep m = 0%Z ∧ clusters m = cl ∧ curr_root_ids m = keys cl
      ∧ ∀ d' t', (d', t') ≠ ("umbrella_output", 0%Z) →
          files fs' !! (d', t') = files empty_disk !! (d', t').
Proof.
  split; [reflexivity |].
  exact (snapshot_round_trip one_source_scene empty_disk "umbrella_output" 0
           eq_refl).
Defined.

(** The first tracking step of a scene, which has no previous clustering
    to compare with, reports one birth for every cluster, in the order of
    the roots, and nothing else; its snapshot has an empty correspondence
    matrix and no previous roots. *)
Theorem first_step_births scene fs d t :
  gaussian_scene._prev_clusters scene = None →
  read_only fs = false →
  ∃ cl fs' m,
    umbrella_clusters_with_roots (gcopy scene) = Ok (cl, values cl)
    ∧ update_umbrella_tracking scene fs d t
      = (Ok (set_prev_clusters scene cl, first_birth t <$> keys cl), fs')
    ∧ files fs' !! (d, t) = Some m
    ∧ correspondence_matrix m = [] ∧ prev_root_ids m = [].
Proof.
  intros Hprev Hrw.
  destruct (update_umbrella_tracking_writable scene fs d t Hrw)
    as (cl & Hcl & Hup).
  rewrite Hprev in Hup.
  eexists cl, _, _. split; [exact Hcl |]. split; [exact Hup |].
  cbn. split; [apply lookup_insert_eq |]. done.
Qed.

Lemma first_step_births_witness :
  gaussian_scene._prev_clusters one_source_scene = None
  ∧ read_only empty_disk = false
  ∧ ∃ cl fs' m,
      umbrella_clusters_with_roots (gcopy one_source_scene)
      = Ok (cl, values cl)
      ∧ update_umbrella_tracking one_source_scene empty_disk
          "umbrella_output" 0
        = (Ok (set_prev_clusters one_source_scene cl,
               first_birth 0 <$> keys cl), fs')
      ∧ files fs' !! ("umbrella_output", 0%Z) = Some m
      ∧ correspondence_matrix m = [] ∧ prev_root_ids m = [].
Proof.
  split; [reflexivity |]. split; [reflexivity |].
  exact (first_step_births one_source_scene empty_disk "umbrella_output" 0
           eq_refl eq_refl).
Defined.

(** Two tracking steps in a row on a scene whose sources have distinct
    ids and did not change in between: the second step reports no event
    and leaves the previous clustering as the first step set it. *)
Theorem steady_scene_no_events scene fs d t t' :
  NoDup (gaussian_scene.id <$> gaussian_scene.gaussians scene) →
  read_only fs = false →
  ∃ scene1 evs fs1 fs2,
    update_umbrella_tracking scene fs d t = (Ok (scene1, evs), fs1)
    ∧ update_umbrella_tracking scene1 fs1 d t' = (Ok (scene1, []), fs2).
Proof.
  intros Hnd Hrw.
  destruct (update_umbrella_tracking_writable scene fs d t Hrw)
    as (cl & Hcl & Hup).
  eexists _, _, _, _. split; [exact Hup |].
  set (scene1 := set_prev_clusters scene cl).
  destruct (update_umbrella_tracking_writable scene1
              (stored fs d t
                 (snapshot_of (gaussian_scene._prev_clusters scene) cl t))
              d t' Hrw) as (cl' & Hcl' & Hup').
  assert (cl' = cl) as -> by (change (gcopy scene1) with (gcopy scene) in Hcl'; congruence).
  rewrite Hup'. f_equal. f_equal.
  change (gaussian_scene._prev_clusters scene1) with (Some cl).
  rewrite <- gcopy_ids in Hnd.
  destruct (clusters_partition_facts (gcopy scene) Hnd)
    as (cl'' & Hcl'' & Hkeys & _ & Hne & Hdis).
  assert (cl'' = cl) as -> by congruence.
  by rewrite events_of_self.
Qed.

Lemma steady_scene_no_events_witness :
  NoDup (gaussian_scene.id <$> gaussian_scene.gaussians one_source_scene)
  ∧ read_only empty_disk = false
  ∧ ∃ scene1 evs fs1 fs2,
      update_umbrella_tracking one_source_scene empty_disk
        "umbrella_output" 0 = (Ok (scene1, evs), fs1)
      ∧ update_umbrella_tracking scene1 fs1 "umbrella_output" 1
        = (Ok (scene1, []), fs2).
Proof.
  assert (Hnd : NoDup (gaussian_scene.id
                         <$> gaussian_scene.gaussians one_source_scene))
    by (repeat constructor; by apply not_elem_of_nil).
  split; [exact Hnd |]. split; [reflexivity |].
  exact (steady_scene_no_events one_source_scene empty_disk
           "umbrella_output" 0 1 Hnd eq_refl).
Defined.

(** The umbrella: a source whose amplitude does not exceed the value that
    the Gaussian kernel of another source takes at its position lies in
    the same cluster as that source. *)
Theorem umbrella_joins_clusters scene si sj v :
  NoDup (gaussian_scene.id <$> gaussian_scene.gaussians scene) →
  si ∈ gaussian_scene.gaussians scene →
  sj ∈ gaussian_scene.gaussians scene →
  kernel_at si sj = Ok v → (gaussian_scene.amp si <= v)%R →
  ∃ cl k ms,
    umbrella_clusters_with_roots (gcopy scene) = Ok (cl, values cl)
    ∧ (k, ms) ∈ cl
    ∧ gaussian_scene.id si ∈ ms ∧ gaussian_scene.id sj ∈ ms.
Proof.
  intros Hnd Hsi Hsj Hk Hle.
  destruct (cluster_of scene si Hnd Hsi)
    as (cl & k & ms & Hcl & Hin & _ & _ & Hiff).
  exists cl, k, ms. split; [done |]. split; [done |]. split.
  - apply Hiff. exists si. split; [done |]. split; [done |].
    apply rtc_refl.
  - apply Hiff. exists sj. split; [done |]. split; [done |].
    apply rtsc_lr. rewrite gcopy_tracked.
    split; [by apply list_elem_of_fmap_2 |].
    split; [by apply list_elem_of_fmap_2 |].
    by apply (dominated_kernel si sj v).
Qed.

Lemma umbrella_joins_clusters_witness :
  NoDup (gaussian_scene.id
           <$> gaussian_scene.gaussians (scene_of [bump 1 0 1; bump 2 0 2]))
  ∧ bump 1 0 1 ∈ gaussian_scene.gaussians (scene_of [bump 1 0 1; bump 2 0 2])
  ∧ bump 2 0 2 ∈ gaussian_scene.gaussians (scene_of [bump 1 0 1; bump 2 0 2])
  ∧ kernel_at (bump 1 0 1) (bump 2 0 2) = Ok (2 * exp (- 0 / 8))%R
  ∧ (gaussian_scene.amp (bump 1 0 1) <= 2 * exp (- 0 / 8))%R
  ∧ ∃ cl k ms,
      umbrella_clusters_with_roots
        (gcopy (scene_of [bump 1 0 1; bump 2 0 2])) = Ok (cl, values cl)
      ∧ (k, ms) ∈ cl
      ∧ gaussian_scene.id (bump 1 0 1) ∈ ms
      ∧ gaussian_scene.id (bump 2 0 2) ∈ ms.
Proof.
  assert (Hnd : NoDup (gaussian_scene.id
                         <$> gaussian_scene.gaussians
                               (scene_of [bump 1 0 1; bump 2 0 2]))).
  { cbn. apply NoDup_cons. split; [| apply NoDup_singleton].
    rewrite list_elem_of_singleton. lia. }
  assert (H1 : bump 1 0 1
               ∈ gaussian_scene.gaussians (scene_of [bump 1 0 1; bump 2 0 2]))
    by (cbn; left).
  assert (H2 : bump 2 0 2
               ∈ gaussian_scene.gaussians (scene_of [bump 1 0 1; bump 2 0 2]))
    by (cbn; right; left).
  assert (Hk : kernel_at (bump 1 0 1) (bump 2 0 2) = Ok (2 * exp (- 0 / 8))%R).
  { unfold kernel_at, gaussian_scene.f_gaussian. cbn.
    rewrite div_Ok by lra. cbn. do 3 f_equal. lra. }
  assert (Hle : (gaussian_scene.amp (bump 1 0 1) <= 2 * exp (- 0 / 8))%R).
  { cbn. replace (- 0 / 8)%R with 0%R by lra. rewrite exp_0. lra. }
  split; [exact Hnd |]. split; [exact H1 |]. split; [exact H2 |].
  split; [exact Hk |]. split; [exact Hle |].
  exact (umbrella_joins_clusters _ _ _ _ Hnd H1 H2 Hk Hle).
Defined.

(** A source that rises above the Gaussian kernel of every other source
    at its own position, and whose own kernel stays below every other
    source at that source's position, is a cluster of its own, filed
    under its own id. *)
Theorem isolated_source_alone scene si :
  NoDup (gaussian_scene.id <$> gaussian_scene.gaussians scene) →
  si ∈ gaussian_scene.gaussians scene →
  (∀ sj, sj ∈ gaussian_scene.gaussians scene → sj ≠ si →
     ∃ v w, kernel_at si sj = Ok v ∧ (v < gaussian_scene.amp si)%R
            ∧ kernel_at sj si = Ok w ∧ (w < gaussian_scene.amp sj)%R) →
  ∃ cl,
    umbrella_clusters_with_roots (gcopy scene) = Ok (cl, values cl)
    ∧ (gaussian_scene.id si, [gaussian_scene.id si]) ∈ cl.
Proof.
  intros Hnd Hsi Hiso.
  destruct (cluster_of scene si Hnd Hsi)
    as (cl & k & ms & Hcl & Hin & Hk & Hndms & Hiff).
  exists cl. split; [done |].
  assert (Hstay : ∀ a b, connected (gcopy scene) a b →
                         a = tracked si → b = tracked si).
  { intros a b Hc. induction Hc as [| a z b Hstep _ IH]; [done |].
    intros ->. apply IH. clear IH.
    assert (Hz : z ∈ gcopy scene) by (destruct Hstep as [(_ & ? & _) | (? & _)]; done).
    rewrite gcopy_tracked in Hz.
    apply list_elem_of_fmap in Hz as (sj & -> & Hsj).
    destruct (Classical_Prop.classic (sj = si)) as [-> | Hne]; [done |].
    destruct (Hiso sj Hsj Hne) as (v & w & Hv & Hlt & Hw & Hlt').
    destruct Hstep as [(_ & _ & Hd) | (_ & _ & Hd)].
    - apply (dominated_kernel si sj v Hv) in Hd. lra.
    - apply (dominated_kernel sj si w Hw) in Hd. lra. }
  assert (Hms : ms = [gaussian_scene.id si]).
  { apply NoDup_only; [done |]. intros b. rewrite Hiff. split.
    - intros (sj & _ & <- & Hc).
      pose proof (Hstay _ _ Hc eq_refl) as Heq. by injection Heq.
    - intros ->. exists si. split; [done |]. split; [done |]. apply rtc_refl. }
  subst ms. apply list_elem_of_singleton in Hk as ->. done.
Qed.

Lemma isolated_source_alone_witness :
  NoDup (gaussian_scene.id
           <$> gaussian_scene.gaussians (scene_of [bump 1 0 1; bump 2 4 2]))
  ∧ bump 1 0 1 ∈ gaussian_scene.gaussians (scene_of [bump 1 0 1; bump 2 4 2])
  ∧ (∀ sj, sj ∈ gaussian_scene.gaussians (scene_of [bump 1 0 1; bump 2 4 2]) →
       sj ≠ bump 1 0 1 →
       ∃ v w, kernel_at (bump 1 0 1) sj = Ok v
              ∧ (v < gaussian_scene.amp (bump 1 0 1))%R
              ∧ kernel_at sj (bump 1 0 1) = Ok w
              ∧ (w < gaussian_scene.amp sj)%R)
  ∧ ∃ cl,
      umbrella_clusters_with_roots
        (gcopy (scene_of [bump 1 0 1; bump 2 4 2])) = Ok (cl, values cl)
      ∧ (gaussian_scene.id (bump 1 0 1), [gaussian_scene.id (bump 1 0 1)])
        ∈ cl.
Proof.
  assert (Hnd : NoDup (gaussian_scene.id
                         <$> gaussian_scene.gaussians
                               (scene_of [bump 1 0 1; bump 2 4 2]))).
  { cbn. apply NoDup_cons. split; [| apply NoDup_singleton].
    rewrite list_elem_of_singleton. lia. }
  assert (H1 : bump 1 0 1
               ∈ gaussian_scene.gaussians (scene_of [bump 1 0 1; bump 2 4 2]))
    by (cbn; left).
  assert (Hiso : ∀ sj,
            sj ∈ gaussian_scene.gaussians (scene_of [bump 1 0 1; bump 2 4 2]) →
            sj ≠ bump 1 0 1 →
            ∃ v w, kernel_at (bump 1 0 1) sj = Ok v
                   ∧ (v < gaussian_scene.amp (bump 1 0 1))%R
                   ∧ kernel_at sj (bump 1 0 1) = Ok w
                   ∧ (w < gaussian_scene.amp sj)%R).
  { intros sj Hsj Hne. cbn in Hsj.
    apply elem_of_cons in Hsj as [-> | Hsj]; [done |].
    apply list_elem_of_singleton in Hsj as ->.
    exists (2 * exp (-2))%R, (1 * exp (-2))%R.
    pose proof exp_minus_2 as He.
    unfold kernel_at, gaussian_scene.f_gaussian. cbn.
    rewrite !div_Ok by lra. cbn.
    split; [do 3 f_equal; lra |]. split; [lra |].
    split; [do 3 f_equal; lra |]. lra. }
  split; [exact Hnd |]. split; [exact H1 |]. split; [exact Hiso |].
  exact (isolated_source_alone _ _ Hnd H1 Hiso).
Defined.

End step_properties.

(** * Noisy images *)

Section noisy_properties.
Import noises.
Context (float32 : R → R) (rng : Type).
Context (randint : rng → Z → Z → Z → list Z * rng).
Context (normal uniform laplace :
           rng → R → R → nat * nat → (nat → nat → R) * rng).
Context (uniform1 : rng → R → R → R * rng).
Context (randn : rng → nat * nat → (nat → nat → R) * rng).
Context (poisson : rng → list (list R) → (nat → nat → R) * rng).
Context (pnoise2 : R → R → Z → Z → R).
(** [np.random.randint(lo, hi, n)] draws from [[lo, hi)]. *)
Hypothesis randint_range : ∀ g lo hi n,
  (lo < hi)%Z → Forall (λ v, lo ≤ v < hi)%Z (randint g lo hi n).1.
Context (h w : nat) (Hh : 0 < h) (Hw : 0 < w).

Local Abbreviation apply_noise :=
  (apply_noise_to_scalar_field float32 rng randint normal uniform uniform1
     laplace randn poisson pnoise2).
Local Abbreviation spec :=
  (apply_noise_spec float32 rng randint normal uniform laplace uniform1
     randn poisson pnoise2 randint_range h w Hh Hw).

(** With an amount that is not negative no noise type raises, and the
    noisy image has the dimensions, the spacing and the array shape of
    the image it was made from. *)
Theorem noise_keeps_geometry g img noise_type amount :
  rectangular h w (vtk.scalars img) → (0 <= amount)%R →
  ∃ img' g',
    apply_noise g img noise_type amount = Ok (img', g')
    ∧ fdims img' = vtk.dims img
    ∧ fspacing img' = vtk.img_spacing img
    ∧ has_shape h w (fscalars img').
Proof.
  intros Hrect Hamount.
  destruct (decide (noise_type = "None")) as [-> | Hnone].
  { eexists _, _. split; [reflexivity |]. split; [done |]. split; [done |].
    exact Hrect. }
  destruct (spec g img noise_type amount Hrect Hnone ltac:(by left))
    as (lo & hi & out & g' & _ & _ & _ & _ & _ & Happ & Hout).
  exists (noised img out), g'. split; [done |]. split; [done |].
  split; [done |]. cbn [noised fscalars].
  destruct Hout as [(_ & _ & ->) | (_ & noisy & Hnoisy & -> & _)]; [done |].
  cbn. by apply rectangular_elementwise, rectangular_clip,
    rectangular_elementwise.
Qed.



(** A noise type that is neither ["None"] nor one of the ten known types
    draws nothing and raises nothing, whatever the amount: every value
    makes the round trip through the normalisation.  The round trip
    keeps every value between the least and the greatest
    single-precision value of the image, keeps the least value as it is
    and keeps the order of the values. *)
Theorem unknown_noise_type_round_trip g img noise_type amount :
  rounding float32 →
  rectangular h w (vtk.scalars img) →
  noise_type ∉ "None" :: noise_names →
  ∃ lo hi,
    field_min (elementwise float32 (vtk.scalars img)) = Ok lo
    ∧ field_max (elementwise float32 (vtk.scalars img)) = Ok hi
    ∧ apply_noise g img noise_type amount
      = Ok (noised img (array (round_trip float32 lo hi (vtk.scalars img))),
            g)
    ∧ (∀ v, v ∈ concat (vtk.scalars img) →
         lo <= round_trip1 float32 lo hi v <= hi)%R
    ∧ (∀ v, v ∈ concat (vtk.scalars img) → float32 v = lo →
         round_trip1 float32 lo hi v = lo)
    ∧ (∀ u v, u <= v →
         round_trip1 float32 lo hi u <= round_trip1 float32 lo hi v)%R.
Proof.
  intros Hround Hrect Hout.
  assert (Hnone : noise_type ≠ "None").
  { intros ->. apply Hout. by left. }
  assert (Hunknown : noise_type ∉ noise_names).
  { intros Hin. apply Hout. by right. }
  destruct (spec g img noise_type amount Hrect Hnone ltac:(by right))
    as (lo & hi & out & g' & Hlo & Hhi & Hlo_in & Hhi_in & Hbounds & Happ
        & Hres).
  destruct Hres as [(-> & _) | (_ & noisy & _ & -> & Hid & _)].
  { exfalso. apply Hunknown. named. }
  destruct (Hid Hunknown) as [-> ->].
  assert (lo <= hi)%R as Hle by (by apply Hbounds).
  assert (Hfix : ∀ u, u ∈ concat (elementwise float32 (vtk.scalars img)) →
            float32 u = u).
  { intros u (i & j & Hu)%elem_of_entry. rewrite entry_elementwise in Hu.
    destruct (entry (vtk.scalars img) i j) as [v |]; [| done].
    injection Hu as <-. apply Hround. }
  exists lo, hi. split; [done |]. split; [done |]. split.
  - rewrite Happ. do 3 f_equal.
    enough (elementwise float32
              (restored lo hi
                 (normalised lo hi (elementwise float32 (vtk.scalars img))))
            = round_trip float32 lo hi (vtk.scalars img)) as -> by done.
    apply (entry_ext h w).
    + by apply rectangular_elementwise, rectangular_clip,
        rectangular_elementwise, rectangular_elementwise,
        rectangular_elementwise.
    + by apply rectangular_elementwise.
    + intros i j _ _. apply entry_round_trip.
  - split; [| split].
    + intros v Hv. unfold round_trip1.
      pose proof (clip1_within lo hi
                    ((float32 v - lo) / (hi - lo + 1 / 10 ^ 8) * (hi - lo)
                     + lo) Hle) as [H1 H2].
      destruct Hround as [Hmono _].
      apply Hmono in H1, H2.
      rewrite (Hfix lo Hlo_in) in H1. rewrite (Hfix hi Hhi_in) in H2. done.
    + intros v _ Hv. apply round_trip1_least; [done | done |].
      by apply Hfix.
    + intros u v Huv. by apply round_trip1_mono.
Qed.

(** Salt and pepper write the extremes of the converted image: after salt
    noise a value is the greatest single-precision value of the image or
    what the round trip makes of the value that was there; after pepper
    noise it is the least value or that; after salt-and-pepper noise the
    greatest, the least or that. *)
Theorem impulse_noise_writes_extremes g img noise_type amount :
  rounding float32 →
  rectangular h w (vtk.scalars img) → (0 <= amount)%R →
  noise_type ∈ ["Salt"; "Pepper"; "Salt and Pepper"] →
  ∃ f' g' lo hi,
    apply_noise g img noise_type amount = Ok (noised img (array f'), g')
    ∧ field_min (elementwise float32 (vtk.scalars img)) = Ok lo
    ∧ field_max (elementwise float32 (vtk.scalars img)) = Ok hi
    ∧ ∀ i j v, entry (vtk.scalars img) i j = Some v →
        ∃ v', entry f' i j = Some v'
              ∧ (v' = round_trip1 float32 lo hi v
                 ∨ (v' = hi ∧ noise_type ≠ "Pepper")
                 ∨ (v' = lo ∧ noise_type ≠ "Salt")).
Proof.
  intros [_ Hidem] Hrect Hamount Htype.
  assert (Hnone : noise_type ≠ "None").
  { intros ->. repeat (apply elem_of_cons in Htype as [[=] | Htype]).
    by apply elem_of_nil in Htype. }
  destruct (spec g img noise_type amount Hrect Hnone ltac:(by left))
    as (lo & hi & out & g' & Hlo & Hhi & Hlo_in & Hhi_in & Hbounds & Happ
        & Hres).
  destruct Hres as [(-> & _) | (_ & noisy & Hnoisy & -> & _ & Hsalt
                                 & Hpepper & Hboth)].
  { repeat (apply elem_of_cons in Htype as [[=] | Htype]).
    by apply elem_of_nil in Htype. }
  assert (lo <= hi)%R as Hle by (by apply Hbounds).
  assert (Hfix : ∀ u, u ∈ concat (elementwise float32 (vtk.scalars img)) →
            float32 u = u).
  { intros u (i & j & Hu)%elem_of_entry. rewrite entry_elementwise in Hu.
    destruct (entry (vtk.scalars img) i j) as [v |]; [| done].
    injection Hu as <-. apply Hidem. }
  exists (elementwise float32 (restored lo hi noisy)), g', lo, hi.
  split; [done |]. split; [done |]. split; [done |].
  intros i j v Hv.
  assert (Hkept : entry noisy i j
                  = entry (normalised lo hi
                             (elementwise float32 (vtk.scalars img))) i j →
            entry (elementwise float32 (restored lo hi noisy)) i j
            = Some (round_trip1 float32 lo hi v)).
  { intros Heq. rewrite entry_elementwise, entry_restored, Heq.
    unfold normalised. by rewrite !entry_elementwise, Hv. }
  assert (Hone : entry noisy i j = Some 1%R →
            entry (elementwise float32 (restored lo hi noisy)) i j
            = Some hi).
  { intros Heq. rewrite entry_elementwise, entry_restored, Heq. cbn.
    by rewrite restored_one, Hfix. }
  assert (Hzero : entry noisy i j = Some 0%R →
            entry (elementwise float32 (restored lo hi noisy)) i j
            = Some lo).
  { intros Heq. rewrite entry_elementwise, entry_restored, Heq. cbn.
    by rewrite restored_zero, Hfix. }
  apply elem_of_cons in Htype as [-> | Htype];
    [| apply elem_of_cons in Htype as [-> | Htype];
       [| apply list_elem_of_singleton in Htype as ->]].
  - destruct (Hsalt eq_refl i j) as [Heq | Heq].
    + rewrite (Hkept Heq). eexists. split; [done |]. by left.
    + rewrite (Hone Heq). eexists. split; [done |]. right; left. by split.
  - destruct (Hpepper eq_refl i j) as [Heq | Heq].
    + rewrite (Hkept Heq). eexists. split; [done |]. by left.
    + rewrite (Hzero Heq). eexists. split; [done |]. right; right. by split.
  - destruct (Hboth eq_refl i j) as [Heq | [Heq | Heq]].
    + rewrite (Hkept Heq). eexists. split; [done |]. by left.
    + rewrite (Hone Heq). eexists. split; [done |]. right; left. by split.
    + rewrite (Hzero Heq). eexists. split; [done |]. right; right. by split.
Qed.

(** An image that holds one value everywhere comes back from every noise
    type with that value converted to single precision in every point,
    provided the amount is not negative and the values that the Perlin
    noise stores are not all equal. *)
Theorem noise_leaves_flat_image g img noise_type amount c :
  rounding float32 →
  rectangular h w (vtk.scalars img) →
  (∀ v, v ∈ concat (vtk.scalars img) → v = c) →
  (0 <= amount)%R → noise_type ≠ "None" →
  ¬ (noise_type = "Perlin" ∧ perlin_flat float32 pnoise2 h w) →
  ∃ g',
    apply_noise g img noise_type amount
    = Ok (noised img (array (elementwise float32 (vtk.scalars img))), g').
Proof.
  intros [_ Hidem] Hrect Hflat Hamount Hnone Hperlin.
  destruct (spec g img noise_type amount Hrect Hnone ltac:(by left))
    as (lo & hi & out & g' & Hlo & Hhi & Hlo_in & Hhi_in & Hbounds & Happ
        & Hres).
  destruct Hres as [(HP & HF & _) | (_ & noisy & Hnoisy & -> & _)];
    [by destruct Hperlin |].
  assert (Hcast : ∀ u, u ∈ concat (elementwise float32 (vtk.scalars img)) →
            u = float32 c).
  { intros u (i & j & Hu)%elem_of_entry. rewrite entry_elementwise in Hu.
    destruct (entry (vtk.scalars img) i j) as [v |] eqn:Hv; [| done].
    injection Hu as <-. f_equal. by eapply Hflat, entry_elem_of. }
  apply Hcast in Hlo_in, Hhi_in. subst lo hi.
  exists g'. rewrite Happ.
  enough (elementwise float32 (restored (float32 c) (float32 c) noisy)
          = elementwise float32 (vtk.scalars img)) as -> by done.
  apply (entry_ext h w).
  - by apply rectangular_elementwise, rectangular_clip,
      rectangular_elementwise.
  - by apply rectangular_elementwise.
  - intros i j Hi Hj.
    rewrite !entry_elementwise, entry_restored.
    destruct (rectangular_entry h w noisy i j Hnoisy Hi Hj) as [x ->].
    destruct (rectangular_entry h w _ i j Hrect Hi Hj) as [v Hv].
    rewrite Hv. cbn. f_equal.
    rewrite (Hflat v) by (by eapply entry_elem_of).
    replace (x * (float32 c - float32 c) + float32 c)%R with (float32 c)
      by ring.
    unfold clip1. rewrite Rmax_left by lra. rewrite Rmin_left by lra.
    apply Hidem.
Qed.

End noisy_properties.

Section noisy_witnesses.
Import noises.

Lemma ramp_noise_rough : ¬ perlin_flat (λ v, v) ramp_noise 1 2.
Proof.
  intros Hflat. specialize (Hflat 0 1 ltac:(lia) ltac:(lia)).
  unfold perlin_value, ramp_noise in Hflat. simpl in Hflat. lra.
Qed.

Lemma level_image_rectangular : rectangular 1 2 (vtk.scalars level_image).
Proof. split; [done |]. by repeat constructor. Qed.

Lemma noise_keeps_geometry_witness :
  (∀ g lo hi n, (lo < hi)%Z →
     Forall (λ v, lo ≤ v < hi)%Z (low_randint g lo hi n).1)
  ∧ 0 < 1 ∧ 0 < 2 ∧ rectangular 1 2 (vtk.scalars step_image)
  ∧ (0 <= 1 / 2)%R
  ∧ ∃ img' g',
      quiet_noise step_image "Salt" (1 / 2) = Ok (img', g')
      ∧ fdims img' = vtk.dims step_image
      ∧ fspacing img' = vtk.img_spacing step_image
      ∧ has_shape 1 2 (fscalars img').
Proof.
  assert (Ha : (0 <= 1 / 2)%R) by lra.
  split; [exact low_randint_range |]. split; [lia |]. split; [lia |].
  split; [exact step_image_rectangular |]. split; [exact Ha |].
  exact (noise_keeps_geometry (λ v, v) unit low_randint
           (λ g _ _ _, zero_array g) (λ g _ _ _, zero_array g)
           (λ g _ _ _, zero_array g) (λ g _ _, (0%R, g))
           (λ g _, zero_array g) (λ g _, zero_array g) ramp_noise
           low_randint_range 1 2 ltac:(lia) ltac:(lia)
           tt step_image "Salt" (1 / 2) step_image_rectangular Ha).
Defined.



Lemma unknown_noise_type_round_trip_witness :
  (∀ g lo hi n, (lo < hi)%Z →
     Forall (λ v, lo ≤ v < hi)%Z (low_randint g lo hi n).1)
  ∧ 0 < 1 ∧ 0 < 2 ∧ rounding (λ v, v)
  ∧ rectangular 1 2 (vtk.scalars step_image)
  ∧ ("Blur" ∉ "None" :: noise_names)
  ∧ ∃ lo hi,
      field_min (elementwise (λ v, v) (vtk.scalars step_image)) = Ok lo
      ∧ field_max (elementwise (λ v, v) (vtk.scalars step_image)) = Ok hi
      ∧ quiet_noise step_image "Blur" (1 / 2)
        = Ok (noised step_image
                (array (round_trip (λ v, v) lo hi (vtk.scalars step_image))),
              tt)
      ∧ (∀ v, v ∈ concat (vtk.scalars step_image) →
           lo <= round_trip1 (λ v, v) lo hi v <= hi)%R
      ∧ (∀ v, v ∈ concat (vtk.scalars step_image) → v = lo →
           round_trip1 (λ v, v) lo hi v = lo)
      ∧ (∀ u v, u <= v →
           round_trip1 (λ v, v) lo hi u <= round_trip1 (λ v, v) lo hi v)%R.
Proof.
  assert (Hout : "Blur" ∉ "None" :: noise_names).
  { unfold noise_names. intros Hin.
    repeat (apply elem_of_cons in Hin as [[=] | Hin]).
    by apply elem_of_nil in Hin. }
  split; [exact low_randint_range |]. split; [lia |]. split; [lia |].
  split; [exact rounding_id |].
  split; [exact step_image_rectangular |]. split; [exact Hout |].
  exact (unknown_noise_type_round_trip (λ v, v) unit low_randint
           (λ g _ _ _, zero_array g) (λ g _ _ _, zero_array g)
           (λ g _ _ _, zero_array g) (λ g _ _, (0%R, g))
           (λ g _, zero_array g) (λ g _, zero_array g) ramp_noise
           low_randint_range 1 2 ltac:(lia) ltac:(lia)
           tt step_image "Blur" (1 / 2) rounding_id
           step_image_rectangular Hout).
Defined.

Lemma impulse_noise_writes_extremes_witness :
  (∀ g lo hi n, (lo < hi)%Z →
     Forall (λ v, lo ≤ v < hi)%Z (low_randint g lo hi n).1)
  ∧ 0 < 1 ∧ 0 < 2 ∧ rounding (λ v, v)
  ∧ rectangular 1 2 (vtk.scalars step_image) ∧ (0 <= 1)%R
  ∧ "Salt and Pepper" ∈ ["Salt"; "Pepper"; "Salt and Pepper"]
  ∧ ∃ f' g' lo hi,
      quiet_noise step_image "Salt and Pepper" 1
      = Ok (noised step_image (array f'), g')
      ∧ field_min (elementwise (λ v, v) (vtk.scalars step_image)) = Ok lo
      ∧ field_max (elementwise (λ v, v) (vtk.scalars step_image)) = Ok hi
      ∧ ∀ i j v, entry (vtk.scalars step_image) i j = Some v →
          ∃ v', entry f' i j = Some v'
                ∧ (v' = round_trip1 (λ v, v) lo hi v
                   ∨ (v' = hi ∧ "Salt and Pepper" ≠ "Pepper")
                   ∨ (v' = lo ∧ "Salt and Pepper" ≠ "Salt")).
Proof.
  assert (Ha : (0 <= 1)%R) by lra.
  assert (Hin : "Salt and Pepper" ∈ ["Salt"; "Pepper"; "Salt and Pepper"])
    by (do 2 right; left).
  split; [exact low_randint_range |]. split; [lia |]. split; [lia |].
  split; [exact rounding_id |].
  split; [exact step_image_rectangular |]. split; [exact Ha |].
  split; [exact Hin |].
  exact (impulse_noise_writes_extremes (λ v, v) unit low_randint
           (λ g _ _ _, zero_array g) (λ g _ _ _, zero_array g)
           (λ g _ _ _, zero_array g) (λ g _ _, (0%R, g))
           (λ g _, zero_array g) (λ g _, zero_array g) ramp_noise
           low_randint_range 1 2 ltac:(lia) ltac:(lia)
           tt step_image "Salt and Pepper" 1 rounding_id
           step_image_rectangular Ha Hin).
Defined.

Lemma noise_leaves_flat_image_witness :
  (∀ g lo hi n, (lo < hi)%Z →
     Forall (λ v, lo ≤ v < hi)%Z (low_randint g lo hi n).1)
  ∧ 0 < 1 ∧ 0 < 2 ∧ rounding (λ v, v)
  ∧ rectangular 1 2 (vtk.scalars level_image)
  ∧ (∀ v, v ∈ concat (vtk.scalars level_image) → v = 3%R)
  ∧ (0 <= 1 / 2)%R ∧ "Perlin" ≠ "None"
  ∧ ¬ ("Perlin" = "Perlin" ∧ perlin_flat (λ v, v) ramp_noise 1 2)
  ∧ ∃ g',
      quiet_noise level_image "Perlin" (1 / 2)
      = Ok (noised level_image
              (array (elementwise (λ v, v) (vtk.scalars level_image))), g').
Proof.
  assert (Ha : (0 <= 1 / 2)%R) by lra.
  assert (Hnone : "Perlin" ≠ "None") by done.
  assert (Hrough : ¬ ("Perlin" = "Perlin"
                      ∧ perlin_flat (λ v, v) ramp_noise 1 2))
    by (intros [_ Hflat]; exact (ramp_noise_rough Hflat)).
  assert (Hflat : ∀ v, v ∈ concat (vtk.scalars level_image) → v = 3%R).
  { cbn. intros v Hv.
    repeat (apply elem_of_cons in Hv as [-> | Hv]; [done |]).
    by apply elem_of_nil in Hv. }
  split; [exact low_randint_range |]. split; [lia |]. split; [lia |].
  split; [exact rounding_id |].
  split; [exact level_image_rectangular |]. split; [exact Hflat |].
  split; [exact Ha |]. split; [exact Hnone |]. split; [exact Hrough |].
  exact (noise_leaves_flat_image (λ v, v) unit low_randint
           (λ g _ _ _, zero_array g) (λ g _ _ _, zero_array g)
           (λ g _ _ _, zero_array g) (λ g _ _, (0%R, g))
           (λ g _, zero_array g) (λ g _, zero_array g) ramp_noise
           low_randint_range 1 2 ltac:(lia) ltac:(lia)
           tt level_image "Perlin" (1 / 2) 3%R rounding_id
           level_image_rectangular Hflat Ha Hnone Hrough).
Defined.

End noisy_witnesses.

(** * The life of a scene *)

(** Case analysis on the first call of a sequence that is known to
    return. *)
Ltac returned :=
  repeat match goal with
         | |- (?m ≫= _) = Ok _ → _ =>
             destruct m; cbn [mbind result_bind]; [| done]
         | |- (let (_, _) := ?p in _) = Ok _ → _ => destruct p
         | |- (if decide ?P then _ else _) = Ok _ → _ => destruct (decide P)
         end.

Section life_proofs.
Import vtk gaussian_scene.

Lemma add_gaussian_inv self g x y amplitude variance self' g' returned :
  add_gaussian self g x y amplitude variance = Ok (self', g', returned) →
  ∃ new, gaussians self' = gaussians self ++ [new]
         ∧ id new = _next_id self
         ∧ _next_id self' = (_next_id self + 1)%Z.
Proof.
  unfold add_gaussian.
  destruct x as [xv |]; destruct y as [yv |];
    repeat match goal with
           | |- context [uniform ?a ?b ?g] => destruct (uniform a b g)
           end;
    destruct (sqrt variance); cbn [mbind result_bind]; try done;
    destruct (sqrt (variance / 10)); cbn [mbind result_bind]; try done;
    intros [= <- <- <-]; (eexists; split; [reflexivity | split; reflexivity]).
Qed.

Lemma custom_path_step_id self pi g pi' g' :
  custom_path_step self pi g = Ok (pi', g') → id g' = id g.
Proof.
  unfold custom_path_step.
  destruct (paths self !! id g) as [p |]; [| by intros [= <- <-]].
  returned; by intros [= <- <-].
Qed.

Lemma move_gaussians_by_custom_path_ids self self' :
  move_gaussians_by_custom_path self = Ok self' →
  id <$> gaussians self' = id <$> gaussians self
  ∧ _next_id self' = _next_id self.
Proof.
  unfold move_gaussians_by_custom_path.
  assert (Hloop : ∀ l pi moved pi' moved',
    for_ l (λ '(path_index, moved) g,
      '(path_index, g) ← custom_path_step self path_index g;
      Ok (path_index, moved ++ [g])) (pi, moved) = Ok (pi', moved') →
    id <$> moved' = (id <$> moved) ++ (id <$> l)).
  { induction l as [| g l IH]; intros pi moved pi' moved'; cbn [for_].
    - intros [= <- <-]. by rewrite app_nil_r.
    - destruct (custom_path_step self pi g) as [[pi1 g1] |] eqn:Hs;
        cbn [mbind result_bind]; [| done].
      intros Hrest.
      rewrite (IH _ _ _ _ Hrest), fmap_app. cbn.
      rewrite (custom_path_step_id _ _ _ _ _ Hs), <- app_assoc. done. }
  destruct (for_ _ _ _) as [[pi' moved'] |] eqn:Hfor;
    cbn [mbind result_bind]; [| done].
  intros [= <-]. cbn. split; [| done].
  by rewrite (Hloop _ _ _ _ _ Hfor).
Qed.

Lemma vector_field_step_id self vecs width height spacing speed g g' :
  vector_field_step self vecs width height spacing speed g = Ok g' →
  id g' = id g.
Proof.
  unfold vector_field_step. returned. by intros [= <-].
Qed.

Lemma move_gaussians_by_vector_field_ids self vector_field speed self' :
  move_gaussians_by_vector_field self vector_field speed = Ok self' →
  id <$> gaussians self' = id <$> gaussians self
  ∧ _next_id self' = _next_id self.
Proof.
  unfold move_gaussians_by_vector_field.
  destruct vector_field as [vf |]; [| by intros [= <-]].
  destruct (vectors vf) as [vecs |]; [| by intros [= <-]].
  cbv zeta.
  destruct (comprehension _ _) as [moved |] eqn:Hc;
    cbn [mbind result_bind]; [| done].
  intros [= <-]. cbn. split; [| done].
  apply comprehension_Forall2 in Hc.
  induction Hc as [| g g' l l' Hg _ IH]; [done |].
  cbn. by rewrite IH, (vector_field_step_id _ _ _ _ _ _ _ _ Hg).
Qed.

Lemma ids_in_order_ext self self' :
  id <$> gaussians self' = id <$> gaussians self →
  _next_id self' = _next_id self →
  ids_in_order self → ids_in_order self'.
Proof.
  intros Hids Hn [Hnd Hran]. unfold ids_in_order. rewrite Hids, Hn.
  split; [done |].
  apply (Forall_fmap id (λ k, 1 ≤ k < _next_id self)%Z).
  rewrite Hids. by apply Forall_fmap.
Qed.

End life_proofs.

(** ** Properties of the life of a scene *)

Section life_properties.
Import vtk gaussian_scene.

(** Whatever sequence of method calls made a scene, its sources carry
    distinct ids, all from 1 up to below the id the next source gets. *)
Theorem reachable_ids_in_order self :
  reachable self → ids_in_order self ∧ (1 ≤ _next_id self)%Z.
Proof.
  induction 1 as [w h | self w h space _ IH | self _ IH
                  | self g x y a v self' g' r _ IH Hadd
                  | self vf speed self' _ IH Hmove
                  | self self' _ IH Hmove].
  - split; [| cbn; lia]. split; [constructor | constructor].
  - exact IH.
  - split; [| cbn; lia]. split; [constructor | constructor].
  - destruct IH as [[Hnd Hran] Hnext].
    destruct (add_gaussian_inv _ _ _ _ _ _ _ _ _ Hadd)
      as (new & Hgs & Hid & Hn).
    split; [| lia]. unfold ids_in_order. rewrite Hgs, Hn, fmap_app. split.
    + apply NoDup_app. split; [done |]. split; [| apply NoDup_singleton].
      intros k Hk ->%list_elem_of_singleton.
      apply list_elem_of_fmap in Hk as (g0 & Hk & Hg0).
      pose proof (proj1 (Forall_forall _ _) Hran g0 Hg0). cbn in *. lia.
    + apply Forall_app. split.
      * eapply Forall_impl; [exact Hran |]. cbn. intros; lia.
      * repeat constructor; lia.
  - destruct IH as [Hord Hnext].
    destruct (move_gaussians_by_vector_field_ids _ _ _ _ Hmove) as [Hids Hn].
    split; [by apply (ids_in_order_ext self) | lia].
  - destruct IH as [Hord Hnext].
    destruct (move_gaussians_by_custom_path_ids _ _ Hmove) as [Hids Hn].
    split; [by apply (ids_in_order_ext self) | lia].
Qed.

Lemma reachable_ids_in_order_witness :
  reachable (with_sources (__init__ 200 200) [fresh 1 0 0 1 100])
  ∧ ids_in_order (with_sources (__init__ 200 200) [fresh 1 0 0 1 100])
  ∧ (1 ≤ _next_id (with_sources (__init__ 200 200) [fresh 1 0 0 1 100]))%Z.
Proof.
  assert (Hr : reachable
                 (with_sources (__init__ 200 200) [fresh 1 0 0 1 100])).
  { apply (reach_add (__init__ 200 200) steady_rng (Some 0%R) (Some 0%R)
             1 100 _ steady_rng None (reach_init 200 200)).
    apply (add_gaussian_at (__init__ 200 200)). lra. }
  split; [exact Hr |].
  exact (reachable_ids_in_order _ Hr).
Defined.

(** The image of a scene has twice as many points along each axis as the
    grid, half its spacing, and one scalar for every point. *)
Theorem image_geometry pnoise2 self :
  distribution_type self ∈ kernel_names →
  Forall positive_spread (gaussians self) →
  ∃ img,
    generate_image_data pnoise2 self = Ok img
    ∧ dims img = ((width self * 2)%Z, (height self * 2)%Z, 1%Z)
    ∧ img_spacing img
      = ((spacing self / 2)%R, (spacing self / 2)%R, 1%R)
    ∧ rectangular (Z.to_nat (height self * 2)) (Z.to_nat (width self * 2))
        (scalars img).
Proof.
  intros Hname Hpos.
  destruct (generate_image_data_point pnoise2 self Hname Hpos)
    as (img & dist_fn & Hdist & Himg & _).
  exists img. split; [done |].
  unfold generate_image_data in Himg. rewrite Hdist in Himg.
  cbn [mbind result_bind] in Himg.
  destruct (comprehension _ (range (height self * 2))) as [rows |] eqn:Hrows;
    cbn [mbind result_bind] in Himg; [| done].
  injection Himg as <-. cbn [dims img_spacing scalars].
  split; [done |]. split; [done |].
  apply comprehension_Forall2 in Hrows. split.
  - by rewrite <- (Forall2_length _ _ _ Hrows), length_range.
  - apply Forall_forall. intros row (n & Hn)%list_elem_of_lookup.
    destruct (Forall2_lookup_r _ _ _ _ _ Hrows Hn) as (j & _ & Hrow).
    apply comprehension_Forall2 in Hrow.
    by rewrite <- (Forall2_length _ _ _ Hrow), length_range.
Qed.

Lemma image_geometry_witness :
  distribution_type hat_scene ∈ kernel_names
  ∧ Forall positive_spread (gaussians hat_scene)
  ∧ ∃ img,
      generate_image_data None hat_scene = Ok img
      ∧ dims img = ((width hat_scene * 2)%Z, (height hat_scene * 2)%Z, 1%Z)
      ∧ img_spacing img
        = ((spacing hat_scene / 2)%R, (spacing hat_scene / 2)%R, 1%R)
      ∧ rectangular (Z.to_nat (height hat_scene * 2))
          (Z.to_nat (width hat_scene * 2)) (scalars img).
Proof.
  split; [exact hat_kernel_name |]. split; [exact hat_source_positive |].
  exact (image_geometry None hat_scene hat_kernel_name hat_source_positive).
Defined.

(** With the Gaussian kernel the field never leaves the range from 0 to
    the largest amplitude, and a source that sits on a grid point shows
    there with at least its full amplitude. *)
Theorem gaussian_field_bounds pnoise2 self A :
  distribution_type self = "Gaussian" →
  Forall positive_spread (gaussians self) →
  (0 <= A)%R → Forall (λ g, amp g <= A)%R (gaussians self) →
  ∃ img,
    generate_image_data pnoise2 self = Ok img
    ∧ ∀ i j, (Z.of_nat i < width self * 2)%Z →
             (Z.of_nat j < height self * 2)%Z →
        ∃ v, GetScalarComponentAsDouble img i j = Some v
             ∧ (0 <= v <= A)%R
             ∧ ∀ g, g ∈ gaussians self →
                 (g.(gaussian_scene.x), g.(gaussian_scene.y))
                 = grid_point self i j →
                 (amp g <= v)%R.
Proof.
  intros Hname Hpos HA Hamp.
  assert (Hin : distribution_type self ∈ kernel_names)
    by (rewrite Hname; left).
  destruct (generate_image_data_point pnoise2 self Hin Hpos)
    as (img & dist_fn & Hdist & Himg & Hpts).
  rewrite Hname in Hdist. injection Hdist as <-.
  exists img. split; [done |]. intros i j Hi Hj.
  destruct (Hpts i j Hi Hj) as (v & Hv & Hv0 & Hall & Hmax).
  exists v. split; [done |].
  assert (Hkernel : ∀ g x y k, g ∈ gaussians self → f_gaussian x y g = Ok k →
            ∃ e, (e <= 0)%R ∧ k = (amp g * exp e)%R
                 ∧ ((x, y) = (g.(gaussian_scene.x), g.(gaussian_scene.y)) →
                    e = 0%R)).
  { intros g x y k Hg. unfold f_gaussian, div.
    destruct (proj1 (Forall_forall _ _) Hpos g Hg) as (Hvar & _).
    rewrite decide_False by lra. cbn [mbind result_bind].
    intros [= <-]. eexists. split; [| split; [reflexivity |]].
    - assert (0 <= ((x - g.(gaussian_scene.x)) ^ 2
                    + (y - g.(gaussian_scene.y)) ^ 2)
                   / (2 * var g))%R as Hq.
      { unfold Rdiv. apply Rmult_le_pos.
        { pose proof (pow2_ge_0 (x - g.(gaussian_scene.x))).
          pose proof (pow2_ge_0 (y - g.(gaussian_scene.y))). lra. }
        left. apply Rinv_0_lt_compat. lra. }
      unfold Rdiv in *. lra.
    - intros [= -> ->]. field. lra. }
  split; [| intros g Hg Hat].
  - split; [done |]. destruct Hmax as [-> | (g & Hg & Hk)]; [done |].
    destruct (Hkernel _ _ _ _ Hg Hk) as (e & He & -> & _).
    pose proof (proj1 (Forall_forall _ _) Hamp g Hg) as Hg_le. cbv beta in Hg_le.
    pose proof (exp_pos e) as Hexp.
    assert (exp e <= 1)%R as Hexp1.
    { rewrite <- exp_0. destruct He as [He | ->]; [| lra].
      left. by apply exp_increasing. }
    destruct (Rle_dec 0 (amp g)); nra.
  - destruct (Hall g Hg) as (k & Hk & Hkv).
    destruct (Hkernel _ _ _ _ Hg Hk) as (e & _ & -> & Hzero).
    rewrite Hzero in Hkv by (symmetry; exact Hat).
    rewrite exp_0 in Hkv. lra.
Qed.

Lemma gaussian_field_bounds_witness :
  distribution_type lone_source_scene = "Gaussian"
  ∧ Forall positive_spread (gaussians lone_source_scene)
  ∧ (0 <= 5)%R ∧ Forall (λ g, amp g <= 5)%R (gaussians lone_source_scene)
  ∧ ∃ img,
      generate_image_data None lone_source_scene = Ok img
      ∧ ∀ i j, (Z.of_nat i < width lone_source_scene * 2)%Z →
               (Z.of_nat j < height lone_source_scene * 2)%Z →
          ∃ v, GetScalarComponentAsDouble img i j = Some v
               ∧ (0 <= v <= 5)%R
               ∧ ∀ g, g ∈ gaussians lone_source_scene →
                   (g.(gaussian_scene.x), g.(gaussian_scene.y))
                   = grid_point lone_source_scene i j →
                   (amp g <= v)%R.
Proof.
  assert (Hpos : Forall positive_spread (gaussians lone_source_scene)).
  { apply Forall_cons. split; [| constructor].
    apply fresh_positive_spread. lra. }
  assert (Hamp : Forall (λ g, amp g <= 5)%R (gaussians lone_source_scene)).
  { apply Forall_cons. split; [cbn; lra | constructor]. }
  assert (H5 : (0 <= 5)%R) by lra.
  split; [reflexivity |]. split; [exact Hpos |]. split; [exact H5 |].
  split; [exact Hamp |].
  exact (gaussian_field_bounds None lone_source_scene 5 eq_refl Hpos H5 Hamp).
Defined.

End life_properties.
